(* ===== verification/_CoqProject ===== *)
-Q . S2P
Prelude.v
Errors.v
Messages.v
Wire.v
ClientId.v
Parser.v
CodecFacts.v
CodecSpec.v
Topic.v
TopicSpec.v
Router.v
RouterFacts.v
RouterSearch.v
RouterAbs.v
RouterDelete.v
RouterSpec.v
RouterTheorems.v
SocketAddr.v
SocketAddrSpec.v
Config.v
ConfigSpec.v
Handshake.v
Client.v
ClientFacts.v
ClientRuntime.v
ClientSpec.v
Metrics.v
Quic.v
QuicFacts.v
QuicSpec.v
Startup.v
Display.v
DevTools.v
Testing.v
TopicTests.v
RouterTests.v
ParserTests.v
ClientTests.v
