(* ===== verification/Prelude.v ===== *)
(** * A verification of the ocypode publish/subscribe server

    Ocypode ([crates/server]) is a message broker.  A client opens a QUIC stream;
    the server sends INFO, the client answers CONNECT, and then frames flow: each
    is a command byte, a 32-bit big-endian length and a protobuf payload.  A
    subscription router maps topic filters with wildcards to subscribers.

    ** The parts and the files that model them

    - [Prelude]: notations, the [result] type with its panics, the slice, string
      and buffer operations of the standard library and of the bytes crate that
      the sources use, hint databases, tactics, generic lemmas.
    - [Errors]: the error enums of [error.rs].
    - [Messages]: the message types of [pubsub.proto] and prost's [Message] trait
      as a class with laws; [Wire]: the proto3 encoding as an instance.
    - [Parser]: [parser.rs], the commands, builders, [ServerCodec] and
      [ClientCodec].  [CodecFacts] specifies one decoder call as a relation and
      the decoding of a stream; [CodecSpec] has the theorems.
    - [Topic]: [topic.rs], validation and segments; [TopicSpec] its theorems.
    - [ClientId]: the identifier counter of [client.rs].
    - [Router]: [router.rs], the trie with [insert], [search] and [delete].
      [RouterFacts] (look-ups, well-formedness, insertion), [RouterSearch]
      (matching, the search loop), [RouterAbs] (the trie as a finite map),
      [RouterDelete] (pruning), [RouterSpec] (the abstract table, the invariant,
      the operations against the table), [RouterTheorems] (the theorems).
    - [SocketAddr]: the parser of socket addresses of the standard library, with
      [SocketAddrSpec], its facts.
    - [Config]: [config.rs], records, defaults, listen addresses and TLS path
      checks; [ConfigSpec] facts about them.
    - [Handshake]: [auth.rs] and [handshake.rs].
    - [Client]: [client.rs], the handshake with its timeout, the dispatch loop,
      the writer task, construction.  [ClientFacts] states the laws of the
      runtime and the outcomes of a session, [ClientRuntime] gives a runtime that
      satisfies them, [ClientSpec] has the theorems.
    - [Quic]: [quic.rs], building the endpoint and the accept loop, whose tasks are
      a state with one operation per event ([handle]); [QuicFacts] has the
      reachable states, their invariant and the measure of running tasks (the
      accept loop, connections, sessions and writers),
      [QuicSpec] the theorems, which compose the loop with the client sessions.
    - [Metrics]: [metrics.rs], the once-only start, the handler, the static metrics.
    - [Startup]: [logger.rs], [grpc.rs] and [main.rs], the start-up sequence on the
      state of the process.
    - [Display]: the texts of errors and identifiers.
    - [DevTools]: [build.rs] and [tools/src/bin/gen_dev_certs.rs], with paths.
    - [Testing], [TopicTests], [RouterTests], [ParserTests], [ClientTests]: the
      repository's unit tests translated and run on the definitions.

    ** How the code is represented

    Bytes are [Byte.byte], integers are [Z] with their ranges and wrap-around
    written out ([u32], [u64], [usize] are synonyms that say what is meant).
    [Result] and panics are one type, [result], so that an index out of range or
    [unwrap] on [None] is visible in a statement.  A buffer that is mutated is
    passed and returned.  A walk along mutable references in the trie is a
    recursion that rebuilds the nodes it passes.  Hash maps are [gmap]s; results
    that depend on their iteration order are stated up to permutation.

    Libraries the sources only call are parameters.  prost, tokio-util's framed
    readers and writers, the tokio channel and timer, the transport, s2n-quic,
    prometheus, rcgen, the file system and the operating system are classes; what
    the code relies on is a class of laws that states their documented behaviour,
    and the theorems that need it are instantiated at [Wire], [ClientRuntime] and
    the sample instances beside their witnesses.  Concurrent tasks are events on a
    shared state, in every order in which they can happen.

    ** Fuel

    The decoders recur on the buffer and need none.  [search_loop] takes one unit
    per popped node; [search] gives it the number of nodes plus one, and
    [search_delivers] shows that it never runs out.  [dispatch_loop], [drain]
    and the writer's loops take one unit per frame or message; the theorems say
    which fuel suffices and that the result is reached.

    ** What the theorems show

    - Codecs: the decoders refine their specification, never panic, make
      progress, buffer less than one maximal frame, do not depend on how the
      stream is split, recover after noise; encoding and decoding round-trip in
      both directions within the size limit; over it, the receiver can be made to
      read a frame that was not sent.
    - Topics: the exact languages of [Topic::new] and [TopicFilter::new], which
      error is returned when, absence of panics.
    - Router: every run of [insert] and [delete] refines a flat table keyed by
      segments and subscription key; the trie invariant; [search] returns exactly
      the matching entries; deleting what was inserted restores the trie; with
      keys not reused while in use, deletion ends delivery and delivery is at
      most once; reusing a key leaks the old subscription.
    - Client: when the handshake completes, how every session ends, that a
      well-behaved client is served, that an unauthenticated one is not, what the
      peer receives; identifiers are unique.

    - Server: when [start] succeeds the endpoint is the configured one; in every
      interleaving clients are distinct and configured alike, every session ends
      as its own bytes determine and every peer receives its INFO message; after
      cancellation the accept loop leaves and all tasks end; clients are served
      only after everything else that is configured is up; the metrics service
      starts once; the development certificates are where the default
      configuration looks for them.
    - Tests: the repository's unit tests pass on the definitions.

    ** Not modelled

    [permission.rs] is a trait without methods, [lib.rs] declares modules, and the
    tests under [crates/server/tests] need real connections.  Log output is left
    out, except for the warnings of the metrics service; so are axum's routing,
    the tonic server and the contents of certificates, which are library code.
    Time is only the outcome of the race between the first frame and the connect
    timeout; on a timeout [perform_handshake] leaves the reader one item on, which
    nothing reads any more.  That a stream is delivered to its end, that it ends at
    all, and that a transport takes what is written are hypotheses on single
    streams ([live], [stream_ends], [writable]), never laws of the library.  Dispatch and delivery do not call the router in the sources, so no
    theorem connects the two; that is what the plan has next once they do. *)
From Stdlib Require Export Strings.Byte.
From stdpp Require Export base tactics numbers strings gmap list.

#[global] Set Warnings "-clear-no-such-hyp".

(** ** Rust values *)

(** [u8] is the type of the 256 bytes; [Bytes], [BytesMut], [Vec<u8>] and
    [&[u8]] are byte sequences.  [u32], [u64], [i32] and [usize] are integers
    whose width is written out where an operation depends on it. *)
Abbreviation u8 := Byte.byte.
Abbreviation bytes := (list Byte.byte).
Abbreviation u32 := Z.
Abbreviation u64 := Z.
Abbreviation i32 := Z.
Abbreviation usize := Z.

Declare Scope ocypode_scope.
Delimit Scope ocypode_scope with ocy.

Local Open Scope Z_scope.

Definition U32_MAX : Z := 2 ^ 32 - 1.
Definition U64_MODULUS : Z := 2 ^ 64.
Definition in_u32 (z : Z) : Prop := 0 <= z < 2 ^ 32.
Definition in_u64 (z : Z) : Prop := 0 <= z < 2 ^ 64.
Definition in_i32 (z : Z) : Prop := - 2 ^ 31 <= z < 2 ^ 31.

(** [slice::len] *)
Definition len {A} (l : list A) : usize := Z.of_nat (length l).

(** A byte string literal [b"..."]. *)
Definition bstr (s : string) : bytes := String.list_byte_of_string s.

#[global] Instance byte_eq_dec : EqDecision u8 := Byte.byte_eq_dec.
#[global] Instance byte_countable : Countable u8.
Proof.
  refine (inj_countable Byte.to_N Byte.of_N _).
  intros x. apply Byte.of_to_N.
Defined.

Definition beq {A} `{EqDecision A} (x y : A) : bool := bool_decide (x = y).
Notation "x =b y" := (beq x y) (at level 70) : ocypode_scope.
Open Scope ocypode_scope.

(** ** Results and panics *)

(** [Ok] and [Err] are Rust's [Result]; [Panic] is an evaluation that unwinds
    (an index out of range, [unwrap] on [None], [advance] past the end). *)
Inductive result (E A : Type) : Type :=
| Ok (a : A)
| Err (e : E)
| Panic.
Arguments Ok {E A} _.
Arguments Err {E A} _.
Arguments Panic {E A}.

#[global] Instance result_ret E : MRet (result E) := fun A a => Ok a.
#[global] Instance result_bind E : MBind (result E) := fun A B f m =>
  match m with Ok a => f a | Err e => Err e | Panic => Panic end.
#[global] Instance result_fmap E : FMap (result E) := fun A B f m =>
  match m with Ok a => Ok (f a) | Err e => Err e | Panic => Panic end.

(** [Result::map_err]; with an error constructor it is also the conversion
    the [?] operator applies. *)
Definition map_err {E F A} (f : E -> F) (m : result E A) : result F A :=
  match m with Ok a => Ok a | Err e => Err (f e) | Panic => Panic end.

(** [Option::unwrap]; indexing [l[i]], where the index may also come from a
    subtraction that went below zero; and the slice [&l[1..]]. *)
Definition unwrap {E A} (o : option A) : result E A :=
  match o with Some a => Ok a | None => Panic end.
Definition index {E A} (l : list A) (i : usize) : result E A :=
  if i <? 0 then Panic else unwrap (l !! Z.to_nat i).
Definition slice_from_1 {E A} (l : list A) : result E (list A) :=
  match l with [] => Panic | _ :: l' => Ok l' end.

(** [Result::unwrap] and [Result::expect]: an error panics. *)
Definition expect {E A} (m : result E A) : result Empty_set A :=
  match m with Ok x => Ok x | _ => Panic end.

(** [slice::is_empty] and [slice::contains]. *)
Definition is_empty {A} (l : list A) : bool :=
  match l with [] => true | _ => false end.
Definition contains {A} `{EqDecision A} (l : list A) (x : A) : bool :=
  bool_decide (x ∈ l).

(** [Iterator::try_for_each] over a list, stopping at the first error. *)
Fixpoint try_for_each {E A} (f : A -> result E unit) (l : list A)
  : result E unit :=
  match l with
  | [] => Ok tt
  | x :: l' => _ ← f x; try_for_each f l'
  end.

(** ** Slices *)

(** [slice::split]: the pieces between the elements that satisfy [p]; there is
    always at least one piece. *)
Fixpoint split_on {A} (p : A -> bool) (l : list A) : list (list A) :=
  match l with
  | [] => [[]]
  | x :: l' =>
      if p x then [] :: split_on p l'
      else match split_on p l' with
           | [] => [[x]]
           | s :: ss => (x :: s) :: ss
           end
  end.

(** The inverse of splitting: the pieces with [sep] between them. *)
Fixpoint join_sep {A} (sep : A) (ss : list (list A)) : list A :=
  match ss with
  | [] => []
  | [s] => s
  | s :: ss' => s ++ sep :: join_sep sep ss'
  end.

(** [Iterator::position]. *)
Fixpoint position {A} (p : A -> bool) (l : list A) : option nat :=
  match l with
  | [] => None
  | x :: l' => if p x then Some 0%nat else S <$> position p l'
  end.

(** [Iterator::find]. *)
Fixpoint find_first {A} (p : A -> bool) (l : list A) : option A :=
  match l with
  | [] => None
  | x :: l' => if p x then Some x else find_first p l'
  end.

(** ** Bytes and big-endian integers *)

Definition byte_Z (x : u8) : Z := Z.of_N (Byte.to_N x).
(** Truncation to eight bits, [z as u8]. *)
Definition Z_byte (z : Z) : u8 :=
  default Byte.x00 (Byte.of_N (Z.to_N (Z.land z 255))).

(** [BufMut::put_u32]: four bytes, most significant first. *)
Definition put_u32 (v : u32) : bytes :=
  [Z_byte (Z.shiftr v 24); Z_byte (Z.shiftr v 16);
   Z_byte (Z.shiftr v 8); Z_byte v].

(** [Buf::get_u8] and [Buf::get_u32] on a slice: the value and the rest; they
    panic on a slice that is too short. *)
Definition get_u8 {E} (buf : bytes) : result E (u8 * bytes) :=
  match buf with x :: rest => Ok (x, rest) | _ => Panic end.
Definition get_u32 {E} (buf : bytes) : result E (u32 * bytes) :=
  match buf with
  | b3 :: b2 :: b1 :: b0 :: rest =>
      Ok (Z.lor (Z.shiftl (byte_Z b3) 24)
           (Z.lor (Z.shiftl (byte_Z b2) 16)
             (Z.lor (Z.shiftl (byte_Z b1) 8) (byte_Z b0))), rest)
  | _ => Panic
  end.

(** [BytesMut::advance] drops the first [n] bytes; [BytesMut::split_to] also
    returns them.  Both panic when [n] is more than the length. *)
Definition advance {E} (n : usize) (buf : bytes) : result E bytes :=
  if n <=? len buf then Ok (drop (Z.to_nat n) buf) else Panic.
Definition split_to {E} (n : usize) (buf : bytes) : result E (bytes * bytes) :=
  if n <=? len buf then Ok (take (Z.to_nat n) buf, drop (Z.to_nat n) buf)
  else Panic.

(** ** Automation *)

Lemma beq_true {A} `{EqDecision A} (x y : A) : (x =b y) = true ↔ x = y.
Proof. apply bool_decide_eq_true. Qed.
Lemma beq_false {A} `{EqDecision A} (x y : A) : (x =b y) = false ↔ x ≠ y.
Proof. apply bool_decide_eq_false. Qed.
Lemma beq_spec {A} `{EqDecision A} (x y : A) : reflect (x = y) (x =b y).
Proof. apply bool_decide_reflect. Qed.
Lemma beq_refl {A} `{EqDecision A} (x : A) : (x =b x) = true.
Proof. by apply beq_true. Qed.

(** [ocypode] holds the closing lemmas, [ocypode_rw] the rewriting rules of the
    shared operations. *)
Create HintDb ocypode discriminated.
Create Rewrite HintDb ocypode_rw.

(** Evaluate the monadic plumbing of [result]. *)
Ltac res_simpl :=
  cbn [mret mbind fmap result_ret result_bind result_fmap map_err unwrap] in *.

(** Split on the [match]es of an equation [m = Ok _] (or [Err _]) and keep the
    branches that can produce it. *)
Ltac res_inv :=
  repeat (res_simpl; simplify_eq; try discriminate; try case_match);
  res_simpl; simplify_eq.

(** Turn the boolean tests of the code into propositions. *)
Ltac bool_prop :=
  repeat match goal with
  | H : beq _ _ = true |- _ => apply (proj1 (beq_true _ _)) in H
  | H : beq _ _ = false |- _ => apply (proj1 (beq_false _ _)) in H
  | H : bool_decide _ = true |- _ => apply bool_decide_eq_true in H
  | H : bool_decide _ = false |- _ => apply bool_decide_eq_false in H
  | H : Z.leb _ _ = true |- _ => apply Z.leb_le in H
  | H : Z.leb _ _ = false |- _ => apply Z.leb_gt in H
  | H : Z.ltb _ _ = true |- _ => apply Z.ltb_lt in H
  | H : Z.ltb _ _ = false |- _ => apply Z.ltb_ge in H
  | H : Z.eqb _ _ = true |- _ => apply Z.eqb_eq in H
  | H : Z.eqb _ _ = false |- _ => apply Z.eqb_neq in H
  | H : Nat.eqb _ _ = true |- _ => apply Nat.eqb_eq in H
  | H : Nat.eqb _ _ = false |- _ => apply Nat.eqb_neq in H
  | H : (_ || _)%bool = false |- _ => apply orb_false_iff in H as [? ?]
  | H : (_ || _)%bool = true |- _ => apply orb_true_iff in H
  | H : (_ && _)%bool = true |- _ => apply andb_true_iff in H as [? ?]
  | H : negb _ = true |- _ => apply negb_true_iff in H
  | H : negb _ = false |- _ => apply negb_false_iff in H
  end.

(** ** Lemmas on lengths, tests and results *)

#[export] Hint Rewrite @beq_refl : ocypode_rw.

Lemma len_nonneg {A} (l : list A) : 0 <= len l.
Proof. unfold len. lia. Qed.
Lemma len_app {A} (l k : list A) : len (l ++ k) = len l + len k.
Proof. unfold len. rewrite length_app. lia. Qed.
Lemma len_cons {A} (x : A) l : len (x :: l) = 1 + len l.
Proof. unfold len. simpl. lia. Qed.
Lemma len_nil {A} : len (@nil A) = 0.
Proof. done. Qed.
Lemma len_zero {A} (l : list A) : len l = 0 → l = [].
Proof. unfold len. destruct l; simpl; [done|lia]. Qed.
#[export] Hint Rewrite @len_app @len_cons @len_nil : ocypode_rw.
#[export] Hint Resolve len_nonneg : ocypode.

(** Arithmetic about lengths of concatenations. *)
Ltac len_lia :=
  autorewrite with ocypode_rw in *;
  repeat match goal with
  | |- context [len ?l] =>
      lazymatch goal with
      | _ : 0 <= len l |- _ => fail
      | _ => pose proof (len_nonneg l)
      end
  | _ : context [len ?l] |- _ =>
      lazymatch goal with
      | _ : 0 <= len l |- _ => fail
      | _ => pose proof (len_nonneg l)
      end
  end; lia.

Lemma take_len_app {A} (l k : list A) : take (Z.to_nat (len l)) (l ++ k) = l.
Proof. unfold len. rewrite Nat2Z.id. apply take_app_length. Qed.
Lemma drop_len_app {A} (l k : list A) : drop (Z.to_nat (len l)) (l ++ k) = k.
Proof. unfold len. rewrite Nat2Z.id. apply drop_app_length. Qed.

Lemma split_to_app {E} (l k : bytes) :
  split_to (E:=E) (len l) (l ++ k) = Ok (l, k).
Proof.
  unfold split_to. rewrite take_len_app, drop_len_app, len_app.
  destruct (Z.leb_spec (len l) (len l + len k)); [done|len_lia].
Qed.

(** [split_to] cuts the buffer where it says. *)
Lemma split_to_Ok {E} n (buf l k : bytes) :
  0 <= n → split_to (E:=E) n buf = Ok (l, k) → buf = l ++ k ∧ len l = n.
Proof.
  unfold split_to. intros Hn. case_match; intros; simplify_eq.
  bool_prop. rewrite take_drop. split; [done|].
  unfold len in *. rewrite length_take. lia.
Qed.

Lemma split_to_enough {E} n (buf : bytes) :
  0 <= n → n <= len buf →
  ∃ l k, split_to (E:=E) n buf = Ok (l, k) ∧ buf = l ++ k ∧ len l = n.
Proof.
  intros. destruct (split_to (E:=E) n buf) as [[l k]| |] eqn:Hs.
  - exists l, k. split; [done|]. by eapply split_to_Ok.
  - unfold split_to in Hs. by case_match.
  - unfold split_to in Hs. case_match; [done|]. bool_prop. lia.
Qed.

Lemma try_for_each_Ok {E A} (f : A -> result E unit) (l : list A) :
  try_for_each f l = Ok tt ↔ Forall (λ x, f x = Ok tt) l.
Proof.
  induction l as [|x l IH]; simpl; [split; auto|].
  rewrite Forall_cons, <-IH.
  destruct (f x) as [[]| |]; simpl; intuition congruence.
Qed.

(** The error of [try_for_each] is that of the first element that fails. *)
Lemma try_for_each_Err {E A} (f : A -> result E unit) (l : list A) e :
  try_for_each f l = Err e ↔
  ∃ l1 x l2, l = l1 ++ x :: l2 ∧ Forall (λ y, f y = Ok tt) l1 ∧ f x = Err e.
Proof.
  induction l as [|x l IH]; simpl.
  - split; [done|]. by intros ([]&?&?&?&_).
  - split.
    + destruct (f x) as [[]|e'|] eqn:Hf; simpl; [|intros; simplify_eq|done].
      * rewrite IH. intros (l1&y&l2&->&?&?).
        exists (x :: l1), y, l2. repeat split; auto.
      * exists [], x, l. auto.
    + intros ([|y l1]&z&l2&Heq&Hall&Hz); simplify_eq/=; [by rewrite Hz|].
      apply Forall_cons in Hall as [-> Hall]. simpl. apply IH. eauto 8.
Qed.

(** ** Lemmas on byte strings and on splitting *)

Lemma bstr_app s t : bstr (s +:+ t) = bstr s ++ bstr t.
Proof.
  unfold bstr. induction s as [|c s IH]; [done|].
  change (String.list_byte_of_string (String c s +:+ t))
    with (Ascii.byte_of_ascii c :: String.list_byte_of_string (s +:+ t)).
  by rewrite IH.
Qed.

Section split_on.
Context {A : Type} (p : A -> bool).

Lemma split_on_not_nil l : split_on p l ≠ [].
Proof.
  destruct l as [|x l]; simpl; [done|].
  destruct (p x); [done|]. by destruct (split_on p l).
Qed.

(** The first piece is always there. *)
Lemma split_on_cons l : ∃ s ss, split_on p l = s :: ss.
Proof.
  destruct (split_on p l) as [|s ss] eqn:H; [|by eauto].
  by apply split_on_not_nil in H.
Qed.

(** No piece contains a separator. *)
Lemma split_on_no_sep l : Forall (Forall (λ x, p x = false)) (split_on p l).
Proof.
  induction l as [|x l IH]; simpl; [auto|].
  destruct (p x) eqn:Hp; [auto|].
  destruct (split_on p l) as [|s ss]; [auto|].
  apply Forall_cons in IH as [??]. auto.
Qed.

Lemma split_on_app_piece s l :
  Forall (λ x, p x = false) s →
  ∃ t ts, split_on p l = t :: ts ∧ split_on p (s ++ l) = (s ++ t) :: ts.
Proof.
  destruct (split_on_cons l) as (t&ts&Ht). intros Hs. exists t, ts.
  split; [done|]. induction Hs as [|x s Hx Hs IH]; simpl; [done|].
  by rewrite Hx, IH.
Qed.

(** A separator cuts the pieces in two. *)
Lemma split_on_app_sep l x r :
  p x = true → split_on p (l ++ x :: r) = split_on p l ++ split_on p r.
Proof.
  intros Hx. induction l as [|y l IH]; simpl; [by rewrite Hx|].
  rewrite IH. destruct (p y); [done|].
  by destruct (split_on_cons l) as (s&ss&->).
Qed.
End split_on.

Lemma join_sep_cons {A} (sep : A) s ss :
  ss ≠ [] → join_sep sep (s :: ss) = s ++ sep :: join_sep sep ss.
Proof. by destruct ss. Qed.

(** Joining the pieces with the separator gives the slice back. *)
Lemma join_sep_split_on {A} `{EqDecision A} (sep : A) l :
  join_sep sep (split_on (λ x, x =b sep) l) = l.
Proof.
  induction l as [|x l IH]; [done|].
  cbn [split_on]. destruct (split_on_cons (λ x, x =b sep) l) as (s&ss&Hs).
  destruct (x =b sep) eqn:Hx.
  - apply beq_true in Hx as ->. rewrite join_sep_cons, IH; [done|].
    apply split_on_not_nil.
  - rewrite Hs in *. destruct ss; simpl in *; by rewrite IH.
Qed.

Lemma join_sep_app {A} (sep : A) ss ts :
  ss ≠ [] → ts ≠ [] → join_sep sep (ss ++ ts) = join_sep sep ss ++ sep :: join_sep sep ts.
Proof.
  intros Hs Ht. induction ss as [|s ss IH]; [done|].
  destruct ss as [|s' ss]; [by destruct ts|].
  cbn [app]. rewrite !join_sep_cons by done. cbn [app] in IH.
  rewrite IH, (join_sep_cons _ s (s' :: ss)) by done. by rewrite <-app_assoc.
Qed.

(** And the pieces of a join are the pieces that were joined. *)
Lemma split_on_join_sep {A} `{EqDecision A} (sep : A) ss :
  ss ≠ [] → Forall (Forall (λ x, x ≠ sep)) ss →
  split_on (λ x, x =b sep) (join_sep sep ss) = ss.
Proof.
  assert (Hsep : ∀ s : list A, Forall (λ x, x ≠ sep) s →
    Forall (λ x, (x =b sep) = false) s).
  { intros s Hs. eapply Forall_impl; [exact Hs|]. intros x. apply beq_false. }
  intros Hne Hall. induction Hall as [|s ss Hs Hall IH]; [done|].
  destruct (decide (ss = [])) as [->|Hss].
  - destruct (split_on_app_piece (λ x, x =b sep) s []) as (t&ts&Ht&Heq); auto.
    rewrite app_nil_r in Heq. simpl in *. simplify_eq/=.
    by rewrite Heq, app_nil_r.
  - rewrite join_sep_cons by done.
    destruct (split_on_app_piece (λ x, x =b sep) s (sep :: join_sep sep ss))
      as (t&ts&Ht&->); auto.
    cbn [split_on] in Ht. rewrite beq_refl, IH in Ht by done.
    simplify_eq. by rewrite app_nil_r.
Qed.

(** ** Lemmas on searching *)

Lemma position_Some {A} (p : A -> bool) l i :
  position p l = Some i →
  ∃ x, l !! i = Some x ∧ p x = true ∧
       ∀ j y, (j < i)%nat → l !! j = Some y → p y = false.
Proof.
  revert i. induction l as [|x l IH]; intros i; simpl; [done|].
  destruct (p x) eqn:Hp; intros; simplify_eq.
  - exists x. split_and!; auto. intros j. lia.
  - destruct (position p l) as [k|]; simplify_eq/=.
    destruct (IH k eq_refl) as (y&?&?&Hlt). exists y. split_and!; auto.
    intros [|j] z Hj Hz; simplify_eq/=; [done|]. eapply Hlt; eauto. lia.
Qed.

Lemma position_None {A} (p : A -> bool) l :
  position p l = None ↔ Forall (λ x, p x = false) l.
Proof.
  induction l as [|x l IH]; simpl; [split; auto|].
  rewrite Forall_cons, <-IH. destruct (p x), (position p l);
    simpl; intuition congruence.
Qed.

Lemma find_first_Some {A} (p : A -> bool) l x :
  find_first p l = Some x → x ∈ l ∧ p x = true.
Proof.
  induction l as [|y l IH]; simpl; [done|].
  destruct (p y) eqn:Hp; intros; simplify_eq; [by split; [left|]|].
  destruct IH; auto. split; [by right|done].
Qed.

Lemma find_first_None {A} (p : A -> bool) l :
  find_first p l = None ↔ Forall (λ x, p x = false) l.
Proof.
  induction l as [|x l IH]; simpl; [split; auto|].
  rewrite Forall_cons, <-IH. destruct (p x); intuition congruence.
Qed.

(** ** Lemmas on big-endian integers *)

Lemma byte_Z_range x : 0 <= byte_Z x < 256.
Proof. unfold byte_Z. pose proof (Byte.to_N_bounded x). lia. Qed.

Lemma byte_Z_byte z : byte_Z (Z_byte z) = z `mod` 256.
Proof.
  unfold byte_Z, Z_byte. change 255 with (Z.ones 8).
  rewrite Z.land_ones by lia. change (2 ^ 8) with 256.
  pose proof (Z.mod_pos_bound z 256 ltac:(lia)) as Hb.
  destruct (Byte.of_N (Z.to_N (z `mod` 256))) as [y|] eqn:Hy; simpl.
  - apply Byte.to_of_N in Hy. rewrite Hy. lia.
  - apply Byte.of_N_None_iff in Hy. lia.
Qed.

Lemma Z_byte_Z x : Z_byte (byte_Z x) = x.
Proof.
  unfold Z_byte. change 255 with (Z.ones 8). rewrite Z.land_ones by lia.
  pose proof (byte_Z_range x). change (2 ^ 8) with 256.
  rewrite Z.mod_small by lia. unfold byte_Z.
  by rewrite N2Z.id, Byte.of_to_N.
Qed.

(** Gluing low bits under a shifted number is addition. *)
Lemma lor_shiftl_add a c n :
  0 <= n → 0 <= c < 2 ^ n → Z.lor (Z.shiftl a n) c = a * 2 ^ n + c.
Proof.
  intros Hn Hc. rewrite <-Z.shiftl_mul_pow2 by lia.
  rewrite Z.add_nocarry_lxor, Z.lxor_lor; [done|..];
    apply Z.bits_inj'; intros i Hi; rewrite Z.land_spec, Z.bits_0;
    (destruct (Z.ltb_spec i n); [by rewrite Z.shiftl_spec_low|]);
    rewrite <-(Z.mod_small c (2 ^ n)), Z.mod_pow2_bits_high, andb_false_r;
    try done; lia.
Qed.

(** [get_u32] as arithmetic. *)
Lemma get_u32_arith {E} b3 b2 b1 b0 rest :
  get_u32 (E:=E) (b3 :: b2 :: b1 :: b0 :: rest) =
  Ok (byte_Z b3 * 2 ^ 24 + byte_Z b2 * 2 ^ 16 + byte_Z b1 * 2 ^ 8 + byte_Z b0,
      rest).
Proof.
  pose proof (byte_Z_range b3). pose proof (byte_Z_range b2).
  pose proof (byte_Z_range b1). pose proof (byte_Z_range b0).
  unfold get_u32. do 2 f_equal.
  rewrite (lor_shiftl_add (byte_Z b1)), (lor_shiftl_add (byte_Z b2)),
    (lor_shiftl_add (byte_Z b3)) by lia. lia.
Qed.

Lemma get_u32_range {E} buf v rest :
  get_u32 (E:=E) buf = Ok (v, rest) → in_u32 v.
Proof.
  destruct buf as [|b3 [|b2 [|b1 [|b0 buf]]]]; [done..|].
  rewrite get_u32_arith. intros; simplify_eq. unfold in_u32.
  pose proof (byte_Z_range b3). pose proof (byte_Z_range b2).
  pose proof (byte_Z_range b1). pose proof (byte_Z_range b0). lia.
Qed.

(** What [put_u32] writes, [get_u32] reads back. *)
Lemma get_put_u32 {E} v rest :
  in_u32 v → get_u32 (E:=E) (put_u32 v ++ rest) = Ok (v, rest).
Proof.
  unfold in_u32. intros Hv. unfold put_u32. cbn [app].
  rewrite get_u32_arith, !byte_Z_byte, !Z.shiftr_div_pow2 by lia.
  do 2 f_equal. change (2 ^ 32) with 4294967296 in *.
  change (2 ^ 24) with 16777216. change (2 ^ 16) with 65536.
  change (2 ^ 8) with 256.
  pose proof (Z.div_mod v 256 ltac:(lia)).
  pose proof (Z.div_mod (v / 256) 256 ltac:(lia)) as H1.
  pose proof (Z.div_mod (v / 65536) 256 ltac:(lia)) as H2.
  rewrite (Z.div_div v 256 256) in H1 by lia.
  rewrite (Z.div_div v 65536 256) in H2 by lia.
  change (256 * 256) with 65536 in *. change (65536 * 256) with 16777216 in *.
  rewrite (Z.mod_small (v / 16777216) 256); [lia|].
  split; [apply Z.div_pos; lia|apply Z.div_lt_upper_bound; lia].
Qed.

(** The four bytes determine the value: reading then writing is the identity. *)
Lemma put_get_u32 {E} buf v rest :
  get_u32 (E:=E) buf = Ok (v, rest) → buf = put_u32 v ++ rest.
Proof.
  destruct buf as [|b3 [|b2 [|b1 [|b0 buf]]]]; [done..|]. intros Hget.
  rewrite get_u32_arith in Hget. simplify_eq.
  pose proof (byte_Z_range b3). pose proof (byte_Z_range b2).
  pose proof (byte_Z_range b1). pose proof (byte_Z_range b0).
  set (v := _ + _). unfold put_u32. cbn [app].
  assert (Hbyte : ∀ x n q, 0 <= n → v = (256 * q + byte_Z x) * 2 ^ n +
            v `mod` 2 ^ n → Z_byte (Z.shiftr v n) = x).
  { intros x n q Hn Hx. rewrite <-(Z_byte_Z x).
    unfold Z_byte. do 3 f_equal. rewrite !(Z.land_ones _ 8) by lia.
    rewrite Z.shiftr_div_pow2 by lia.
    pose proof (Z.pow_pos_nonneg 2 n ltac:(lia) Hn).
    pose proof (Z.div_mod v (2 ^ n) ltac:(lia)).
    assert (v / 2 ^ n = 256 * q + byte_Z x) as -> by nia.
    change (2 ^ 8) with 256. rewrite Z.add_comm, Z.mul_comm, Z.mod_add by lia.
    done. }
  f_equal; [|f_equal; [|f_equal; [|f_equal]]]; symmetry.
  - apply (Hbyte b3 24 0); [lia|]. subst v. change (2 ^ 8) with 256.
    rewrite <-(Z.mod_unique_pos _ (2 ^ 24) (byte_Z b3)
      (byte_Z b2 * 2 ^ 16 + byte_Z b1 * 2 ^ 8 + byte_Z b0)); lia.
  - apply (Hbyte b2 16 (byte_Z b3)); [lia|]. subst v.
    rewrite <-(Z.mod_unique_pos _ (2 ^ 16) (byte_Z b3 * 2 ^ 8 + byte_Z b2)
      (byte_Z b1 * 2 ^ 8 + byte_Z b0)); lia.
  - apply (Hbyte b1 8 (byte_Z b3 * 256 + byte_Z b2)); [lia|]. subst v.
    rewrite <-(Z.mod_unique_pos _ (2 ^ 8)
      (byte_Z b3 * 2 ^ 16 + byte_Z b2 * 2 ^ 8 + byte_Z b1) (byte_Z b0)); lia.
  - rewrite <-(Z.shiftr_0_r v).
    apply (Hbyte b0 0 (byte_Z b3 * 2 ^ 16 + byte_Z b2 * 2 ^ 8 + byte_Z b1));
      [lia|]. rewrite Z.mod_1_r. subst v. lia.
Qed.

Lemma len_put_u32 v : len (put_u32 v) = 4.
Proof. done. Qed.
#[export] Hint Rewrite len_put_u32 : ocypode_rw.

(** ** UTF-8 *)

(** [std::str::from_utf8] accepts exactly the sequences of Unicode scalar
    values in their shortest form. *)
Definition in_range (lo hi : Z) (x : u8) : bool :=
  (lo <=? byte_Z x) && (byte_Z x <=? hi).
Definition utf8_cont : u8 -> bool := in_range 0x80 0xBF.

Definition utf8_second3 (b0 b1 : u8) : bool :=
  in_range 0xE0 0xE0 b0 && in_range 0xA0 0xBF b1
  || in_range 0xE1 0xEC b0 && utf8_cont b1
  || in_range 0xED 0xED b0 && in_range 0x80 0x9F b1
  || in_range 0xEE 0xEF b0 && utf8_cont b1.
Definition utf8_second4 (b0 b1 : u8) : bool :=
  in_range 0xF0 0xF0 b0 && in_range 0x90 0xBF b1
  || in_range 0xF1 0xF3 b0 && utf8_cont b1
  || in_range 0xF4 0xF4 b0 && in_range 0x80 0x8F b1.

Fixpoint valid_utf8 (l : bytes) : bool :=
  match l with
  | [] => true
  | b0 :: r0 =>
      if in_range 0x00 0x7F b0 then valid_utf8 r0
      else match r0 with
      | [] => false
      | b1 :: r1 =>
          if in_range 0xC2 0xDF b0 then utf8_cont b1 && valid_utf8 r1
          else match r1 with
          | [] => false
          | b2 :: r2 =>
              if utf8_second3 b0 b1 then utf8_cont b2 && valid_utf8 r2
              else match r2 with
              | [] => false
              | b3 :: r3 =>
                  utf8_second4 b0 b1 && utf8_cont b2 && utf8_cont b3 &&
                  valid_utf8 r3
              end
          end
      end
  end.

(** A Rust [String] is a byte sequence that is valid UTF-8. *)
Definition string_ok (s : string) : Prop := valid_utf8 (bstr s) = true.
