(* ===== verification/Errors.v ===== *)
(** The error types of [crates/server/src/error.rs].

    The errors of prost and of the operating system are opaque values of types
    declared by those libraries: [ExternalErrors] names the types. *)
From S2P Require Import Prelude.

Class ExternalErrors := {
  EncodeError : Type;   (** [prost::EncodeError] *)
  DecodeError : Type;   (** [prost::DecodeError] *)
  IoError : Type;       (** [std::io::Error] *)
}.

Module TopicError.
Inductive TopicError : Type :=
| Empty
| TooLong (len : usize)
| LeadingSlash
| TrailingSlash
| EmptyLayer
| TooManyLayers (count : usize)
| ReservedSysPrefix
| GlobalPrefixWithoutTopic
| WildcardInPublishTopic
| MultiWildcardNotTerminal
| InvalidWildcardUsage.

#[export] Instance TopicError_eq_dec : EqDecision TopicError.
Proof. solve_decision. Defined.
End TopicError.

Module CodecError.
Inductive CodecError `{ExternalErrors} : Type :=
| Error
| InvalidCommand
| Encode (e : EncodeError)
| Decode (e : DecodeError)
| InvalidSizeBytes (n : usize)
| InvalidVersion (s : string).
End CodecError.

Module ServerCodecError.
Inductive ServerCodecError `{ExternalErrors} : Type :=
| Codec (e : CodecError.CodecError)
| Io (e : IoError).
End ServerCodecError.

Module ClientCodecError.
Inductive ClientCodecError `{ExternalErrors} : Type :=
| Codec (e : CodecError.CodecError)
| Io (e : IoError).
End ClientCodecError.
