(* ===== verification/Messages.v ===== *)
(** The protocol messages of [proto/ocypode/pubsub/v1/pubsub.proto] as the
    structures prost generates for [parser.rs] ([pb::Info], [pb::Connect], ...),
    and the interface of prost's [Message] trait the codecs rely on.

    The generated encoders and decoders are not part of the repository: they
    are the operations of the class [Message], and what the codecs need of them
    is the class [MessageLaws]. *)
From S2P Require Import Prelude Errors.
Local Open Scope Z_scope.

Module pb.
(** [pb::AuthMethod]; the field that holds it is an [i32]. *)
Inductive AuthMethod : Type := NoAuth | Password.
Definition AuthMethod_i32 (m : AuthMethod) : i32 :=
  match m with NoAuth => 0 | Password => 1 end.

Record Info : Type := mkInfo {
  info_version : u32;
  info_server_id : string;
  info_server_name : string;
  info_max_payload : u32;
  info_client_id : u64;
  info_requires_auth : bool;
  info_tls_verify : bool;
}.

Record PasswordAuth : Type := mkPasswordAuth {
  username : string;
  password : string;
}.

(** The [oneof credentials] of [Connect]. *)
Inductive Credentials : Type := Credentials_PasswordAuth (p : PasswordAuth).

Record Connect : Type := mkConnect {
  connect_version : u32;
  connect_verbose : bool;
  connect_auth_method : i32;
  connect_credentials : option Credentials;
}.

Record Publish : Type := mkPublish {
  publish_topic : bytes;
  publish_payload : bytes;
  publish_header : bytes;
}.

Record Subscribe : Type := mkSubscribe {
  subscribe_topic : bytes;
  subscribe_subscription_id : u32;
  subscribe_queue_group : string;
}.

Record UnSubscribe : Type := mkUnSubscribe {
  unsubscribe_subscription_id : u32;
}.

Record Message : Type := mkMessage {
  message_topic : bytes;
  message_subscription_id : u32;
  message_payload : bytes;
  message_header : bytes;
}.
End pb.

(** ** prost's [Message] trait *)

(** [prost_encode m] is [m.encode(&mut Vec::new())], with the bytes written;
    [prost_decode b] is [M::decode(b)]. *)
Class Message `{ExternalErrors} (M : Type) := {
  prost_encode : M -> result EncodeError bytes;
  prost_decode : bytes -> result DecodeError M;
}.

(** [well_typed m]: the fields of [m] are values of their Rust types. *)
Class WellTyped (M : Type) := well_typed : M -> Prop.

#[export] Instance Info_well_typed : WellTyped pb.Info := fun m =>
  in_u32 (pb.info_version m) ∧ string_ok (pb.info_server_id m) ∧
  string_ok (pb.info_server_name m) ∧ in_u32 (pb.info_max_payload m) ∧
  in_u64 (pb.info_client_id m).
#[export] Instance Connect_well_typed : WellTyped pb.Connect := fun m =>
  in_u32 (pb.connect_version m) ∧ in_i32 (pb.connect_auth_method m) ∧
  match pb.connect_credentials m with
  | Some (pb.Credentials_PasswordAuth p) =>
      string_ok (pb.username p) ∧ string_ok (pb.password p)
  | None => True
  end.
#[export] Instance Publish_well_typed : WellTyped pb.Publish := fun _ => True.
#[export] Instance Subscribe_well_typed : WellTyped pb.Subscribe := fun m =>
  in_u32 (pb.subscribe_subscription_id m) ∧
  string_ok (pb.subscribe_queue_group m).
#[export] Instance UnSubscribe_well_typed : WellTyped pb.UnSubscribe := fun m =>
  in_u32 (pb.unsubscribe_subscription_id m).
#[export] Instance Message_well_typed : WellTyped pb.Message := fun m =>
  in_u32 (pb.message_subscription_id m).

(** What prost documents of the trait: encoding into a growing buffer does not
    fail, decoding what was encoded gives the message back, and malformed input
    is an error value. *)
Class MessageLaws `{ExternalErrors} (M : Type) `{!Message M, !WellTyped M}
  : Prop := {
  prost_encode_Ok (m : M) : well_typed m → ∃ p, prost_encode m = Ok p;
  prost_decode_encode (m : M) p :
    well_typed m → prost_encode m = Ok p → prost_decode p = Ok m;
  prost_decode_no_panic p : prost_decode (M:=M) p ≠ Panic;
}.

(** The six messages the generated module implements [Message] for. *)
Class Prost `{ExternalErrors} := {
  #[global] prost_Info :: Message pb.Info;
  #[global] prost_Connect :: Message pb.Connect;
  #[global] prost_Publish :: Message pb.Publish;
  #[global] prost_Subscribe :: Message pb.Subscribe;
  #[global] prost_UnSubscribe :: Message pb.UnSubscribe;
  #[global] prost_Message :: Message pb.Message;
}.

Class ProstLaws `{Prost} : Prop := {
  #[global] laws_Info :: MessageLaws pb.Info;
  #[global] laws_Connect :: MessageLaws pb.Connect;
  #[global] laws_Publish :: MessageLaws pb.Publish;
  #[global] laws_Subscribe :: MessageLaws pb.Subscribe;
  #[global] laws_UnSubscribe :: MessageLaws pb.UnSubscribe;
  #[global] laws_Message :: MessageLaws pb.Message;
}.
