(* ===== verification/Wire.v ===== *)
(** A concrete instance of the prost interface of [Messages].

    The codecs are proved for every implementation of [Prost] that satisfies
    [ProstLaws].  This file gives one, so that the laws are known to be
    satisfiable and the theorems can be applied to real bytes: the proto3 wire
    encoding of the messages of [pubsub.proto] (varints, length-delimited
    fields, default values omitted, the last occurrence of a field wins, unknown
    fields ignored).  It is not a model of prost's code. *)
From S2P Require Import Prelude Errors Messages.
Local Open Scope Z_scope.

#[export] Instance wire_errors : ExternalErrors :=
  {| EncodeError := string; DecodeError := string; IoError := string |}.

(** ** Varints *)

Fixpoint put_varint_fuel (fuel : nat) (n : Z) : bytes :=
  match fuel with
  | O => [Z_byte n]
  | S fuel =>
      if n <? 128 then [Z_byte n]
      else Z_byte (128 + n `mod` 128) :: put_varint_fuel fuel (n / 128)
  end.
Definition put_varint (n : Z) : bytes := put_varint_fuel (Z.to_nat (Z.log2 n)) n.

Fixpoint get_varint (buf : bytes) : option (Z * bytes) :=
  match buf with
  | [] => None
  | x :: rest =>
      if byte_Z x <? 128 then Some (byte_Z x, rest)
      else '(n, rest) ← get_varint rest; Some (byte_Z x - 128 + 128 * n, rest)
  end.

Lemma get_put_varint_fuel fuel n rest :
  0 <= n < 2 ^ Z.of_nat (S fuel) →
  get_varint (put_varint_fuel fuel n ++ rest) = Some (n, rest).
Proof.
  revert n. induction fuel as [|fuel IH]; intros n Hn.
  - cbn [put_varint_fuel app get_varint]. change (2 ^ Z.of_nat 1) with 2 in Hn.
    rewrite byte_Z_byte, Z.mod_small by lia.
    by destruct (Z.ltb_spec n 128); [|lia].
  - cbn [put_varint_fuel]. destruct (Z.ltb_spec n 128).
    + cbn [app get_varint]. rewrite byte_Z_byte, Z.mod_small by lia.
      by destruct (Z.ltb_spec n 128); [|lia].
    + cbn [app get_varint].
      pose proof (Z.mod_pos_bound n 128 ltac:(lia)).
      rewrite byte_Z_byte, (Z.mod_small (128 + n `mod` 128)) by lia.
      destruct (Z.ltb_spec (128 + n `mod` 128) 128); [lia|].
      rewrite IH.
      * cbn [mbind option_bind]. do 2 f_equal.
        pose proof (Z.div_mod n 128 ltac:(lia)). lia.
      * rewrite Nat2Z.inj_succ, Z.pow_succ_r in Hn by lia.
        split; [apply Z.div_pos; lia|]. apply Z.div_lt_upper_bound; lia.
Qed.

Lemma get_put_varint n rest :
  0 <= n → get_varint (put_varint n ++ rest) = Some (n, rest).
Proof.
  intros Hn. apply get_put_varint_fuel. split; [done|].
  destruct (Z.eq_dec n 0) as [->|]; [apply Z.pow_pos_nonneg; lia|].
  rewrite Nat2Z.inj_succ, Z2Nat.id by apply Z.log2_nonneg.
  apply Z.log2_spec. lia.
Qed.

(** ** Fields *)

Inductive wire_value : Type :=
| Varint (n : Z)
| Delimited (p : bytes).
Definition wire_field : Type := Z * wire_value.

Definition field_ok (f : wire_field) : Prop :=
  0 <= f.1 ∧ match f.2 with Varint n => 0 <= n | Delimited _ => True end.

Definition put_field (f : wire_field) : bytes :=
  match f.2 with
  | Varint n => put_varint (8 * f.1) ++ put_varint n
  | Delimited p => put_varint (8 * f.1 + 2) ++ put_varint (len p) ++ p
  end.

Definition get_field (buf : bytes) : option (wire_field * bytes) :=
  '(key, rest) ← get_varint buf;
  if key `mod` 8 =? 0 then
    '(n, rest) ← get_varint rest; Some ((key / 8, Varint n), rest)
  else if key `mod` 8 =? 2 then
    '(n, rest) ← get_varint rest;
    if n <=? len rest
    then Some ((key / 8, Delimited (take (Z.to_nat n) rest)),
               drop (Z.to_nat n) rest)
    else None
  else None.

Lemma get_put_field f rest :
  field_ok f → get_field (put_field f ++ rest) = Some (f, rest).
Proof.
  destruct f as [i [n|p]]; unfold field_ok, put_field, get_field;
    cbn [fst snd]; intros [Hi Hv]; rewrite <-!app_assoc, get_put_varint by lia;
    cbn [mbind option_bind].
  - rewrite Z.mul_comm, Z.mod_mul, Z.div_mul by lia. cbn [Z.eqb].
    by rewrite get_put_varint.
  - rewrite (Z.add_comm _ 2), (Z.mul_comm 8), Z.mod_add, Z.div_add by lia.
    change (2 `mod` 8) with 2. change (2 / 8) with 0. cbn [Z.eqb Pos.eqb].
    rewrite get_put_varint by apply len_nonneg. cbn [mbind option_bind].
    destruct (Z.leb_spec (len p) (len (p ++ rest))); [|len_lia].
    by rewrite take_len_app, drop_len_app.
Qed.

Fixpoint get_fields (fuel : nat) (buf : bytes) : option (list wire_field) :=
  match buf, fuel with
  | [], _ => Some []
  | _, O => None
  | _, S fuel =>
      '(f, rest) ← get_field buf; fs ← get_fields fuel rest; Some (f :: fs)
  end.

Definition put_fields (fs : list wire_field) : bytes := concat (map put_field fs).
Definition parse_fields (buf : bytes) : option (list wire_field) :=
  get_fields (length buf) buf.

Lemma put_field_cons f : ∃ x tl, put_field f = x :: tl.
Proof.
  assert (Hv : ∀ n k, ∃ x tl, put_varint n ++ k = x :: tl).
  { intros n k. unfold put_varint. destruct (Z.to_nat (Z.log2 n)); simpl;
      [eauto|]. case_match; simpl; eauto. }
  unfold put_field. destruct f.2; apply Hv.
Qed.

Lemma get_put_fields fuel fs :
  Forall field_ok fs → (length fs <= fuel)%nat →
  get_fields fuel (put_fields fs) = Some fs.
Proof.
  intros Hok. revert fuel. unfold put_fields.
  induction Hok as [|f fs Hf _ IH]; intros fuel Hl; [by destruct fuel|].
  destruct fuel as [|fuel]; simpl in Hl; [lia|]. cbn [map concat].
  destruct (put_field_cons f) as (x&tl&Hx). rewrite Hx. cbn [app get_fields].
  change (x :: tl ++ concat (map put_field fs))
    with ((x :: tl) ++ concat (map put_field fs)).
  rewrite <-Hx, get_put_field by done. cbn [mbind option_bind].
  by rewrite IH by lia.
Qed.

Lemma length_put_fields fs : (length fs <= length (put_fields fs))%nat.
Proof.
  unfold put_fields. induction fs as [|f fs IH]; simpl; [lia|].
  destruct (put_field_cons f) as (x&tl&->). rewrite length_app. simpl. lia.
Qed.

Lemma parse_put_fields fs :
  Forall field_ok fs → parse_fields (put_fields fs) = Some fs.
Proof. intros. apply get_put_fields; [done|]. apply length_put_fields. Qed.

(** ** Messages as field lists *)

Definition varint_field (i v : Z) : list wire_field :=
  if v =? 0 then [] else [(i, Varint v)].
Definition bool_field (i : Z) (v : bool) : list wire_field :=
  if v then [(i, Varint 1)] else [].
Definition bytes_field (i : Z) (p : bytes) : list wire_field :=
  match p with [] => [] | _ => [(i, Delimited p)] end.

Fixpoint last_value (i : Z) (fs : list wire_field) : option wire_value :=
  match fs with
  | [] => None
  | (j, v) :: fs =>
      match last_value i fs with
      | Some w => Some w
      | None => if i =? j then Some v else None
      end
  end.

Definition varint_at (i : Z) (fs : list wire_field) : option Z :=
  match last_value i fs with
  | None => Some 0
  | Some (Varint n) => Some n
  | Some (Delimited _) => None
  end.
Definition u32_at (i : Z) (fs : list wire_field) : option Z :=
  (λ n, n `mod` 2 ^ 32) <$> varint_at i fs.
Definition u64_at (i : Z) (fs : list wire_field) : option Z :=
  (λ n, n `mod` 2 ^ 64) <$> varint_at i fs.
(** An [i32] is sent as its sixty-four bit two's complement. *)
Definition i32_at (i : Z) (fs : list wire_field) : option Z :=
  (λ n, (n + 2 ^ 31) `mod` 2 ^ 32 - 2 ^ 31) <$> varint_at i fs.
Definition bool_at (i : Z) (fs : list wire_field) : option bool :=
  (λ n, negb (n =? 0)) <$> varint_at i fs.
Definition bytes_at (i : Z) (fs : list wire_field) : option bytes :=
  match last_value i fs with
  | None => Some []
  | Some (Delimited p) => Some p
  | Some (Varint _) => None
  end.
Definition string_at (i : Z) (fs : list wire_field) : option string :=
  p ← bytes_at i fs;
  if valid_utf8 p then Some (String.string_of_list_byte p) else None.

(** A message with its field list, and what makes it lawful. *)
Section wire_message.
Context {M : Type} (to_fields : M -> list wire_field).
Context (of_fields : list wire_field -> option M).

Definition wire_message : Message M := {|
  prost_encode m := Ok (put_fields (to_fields m));
  prost_decode p :=
    match parse_fields p ≫= of_fields with
    | Some m => Ok m
    | None => Err "malformed message"%string
    end |}.

Lemma wire_message_laws `{!WellTyped M} :
  (∀ m : M, well_typed m → Forall field_ok (to_fields m)) →
  (∀ m : M, well_typed m → of_fields (to_fields m) = Some m) →
  @MessageLaws _ M wire_message _.
Proof.
  intros Hok Hrt. split; cbn [prost_encode prost_decode wire_message].
  - eauto.
  - intros m p Hm [= <-]. rewrite parse_put_fields by auto.
    cbn [mbind option_bind]. by rewrite Hrt.
  - intros p. by destruct (parse_fields p ≫= of_fields).
Qed.
End wire_message.

Definition Info_fields (m : pb.Info) : list wire_field :=
  varint_field 1 (pb.info_version m) ++
  bytes_field 3 (bstr (pb.info_server_id m)) ++
  bytes_field 4 (bstr (pb.info_server_name m)) ++
  varint_field 5 (pb.info_max_payload m) ++
  varint_field 6 (pb.info_client_id m) ++
  bool_field 7 (pb.info_requires_auth m) ++
  bool_field 8 (pb.info_tls_verify m).
Definition Info_of (fs : list wire_field) : option pb.Info :=
  version ← u32_at 1 fs; server_id ← string_at 3 fs;
  server_name ← string_at 4 fs; max_payload ← u32_at 5 fs;
  client_id ← u64_at 6 fs; requires_auth ← bool_at 7 fs;
  tls_verify ← bool_at 8 fs;
  Some (pb.mkInfo version server_id server_name max_payload client_id
          requires_auth tls_verify).

Definition PasswordAuth_fields (p : pb.PasswordAuth) : list wire_field :=
  bytes_field 1 (bstr (pb.username p)) ++ bytes_field 2 (bstr (pb.password p)).
Definition PasswordAuth_of (fs : list wire_field) : option pb.PasswordAuth :=
  u ← string_at 1 fs; p ← string_at 2 fs; Some (pb.mkPasswordAuth u p).

Definition Connect_fields (m : pb.Connect) : list wire_field :=
  varint_field 1 (pb.connect_version m) ++
  bool_field 2 (pb.connect_verbose m) ++
  varint_field 6 (pb.connect_auth_method m `mod` 2 ^ 64) ++
  match pb.connect_credentials m with
  | None => []
  | Some (pb.Credentials_PasswordAuth p) =>
      [(7, Delimited (put_fields (PasswordAuth_fields p)))]
  end.
Definition Connect_of (fs : list wire_field) : option pb.Connect :=
  version ← u32_at 1 fs; verbose ← bool_at 2 fs; method ← i32_at 6 fs;
  credentials ←
    match last_value 7 fs with
    | None => Some None
    | Some (Delimited p) =>
        a ← parse_fields p ≫= PasswordAuth_of;
        Some (Some (pb.Credentials_PasswordAuth a))
    | Some (Varint _) => None
    end;
  Some (pb.mkConnect version verbose method credentials).

Definition Publish_fields (m : pb.Publish) : list wire_field :=
  bytes_field 1 (pb.publish_topic m) ++ bytes_field 2 (pb.publish_payload m) ++
  bytes_field 3 (pb.publish_header m).
Definition Publish_of (fs : list wire_field) : option pb.Publish :=
  t ← bytes_at 1 fs; p ← bytes_at 2 fs; h ← bytes_at 3 fs;
  Some (pb.mkPublish t p h).

Definition Subscribe_fields (m : pb.Subscribe) : list wire_field :=
  bytes_field 1 (pb.subscribe_topic m) ++
  varint_field 2 (pb.subscribe_subscription_id m) ++
  bytes_field 3 (bstr (pb.subscribe_queue_group m)).
Definition Subscribe_of (fs : list wire_field) : option pb.Subscribe :=
  t ← bytes_at 1 fs; i ← u32_at 2 fs; g ← string_at 3 fs;
  Some (pb.mkSubscribe t i g).

Definition UnSubscribe_fields (m : pb.UnSubscribe) : list wire_field :=
  varint_field 2 (pb.unsubscribe_subscription_id m).
Definition UnSubscribe_of (fs : list wire_field) : option pb.UnSubscribe :=
  i ← u32_at 2 fs; Some (pb.mkUnSubscribe i).

Definition Message_fields (m : pb.Message) : list wire_field :=
  bytes_field 1 (pb.message_topic m) ++
  varint_field 2 (pb.message_subscription_id m) ++
  bytes_field 3 (pb.message_payload m) ++ bytes_field 4 (pb.message_header m).
Definition Message_of (fs : list wire_field) : option pb.Message :=
  t ← bytes_at 1 fs; i ← u32_at 2 fs; p ← bytes_at 3 fs; h ← bytes_at 4 fs;
  Some (pb.mkMessage t i p h).

#[export] Instance wire_prost : Prost := {|
  prost_Info := wire_message Info_fields Info_of;
  prost_Connect := wire_message Connect_fields Connect_of;
  prost_Publish := wire_message Publish_fields Publish_of;
  prost_Subscribe := wire_message Subscribe_fields Subscribe_of;
  prost_UnSubscribe := wire_message UnSubscribe_fields UnSubscribe_of;
  prost_Message := wire_message Message_fields Message_of;
|}.

(** ** The laws *)

(** Looking a field up past the optional fields before it. *)
Lemma last_value_app i fs gs :
  last_value i (fs ++ gs) =
  match last_value i gs with Some w => Some w | None => last_value i fs end.
Proof.
  induction fs as [|[j v] fs IH]; simpl; [by destruct (last_value i gs)|].
  rewrite IH. by destruct (last_value i gs).
Qed.

Lemma last_value_varint i j v :
  last_value i (varint_field j v) =
  if (i =? j) && negb (v =? 0) then Some (Varint v) else None.
Proof.
  unfold varint_field. destruct (v =? 0); simpl; [by rewrite andb_false_r|].
  by destruct (i =? j).
Qed.
Lemma last_value_bool i j (v : bool) :
  last_value i (bool_field j v) =
  if (i =? j) && v then Some (Varint 1) else None.
Proof. unfold bool_field. destruct v; simpl; by destruct (i =? j). Qed.
Lemma last_value_bytes i j p :
  last_value i (bytes_field j p) =
  if (i =? j) && negb (len p =? 0) then Some (Delimited p) else None.
Proof. unfold bytes_field. destruct p; simpl; by destruct (i =? j). Qed.
#[local] Create Rewrite HintDb wire.
#[local] Hint Rewrite last_value_app last_value_varint last_value_bool
  last_value_bytes : wire.

(** Reading a field that was written, or omitted as the default. *)
Section at_lemmas.
Context (i : Z) (fs : list wire_field).

Lemma varint_at_eq v :
  last_value i fs = (if negb (v =? 0) then Some (Varint v) else None) →
  varint_at i fs = Some v.
Proof.
  unfold varint_at. intros ->. destruct (v =? 0) eqn:Hv; [|done].
  bool_prop. by subst.
Qed.
Lemma u32_at_eq v :
  in_u32 v →
  last_value i fs = (if negb (v =? 0) then Some (Varint v) else None) →
  u32_at i fs = Some v.
Proof.
  intros. unfold u32_at. erewrite varint_at_eq by done. simpl.
  by rewrite Z.mod_small.
Qed.
Lemma u64_at_eq v :
  in_u64 v →
  last_value i fs = (if negb (v =? 0) then Some (Varint v) else None) →
  u64_at i fs = Some v.
Proof.
  intros. unfold u64_at. erewrite varint_at_eq by done. simpl.
  by rewrite Z.mod_small.
Qed.
Lemma i32_at_eq v :
  in_i32 v →
  last_value i fs = (if negb (v `mod` 2 ^ 64 =? 0)
                     then Some (Varint (v `mod` 2 ^ 64)) else None) →
  i32_at i fs = Some v.
Proof.
  unfold in_i32. intros Hv Hl. unfold i32_at.
  erewrite varint_at_eq by exact Hl. cbn [fmap option_fmap option_map]. f_equal.
  pose proof (Z.div_mod v (2 ^ 64) ltac:(lia)) as Hd.
  replace (v `mod` 2 ^ 64 + 2 ^ 31)
    with (v + 2 ^ 31 + - (v / 2 ^ 64) * 2 ^ 32 * 2 ^ 32) by lia.
  rewrite Z.mod_add, Z.mod_small by lia. lia.
Qed.
Lemma bool_at_eq (v : bool) :
  last_value i fs = (if v then Some (Varint 1) else None) →
  bool_at i fs = Some v.
Proof. unfold bool_at, varint_at. intros ->. by destruct v. Qed.
Lemma bytes_at_eq p :
  last_value i fs = (if negb (len p =? 0) then Some (Delimited p) else None) →
  bytes_at i fs = Some p.
Proof.
  unfold bytes_at. intros ->. destruct (len p =? 0) eqn:Hp; [|done].
  bool_prop. by rewrite (len_zero p).
Qed.
Lemma string_at_eq s :
  string_ok s →
  last_value i fs =
    (if negb (len (bstr s) =? 0) then Some (Delimited (bstr s)) else None) →
  string_at i fs = Some s.
Proof.
  unfold string_ok. intros Hs Hl. unfold string_at.
  erewrite bytes_at_eq by exact Hl. simpl. rewrite Hs. f_equal.
  apply String.string_of_list_byte_of_string.
Qed.
End at_lemmas.

#[local] Arguments varint_field : simpl never.
#[local] Arguments bool_field : simpl never.
#[local] Arguments bytes_field : simpl never.
#[local] Arguments bstr : simpl never.
#[local] Arguments u32_at : simpl never.
#[local] Arguments u64_at : simpl never.
#[local] Arguments i32_at : simpl never.
#[local] Arguments bool_at : simpl never.
#[local] Arguments bytes_at : simpl never.
#[local] Arguments string_at : simpl never.

(** Read one field after another; each look-up is evaluated to the option its
    field wrote. *)
Ltac wire_lookup :=
  autorewrite with wire; cbn [last_value Z.eqb Pos.eqb andb];
  repeat (match goal with
          | |- context [if ?c then _ else _] => destruct c
          end; try done).
Tactic Notation "wire_read" uconstr(lem) := erewrite lem by (first [done | wire_lookup]);
  cbn [mbind option_bind].

Lemma varint_field_ok i v : 0 <= i → 0 <= v → Forall field_ok (varint_field i v).
Proof. intros. unfold varint_field. by case_match; repeat constructor. Qed.
Lemma bool_field_ok i (v : bool) : 0 <= i → Forall field_ok (bool_field i v).
Proof. intros. unfold bool_field. by case_match; repeat constructor. Qed.
Lemma bytes_field_ok i p : 0 <= i → Forall field_ok (bytes_field i p).
Proof. intros. unfold bytes_field. by case_match; repeat constructor. Qed.

Ltac fields_ok :=
  unfold in_u32, in_u64 in *; repeat apply Forall_app_2;
  first [apply varint_field_ok; lia | apply bool_field_ok; lia
        | apply bytes_field_ok; lia].

Lemma Info_wire : @MessageLaws _ pb.Info prost_Info _.
Proof.
  apply wire_message_laws; intros [v i n m c r t] (?&?&?&?&?); simpl in *;
    unfold Info_fields, Info_of; simpl; [fields_ok|].
  wire_read (u32_at_eq 1 _ v). wire_read (string_at_eq 3 _ i).
  wire_read (string_at_eq 4 _ n). wire_read (u32_at_eq 5 _ m).
  wire_read (u64_at_eq 6 _ c). wire_read (bool_at_eq 7 _ r).
  by wire_read (bool_at_eq 8 _ t).
Qed.

Lemma PasswordAuth_wire a :
  string_ok (pb.username a) → string_ok (pb.password a) →
  parse_fields (put_fields (PasswordAuth_fields a)) ≫= PasswordAuth_of = Some a.
Proof.
  destruct a as [u p]. intros. unfold PasswordAuth_fields, PasswordAuth_of.
  simpl in *.
  rewrite parse_put_fields by fields_ok. cbn [mbind option_bind].
  wire_read (string_at_eq 1 _ u). by wire_read (string_at_eq 2 _ p).
Qed.

Lemma Connect_wire : @MessageLaws _ pb.Connect prost_Connect _.
Proof.
  apply wire_message_laws; intros [v b m o] (?&?&Ho); simpl in *;
    unfold Connect_fields, Connect_of; cbn [pb.connect_version
      pb.connect_verbose pb.connect_auth_method pb.connect_credentials].
  - pose proof (Z.mod_pos_bound m (2 ^ 64) ltac:(lia)).
    repeat apply Forall_app_2; try fields_ok.
    destruct o as [[]|]; by repeat constructor.
  - destruct o as [[a]|]; wire_read (u32_at_eq 1 _ v);
      wire_read (bool_at_eq 2 _ b); wire_read (i32_at_eq 6 _ m);
      autorewrite with wire; cbn [last_value Z.eqb Pos.eqb andb]; [|done].
    destruct Ho. by rewrite PasswordAuth_wire.
Qed.

Lemma Publish_wire : @MessageLaws _ pb.Publish prost_Publish _.
Proof.
  apply wire_message_laws; intros [t p h] _;
    unfold Publish_fields, Publish_of; simpl; [fields_ok|].
  wire_read (bytes_at_eq 1 _ t). wire_read (bytes_at_eq 2 _ p).
  by wire_read (bytes_at_eq 3 _ h).
Qed.

Lemma Subscribe_wire : @MessageLaws _ pb.Subscribe prost_Subscribe _.
Proof.
  apply wire_message_laws; intros [t i g] (?&?);
    unfold Subscribe_fields, Subscribe_of; simpl in *; [fields_ok|].
  wire_read (bytes_at_eq 1 _ t). wire_read (u32_at_eq 2 _ i).
  by wire_read (string_at_eq 3 _ g).
Qed.

Lemma UnSubscribe_wire : @MessageLaws _ pb.UnSubscribe prost_UnSubscribe _.
Proof.
  apply wire_message_laws; intros [i] Hi; unfold UnSubscribe_fields,
    UnSubscribe_of, well_typed, UnSubscribe_well_typed in *; simpl in *;
    [fields_ok|].
  by wire_read (u32_at_eq 2 _ i).
Qed.

Lemma Message_wire : @MessageLaws _ pb.Message prost_Message _.
Proof.
  apply wire_message_laws; intros [t i p h] Hi; unfold Message_fields,
    Message_of, well_typed, Message_well_typed in *; simpl in *; [fields_ok|].
  wire_read (bytes_at_eq 1 _ t). wire_read (u32_at_eq 2 _ i).
  wire_read (bytes_at_eq 3 _ p). by wire_read (bytes_at_eq 4 _ h).
Qed.

#[export] Instance wire_laws : ProstLaws := {|
  laws_Info := Info_wire;
  laws_Connect := Connect_wire;
  laws_Publish := Publish_wire;
  laws_Subscribe := Subscribe_wire;
  laws_UnSubscribe := UnSubscribe_wire;
  laws_Message := Message_wire;
|}.
