(* ===== verification/ClientId.v ===== *)
(** Client identifiers, [client.rs]: a [u64] drawn from a process-wide atomic
    counter. *)
From S2P Require Import Prelude.
Local Open Scope Z_scope.

Record ClientId : Type := mkClientId { client_id_0 : u64 }.

#[export] Instance ClientId_eq_dec : EqDecision ClientId.
Proof. solve_decision. Defined.
#[export] Instance ClientId_countable : Countable ClientId.
Proof. by refine (inj_countable' client_id_0 mkClientId _); intros []. Defined.

(** [CLIENT_ID_COUNTER: AtomicU64]: its initial value, and [ClientId::new],
    which takes the current value and adds one; [fetch_add] wraps around. *)
Definition CLIENT_ID_COUNTER : u64 := 1.
Definition ClientId_new (counter : u64) : ClientId * u64 :=
  (mkClientId counter, (counter + 1) `mod` U64_MODULUS).

(** [n] calls one after the other, in the order the counter serves them. *)
Fixpoint ClientId_news (n : nat) (counter : u64) : list ClientId * u64 :=
  match n with
  | O => ([], counter)
  | S n =>
      let '(i, counter) := ClientId_new counter in
      let '(ids, counter) := ClientId_news n counter in
      (i :: ids, counter)
  end.

(** The [i]-th identifier is the start value plus [i], modulo [2^64]. *)
Lemma ClientId_news_lookup n counter i :
  in_u64 counter → (i < n)%nat →
  (ClientId_news n counter).1 !! i =
  Some (mkClientId ((counter + Z.of_nat i) `mod` U64_MODULUS)).
Proof.
  revert counter i. induction n as [|n IH]; intros counter i Hc Hi; [lia|].
  cbn [ClientId_news ClientId_new].
  assert (Hc' : in_u64 ((counter + 1) `mod` U64_MODULUS)).
  { unfold in_u64, U64_MODULUS. apply Z.mod_pos_bound. lia. }
  specialize (IH ((counter + 1) `mod` U64_MODULUS)).
  destruct (ClientId_news n ((counter + 1) `mod` U64_MODULUS)) as [ids c].
  destruct i as [|i]; cbn [fst lookup list_lookup].
  - rewrite Z.add_0_r, Z.mod_small by done. done.
  - cbn [fst] in IH. change (ids !! i = Some
      (mkClientId ((counter + Z.of_nat (S i)) `mod` U64_MODULUS))).
    rewrite IH by (done || lia). do 2 f_equal.
    rewrite Zplus_mod_idemp_l. f_equal. lia.
Qed.

Lemma ClientId_news_length n counter : length (ClientId_news n counter).1 = n.
Proof.
  revert counter. induction n as [|n IH]; intros counter; [done|].
  cbn [ClientId_news ClientId_new]. specialize (IH ((counter + 1) `mod` U64_MODULUS)).
  destruct (ClientId_news n _). simpl in *. lia.
Qed.

(** C34: Identifiers are unique and non-zero for the first [2^64 - 1] clients of
    a process: whichever two connections are accepted, they get different
    identifiers, and none gets zero. *)
Theorem client_ids_unique n ids counter :
  Z.of_nat n < U64_MODULUS →
  ClientId_news n CLIENT_ID_COUNTER = (ids, counter) →
  NoDup ids ∧ length ids = n ∧ Forall (λ i, 0 < client_id_0 i < U64_MODULUS) ids.
Proof.
  intros Hn Heq.
  assert (Hids : ids = (ClientId_news n CLIENT_ID_COUNTER).1) by (by rewrite Heq).
  assert (Hlook : ∀ i x, ids !! i = Some x →
    (i < n)%nat ∧ x = mkClientId (1 + Z.of_nat i)).
  { intros i x Hx. apply lookup_lt_Some in Hx as Hi.
    rewrite Hids, ClientId_news_length in Hi. split; [done|].
    rewrite Hids, ClientId_news_lookup in Hx by done. simplify_eq.
    unfold CLIENT_ID_COUNTER. rewrite Z.mod_small; [done|].
    unfold U64_MODULUS in *. lia. }
  split_and!.
  - apply NoDup_alt. intros i j x Hi%Hlook Hj%Hlook.
    destruct Hi as [_ ->], Hj as [_ Heq']. simplify_eq. lia.
  - by rewrite Hids, ClientId_news_length.
  - apply Forall_lookup. intros i x [Hi ->]%Hlook. simpl. lia.
Qed.

Lemma client_ids_unique_witness :
  NoDup [mkClientId 1; mkClientId 2; mkClientId 3] ∧
  length [mkClientId 1; mkClientId 2; mkClientId 3] = 3%nat ∧
  Forall (λ i, 0 < client_id_0 i < U64_MODULUS)
    [mkClientId 1; mkClientId 2; mkClientId 3].
Proof.
  apply (client_ids_unique 3 _ 4).
  - vm_compute. reflexivity.
  - vm_compute. reflexivity.
Defined.
