(* ===== verification/Parser.v ===== *)
(** The wire protocol of [crates/server/src/parser.rs]: commands, frames, the
    message builders, the frame header, and the decoders and encoders of
    [ServerCodec] and [ClientCodec].

    A codec works on a byte buffer it owns: a decoder returns its result with
    the buffer it leaves, an encoder its result with the buffer it extends.
    [decode_loop] is the loop the two decoders share, over the commands a side
    accepts; it drops one byte per round, so it recurs on the buffer. *)
From S2P Require Import Prelude Errors Messages ClientId.
Local Open Scope Z_scope.

(** ** Constants and commands *)

Definition COMMAND_BYTE_LEN : usize := 1.
Definition PAYLOAD_LENGTH_BYTES : usize := 4.
Definition HEADER_LENGTH : usize := COMMAND_BYTE_LEN + PAYLOAD_LENGTH_BYTES.
Definition MAXIMUM_PAYLOAD_BYTES : usize := 1024 * 1024.
Definition PROTOCOL_VERSION : u32 := 1.

Module Command.
Inductive Command : Type :=
  Info | Connect | Publish | Subscribe | UnSubscribe | Message.

(** [command as u8] *)
Definition as_u8 (c : Command) : u8 :=
  match c with
  | Info => x00
  | Connect => x01
  | Publish => x02
  | Subscribe => x03
  | UnSubscribe => x04
  | Message => x05
  end.
End Command.

(** The trait [CommandCodec]: the command byte of a message type. *)
Class CommandCodec (T : Type) := COMMAND : u8.
Arguments COMMAND T {_}.

#[export] Instance Info_codec : CommandCodec pb.Info :=
  Command.as_u8 Command.Info.
#[export] Instance Connect_codec : CommandCodec pb.Connect :=
  Command.as_u8 Command.Connect.
#[export] Instance Publish_codec : CommandCodec pb.Publish :=
  Command.as_u8 Command.Publish.
#[export] Instance Subscribe_codec : CommandCodec pb.Subscribe :=
  Command.as_u8 Command.Subscribe.
#[export] Instance UnSubscribe_codec : CommandCodec pb.UnSubscribe :=
  Command.as_u8 Command.UnSubscribe.
#[export] Instance Message_codec : CommandCodec pb.Message :=
  Command.as_u8 Command.Message.

Definition encode_payload `{ExternalErrors} {T} `{!Message T} (item : T)
  : result CodecError.CodecError bytes :=
  map_err CodecError.Encode (prost_encode item).
Definition decode_payload `{ExternalErrors} {T} `{!Message T} (payload : bytes)
  : result CodecError.CodecError T :=
  map_err CodecError.Decode (prost_decode payload).

(** ** Frames and inbound commands *)

Module Frame.
Inductive Frame : Type :=
| Connect (m : pb.Connect)
| Publish (m : pb.Publish)
| Subscribe (m : pb.Subscribe)
| UnSubscribe (m : pb.UnSubscribe).
End Frame.

Module ClientFrame.
Inductive ClientFrame : Type :=
| Info (m : pb.Info)
| Message (m : pb.Message).
End ClientFrame.

Module OutboundMessage.
Inductive OutboundMessage : Type :=
| Info (m : pb.Info)
| Message (m : pb.Message).
End OutboundMessage.

Module ServerInboundCommand.
Inductive ServerInboundCommand : Type :=
  Connect | Publish | Subscribe | UnSubscribe.

(** [TryFrom<u8>]; [None] is [Err(())]. *)
Definition try_from (value : u8) : option ServerInboundCommand :=
  if value =b COMMAND pb.Connect then Some Connect
  else if value =b COMMAND pb.Publish then Some Publish
  else if value =b COMMAND pb.Subscribe then Some Subscribe
  else if value =b COMMAND pb.UnSubscribe then Some UnSubscribe
  else None.
End ServerInboundCommand.

Module ClientInboundCommand.
Inductive ClientInboundCommand : Type := Info | Message.

Definition try_from (value : u8) : option ClientInboundCommand :=
  if value =b COMMAND pb.Info then Some Info
  else if value =b COMMAND pb.Message then Some Message
  else None.
End ClientInboundCommand.

(** ** Message builders *)

Module ServerOutbound.
Definition info (version : u32) (client_id : ClientId) (server_id : string)
    (server_name : string) (requires_auth : bool) (tls_verify : bool)
  : pb.Info :=
  {| pb.info_version := version;
     pb.info_server_id := server_id;
     pb.info_server_name := server_name;
     pb.info_max_payload := MAXIMUM_PAYLOAD_BYTES `mod` 2 ^ 32;
     pb.info_client_id := client_id_0 client_id;
     pb.info_requires_auth := requires_auth;
     pb.info_tls_verify := tls_verify |}.

Definition default_info : pb.Info :=
  info 1 (mkClientId 0) "ocypode-server" "ocypode" false false.
End ServerOutbound.

Module ClientOutbound.
Definition connect (version : u32) (verbose : bool) : pb.Connect :=
  {| pb.connect_version := version;
     pb.connect_verbose := verbose;
     pb.connect_auth_method := pb.AuthMethod_i32 pb.NoAuth;
     pb.connect_credentials := None |}.

Definition connect_with_password (version : u32) (verbose : bool)
    (username password : string) : pb.Connect :=
  {| pb.connect_version := version;
     pb.connect_verbose := verbose;
     pb.connect_auth_method := pb.AuthMethod_i32 pb.Password;
     pb.connect_credentials := Some (pb.Credentials_PasswordAuth
       {| pb.username := username; pb.password := password |}) |}.
End ClientOutbound.

(** ** Decoding *)

(** The command byte and the payload length at the head of the buffer, [None]
    when the header is not complete. *)
Definition parse_header {E} (incoming_bytes : bytes)
  : result E (option (u8 * usize)) :=
  if len incoming_bytes <? HEADER_LENGTH then Ok None
  else
    '(header_bytes, _) ← split_to HEADER_LENGTH incoming_bytes;
    '(command, header_bytes) ← get_u8 header_bytes;
    '(payload_length, _) ← get_u32 header_bytes;
    Ok (Some (command, payload_length)).

Section decode_loop.
Context {E Cmd Item : Type}.
Context (try_from : u8 -> option Cmd).
Context (decode_command : Cmd -> bytes -> result E Item).

Fixpoint decode_loop (incoming_bytes : bytes)
  : result E (option Item) * bytes :=
  match parse_header incoming_bytes, incoming_bytes with
  | Ok None, _ => (Ok None, incoming_bytes)
  | Ok (Some (command, payload_length)), _ :: advanced =>
      match try_from command with
      | None => decode_loop advanced
      | Some command =>
          if MAXIMUM_PAYLOAD_BYTES <? payload_length
          then decode_loop advanced
          else
            let frame_length := HEADER_LENGTH + payload_length in
            if len incoming_bytes <? frame_length
            then (Ok None, incoming_bytes)
            else
              match advance HEADER_LENGTH incoming_bytes
                    ≫= split_to payload_length with
              | Ok (payload_bytes, rest) =>
                  (Some <$> decode_command command payload_bytes, rest)
              | Err e => (Err e, incoming_bytes)
              | Panic => (Panic, incoming_bytes)
              end
      end
  | Ok (Some _), [] => (Panic, [])
  | Err e, _ => (Err e, incoming_bytes)
  | Panic, _ => (Panic, incoming_bytes)
  end.
End decode_loop.

(** ** Encoding *)

(** [usize as TryInto<u32>] *)
Definition u32_try_from (n : usize) : option u32 :=
  if n <=? U32_MAX then Some n else None.

Section encode_frame.
Context `{ExternalErrors} {E T : Type} `{!Message T, !CommandCodec T}.
Context (into : CodecError.CodecError -> E).

Definition encode_frame (item : T) (output_buffer : bytes)
  : result E unit * bytes :=
  match map_err into (encode_payload item) with
  | Ok payload =>
      match u32_try_from (len payload) with
      | Some payload_length =>
          (Ok tt, output_buffer ++ COMMAND T :: put_u32 payload_length
                  ++ payload)
      | None =>
          (Err (into (CodecError.InvalidSizeBytes (len payload))),
           output_buffer)
      end
  | Err e => (Err e, output_buffer)
  | Panic => (Panic, output_buffer)
  end.
End encode_frame.

(** ** The codecs *)

Module ServerCodec.
Section codec.
Context `{Prost}.

Definition decode_command (command : ServerInboundCommand.ServerInboundCommand)
    (payload_bytes : bytes)
  : result ServerCodecError.ServerCodecError Frame.Frame :=
  map_err ServerCodecError.Codec
    match command with
    | ServerInboundCommand.Connect =>
        Frame.Connect <$> decode_payload payload_bytes
    | ServerInboundCommand.Publish =>
        Frame.Publish <$> decode_payload payload_bytes
    | ServerInboundCommand.Subscribe =>
        Frame.Subscribe <$> decode_payload payload_bytes
    | ServerInboundCommand.UnSubscribe =>
        Frame.UnSubscribe <$> decode_payload payload_bytes
    end.

Definition decode (incoming_bytes : bytes)
  : result ServerCodecError.ServerCodecError (option Frame.Frame) * bytes :=
  decode_loop ServerInboundCommand.try_from decode_command incoming_bytes.

Definition encode {T} `{!Message T, !CommandCodec T} (item : T)
    (output_buffer : bytes)
  : result ServerCodecError.ServerCodecError unit * bytes :=
  encode_frame ServerCodecError.Codec item output_buffer.
End codec.
End ServerCodec.

Module ClientCodec.
Section codec.
Context `{Prost}.

Definition decode_command (command : ClientInboundCommand.ClientInboundCommand)
    (payload_bytes : bytes)
  : result ClientCodecError.ClientCodecError ClientFrame.ClientFrame :=
  map_err ClientCodecError.Codec
    match command with
    | ClientInboundCommand.Info =>
        ClientFrame.Info <$> decode_payload payload_bytes
    | ClientInboundCommand.Message =>
        ClientFrame.Message <$> decode_payload payload_bytes
    end.

Definition decode (incoming_bytes : bytes)
  : result ClientCodecError.ClientCodecError
      (option ClientFrame.ClientFrame) * bytes :=
  decode_loop ClientInboundCommand.try_from decode_command incoming_bytes.

Definition encode {T} `{!Message T, !CommandCodec T} (item : T)
    (output_buffer : bytes)
  : result ClientCodecError.ClientCodecError unit * bytes :=
  encode_frame ClientCodecError.Codec item output_buffer.
End codec.
End ClientCodec.
