(* ===== verification/CodecFacts.v ===== *)
(** Reasoning about the codecs of [Parser]: the specification of one call of a
    decoder as a relation, what more input changes, the frames of a whole
    stream, and the frame an encoder writes. *)
From S2P Require Import Prelude Errors Messages Parser.
Local Open Scope Z_scope.

(** ** The frame header *)

(** The bytes an encoder writes for a command and its payload. *)
Definition frame_bytes (command : u8) (payload : bytes) : bytes :=
  command :: put_u32 (len payload) ++ payload.

Lemma parse_header_short {E} buf :
  len buf < HEADER_LENGTH → parse_header (E:=E) buf = Ok None.
Proof.
  intros. unfold parse_header.
  by destruct (Z.ltb_spec (len buf) HEADER_LENGTH); [|lia].
Qed.

Lemma parse_header_full {E} c n rest :
  in_u32 n →
  parse_header (E:=E) (c :: put_u32 n ++ rest) = Ok (Some (c, n)).
Proof.
  intros Hn. unfold parse_header.
  destruct (Z.ltb_spec (len (c :: put_u32 n ++ rest)) HEADER_LENGTH) as [Hl|_].
  { unfold HEADER_LENGTH, COMMAND_BYTE_LEN, PAYLOAD_LENGTH_BYTES in Hl. len_lia. }
  change (c :: put_u32 n ++ rest) with ((c :: put_u32 n) ++ rest).
  change HEADER_LENGTH with (len (c :: put_u32 n)). rewrite split_to_app.
  pose proof (get_put_u32 (E:=E) n [] Hn) as Hget. rewrite app_nil_r in Hget.
  cbn [mbind result_bind get_u8]. by rewrite Hget.
Qed.

(** A buffer is shorter than a header or starts with one. *)
Lemma header_cases buf :
  len buf < HEADER_LENGTH ∨
  ∃ c n rest, in_u32 n ∧ buf = c :: put_u32 n ++ rest.
Proof.
  destruct buf as [|c [|b3 [|b2 [|b1 [|b0 rest]]]]]; [left; done..|right].
  destruct (get_u32 (E:=unit) (b3 :: b2 :: b1 :: b0 :: rest))
    as [[v r]| |] eqn:Hget; [|done..].
  exists c, v, r. split; [by eapply get_u32_range|].
  by rewrite <-(put_get_u32 _ _ _ Hget).
Qed.

Lemma advance_header {E} c n rest :
  advance (E:=E) HEADER_LENGTH (c :: put_u32 n ++ rest) = Ok rest.
Proof.
  unfold advance.
  destruct (Z.leb_spec HEADER_LENGTH (len (c :: put_u32 n ++ rest))) as [_|Hl].
  - done.
  - unfold HEADER_LENGTH, COMMAND_BYTE_LEN, PAYLOAD_LENGTH_BYTES in Hl. len_lia.
Qed.

(** ** One call of a decoder *)

Section decodes.
Context {E Cmd Item : Type}.
Context (try_from : u8 -> option Cmd).
Context (decode_command : Cmd -> bytes -> result E Item).

Local Abbreviation decode := (decode_loop try_from decode_command).

(** No frame starts at this header: its command is not one this side accepts,
    or its length is over the limit. *)
Definition bad_header (c : u8) (n : Z) : Prop :=
  try_from c = None ∨ MAXIMUM_PAYLOAD_BYTES < n.

(** The specification of a call: [decodes buf r rest] when the decoder, given
    [buf], answers [r] and keeps [rest]. *)
Inductive decodes : bytes -> result E (option Item) -> bytes -> Prop :=
| decodes_short buf :
    len buf < HEADER_LENGTH → decodes buf (Ok None) buf
| decodes_skip c n body r rest :
    in_u32 n → bad_header c n →
    decodes (put_u32 n ++ body) r rest →
    decodes (c :: put_u32 n ++ body) r rest
| decodes_wait c k n body :
    in_u32 n → try_from c = Some k → n <= MAXIMUM_PAYLOAD_BYTES →
    len body < n →
    decodes (c :: put_u32 n ++ body) (Ok None) (c :: put_u32 n ++ body)
| decodes_frame c k payload rest :
    try_from c = Some k → len payload <= MAXIMUM_PAYLOAD_BYTES →
    decodes (frame_bytes c payload ++ rest)
      (Some <$> decode_command k payload) rest.

Lemma decode_skip c n body :
  in_u32 n → bad_header c n →
  decode (c :: put_u32 n ++ body) = decode (put_u32 n ++ body).
Proof.
  intros Hn Hbad. cbn [decode_loop].
  rewrite parse_header_full by done.
  destruct Hbad as [->|Hmax]; [done|].
  destruct (try_from c); [|done].
  by destruct (Z.ltb_spec MAXIMUM_PAYLOAD_BYTES n); [|lia].
Qed.

(** A buffer from which the decoder only drops bytes until another is left. *)
Inductive skips : bytes -> bytes -> Prop :=
| skips_none buf : skips buf buf
| skips_byte c n body buf :
    in_u32 n → bad_header c n → skips (put_u32 n ++ body) buf →
    skips (c :: put_u32 n ++ body) buf.

Lemma decode_skips buf buf' : skips buf buf' → decode buf = decode buf'.
Proof. induction 1; [done|]. by rewrite decode_skip. Qed.

Lemma skips_app buf buf' more : skips buf buf' → skips (buf ++ more) (buf' ++ more).
Proof.
  induction 1 as [|c n body buf Hn Hbad _ IH]; [constructor|].
  cbn [app] in *. rewrite <-app_assoc in *. by constructor.
Qed.

(** One byte, with the header it starts read off the buffer. *)
Lemma skips_step c b3 b2 b1 b0 n body buf :
  get_u32 (E:=unit) [b3; b2; b1; b0] = Ok (n, []) → bad_header c n →
  skips (b3 :: b2 :: b1 :: b0 :: body) buf →
  skips (c :: b3 :: b2 :: b1 :: b0 :: body) buf.
Proof.
  intros Hget Hbad Hrest. apply put_get_u32 in Hget as Hput.
  apply get_u32_range in Hget. rewrite app_nil_r in Hput.
  change (b3 :: b2 :: b1 :: b0 :: body) with ([b3; b2; b1; b0] ++ body) in *.
  rewrite Hput in Hrest |- *. by apply skips_byte.
Qed.

Lemma decode_wait c k n body :
  in_u32 n → try_from c = Some k → n <= MAXIMUM_PAYLOAD_BYTES →
  len body < n →
  decode (c :: put_u32 n ++ body) = (Ok None, c :: put_u32 n ++ body).
Proof.
  intros Hn Hk Hmax Hlen. cbn [decode_loop].
  rewrite parse_header_full, Hk by done.
  destruct (Z.ltb_spec MAXIMUM_PAYLOAD_BYTES n); [lia|].
  destruct (Z.ltb_spec (len (c :: put_u32 n ++ body)) (HEADER_LENGTH + n))
    as [|Hge]; [done|].
  unfold HEADER_LENGTH, COMMAND_BYTE_LEN, PAYLOAD_LENGTH_BYTES in Hge. len_lia.
Qed.

Lemma decode_frame c k payload rest :
  try_from c = Some k → len payload <= MAXIMUM_PAYLOAD_BYTES →
  decode (frame_bytes c payload ++ rest) =
  (Some <$> decode_command k payload, rest).
Proof.
  intros Hk Hmax. unfold frame_bytes. cbn [app]. rewrite <-app_assoc.
  assert (in_u32 (len payload)).
  { unfold in_u32, MAXIMUM_PAYLOAD_BYTES in *. len_lia. }
  cbn [decode_loop]. rewrite parse_header_full, Hk by done.
  destruct (Z.ltb_spec MAXIMUM_PAYLOAD_BYTES (len payload)); [lia|].
  rewrite advance_header. cbn [mbind result_bind]. rewrite split_to_app.
  destruct (Z.ltb_spec (len (c :: put_u32 (len payload) ++ payload ++ rest))
    (HEADER_LENGTH + len payload)) as [Hlt|]; [|done].
  unfold HEADER_LENGTH, COMMAND_BYTE_LEN, PAYLOAD_LENGTH_BYTES in Hlt. len_lia.
Qed.

(** The decoder implements the specification... *)
Lemma decodes_decode buf r rest : decodes buf r rest → decode buf = (r, rest).
Proof.
  induction 1.
  - destruct buf; cbn [decode_loop]; by rewrite parse_header_short.
  - by rewrite decode_skip.
  - by eapply decode_wait.
  - by apply decode_frame.
Qed.

(** ... which covers every buffer. *)
Lemma decode_decodes buf : decodes buf (decode buf).1 (decode buf).2.
Proof.
  induction buf as [buf IH] using (induction_ltof1 _ (@length u8)).
  enough (∃ r rest, decodes buf r rest) as (r&rest&Hd).
  { by rewrite (decodes_decode _ _ _ Hd). }
  destruct (header_cases buf) as [?|(c&n&body&Hn&->)].
  { do 2 eexists. by apply decodes_short. }
  destruct (decide (try_from c = None ∨ MAXIMUM_PAYLOAD_BYTES < n))
    as [Hbad|Hgood].
  { do 2 eexists. apply decodes_skip; [done|done|]. apply IH.
    unfold ltof. simpl. lia. }
  destruct (try_from c) as [k|] eqn:Hk; [|tauto].
  destruct (Z.lt_ge_cases (len body) n).
  { do 2 eexists. eapply decodes_wait; eauto. lia. }
  destruct (split_to_enough (E:=unit) n body) as (p&rest&_&->&Hp);
    [unfold in_u32 in Hn; lia|lia|].
  do 2 eexists. rewrite <-Hp.
  change (c :: put_u32 (len p) ++ p ++ rest) with
    ((c :: put_u32 (len p)) ++ p ++ rest).
  rewrite app_assoc. apply (decodes_frame c k p rest Hk). lia.
Qed.

Lemma decode_iff buf r rest : decode buf = (r, rest) ↔ decodes buf r rest.
Proof.
  split; [|apply decodes_decode]. intros Hd.
  pose proof (decode_decodes buf) as H. by rewrite Hd in H.
Qed.

(** Bytes that are no commands in front of a buffer with a header are
    skipped. *)
Lemma decodes_noise noise buf r rest :
  Forall (λ c, try_from c = None) noise →
  (HEADER_LENGTH <= len buf) → decodes buf r rest →
  decodes (noise ++ buf) r rest.
Proof.
  intros Hnoise Hlen Hd. induction Hnoise as [|c noise Hc _ IH]; [done|].
  cbn [app]. destruct (header_cases (c :: noise ++ buf))
    as [Hs|(c'&n&body&Hn&Heq)]; [len_lia|].
  injection Heq as <- Heq. rewrite Heq in *.
  apply decodes_skip; auto. by left.
Qed.

(** What a call keeps is the end of what it was given. *)
Lemma decodes_suffix buf r rest :
  decodes buf r rest → ∃ consumed, buf = consumed ++ rest.
Proof.
  induction 1 as [buf|c n body r rest ?? _ [used ->]|c k n body|c k p rest].
  - by exists [].
  - by exists (c :: used).
  - by exists [].
  - by exists (frame_bytes c p).
Qed.

(** A frame costs at least a header. *)
Lemma decodes_Some_shorter buf x rest :
  decodes buf (Ok (Some x)) rest → len rest + HEADER_LENGTH <= len buf.
Proof.
  remember (Ok (Some x)) as r eqn:Hr. intros H. revert Hr.
  induction H as [buf|c n body r rest ?? _ IH|c k n body|c k p rest];
    intros Hr; [done| |done|].
  - specialize (IH Hr). len_lia.
  - unfold frame_bytes, HEADER_LENGTH, COMMAND_BYTE_LEN, PAYLOAD_LENGTH_BYTES.
    len_lia.
Qed.

(** A decoder that waits holds less than the longest frame. *)
Lemma decodes_None_bound buf rest :
  decodes buf (Ok None) rest →
  len rest < HEADER_LENGTH + MAXIMUM_PAYLOAD_BYTES.
Proof.
  remember (Ok None) as r eqn:Hr. intros H. revert Hr.
  unfold HEADER_LENGTH, COMMAND_BYTE_LEN, PAYLOAD_LENGTH_BYTES in *.
  induction H as [buf|c n body r rest ?? _ IH|c k n body|c k p rest];
    intros Hr; [| auto | len_lia |].
  - unfold HEADER_LENGTH, COMMAND_BYTE_LEN, PAYLOAD_LENGTH_BYTES,
      MAXIMUM_PAYLOAD_BYTES in *. lia.
  - by destruct (decode_command k p).
Qed.

(** Input that arrives after an answer does not change the answer... *)
Lemma decodes_app_done buf r rest more :
  decodes buf r rest → r ≠ Ok None → decodes (buf ++ more) r (rest ++ more).
Proof.
  induction 1 as [buf|c n body r rest ?? _ IH|c k n body|c k p rest];
    intros Hr; [done| |done|].
  - cbn [app]. rewrite <-app_assoc. apply decodes_skip; [done..|].
    rewrite app_assoc. auto.
  - rewrite <-app_assoc. by apply decodes_frame.
Qed.

(** ... and a decoder that waited answers as if all of the input had been
    there from the start. *)
Lemma decodes_app_wait buf rest more r rest' :
  decodes buf (Ok None) rest → decodes (rest ++ more) r rest' →
  decodes (buf ++ more) r rest'.
Proof.
  remember (Ok None) as o eqn:Ho. intros H. revert Ho.
  induction H as [buf|c n body o rest ?? _ IH|c k n body|c k p rest];
    intros Ho Hmore; [done| |done|].
  - cbn [app]. rewrite <-app_assoc. apply decodes_skip; [done..|].
    rewrite app_assoc. auto.
  - by destruct (decode_command k p).
Qed.

(** More input: a call that waited is repeated on what it kept, any other call
    keeps the new bytes. *)
Lemma decode_app buf more :
  decode (buf ++ more) =
  match decode buf with
  | (Ok None, rest) => decode (rest ++ more)
  | (r, rest) => (r, rest ++ more)
  end.
Proof.
  pose proof (decode_decodes buf) as Hd. destruct (decode buf) as [r rest].
  cbn [fst snd] in Hd. destruct r as [[x|]|e|];
    [by apply decodes_decode, decodes_app_done| |
     by apply decodes_decode, decodes_app_done..].
  pose proof (decode_decodes (rest ++ more)) as Hm.
  destruct (decode (rest ++ more)) as [r' rest']. cbn [fst snd] in Hm.
  apply decodes_decode. by eapply decodes_app_wait.
Qed.

Context (decode_command_no_panic : ∀ k p, decode_command k p ≠ Panic).

Lemma decodes_no_panic buf r rest : decodes buf r rest → r ≠ Panic.
Proof.
  induction 1 as [buf|c n body r rest ?? _ IH|c k n body|c k p rest];
    [done|done|done|].
  pose proof (decode_command_no_panic k p). by destruct (decode_command k p).
Qed.
End decodes.

(** ** The frames of a stream *)

Section drain.
Context {E Cmd Item : Type}.
Context (try_from : u8 -> option Cmd).
Context (decode_command : Cmd -> bytes -> result E Item).

Local Abbreviation decode := (decode_loop try_from decode_command).
Local Abbreviation decodes := (decodes try_from decode_command).

(** Call the decoder until it waits or fails: the frames in order, how it
    ended ([Ok tt] when it waits for more input) and the buffer it keeps. *)
Fixpoint drain_fuel (fuel : nat) (buf : bytes)
  : list Item * result E unit * bytes :=
  match fuel with
  | O => ([], Ok tt, buf)
  | S fuel =>
      match decode buf with
      | (Ok None, rest) => ([], Ok tt, rest)
      | (Ok (Some x), rest) =>
          let '(xs, o, rest) := drain_fuel fuel rest in (x :: xs, o, rest)
      | (Err e, rest) => ([], Err e, rest)
      | (Panic, rest) => ([], Panic, rest)
      end
  end.
(** One round per byte is more than enough: a frame is at least five. *)
Definition drain (buf : bytes) : list Item * result E unit * bytes :=
  drain_fuel (S (length buf)) buf.

(** The same as a relation, on the specification of a call. *)
Inductive drains : bytes -> list Item -> result E unit -> bytes -> Prop :=
| drains_wait buf rest :
    decodes buf (Ok None) rest → drains buf [] (Ok tt) rest
| drains_error buf e rest :
    decodes buf (Err e) rest → drains buf [] (Err e) rest
| drains_panic buf rest :
    decodes buf Panic rest → drains buf [] Panic rest
| drains_item buf x mid xs o rest :
    decodes buf (Ok (Some x)) mid → drains mid xs o rest →
    drains buf (x :: xs) o rest.

Lemma drain_fuel_drains fuel buf xs o rest :
  (length buf < fuel)%nat → drain_fuel fuel buf = (xs, o, rest) →
  drains buf xs o rest.
Proof.
  revert buf xs o rest. induction fuel as [|fuel IH];
    intros buf xs o rest Hf; [lia|]. cbn [drain_fuel].
  pose proof (decode_decodes try_from decode_command buf) as Hd.
  destruct (decode buf) as [[[x|]|e|] mid]; cbn [fst snd] in Hd;
    [|intros; simplify_eq; by constructor..].
  destruct (drain_fuel fuel mid) as [[ys p] last] eqn:Hrec.
  intros ?; simplify_eq. econstructor; [exact Hd|]. apply IH; [|done].
  apply decodes_Some_shorter in Hd.
  unfold len, HEADER_LENGTH, COMMAND_BYTE_LEN, PAYLOAD_LENGTH_BYTES in Hd. lia.
Qed.

Lemma drains_fun buf xs o rest ys p rest' :
  drains buf xs o rest → drains buf ys p rest' →
  (xs, o, rest) = (ys, p, rest').
Proof.
  intros H. revert ys p rest'.
  induction H as [? ? Hd|? ? ? Hd|? ? Hd|? ? ? ? ? ? Hd _ IH]; intros ys p rest';
    inversion 1 as [? ? Hd'|? ? ? Hd'|? ? Hd'|? ? ? ? ? ? Hd' Hrest];
    apply decodes_decode in Hd, Hd'; rewrite Hd in Hd'; simplify_eq; auto.
  apply IH in Hrest. congruence.
Qed.

Lemma drain_iff buf xs o rest :
  drain buf = (xs, o, rest) ↔ drains buf xs o rest.
Proof.
  unfold drain. split.
  - apply drain_fuel_drains. lia.
  - destruct (drain_fuel (S (length buf)) buf) as [[ys p] rest'] eqn:Hd.
    apply drain_fuel_drains in Hd; [|lia]. intros. by eapply drains_fun.
Qed.

Lemma drains_app buf xs mid more ys o rest :
  drains buf xs (Ok tt) mid → drains (mid ++ more) ys o rest →
  drains (buf ++ more) (xs ++ ys) o rest.
Proof.
  remember (Ok tt) as p eqn:Hp. intros H Hmore. revert Hp Hmore.
  induction H as [? ? Hd|? ? ? Hd|? ? Hd|buf x mid xs p last Hd _ IH];
    intros Hp Hmore; [|done..|].
  - inversion Hmore; subst; econstructor; by eauto using decodes_app_wait.
  - cbn [app]. eapply drains_item; [by eapply decodes_app_done|]. auto.
Qed.

(** Feeding the input in chunks: each chunk is appended to what was kept and
    the decoder is drained; a failure ends the stream. *)
Fixpoint feed (kept : bytes) (chunks : list bytes)
  : list Item * result E unit * bytes :=
  match chunks with
  | [] => ([], Ok tt, kept)
  | chunk :: chunks =>
      match drain (kept ++ chunk) with
      | (xs, Ok tt, rest) =>
          let '(ys, o, rest) := feed rest chunks in (xs ++ ys, o, rest)
      | (xs, o, rest) => (xs, o, rest)
      end
  end.

(** A buffer the decoder waits on stays as it is. *)
Lemma decodes_None_quiet buf rest :
  decodes buf (Ok None) rest → decodes rest (Ok None) rest.
Proof.
  remember (Ok None) as r eqn:Hr. intros H. revert Hr.
  induction H as [buf|c n body r rest ?? _ IH|c k n body|c k p rest];
    intros Hr.
  - by apply decodes_short.
  - auto.
  - by eapply decodes_wait.
  - by destruct (decode_command k p).
Qed.

Lemma drains_quiet buf xs rest :
  drains buf xs (Ok tt) rest → drains rest [] (Ok tt) rest.
Proof.
  remember (Ok tt) as o eqn:Ho. intros H. revert Ho.
  induction H as [? ? Hd|? ? ? Hd|? ? Hd|? ? ? ? ? ? Hd _ IH];
    intros Ho; [|done..|auto].
  apply drains_wait. by eapply decodes_None_quiet.
Qed.

Lemma drains_app_failed buf xs o rest more :
  drains buf xs o rest → o ≠ Ok tt → drains (buf ++ more) xs o (rest ++ more).
Proof.
  induction 1 as [? ? Hd|? ? ? Hd|? ? Hd|? ? ? ? ? ? Hd _ IH]; intros Ho.
  - done.
  - apply drains_error. by apply decodes_app_done.
  - apply drains_panic. by apply decodes_app_done.
  - eapply drains_item; [by apply decodes_app_done|]. auto.
Qed.

(** Feeding chunk by chunk is draining the whole input. *)
Lemma feed_drains kept chunks xs o rest :
  drains kept [] (Ok tt) kept → feed kept chunks = (xs, o, rest) →
  ∃ later, drains (kept ++ concat chunks) xs o (rest ++ later).
Proof.
  revert kept xs o rest. induction chunks as [|chunk chunks IH];
    intros kept xs o rest Hq; cbn [feed concat].
  { intros; simplify_eq. exists []. by rewrite !app_nil_r. }
  destruct (drain (kept ++ chunk)) as [[ys p] mid] eqn:Hd.
  apply drain_iff in Hd. rewrite app_assoc. destruct p as [[]|e|].
  - destruct (feed mid chunks) as [[zs q] last] eqn:Hf. intros; simplify_eq.
    apply IH in Hf as [later Hl]; [|by eapply drains_quiet].
    exists later. by eapply drains_app.
  - intros; simplify_eq. eexists. by apply drains_app_failed.
  - intros; simplify_eq. eexists. by apply drains_app_failed.
Qed.

Lemma drains_nil : drains [] [] (Ok tt) [].
Proof. by apply drains_wait, decodes_short. Qed.

Lemma feed_concat chunks :
  (feed [] chunks).1 = (drain (concat chunks)).1.
Proof.
  destruct (feed [] chunks) as [[xs o] rest] eqn:Hf.
  apply feed_drains in Hf as [later Hl]; [|apply drains_nil].
  apply drain_iff in Hl. simpl in Hl. by rewrite Hl.
Qed.

(** A run of complete frames is drained frame by frame. *)
Lemma drains_frames (fs : list (u8 * bytes)) xs rest :
  Forall2 (λ f x, ∃ k, try_from f.1 = Some k ∧
     len f.2 <= MAXIMUM_PAYLOAD_BYTES ∧ decode_command k f.2 = Ok x) fs xs →
  decodes rest (Ok None) rest →
  drains (concat (map (λ f, frame_bytes f.1 f.2) fs) ++ rest) xs (Ok tt) rest.
Proof.
  intros Hall Hrest. induction Hall as [|[c p] x fs xs (k&Hk&Hp&Hx) _ IH].
  - by apply drains_wait.
  - cbn [map concat fst snd] in *. rewrite <-app_assoc.
    eapply drains_item; [|exact IH].
    pose proof (decodes_frame try_from decode_command c k p
      (concat (map (λ f, frame_bytes f.1 f.2) fs) ++ rest) Hk Hp) as Hf.
    by rewrite Hx in Hf.
Qed.
End drain.

(** ** Encoding *)

Section encode.
Context `{ExternalErrors} {E T : Type} `{!Message T, !CommandCodec T}.
Context (into : CodecError.CodecError -> E).

Lemma encode_frame_Ok (item : T) out payload :
  prost_encode item = Ok payload → len payload <= U32_MAX →
  encode_frame into item out = (Ok tt, out ++ frame_bytes (COMMAND T) payload).
Proof.
  intros Hp Hl. unfold encode_frame, encode_payload, u32_try_from.
  rewrite Hp. cbn [map_err].
  by destruct (Z.leb_spec (len payload) U32_MAX); [|lia].
Qed.

Lemma encode_frame_inv (item : T) out out' :
  encode_frame into item out = (Ok tt, out') →
  ∃ payload, prost_encode item = Ok payload ∧ len payload <= U32_MAX ∧
             out' = out ++ frame_bytes (COMMAND T) payload.
Proof.
  unfold encode_frame, encode_payload, u32_try_from, frame_bytes.
  destruct (prost_encode item) as [p|e|]; cbn [map_err]; [|done..].
  destruct (Z.leb_spec (len p) U32_MAX); intros; simplify_eq. eauto.
Qed.

(** A failed encoding leaves the output as it was. *)
Lemma encode_frame_failed (item : T) out :
  (encode_frame into item out).1 ≠ Ok tt →
  (encode_frame into item out).2 = out.
Proof.
  unfold encode_frame. by repeat case_match.
Qed.
End encode.
