(* ===== verification/CodecSpec.v ===== *)
(** Correctness of the codecs of [parser.rs]: the theorems about
    [ServerCodec] and [ClientCodec], for every lawful implementation of the
    message encodings, with their instances at the wire format of [Wire]. *)
From S2P Require Import Prelude Errors Messages ClientId Parser Wire CodecFacts.
Local Open Scope Z_scope.

(** ** Commands *)

(** The command a server-side frame carries, and its message encoded. *)
Definition server_command (k : ServerInboundCommand.ServerInboundCommand) : u8 :=
  match k with
  | ServerInboundCommand.Connect => COMMAND pb.Connect
  | ServerInboundCommand.Publish => COMMAND pb.Publish
  | ServerInboundCommand.Subscribe => COMMAND pb.Subscribe
  | ServerInboundCommand.UnSubscribe => COMMAND pb.UnSubscribe
  end.
Definition client_command (k : ClientInboundCommand.ClientInboundCommand) : u8 :=
  match k with
  | ClientInboundCommand.Info => COMMAND pb.Info
  | ClientInboundCommand.Message => COMMAND pb.Message
  end.

Lemma server_try_from_iff c k :
  ServerInboundCommand.try_from c = Some k ↔ c = server_command k.
Proof.
  unfold ServerInboundCommand.try_from.
  split; [|intros ->; by destruct k].
  intros H; res_inv; bool_prop; by subst.
Qed.

Lemma client_try_from_iff c k :
  ClientInboundCommand.try_from c = Some k ↔ c = client_command k.
Proof.
  unfold ClientInboundCommand.try_from.
  split; [|intros ->; by destruct k].
  intros H; res_inv; bool_prop; by subst.
Qed.

(** ** Sending frames *)

Section sending.
Context `{Prost}.

(** A client sends a frame by encoding its message. *)
Definition client_send (f : Frame.Frame) (out : bytes)
  : result ClientCodecError.ClientCodecError unit * bytes :=
  match f with
  | Frame.Connect m => ClientCodec.encode m out
  | Frame.Publish m => ClientCodec.encode m out
  | Frame.Subscribe m => ClientCodec.encode m out
  | Frame.UnSubscribe m => ClientCodec.encode m out
  end.
Definition server_send (f : ClientFrame.ClientFrame) (out : bytes)
  : result ServerCodecError.ServerCodecError unit * bytes :=
  match f with
  | ClientFrame.Info m => ServerCodec.encode m out
  | ClientFrame.Message m => ServerCodec.encode m out
  end.

(** Send frames one after the other into one buffer, stopping at an error. *)
Fixpoint send_all {F E} (send : F -> bytes -> result E unit * bytes)
    (fs : list F) (out : bytes) : result E unit * bytes :=
  match fs with
  | [] => (Ok tt, out)
  | f :: fs =>
      match send f out with
      | (Ok _, out) => send_all send fs out
      | (e, out) => (e, out)
      end
  end.

(** The message is well typed and its encoding is within the limit. *)
Definition sendable {T} `{!Message T, !WellTyped T} (m : T) : Prop :=
  well_typed m ∧
  ∀ p, prost_encode m = Ok p → len p <= MAXIMUM_PAYLOAD_BYTES.
Definition client_sendable (f : Frame.Frame) : Prop :=
  match f with
  | Frame.Connect m => sendable m
  | Frame.Publish m => sendable m
  | Frame.Subscribe m => sendable m
  | Frame.UnSubscribe m => sendable m
  end.
Definition server_sendable (f : ClientFrame.ClientFrame) : Prop :=
  match f with
  | ClientFrame.Info m => sendable m
  | ClientFrame.Message m => sendable m
  end.

Context `{!ProstLaws}.

(** Encoding a sendable message appends its frame. *)
Lemma sendable_encode {T E} `{!Message T, !WellTyped T, !CommandCodec T,
    !MessageLaws T} (into : CodecError.CodecError -> E) (m : T) :
  sendable m → ∃ p, prost_decode p = Ok m ∧ len p <= MAXIMUM_PAYLOAD_BYTES ∧
    ∀ out, encode_frame into m out = (Ok tt, out ++ frame_bytes (COMMAND T) p).
Proof.
  intros [Hwt Hmax]. destruct (prost_encode_Ok m Hwt) as [p Hp].
  specialize (Hmax p Hp). exists p. split; [by eapply prost_decode_encode|].
  split; [done|]. intros out. apply encode_frame_Ok; [done|].
  unfold MAXIMUM_PAYLOAD_BYTES, U32_MAX in *. lia.
Qed.

Lemma client_send_frame f :
  client_sendable f → ∃ k p,
    ServerCodec.decode_command k p = Ok f ∧ len p <= MAXIMUM_PAYLOAD_BYTES ∧
    ∀ out, client_send f out = (Ok tt, out ++ frame_bytes (server_command k) p).
Proof.
  destruct f as [m|m|m|m]; simpl; intros Hs;
    eapply (sendable_encode ClientCodecError.Codec) in Hs as (p&Hd&Hl&He);
    [exists ServerInboundCommand.Connect, p
    |exists ServerInboundCommand.Publish, p
    |exists ServerInboundCommand.Subscribe, p
    |exists ServerInboundCommand.UnSubscribe, p];
    (split_and!; [|done|exact He]);
    unfold ServerCodec.decode_command, decode_payload; by rewrite Hd.
Qed.

Lemma server_send_frame f :
  server_sendable f → ∃ k p,
    ClientCodec.decode_command k p = Ok f ∧ len p <= MAXIMUM_PAYLOAD_BYTES ∧
    ∀ out, server_send f out = (Ok tt, out ++ frame_bytes (client_command k) p).
Proof.
  destruct f as [m|m]; simpl; intros Hs;
    eapply (sendable_encode ServerCodecError.Codec) in Hs as (p&Hd&Hl&He);
    [exists ClientInboundCommand.Info, p
    |exists ClientInboundCommand.Message, p];
    (split_and!; [|done|exact He]);
    unfold ClientCodec.decode_command, decode_payload; by rewrite Hd.
Qed.

(** Sending a list of frames appends their bytes, which the other side drains
    to the same list. *)
Lemma send_all_drain {F E E' Cmd} (send : F -> bytes -> result E unit * bytes)
    (try_from : u8 -> option Cmd) (decode_command : Cmd -> bytes -> result E' F)
    (command : Cmd -> u8) fs :
  (∀ k, try_from (command k) = Some k) →
  Forall (λ f, ∃ k p, decode_command k p = Ok f ∧
    len p <= MAXIMUM_PAYLOAD_BYTES ∧
    ∀ out, send f out = (Ok tt, out ++ frame_bytes (command k) p)) fs →
  ∃ buf, (∀ out, send_all send fs out = (Ok tt, out ++ buf)) ∧
    ∀ rest, decodes try_from decode_command rest (Ok None) rest →
      drain try_from decode_command (buf ++ rest) = (fs, Ok tt, rest).
Proof.
  intros Hcmd Hall.
  assert (∃ ps, Forall2 (λ (q : u8 * bytes) f, ∃ k, try_from q.1 = Some k ∧
      len q.2 <= MAXIMUM_PAYLOAD_BYTES ∧ decode_command k q.2 = Ok f) ps fs ∧
    ∀ out, send_all send fs out =
      (Ok tt, out ++ concat (map (λ q, frame_bytes q.1 q.2) ps))) as (ps&Hps&Hs).
  { induction Hall as [|f fs (k&p&Hd&Hl&Hf) _ (ps&IH&Hs)].
    - exists []. split; [constructor|]. intros. by rewrite app_nil_r.
    - exists ((command k, p) :: ps). split; [constructor; eauto|].
      intros out. cbn [send_all map concat fst snd].
      by rewrite Hf, Hs, app_assoc. }
  exists (concat (map (λ q, frame_bytes q.1 q.2) ps)). split; [done|].
  intros rest Hrest. apply drain_iff. by apply drains_frames.
Qed.

Lemma server_decode_no_panic k p : ServerCodec.decode_command k p ≠ Panic.
Proof.
  unfold ServerCodec.decode_command, decode_payload.
  destruct k; cbn [map_err fmap result_fmap];
    match goal with |- context [prost_decode (M:=?M) p] =>
      pose proof (prost_decode_no_panic (M:=M) p) end; by destruct prost_decode.
Qed.
Lemma client_decode_no_panic k p : ClientCodec.decode_command k p ≠ Panic.
Proof.
  unfold ClientCodec.decode_command, decode_payload.
  destruct k; cbn [map_err fmap result_fmap];
    match goal with |- context [prost_decode (M:=?M) p] =>
      pose proof (prost_decode_no_panic (M:=M) p) end; by destruct prost_decode.
Qed.
End sending.

(** ** Theorems *)

(** C3: The decoders implement their specification: whatever the buffer holds,
    a call skips exactly the bytes at which no acceptable header starts, waits
    for the rest of an incomplete frame, and otherwise consumes one whole frame
    and answers with its decoded payload (or the payload's decoding error). *)
Theorem decode_refines_spec `{Prost} :
  (∀ buf r rest, ServerCodec.decode buf = (r, rest) ↔
     decodes ServerInboundCommand.try_from ServerCodec.decode_command
       buf r rest) ∧
  (∀ buf r rest, ClientCodec.decode buf = (r, rest) ↔
     decodes ClientInboundCommand.try_from ClientCodec.decode_command
       buf r rest).
Proof. split; intros; apply decode_iff. Qed.

(** C4: Round trip from client to server: frames a client encodes into one
    buffer come out of the server's decoder in order and unchanged, nothing is
    left over, and every encoding succeeds. *)
Theorem client_to_server_roundtrip `{ProstLaws} (fs : list Frame.Frame) :
  Forall client_sendable fs →
  ∃ buf, send_all client_send fs [] = (Ok tt, buf) ∧
    drain ServerInboundCommand.try_from ServerCodec.decode_command buf =
    (fs, Ok tt, []).
Proof.
  intros Hall.
  destruct (send_all_drain client_send ServerInboundCommand.try_from
    ServerCodec.decode_command server_command fs) as (buf&Hs&Hd).
  - intros k. by apply server_try_from_iff.
  - eapply Forall_impl; [exact Hall|]. apply client_send_frame.
  - exists buf. split; [apply Hs|]. rewrite <-(app_nil_r buf) at 1.
    apply Hd. by apply decodes_short.
Qed.

Definition sample_frames : list Frame.Frame :=
  [Frame.Connect (ClientOutbound.connect_with_password 1 true "ann" "secret");
   Frame.Subscribe (pb.mkSubscribe (bstr "sensors/#") 7 "workers");
   Frame.Publish (pb.mkPublish (bstr "sensors/temperature") (bstr "42.5")
     (bstr "content-type:text/plain"));
   Frame.UnSubscribe (pb.mkUnSubscribe 7)].

Lemma sample_frames_sendable : Forall client_sendable sample_frames.
Proof.
  repeat constructor; cbn -[prost_encode]; try done;
    intros p [= <-]; vm_compute; discriminate.
Qed.

(** The hypotheses hold of four concrete frames in the proto3 encoding. *)
Lemma client_to_server_roundtrip_witness :
  Forall client_sendable sample_frames ∧
  ∃ buf, send_all client_send sample_frames [] = (Ok tt, buf) ∧
    drain ServerInboundCommand.try_from ServerCodec.decode_command buf =
    (sample_frames, Ok tt, []).
Proof.
  split; [exact sample_frames_sendable|].
  apply (client_to_server_roundtrip sample_frames).
  exact sample_frames_sendable.
Defined.

(** C20: Round trip from server to client: the INFO and MESSAGE frames a server
    encodes into one buffer come out of the client's decoder in order and
    unchanged. *)
Theorem server_to_client_roundtrip `{ProstLaws}
    (fs : list ClientFrame.ClientFrame) :
  Forall server_sendable fs →
  ∃ buf, send_all server_send fs [] = (Ok tt, buf) ∧
    drain ClientInboundCommand.try_from ClientCodec.decode_command buf =
    (fs, Ok tt, []).
Proof.
  intros Hall.
  destruct (send_all_drain server_send ClientInboundCommand.try_from
    ClientCodec.decode_command client_command fs) as (buf&Hs&Hd).
  - intros k. by apply client_try_from_iff.
  - eapply Forall_impl; [exact Hall|]. apply server_send_frame.
  - exists buf. split; [apply Hs|]. rewrite <-(app_nil_r buf) at 1.
    apply Hd. by apply decodes_short.
Qed.

Definition sample_deliveries : list ClientFrame.ClientFrame :=
  [ClientFrame.Info ServerOutbound.default_info;
   ClientFrame.Message (pb.mkMessage (bstr "sensors/temperature") 3
     (bstr "23.1") (bstr "encoding:utf-8"))].

Lemma server_to_client_roundtrip_witness :
  ∃ buf, send_all server_send sample_deliveries [] = (Ok tt, buf) ∧
    drain ClientInboundCommand.try_from ClientCodec.decode_command buf =
    (sample_deliveries, Ok tt, []).
Proof.
  apply (server_to_client_roundtrip sample_deliveries).
  repeat constructor; cbn -[prost_encode]; try done;
    intros p [= <-]; vm_compute; discriminate.
Defined.

(** C13: How the network splits the byte stream does not matter: decoding after
    each chunk that arrives yields the same frames, and the same outcome, as
    decoding the whole stream at once. *)
Theorem decode_chunking_independent `{Prost} (chunks : list bytes) :
  (feed ServerInboundCommand.try_from ServerCodec.decode_command [] chunks).1 =
  (drain ServerInboundCommand.try_from ServerCodec.decode_command
     (concat chunks)).1 ∧
  (feed ClientInboundCommand.try_from ClientCodec.decode_command [] chunks).1 =
  (drain ClientInboundCommand.try_from ClientCodec.decode_command
     (concat chunks)).1.
Proof. split; apply feed_concat. Qed.

(** C21: Resynchronisation: after any number of bytes none of which is a command
    the server accepts, the next well-formed frame is decoded, and exactly the
    noise and the frame are consumed. *)
Theorem server_resynchronises `{ProstLaws} (noise : bytes) f out rest :
  Forall (λ c, ServerInboundCommand.try_from c = None) noise →
  client_sendable f → client_send f noise = (Ok tt, out) →
  ServerCodec.decode (out ++ rest) = (Ok (Some f), rest).
Proof.
  intros Hnoise Hf Hs. apply client_send_frame in Hf as (k&p&Hd&Hl&Hsend).
  rewrite Hsend in Hs. simplify_eq. rewrite <-app_assoc.
  apply decodes_decode. apply decodes_noise; [done|unfold frame_bytes; change HEADER_LENGTH with 5; len_lia|].
  pose proof (decodes_frame ServerInboundCommand.try_from
    ServerCodec.decode_command (server_command k) k p rest) as Hfr.
  rewrite Hd in Hfr. apply Hfr; [by apply server_try_from_iff|done].
Qed.

Lemma server_resynchronises_witness :
  ServerCodec.decode
    ((client_send (Frame.UnSubscribe (pb.mkUnSubscribe 42)) [xff; x05]).2
       ++ bstr "tail")
  = (Ok (Some (Frame.UnSubscribe (pb.mkUnSubscribe 42))), bstr "tail").
Proof.
  apply (server_resynchronises [xff; x05]
    (Frame.UnSubscribe (pb.mkUnSubscribe 42))).
  - repeat constructor.
  - split; [by vm_compute|]. intros p [= <-]; vm_compute; discriminate.
  - vm_compute. reflexivity.
Defined.

(** C22: Progress and bounded buffering: a call only drops bytes from the front
    of the buffer; a frame costs at least a header; a decoder that waits for
    more input holds fewer bytes than the longest frame, 5 + 1 MiB. *)
Theorem decode_progress_and_bound `{Prost} buf r rest :
  ServerCodec.decode buf = (r, rest) →
  (∃ dropped, buf = dropped ++ rest) ∧
  match r with
  | Ok (Some _) => len rest + HEADER_LENGTH <= len buf
  | Ok None => len rest < HEADER_LENGTH + MAXIMUM_PAYLOAD_BYTES
  | _ => True
  end.
Proof.
  intros Hd. apply decode_iff in Hd. split; [by eapply decodes_suffix|].
  destruct r as [[x|]| |]; [..|done|done].
  - by eapply decodes_Some_shorter.
  - by eapply decodes_None_bound.
Qed.

Lemma decode_progress_and_bound_witness :
  (∃ dropped, [xff; x02; x00; x00; x00; x09; x61] =
     dropped ++ [x02; x00; x00; x00; x09; x61]) ∧
  len [x02; x00; x00; x00; x09; x61] < HEADER_LENGTH + MAXIMUM_PAYLOAD_BYTES.
Proof.
  apply (decode_progress_and_bound [xff; x02; x00; x00; x00; x09; x61]
    (Ok None)).
  vm_compute. reflexivity.
Defined.

(** C23: No input makes a decoder panic: every slice, [advance] and [split_to]
    of the decoders is in range for every buffer. *)
Theorem decode_never_panics `{ProstLaws} buf :
  (ServerCodec.decode buf).1 ≠ Panic ∧ (ClientCodec.decode buf).1 ≠ Panic.
Proof.
  split; (eapply decodes_no_panic; [|apply decode_decodes]).
  - apply server_decode_no_panic.
  - apply client_decode_no_panic.
Qed.

Lemma decode_never_panics_witness :
  (ServerCodec.decode [x02; x00; x00; x00; x01; x0a]).1 ≠ Panic ∧
  (ClientCodec.decode [x02; x00; x00; x00; x01; x0a]).1 ≠ Panic.
Proof. apply (decode_never_panics [x02; x00; x00; x00; x01; x0a]). Defined.

(** C33: The encoders do not enforce the limit the decoders enforce.  A MESSAGE whose
    encoding is over 1 MiB (and under 4 GiB) is encoded without an error, and its
    receiver reads on inside it: if the decoder skips to bytes of a frame in it
    (bytes that the publisher may have chosen), it returns that frame, which nobody
    sent, and goes on behind it. *)
Theorem oversized_message_smuggles `{ProstLaws} (m : pb.Message) p f inner post :
  prost_encode m = Ok p → MAXIMUM_PAYLOAD_BYTES < len p <= U32_MAX →
  server_sendable f → server_send f [] = (Ok tt, inner) →
  skips ClientInboundCommand.try_from (put_u32 (len p) ++ p) (inner ++ post) →
  ∃ frame, ServerCodec.encode m [] = (Ok tt, frame) ∧
    ∀ rest, ClientCodec.decode (frame ++ rest) = (Ok (Some f), post ++ rest).
Proof.
  intros Hp Hl Hf Hinner Hskip. exists (frame_bytes (COMMAND pb.Message) p).
  split; [exact (encode_frame_Ok _ m [] p Hp (proj2 Hl))|]. intros rest.
  destruct (server_send_frame f Hf) as (k&q&Hd&Hq&Hs). rewrite Hs in Hinner.
  injection Hinner as <-. unfold ClientCodec.decode, frame_bytes at 1. cbn [app].
  rewrite <-app_assoc, decode_skip by
    (unfold in_u32, U32_MAX in *; first [len_lia|right; lia]).
  apply skips_app with (more := rest) in Hskip. rewrite <-!app_assoc in Hskip.
  rewrite (decode_skips _ _ _ _ Hskip). rewrite decode_frame with (k := k); [|..|done].
  - by rewrite Hd.
  - by apply client_try_from_iff.
Qed.

(** A MESSAGE whose payload is an INFO frame and a mebibyte behind it. *)
Definition inner_frame : bytes := (server_send (ClientFrame.Info ServerOutbound.default_info) []).2.
Definition padding : bytes := replicate (Z.to_nat MAXIMUM_PAYLOAD_BYTES) x61.
Definition big_message : pb.Message := pb.mkMessage [] 0 (inner_frame ++ padding) [].
Definition big_encoded : bytes := put_field (3, Delimited (inner_frame ++ padding)) ++ [].

Lemma big_message_encoded : prost_encode big_message = Ok big_encoded.
Proof. reflexivity. Qed.

Lemma big_payload_len : len (inner_frame ++ padding) = len inner_frame + 1048576.
Proof.
  assert (Hp : len padding = 1048576).
  { unfold padding, len. by rewrite length_replicate, Z2Nat.id. }
  by rewrite len_app, Hp.
Qed.

Lemma big_encoded_eq :
  big_encoded = [x1a; Z_byte (128 + (len inner_frame + 1048576) `mod` 128); x80; x40]
    ++ inner_frame ++ padding.
Proof.
  unfold big_encoded, put_field. cbn [fst snd]. rewrite big_payload_len, app_nil_r.
  by rewrite app_assoc.
Qed.

Lemma big_encoded_len : len big_encoded = len inner_frame + 1048580.
Proof.
  rewrite big_encoded_eq, len_app, big_payload_len. rewrite !len_cons, len_nil. lia.
Qed.

Lemma big_encoded_skips :
  skips ClientInboundCommand.try_from (put_u32 (len big_encoded) ++ big_encoded)
    (inner_frame ++ padding).
Proof.
  rewrite big_encoded_len, big_encoded_eq.
  assert (Hl : put_u32 (len inner_frame + 1048580) = [x00; x10; x00; x28])
    by (vm_compute; reflexivity).
  assert (Hv : Z_byte (128 + (len inner_frame + 1048576) `mod` 128) = xa4)
    by (vm_compute; reflexivity).
  assert (Hi : inner_frame = [x00; x00; x00; x00] ++ drop 4 inner_frame)
    by (vm_compute; reflexivity).
  rewrite Hl, Hv, Hi. generalize (drop 4 inner_frame). intros tl. cbn [app].
  do 8 (eapply skips_step;
    [vm_compute; reflexivity
    |first [left; vm_compute; reflexivity|right; vm_compute; reflexivity]|]).
  apply skips_none.
Qed.

Lemma oversized_message_smuggles_witness :
  ∃ frame, ServerCodec.encode big_message [] = (Ok tt, frame) ∧
    ∀ rest, ClientCodec.decode (frame ++ rest) =
      (Ok (Some (ClientFrame.Info ServerOutbound.default_info)), padding ++ rest).
Proof.
  apply (oversized_message_smuggles big_message big_encoded
    (ClientFrame.Info ServerOutbound.default_info) inner_frame padding).
  - exact big_message_encoded.
  - rewrite big_encoded_len. split; vm_compute; [reflexivity|discriminate].
  - split; [vm_compute; intuition discriminate|].
    intros p [= <-]. vm_compute. discriminate.
  - vm_compute. reflexivity.
  - exact big_encoded_skips.
Defined.

(** The two directions do not overlap: a byte is accepted by [try_from]
    exactly when it is the command of the result, and no byte is a command for
    both sides. *)
Theorem commands_partition c :
  (∀ k, ServerInboundCommand.try_from c = Some k ↔ c = server_command k) ∧
  (∀ k, ClientInboundCommand.try_from c = Some k ↔ c = client_command k) ∧
  (ServerInboundCommand.try_from c = None ∨
   ClientInboundCommand.try_from c = None).
Proof.
  split_and!; [apply server_try_from_iff|apply client_try_from_iff|].
  destruct (ServerInboundCommand.try_from c) as [k|] eqn:Hk; [|by left].
  apply server_try_from_iff in Hk as ->. right. by destruct k.
Qed.
