(* ===== verification/Topic.v ===== *)
(** Topics and topic filters, [crates/server/src/topic.rs]: validation of the
    bytes a client sends, and the segments the router works on. *)
From S2P Require Import Prelude Errors.
From stdpp Require Import pretty.
Local Open Scope Z_scope.
Import TopicError.

Definition MAX_LAYERS : usize := 8.
Definition MAX_TOPIC_LENGTH : usize := 256.

Definition WILDCARD_SINGLE : bytes := bstr "+".
Definition WILDCARD_SINGLE_BYTE : u8 := "+"%byte.
Definition WILDCARD_MULTI : bytes := bstr "#".
Definition WILDCARD_MULTI_BYTE : u8 := "#"%byte.
Definition SYS_PREFIX : bytes := bstr "$SYS".
Definition GLOBAL_PREFIX : bytes := bstr "$G".
Definition SEP_BYTE : u8 := "/"%byte.

(** ** Validation *)

Definition validate_raw (raw : bytes) : result TopicError bytes :=
  if is_empty raw then Err Empty
  else if MAX_TOPIC_LENGTH <? len raw then Err (TooLong (len raw))
  else
    first ← index raw 0;
    if first =b SEP_BYTE then Err LeadingSlash
    else
      last ← index raw (len raw - 1);
      if last =b SEP_BYTE then Err TrailingSlash
      else Ok raw.

Definition validate_segments (raw : bytes) : result TopicError (list bytes) :=
  raw ← validate_raw raw;
  let segments := split_on (λ byte, byte =b SEP_BYTE) raw in
  if existsb is_empty segments then Err EmptyLayer
  else if MAX_LAYERS <? len segments then Err (TooManyLayers (len segments))
  else
    first ← index segments 0;
    if first =b SYS_PREFIX then Err ReservedSysPrefix
    else if (first =b GLOBAL_PREFIX) && (len segments <? 2)
    then Err GlobalPrefixWithoutTopic
    else Ok segments.

Definition has_wildcard (seg : bytes) : bool :=
  contains seg WILDCARD_SINGLE_BYTE || contains seg WILDCARD_MULTI_BYTE.

Definition matchable_segments (segments : list bytes)
  : result TopicError (list bytes) :=
  first ← index segments 0;
  if first =b GLOBAL_PREFIX then slice_from_1 segments else Ok segments.

Definition validate_no_wildcards (segments : list bytes)
  : result TopicError unit :=
  matchable ← matchable_segments segments;
  try_for_each
    (λ seg, if has_wildcard seg then Err WildcardInPublishTopic else Ok tt)
    matchable.

Definition validate_wildcard_placement (segments : list bytes)
  : result TopicError unit :=
  matchable ← matchable_segments segments;
  try_for_each
    (λ '(i, seg),
      if (seg =b WILDCARD_SINGLE) || (seg =b WILDCARD_MULTI) then
        if (seg =b WILDCARD_MULTI)
           && negb (Z.of_nat i =? len matchable - 1)
        then Err MultiWildcardNotTerminal
        else Ok tt
      else if has_wildcard seg then Err InvalidWildcardUsage
      else Ok tt)
    (imap pair matchable).

(** [{:?}] of a byte slice: the decimal values in brackets. *)
Definition debug_bytes (l : bytes) : string :=
  "[" +:+ String.concat ", " (map (λ x, pretty (Byte.to_N x)) l) +:+ "]".
Definition fmt_bytes (l : bytes) : string :=
  if valid_utf8 l then String.string_of_list_byte l else debug_bytes l.

(** ** Publish topics *)

Module Topic.
Record Topic : Type := mk { bytes_0 : bytes }.

Definition new (raw : bytes) : result TopicError Topic :=
  _ ← (validate_segments raw ≫= validate_no_wildcards);
  Ok (mk raw).

Definition as_bytes (t : Topic) : bytes := bytes_0 t.

Definition segments (t : Topic) : list bytes :=
  filter (λ s, negb (is_empty s))
    (split_on (λ byte, byte =b SEP_BYTE) (bytes_0 t)).

Definition fmt (t : Topic) : string := fmt_bytes (bytes_0 t).

(** [From<Bytes>] and [From<&'static [u8]>]: no validation. *)
Definition from (raw : bytes) : Topic := mk raw.
End Topic.

(** ** Subscribe filters *)

Module TopicFilter.
Record TopicFilter : Type := mk { bytes_0 : bytes }.

Definition new (raw : bytes) : result TopicError TopicFilter :=
  _ ← (validate_segments raw ≫= validate_wildcard_placement);
  Ok (mk raw).

Definition as_bytes (t : TopicFilter) : bytes := bytes_0 t.

Definition segments (t : TopicFilter) : list bytes :=
  filter (λ s, negb (is_empty s))
    (split_on (λ byte, byte =b SEP_BYTE) (bytes_0 t)).

Definition fmt (t : TopicFilter) : string := fmt_bytes (bytes_0 t).
End TopicFilter.

#[export] Instance Topic_eq_dec : EqDecision Topic.Topic.
Proof. solve_decision. Defined.
#[export] Instance TopicFilter_eq_dec : EqDecision TopicFilter.TopicFilter.
Proof. solve_decision. Defined.
