(* ===== verification/TopicSpec.v ===== *)
(** Correctness of topic validation: the language of accepted topics and
    filters, the cause of every rejection, and the segments the router sees. *)
From S2P Require Import Prelude Errors Topic.
Local Open Scope Z_scope.
Import TopicError.

(** ** The shape of a topic *)

Definition leading_slash (raw : bytes) : Prop := ∃ l, raw = SEP_BYTE :: l.
Definition trailing_slash (raw : bytes) : Prop := ∃ l, raw = l ++ [SEP_BYTE].
Definition double_slash (raw : bytes) : Prop :=
  ∃ l r, raw = l ++ SEP_BYTE :: SEP_BYTE :: r.

(** A layer: at least one byte, none of them a separator. *)
Definition layer (s : bytes) : Prop := s ≠ [] ∧ SEP_BYTE ∉ s.
Definition wildcard_free (s : bytes) : Prop :=
  (WILDCARD_SINGLE_BYTE ∉ s) ∧ (WILDCARD_MULTI_BYTE ∉ s).

(** The grammar topics and filters share: one to eight layers with separators
    between them, at most 256 bytes, the first layer not ["$SYS"], and not the
    bare prefix ["$G"]. *)
Record layered (raw : bytes) (segs : list bytes) : Prop := {
  layered_join : raw = join_sep SEP_BYTE segs;
  layered_some : segs ≠ [];
  layered_layers : Forall layer segs;
  layered_length : len raw <= MAX_TOPIC_LENGTH;
  layered_count : len segs <= MAX_LAYERS;
  layered_sys : head segs ≠ Some SYS_PREFIX;
  layered_global : segs ≠ [GLOBAL_PREFIX];
}.

(** The layers of a publish topic, and of a filter: ['+'] anywhere, ['#'] last,
    no other layer with a wildcard byte. *)
Definition publish_layers (segs : list bytes) : Prop := Forall wildcard_free segs.
Definition filter_layers (segs : list bytes) : Prop :=
  ∀ i s, segs !! i = Some s →
    s = WILDCARD_SINGLE ∨ wildcard_free s ∨
    s = WILDCARD_MULTI ∧ S i = length segs.

(** ** Lemmas *)

Local Abbreviation split_raw raw := (split_on (λ byte, byte =b SEP_BYTE) raw).

Lemma index_0 {E A} (l : list A) : index (E:=E) l 0 = unwrap (head l).
Proof. by destruct l. Qed.

Lemma index_last {E A} (l : list A) : index (E:=E) l (len l - 1) = unwrap (last l).
Proof.
  unfold index, len. destruct l as [|x l]; [done|].
  destruct (Z.ltb_spec (Z.of_nat (length (x :: l)) - 1) 0) as [H|_];
    [simpl in H; lia|].
  rewrite last_lookup. do 2 f_equal. lia.
Qed.

Lemma leading_slash_head raw : leading_slash raw ↔ head raw = Some SEP_BYTE.
Proof.
  unfold leading_slash. destruct raw; simpl; split.
  - by intros [??].
  - done.
  - by intros [? [= -> _]].
  - intros [= ->]. eauto.
Qed.
Lemma trailing_slash_last raw : trailing_slash raw ↔ last raw = Some SEP_BYTE.
Proof. symmetry. apply last_Some. Qed.

Lemma existsb_is_empty (ss : list bytes) :
  existsb is_empty ss = true ↔ [] ∈ ss.
Proof.
  induction ss as [|s ss IH]; simpl; [split; [done|by intros ?%elem_of_nil]|].
  rewrite orb_true_iff, IH, elem_of_cons. destruct s; simpl; intuition congruence.
Qed.

(** An empty piece means an empty slice, or a separator at an end or doubled. *)
Lemma empty_piece raw :
  [] ∈ split_raw raw ↔
  raw = [] ∨ leading_slash raw ∨ trailing_slash raw ∨ double_slash raw.
Proof.
  split.
  - intros (s1&s2&Hs)%list_elem_of_split.
    assert (Hraw : raw = join_sep SEP_BYTE (s1 ++ [] :: s2)).
    { by rewrite <-Hs, join_sep_split_on. }
    destruct (decide (s1 = [])) as [->|H1]; simpl in Hraw.
    { destruct s2; [by left|]. right; left. rewrite Hraw. by eexists. }
    rewrite join_sep_app in Hraw by done.
    destruct (decide (s2 = [])) as [->|H2].
    { right; right; left. rewrite Hraw. by eexists. }
    right; right; right. rewrite join_sep_cons in Hraw by done.
    rewrite Hraw. by do 2 eexists.
  - intros [->|[[l ->]|[[l ->]|(l&r&->)]]].
    + by left.
    + cbn [split_on]. rewrite beq_refl. by left.
    + rewrite split_on_app_sep by apply beq_refl.
      apply elem_of_app. right. by left.
    + rewrite split_on_app_sep by apply beq_refl.
      apply elem_of_app. right. cbn [split_on]. rewrite beq_refl. by left.
Qed.

(** What a successful [validate_raw] and its errors mean. *)
Lemma validate_raw_spec raw :
  validate_raw raw =
    if decide (raw = []) then Err Empty
    else if decide (MAX_TOPIC_LENGTH < len raw) then Err (TooLong (len raw))
    else if decide (head raw = Some SEP_BYTE) then Err LeadingSlash
    else if decide (last raw = Some SEP_BYTE) then Err TrailingSlash
    else Ok raw.
Proof.
  unfold validate_raw. rewrite index_0, index_last.
  destruct raw as [|x l]; [done|]. cbn [is_empty].
  rewrite (decide_False (P:=x :: l = [])) by done.
  destruct (Z.ltb_spec MAX_TOPIC_LENGTH (len (x :: l)));
    [by rewrite decide_True|rewrite decide_False by lia].
  cbn [head unwrap mbind result_bind].
  destruct (x =b SEP_BYTE) eqn:Hx; bool_prop.
  { subst. by rewrite decide_True. }
  rewrite (decide_False (P:=Some x = _)) by congruence.
  destruct (last (x :: l)) as [y|] eqn:Hl; [|by apply last_None in Hl].
  cbn [unwrap mbind result_bind]. destruct (beq_spec y SEP_BYTE).
  - subst. by rewrite decide_True.
  - rewrite decide_False by congruence. done.
Qed.

(** No slash is misplaced exactly when no piece is empty. *)
Lemma no_empty_piece raw :
  [] ∉ split_raw raw →
  raw ≠ [] ∧ head raw ≠ Some SEP_BYTE ∧ last raw ≠ Some SEP_BYTE.
Proof.
  rewrite empty_piece, leading_slash_head, trailing_slash_last. tauto.
Qed.

Lemma split_raw_layers raw :
  [] ∉ split_raw raw ↔ Forall layer (split_raw raw).
Proof.
  split.
  - intros Hne. apply Forall_forall. intros s Hs. split; [by intros ->|].
    intros Hin. pose proof (split_on_no_sep (λ byte, byte =b SEP_BYTE) raw) as H.
    rewrite Forall_forall in H. specialize (H s Hs). rewrite Forall_forall in H.
    specialize (H _ Hin). by rewrite beq_refl in H.
  - intros Hall Hin. rewrite Forall_forall in Hall. by destruct (Hall _ Hin).
Qed.

Lemma layers_split segs :
  segs ≠ [] → Forall layer segs → split_raw (join_sep SEP_BYTE segs) = segs.
Proof.
  intros Hne Hl. apply split_on_join_sep; [done|].
  eapply Forall_impl; [exact Hl|]. intros s [_ Hsep].
  apply Forall_forall. by intros x Hx ->.
Qed.

Lemma layered_split raw segs : layered raw segs → split_raw raw = segs.
Proof.
  intros [-> Hs Hl _ _ _ _]. by apply layers_split.
Qed.

(** The checks of [validate_segments], in order, as propositions. *)
Lemma validate_segments_spec raw :
  validate_segments raw =
    if decide (raw = []) then Err Empty
    else if decide (MAX_TOPIC_LENGTH < len raw) then Err (TooLong (len raw))
    else if decide (head raw = Some SEP_BYTE) then Err LeadingSlash
    else if decide (last raw = Some SEP_BYTE) then Err TrailingSlash
    else if decide ([] ∈ split_raw raw) then Err EmptyLayer
    else if decide (MAX_LAYERS < len (split_raw raw))
    then Err (TooManyLayers (len (split_raw raw)))
    else if decide (head (split_raw raw) = Some SYS_PREFIX)
    then Err ReservedSysPrefix
    else if decide (split_raw raw = [GLOBAL_PREFIX])
    then Err GlobalPrefixWithoutTopic
    else Ok (split_raw raw).
Proof.
  unfold validate_segments. rewrite validate_raw_spec.
  repeat (case_decide; [done|]). cbn [mbind result_bind].
  destruct (split_on_cons (λ byte, byte =b SEP_BYTE) raw) as (s&ss&->).
  destruct (existsb is_empty (s :: ss)) eqn:He.
  { apply existsb_is_empty in He. by rewrite decide_True. }
  rewrite (decide_False (P:=[] ∈ _)) by (rewrite <-existsb_is_empty; congruence).
  destruct (Z.ltb_spec MAX_LAYERS (len (s :: ss)));
    [by rewrite decide_True|rewrite decide_False by lia].
  rewrite index_0. cbn [head unwrap mbind result_bind].
  destruct (beq_spec s SYS_PREFIX) as [->|];
    [by rewrite decide_True|rewrite decide_False by congruence].
  destruct (beq_spec s GLOBAL_PREFIX) as [->|]; cbn [andb];
    [|by rewrite decide_False by congruence].
  destruct ss as [|s2 ss]; [done|]. rewrite decide_False by congruence.
  destruct (Z.ltb_spec (len (GLOBAL_PREFIX :: s2 :: ss)) 2) as [Hlt|]; [|done].
  unfold len in Hlt. simpl in Hlt. lia.
Qed.

Lemma validate_segments_Ok raw segs :
  validate_segments raw = Ok segs ↔ layered raw segs.
Proof.
  rewrite validate_segments_spec. split.
  - repeat (case_decide; [done|]). intros [= <-].
    split; try done; [by rewrite join_sep_split_on|..|lia|lia].
    + apply split_on_not_nil.
    + by apply split_raw_layers.
  - intros Hl. pose proof (layered_split _ _ Hl) as Hs.
    destruct Hl as [Hj Hsome Hlay Hlen Hcount Hsys Hglob].
    rewrite <-Hs in Hlay. apply split_raw_layers in Hlay.
    pose proof (no_empty_piece raw Hlay) as (?&?&?). rewrite Hs in *.
    by repeat (case_decide; [done || lia|]).
Qed.

Lemma has_wildcard_false s : has_wildcard s = false ↔ wildcard_free s.
Proof.
  unfold has_wildcard, contains, wildcard_free.
  by rewrite orb_false_iff, !bool_decide_eq_false.
Qed.

Lemma wildcard_free_global : wildcard_free GLOBAL_PREFIX.
Proof. apply has_wildcard_false. by vm_compute. Qed.

(** The segments wildcards are looked for in: all but a leading ["$G"]. *)
Lemma matchable_cases s ss :
  s = GLOBAL_PREFIX ∧ matchable_segments (s :: ss) = Ok ss ∨
  matchable_segments (s :: ss) = Ok (s :: ss).
Proof.
  unfold matchable_segments. rewrite index_0. cbn [head unwrap mbind result_bind].
  destruct (s =b GLOBAL_PREFIX) eqn:H; [left|by right].
  apply beq_true in H as ->. done.
Qed.

Lemma validate_no_wildcards_Ok segs :
  segs ≠ [] → validate_no_wildcards segs = Ok tt ↔ publish_layers segs.
Proof.
  intros Hne. destruct segs as [|s ss]; [done|].
  unfold validate_no_wildcards, publish_layers.
  assert (Hall : ∀ l, try_for_each (λ seg : bytes, if has_wildcard seg
      then Err WildcardInPublishTopic else Ok tt) l = Ok tt ↔
      Forall wildcard_free l).
  { intros l. rewrite try_for_each_Ok. apply Forall_proper; [|done].
    intros x. rewrite <-has_wildcard_false. by destruct (has_wildcard x). }
  destruct (matchable_cases s ss) as [[-> ->]| ->]; cbn [mbind result_bind];
    rewrite Hall; [|done].
  rewrite Forall_cons. pose proof wildcard_free_global. tauto.
Qed.

Lemma Forall_imap_pair {A} (P : nat * A → Prop) l :
  Forall P (imap pair l) ↔ ∀ i x, l !! i = Some x → P (i, x).
Proof.
  rewrite Forall_lookup. split.
  - intros H i x Hx. apply (H i). by rewrite list_lookup_imap, Hx.
  - intros H i [j x]. rewrite list_lookup_imap.
    destruct (l !! i) eqn:Hx; simpl; [|done]. intros [= <- <-]. auto.
Qed.

(** The check of one layer of a filter with [n] layers. *)
Lemma placement_check (n i : nat) (seg : bytes) :
  (if (seg =b WILDCARD_SINGLE) || (seg =b WILDCARD_MULTI) then
     if (seg =b WILDCARD_MULTI) && negb (Z.of_nat i =? Z.of_nat n - 1)
     then Err MultiWildcardNotTerminal else Ok tt
   else if has_wildcard seg then Err InvalidWildcardUsage else Ok tt) = Ok tt ↔
  seg = WILDCARD_SINGLE ∨ wildcard_free seg ∨ seg = WILDCARD_MULTI ∧ S i = n.
Proof.
  rewrite <-has_wildcard_false.
  destruct (beq_spec seg WILDCARD_SINGLE) as [->|]; [split; [by left|done]|].
  destruct (beq_spec seg WILDCARD_MULTI) as [->|]; simpl.
  - destruct (Z.eqb_spec (Z.of_nat i) (Z.of_nat n - 1)); simpl; split; try done.
    + intros _. right; right. split; [done|lia].
    + intros [?|[?|[_ ?]]]; [done|done|lia].
  - destruct (has_wildcard seg); intuition congruence.
Qed.

Lemma validate_wildcard_placement_Ok segs :
  segs ≠ [] → validate_wildcard_placement segs = Ok tt ↔ filter_layers segs.
Proof.
  intros Hne. destruct segs as [|s ss]; [done|].
  unfold validate_wildcard_placement, filter_layers.
  destruct (matchable_cases s ss) as [[-> ->]| ->]; cbn [mbind result_bind];
    rewrite try_for_each_Ok, Forall_imap_pair;
    setoid_rewrite placement_check; [|done].
  split.
  - intros H [|i] x; simpl.
    + intros [= <-]. right; left. apply wildcard_free_global.
    + intros Hx. destruct (H i x Hx) as [?|[?|[??]]]; auto.
  - intros H i x Hx. destruct (H (S i) x Hx) as [?|[?|[? [=]]]]; auto.
Qed.

(** The checks of the layers return a value on every list of segments. *)
Lemma try_for_each_no_panic {A} (f : A → result TopicError unit) l :
  (∀ x, f x ≠ Panic) → try_for_each f l ≠ Panic.
Proof.
  intros Hf. induction l as [|x l IH]; simpl; [done|].
  specialize (Hf x). by destruct (f x).
Qed.

Lemma no_wildcards_no_panic segs :
  segs ≠ [] → validate_no_wildcards segs ≠ Panic.
Proof.
  destruct segs as [|s ss]; [done|]. intros _. unfold validate_no_wildcards.
  destruct (matchable_cases s ss) as [[-> ->]| ->]; cbn [mbind result_bind];
    apply try_for_each_no_panic; intros x; by case_match.
Qed.

Lemma wildcard_placement_no_panic segs :
  segs ≠ [] → validate_wildcard_placement segs ≠ Panic.
Proof.
  destruct segs as [|s ss]; [done|]. intros _.
  unfold validate_wildcard_placement.
  destruct (matchable_cases s ss) as [[-> ->]| ->]; cbn [mbind result_bind];
    apply try_for_each_no_panic; intros [i x]; by repeat case_match.
Qed.

(** The first layer that breaks the wildcard rules, in a list of segments. *)
Definition offending (e : TopicError) (segs : list bytes) : Prop :=
  ∃ before s after, segs = before ++ s :: after ∧
    Forall (λ t, t = WILDCARD_SINGLE ∨ wildcard_free t) before ∧
    (s = WILDCARD_MULTI ∧ after ≠ [] ∧ e = MultiWildcardNotTerminal ∨
     s ≠ WILDCARD_SINGLE ∧ s ≠ WILDCARD_MULTI ∧ ¬ wildcard_free s ∧
     e = InvalidWildcardUsage).

Lemma placement_check_Err (n i : nat) (seg : bytes) e :
  (if (seg =b WILDCARD_SINGLE) || (seg =b WILDCARD_MULTI) then
     if (seg =b WILDCARD_MULTI) && negb (Z.of_nat i =? Z.of_nat n - 1)
     then Err MultiWildcardNotTerminal else Ok tt
   else if has_wildcard seg then Err InvalidWildcardUsage else Ok tt) = Err e ↔
  seg = WILDCARD_MULTI ∧ S i ≠ n ∧ e = MultiWildcardNotTerminal ∨
  seg ≠ WILDCARD_SINGLE ∧ seg ≠ WILDCARD_MULTI ∧ ¬ wildcard_free seg ∧
  e = InvalidWildcardUsage.
Proof.
  rewrite <-has_wildcard_false.
  destruct (beq_spec seg WILDCARD_SINGLE) as [->|].
  { split; [done|]. intros [[??]|[??]]; done. }
  destruct (beq_spec seg WILDCARD_MULTI) as [->|]; simpl.
  - destruct (Z.eqb_spec (Z.of_nat i) (Z.of_nat n - 1)); simpl.
    + split; [done|]. intros [(_&?&_)|(_&?&_)]; [lia|done].
    + split; [|intros [(_&_&->)|(_&?&_)]; done].
      intros [= <-]. left. split_and!; [done|lia|done].
  - destruct (has_wildcard seg); intuition congruence.
Qed.

Lemma try_for_each_imap_Err {E A} (f : nat * A → result E unit) l e :
  try_for_each f (imap pair l) = Err e ↔
  ∃ before x after, l = before ++ x :: after ∧
    (∀ j y, before !! j = Some y → f (j, y) = Ok tt) ∧
    f (length before, x) = Err e.
Proof.
  rewrite try_for_each_Err. split.
  - intros (l1&[i x]&l2&Heq&Hall&Hx).
    assert (Hi : imap pair l !! length l1 = Some (i, x)).
    { by rewrite Heq, list_lookup_middle. }
    rewrite list_lookup_imap in Hi.
    destruct (l !! length l1) as [y|] eqn:Hy; simplify_eq/=.
    exists (take (length l1) l), x, (drop (S (length l1)) l).
    split_and!; [by rewrite take_drop_middle|..].
    + intros j z [Hz Hj]%lookup_take_Some. rewrite Forall_lookup in Hall.
      apply (Hall j). rewrite <-(lookup_app_l l1 ((length l1, x) :: l2)) by done.
      by rewrite <-Heq, list_lookup_imap, Hz.
    + apply lookup_lt_Some in Hy. by rewrite length_take_le by lia.
  - intros (bef&x&aft&->&Hall&Hx).
    eexists (imap pair bef), (length bef, x), _.
    split_and!; [|by apply Forall_imap_pair|done].
    rewrite imap_app. cbn [imap]. rewrite Nat.add_0_r. reflexivity.
Qed.

Lemma layers_Err l e :
  try_for_each (λ '(i, seg),
    if (seg =b WILDCARD_SINGLE) || (seg =b WILDCARD_MULTI) then
      if (seg =b WILDCARD_MULTI) && negb (Z.of_nat i =? len l - 1)
      then Err MultiWildcardNotTerminal else Ok tt
    else if has_wildcard seg then Err InvalidWildcardUsage else Ok tt)
    (imap pair l) = Err e ↔ offending e l.
Proof.
  rewrite try_for_each_imap_Err. unfold offending, len.
  setoid_rewrite placement_check. setoid_rewrite placement_check_Err.
  split; intros (bef&s&aft&->&Hb&Hs); exists bef, s, aft; (split; [done|]);
    rewrite length_app in *; simpl in *; split.
  - apply Forall_lookup. intros j y Hy. apply lookup_lt_Some in Hy as Hj.
    destruct (Hb j y Hy) as [?|[?|[_ ?]]]; auto. lia.
  - destruct Hs as [(?&Hl&?)|?]; [left|by right]. split_and!; [done| |done].
    intros ->. simpl in Hl. lia.
  - rewrite Forall_lookup in Hb. intros j y Hy. destruct (Hb j y Hy); auto.
  - destruct Hs as [(?&Hl&?)|?]; [left|by right]. split_and!; [done| |done].
    destruct aft; simpl; [done|lia].
Qed.

Lemma placement_Err segs e :
  segs ≠ [] → validate_wildcard_placement segs = Err e ↔ offending e segs.
Proof.
  intros Hne. destruct segs as [|s ss]; [done|].
  unfold validate_wildcard_placement.
  destruct (matchable_cases s ss) as [[-> ->]| ->]; cbn [mbind result_bind];
    rewrite layers_Err; [|done].
  pose proof wildcard_free_global as Hg. split.
  - intros (bef&x&aft&->&?&?). exists (GLOBAL_PREFIX :: bef), x, aft. auto.
  - intros ([|y bef]&x&aft&[= <- ->]&Hb&Hx); [intuition done|].
    apply Forall_cons in Hb as [_ Hb]. by exists bef, x, aft.
Qed.

(** The rule each error reports, given that the rules before it hold. *)
Definition error_cause (raw : bytes) (e : TopicError) : Prop :=
  match e with
  | Empty => raw = []
  | TooLong n => n = len raw ∧ MAX_TOPIC_LENGTH < len raw
  | LeadingSlash => len raw <= MAX_TOPIC_LENGTH ∧ leading_slash raw
  | TrailingSlash =>
      len raw <= MAX_TOPIC_LENGTH ∧ ¬ leading_slash raw ∧ trailing_slash raw
  | EmptyLayer =>
      len raw <= MAX_TOPIC_LENGTH ∧ ¬ leading_slash raw ∧
      ¬ trailing_slash raw ∧ double_slash raw
  | TooManyLayers n =>
      len raw <= MAX_TOPIC_LENGTH ∧ MAX_LAYERS < n ∧
      ∃ segs, raw = join_sep SEP_BYTE segs ∧ Forall layer segs ∧ n = len segs
  | ReservedSysPrefix =>
      len raw <= MAX_TOPIC_LENGTH ∧ ∃ ss, len (SYS_PREFIX :: ss) <= MAX_LAYERS ∧
        raw = join_sep SEP_BYTE (SYS_PREFIX :: ss) ∧ Forall layer ss
  | GlobalPrefixWithoutTopic => raw = GLOBAL_PREFIX
  | _ => False
  end.

Lemma error_cause_sound raw e :
  validate_segments raw = Err e → error_cause raw e.
Proof.
  rewrite validate_segments_spec.
  pose proof (empty_piece raw) as Hempty.
  rewrite leading_slash_head, trailing_slash_last in Hempty.
  pose proof (split_raw_layers raw) as Hlayers.
  pose proof (join_sep_split_on SEP_BYTE raw) as Hjoin.
  repeat (case_decide; [intros [= <-]; cbn [error_cause];
    rewrite ?leading_slash_head, ?trailing_slash_last|]);
    [done|done|split; [lia|done]|split; [lia|done]|split; [lia|tauto]|..].
  - split_and!; [lia|done|]. exists (split_raw raw). split_and!; [done|tauto|done].
  - split; [lia|]. destruct (split_raw raw) as [|s ss] eqn:Hs; simplify_eq/=.
    exists ss. split_and!; [lia|done|].
    apply (Forall_cons layer SYS_PREFIX). tauto.
  - match goal with H : split_raw raw = _ |- _ => rewrite H in Hjoin end.
    by rewrite <-Hjoin.
  - done.
Qed.

(** Layers joined by separators pass the checks of slashes and layers. *)
Lemma layers_pass segs :
  segs ≠ [] → Forall layer segs → let raw := join_sep SEP_BYTE segs in
  raw ≠ [] ∧ head raw ≠ Some SEP_BYTE ∧ last raw ≠ Some SEP_BYTE ∧
  [] ∉ split_raw raw.
Proof.
  intros Hne Hl raw.
  assert ([] ∉ split_raw raw) as Hs.
  { apply split_raw_layers. unfold raw. by rewrite layers_split. }
  pose proof (no_empty_piece raw Hs). tauto.
Qed.

Lemma error_cause_complete raw e :
  error_cause raw e → validate_segments raw = Err e.
Proof.
  rewrite validate_segments_spec.
  destruct e; cbn [error_cause]; rewrite ?leading_slash_head, ?trailing_slash_last;
    try done.
  - by intros ->.
  - intros [-> Hl]. case_decide as Hr; [by subst|]. by rewrite decide_True.
  - intros [Hl Hh]. case_decide; [by subst|]. rewrite decide_False by lia.
    by rewrite decide_True.
  - intros (Hl&Hh&Ht). case_decide; [by subst|]. rewrite decide_False by lia.
    by rewrite decide_False, decide_True.
  - intros (Hl&Hh&Ht&Hd). case_decide; [by subst; destruct Hd as ([]&?&?)|].
    rewrite decide_False by lia. rewrite !decide_False by done.
    rewrite decide_True; [done|]. apply empty_piece. tauto.
  - intros (Hl&Hn&segs&->&Hs&->).
    assert (segs ≠ []) by (intros ->; done).
    destruct (layers_pass segs) as (?&?&?&?); [done..|].
    rewrite decide_False by done. rewrite decide_False by lia.
    rewrite !decide_False by done. rewrite layers_split by done.
    by rewrite decide_True.
  - intros (Hl&ss&Hn&->&Hs).
    assert (Forall layer (SYS_PREFIX :: ss)) as Hlay.
    { apply Forall_cons. split; [|done]. split; [done|].
      by apply (bool_decide_unpack _). }
    destruct (layers_pass (SYS_PREFIX :: ss)) as (?&?&?&?); [done..|].
    rewrite decide_False by done. rewrite decide_False by lia.
    rewrite !decide_False by done. rewrite layers_split by done.
    rewrite decide_False by lia. by rewrite decide_True.
  - intros ->. by vm_compute.
Qed.

(** The segments of a valid topic or filter are its layers. *)
Lemma layered_segments raw segs :
  layered raw segs →
  filter (λ s, negb (is_empty s)) (split_raw raw) = segs.
Proof.
  intros Hl. rewrite (layered_split _ _ Hl).
  pose proof (layered_layers _ _ Hl) as Hall. clear Hl.
  induction Hall as [|s ss [Hs _] _ IH]; [done|].
  rewrite filter_cons_True by (by destruct s). by rewrite IH.
Qed.

Lemma publish_filter_layers segs : publish_layers segs → filter_layers segs.
Proof.
  intros H i s Hs. right; left. unfold publish_layers in H.
  rewrite Forall_lookup in H. eauto.
Qed.

Lemma Topic_new_Ok raw t :
  Topic.new raw = Ok t ↔
  t = Topic.mk raw ∧ layered raw (Topic.segments t) ∧
  publish_layers (Topic.segments t).
Proof.
  unfold Topic.new. split.
  - destruct (validate_segments raw) as [segs| |] eqn:Hv; [|done..].
    cbn [mbind result_bind]. apply validate_segments_Ok in Hv as Hl.
    destruct (validate_no_wildcards segs) as [[]| |] eqn:Hw; [|done..].
    intros [= <-]. apply validate_no_wildcards_Ok in Hw; [|apply Hl].
    unfold Topic.segments. cbn [Topic.bytes_0].
    by rewrite (layered_segments _ _ Hl).
  - intros (->&Hl&Hp). apply validate_segments_Ok in Hl as Hv. rewrite Hv.
    cbn [mbind result_bind].
    by rewrite (proj2 (validate_no_wildcards_Ok _ (layered_some _ _ Hl)) Hp).
Qed.

Lemma TopicFilter_new_Ok raw t :
  TopicFilter.new raw = Ok t ↔
  t = TopicFilter.mk raw ∧ layered raw (TopicFilter.segments t) ∧
  filter_layers (TopicFilter.segments t).
Proof.
  unfold TopicFilter.new. split.
  - destruct (validate_segments raw) as [segs| |] eqn:Hv; [|done..].
    cbn [mbind result_bind]. apply validate_segments_Ok in Hv as Hl.
    destruct (validate_wildcard_placement segs) as [[]| |] eqn:Hw; [|done..].
    intros [= <-]. apply validate_wildcard_placement_Ok in Hw; [|apply Hl].
    unfold TopicFilter.segments. cbn [TopicFilter.bytes_0].
    by rewrite (layered_segments _ _ Hl).
  - intros (->&Hl&Hp). apply validate_segments_Ok in Hl as Hv. rewrite Hv.
    cbn [mbind result_bind].
    by rewrite (proj2 (validate_wildcard_placement_Ok _
      (layered_some _ _ Hl)) Hp).
Qed.

(** ** Theorems *)

(** C5: The language of publish topics: [Topic::new] accepts exactly the byte
    strings that are one to eight non-empty layers joined by ['/'], at most 256
    bytes long, not under ["$SYS"], not the bare ["$G"], and without any
    wildcard byte; and [segments] then returns exactly those layers. *)
Theorem topic_new_language raw t :
  Topic.new raw = Ok t ↔
  t = Topic.from raw ∧
  ∃ segs, layered raw segs ∧ publish_layers segs ∧ Topic.segments t = segs.
Proof.
  rewrite Topic_new_Ok. split.
  - intros (->&?&?). split; [done|]. eauto.
  - intros (->&segs&?&?&<-). auto.
Qed.

(** C10: The language of subscribe filters: as for topics, but a layer may be
    exactly ['+'], the last one exactly ['#'], and no other layer may contain a
    wildcard byte. *)
Theorem filter_new_language raw t :
  TopicFilter.new raw = Ok t ↔
  TopicFilter.as_bytes t = raw ∧
  ∃ segs, layered raw segs ∧ filter_layers segs ∧
    TopicFilter.segments t = segs.
Proof.
  rewrite TopicFilter_new_Ok. split.
  - intros (->&?&?). split; [done|]. eauto.
  - destruct t as [l]. intros (Hl&segs&?&?&<-). simpl in Hl. by subst.
Qed.

(** C24: Every rejection has its cause: which error [validate_segments] returns,
    and with which count, is determined by the first rule the bytes break. *)
Theorem validate_segments_errors raw e :
  validate_segments raw = Err e ↔ error_cause raw e.
Proof. split; [apply error_cause_sound|apply error_cause_complete]. Qed.

(** C26: Validation never panics: the indexing of the first and last byte, of
    the first segment, and the subtraction in the placement check are in range
    for every input. *)
Theorem topic_new_never_panics raw :
  Topic.new raw ≠ Panic ∧ TopicFilter.new raw ≠ Panic.
Proof.
  unfold Topic.new, TopicFilter.new.
  destruct (validate_segments raw) as [segs|e|] eqn:Hv; [|done|].
  - apply validate_segments_Ok in Hv. cbn [mbind result_bind].
    pose proof (no_wildcards_no_panic segs (layered_some _ _ Hv)).
    pose proof (wildcard_placement_no_panic segs (layered_some _ _ Hv)).
    split; [by destruct (validate_no_wildcards segs)
           |by destruct (validate_wildcard_placement segs)].
  - rewrite validate_segments_spec in Hv. by repeat case_decide.
Qed.

(** C25: The wildcard errors of a filter: [TopicFilter::new] fails either because
    the bytes break the rules topics and filters share, or because of the first
    layer that breaks the wildcard rules: ['#'] before the last layer, or a
    wildcard byte inside a longer layer. *)
Theorem filter_new_errors raw e :
  TopicFilter.new raw = Err e ↔
  error_cause raw e ∨
  ∃ segs, layered raw segs ∧ offending e segs.
Proof.
  unfold TopicFilter.new. split.
  - destruct (validate_segments raw) as [segs|e'|] eqn:Hv; cbn [mbind result_bind].
    + intros Hw. right. apply validate_segments_Ok in Hv.
      destruct (validate_wildcard_placement segs) as [[]|e'|] eqn:Hp;
        simplify_eq/=. apply placement_Err in Hp; [|apply Hv]. eauto.
    + intros [= ->]. left. by apply error_cause_sound.
    + done.
  - intros [Hc|(segs&Hl&Ho)].
    + by rewrite (error_cause_complete _ _ Hc).
    + apply validate_segments_Ok in Hl as Hv. rewrite Hv. cbn [mbind result_bind].
      by rewrite (proj2 (placement_Err _ e (layered_some _ _ Hl)) Ho).
Qed.

(** A publish topic is also a filter: what [Topic::new] accepts,
    [TopicFilter::new] accepts, with the same segments. *)
Theorem topic_is_filter raw t :
  Topic.new raw = Ok t →
  ∃ f, TopicFilter.new raw = Ok f ∧ TopicFilter.segments f = Topic.segments t.
Proof.
  intros (->&Hl&Hp)%Topic_new_Ok. exists (TopicFilter.mk raw).
  split; [|done]. apply TopicFilter_new_Ok. split_and!; [done..|].
  by apply publish_filter_layers.
Qed.

Lemma topic_is_filter_witness :
  ∃ f, TopicFilter.new (bstr "$G/sensor/data") = Ok f ∧
    TopicFilter.segments f = [bstr "$G"; bstr "sensor"; bstr "data"].
Proof.
  apply (topic_is_filter (bstr "$G/sensor/data")
    (Topic.mk (bstr "$G/sensor/data"))).
  vm_compute. reflexivity.
Defined.

(** Any other byte is allowed in a topic: a single byte that is not ['/'],
    ['+'] or ['#'] is a valid topic, be it a space, ['@'], ['%'], a control byte
    or a byte that is not UTF-8. *)
Theorem any_byte_topic x :
  x ≠ SEP_BYTE → x ≠ WILDCARD_SINGLE_BYTE → x ≠ WILDCARD_MULTI_BYTE →
  Topic.new [x] = Ok (Topic.from [x]).
Proof. destruct x; intros; try done; by vm_compute. Qed.

Lemma any_byte_topic_witness :
  Topic.new [" "%byte] = Ok (Topic.from [" "%byte]) ∧
  Topic.new ["@"%byte] = Ok (Topic.from ["@"%byte]) ∧
  Topic.new [xff] = Ok (Topic.from [xff]).
Proof.
  split; [|split]; apply any_byte_topic; by vm_compute.
Defined.
