(* ===== verification/Router.v ===== *)
(** The subscription router, [crates/server/src/router.rs]: a trie of topic
    levels with the subscriptions at its nodes, and the table from subscription
    keys to filters.

    [Sender] stands for [mpsc::Sender<Bytes>] of tokio, which the router stores
    and clones.  A walk along [&mut Node] references is a function that rebuilds
    the nodes it goes through; indexing and [unwrap] keep their panics.  The
    hash maps are [gmap]s; where the code iterates over one, the order is that
    of [map_to_list], and the theorems hold up to permutation. *)
From S2P Require Import Prelude Errors ClientId Topic.
Local Open Scope nat_scope.

Record SubscriptionKey : Type := mkSubscriptionKey {
  client_id : ClientId;
  subscription_id : u32;
}.
#[export] Instance SubscriptionKey_eq_dec : EqDecision SubscriptionKey.
Proof. solve_decision. Defined.
#[export] Instance SubscriptionKey_countable : Countable SubscriptionKey.
Proof.
  by refine (inj_countable' (λ k, (client_id k, subscription_id k))
    (λ '(c, s), mkSubscriptionKey c s) _); intros [].
Defined.

(** The router has no error values of its own: an operation returns or panics. *)
Abbreviation outcome := (result Empty_set).

Section router.
Context {Sender : Type}.

Record Subscription : Type := mkSubscription {
  sub_subscription_id : u32;
  sub_tx : Sender;
}.

Record SubscriptionResponse : Type := mkSubscriptionResponse {
  subscription_list : list (ClientId * Subscription);
  queue_group_list : list (list (ClientId * Subscription));
}.

Abbreviation SubscriptionMap := (gmap SubscriptionKey Sender).

#[local] Unset Elimination Schemes.
Inductive Node : Type := mkNode {
  level : bytes;
  subscription_map : gmap SubscriptionKey Sender;
  queue_group_map : gmap bytes (gmap SubscriptionKey Sender);
  children : option (list Node);
  has_wildcard_single : bool;
  has_wildcard_multi : bool;
}.
#[local] Set Elimination Schemes.

Definition Node_default : Node := mkNode [] ∅ ∅ None false false.

(** Assignments to the fields of a node. *)
Definition set_subscription_map (m : SubscriptionMap) (n : Node) : Node :=
  mkNode (level n) m (queue_group_map n) (children n)
    (has_wildcard_single n) (has_wildcard_multi n).
Definition set_children (cs : option (list Node)) (n : Node) : Node :=
  mkNode (level n) (subscription_map n) (queue_group_map n) cs
    (has_wildcard_single n) (has_wildcard_multi n).
Definition set_wildcard_single (v : bool) (n : Node) : Node :=
  mkNode (level n) (subscription_map n) (queue_group_map n) (children n)
    v (has_wildcard_multi n).
Definition set_wildcard_multi (v : bool) (n : Node) : Node :=
  mkNode (level n) (subscription_map n) (queue_group_map n) (children n)
    (has_wildcard_single n) v.

Record Router : Type := mkRouter {
  root : Node;
  subscription_kv : gmap SubscriptionKey TopicFilter.TopicFilter;
}.

Definition Router_new : Router := mkRouter Node_default ∅.
Definition Router_default : Router := Router_new.

(** ** Insertion *)

(** The flag a segment sets on the node it is inserted under. *)
Definition mark_wildcard (segment : bytes) (node : Node) : Node :=
  if segment =b WILDCARD_SINGLE then set_wildcard_single true node
  else if segment =b WILDCARD_MULTI then set_wildcard_multi true node
  else node.

(** The children with a child for the segment, and the index of that child. *)
Definition child_slot (segment : bytes) (children : list Node)
  : list Node * nat :=
  match position (λ n, level n =b segment) children with
  | Some pos => (children, pos)
  | None =>
      let children :=
        children ++ [mkNode segment ∅ ∅ None false false] in
      (children, length children - 1)
  end.

(** Walk to the node of a filter, creating what is missing, and update it. *)
Fixpoint insert_walk (segments : list bytes) (update : Node -> Node)
    (node : Node) : outcome Node :=
  match segments with
  | [] => Ok (update node)
  | segment :: segments =>
      let node := mark_wildcard segment node in
      let '(cs, child_idx) := child_slot segment (default [] (children node)) in
      child ← unwrap (cs !! child_idx);
      child ← insert_walk segments update child;
      Ok (set_children (Some (<[child_idx := child]> cs)) node)
  end.

Definition insert (tx : Sender) (client_id : ClientId) (subscription_id : u32)
    (topic : TopicFilter.TopicFilter) (self : Router) : outcome Router :=
  let key := mkSubscriptionKey client_id subscription_id in
  root ← insert_walk (TopicFilter.segments topic)
    (λ node, set_subscription_map (<[key := tx]> (subscription_map node)) node)
    (root self);
  Ok (mkRouter root (<[key := topic]> (subscription_kv self))).

(** ** Search *)

Definition to_subscription (kv : SubscriptionKey * Sender)
  : ClientId * Subscription :=
  (client_id kv.1, mkSubscription (subscription_id kv.1) kv.2).

Definition collect_node (node : Node)
    (subscription_list : list (ClientId * Subscription))
    (queue_group_list : list (list (ClientId * Subscription)))
  : list (ClientId * Subscription) * list (list (ClientId * Subscription)) :=
  (subscription_list ++ map to_subscription (map_to_list (subscription_map node)),
   queue_group_list ++
     map (λ group, map to_subscription (map_to_list group.2))
       (map_to_list (queue_group_map node))).

(** Push the children that match the segment; the head of the list is the top
    of the stack. *)
Definition push_matching (segment : bytes) (rest : list bytes)
    (children : list Node) (stack : list (Node * list bytes))
  : list (Node * list bytes) :=
  foldl (λ stack child,
    if (level child =b segment) || (level child =b WILDCARD_SINGLE)
    then (child, rest) :: stack else stack) stack children.

(** The loop over the stack; [None] when the fuel does not suffice. *)
Fixpoint search_loop (fuel : nat) (stack : list (Node * list bytes))
    (subscription_list : list (ClientId * Subscription))
    (queue_group_list : list (list (ClientId * Subscription)))
  : option (list (ClientId * Subscription) *
            list (list (ClientId * Subscription))) :=
  match fuel with
  | O => None
  | S fuel =>
      match stack with
      | [] => Some (subscription_list, queue_group_list)
      | (node, remaining) :: stack =>
          let '(subscription_list, queue_group_list) :=
            if has_wildcard_multi node then
              match children node ≫=
                    find_first (λ n, level n =b WILDCARD_MULTI) with
              | Some multi_child =>
                  collect_node multi_child subscription_list queue_group_list
              | None => (subscription_list, queue_group_list)
              end
            else (subscription_list, queue_group_list) in
          match remaining with
          | [] =>
              let '(subscription_list, queue_group_list) :=
                collect_node node subscription_list queue_group_list in
              search_loop fuel stack subscription_list queue_group_list
          | segment :: rest =>
              match children node with
              | None => search_loop fuel stack subscription_list queue_group_list
              | Some cs =>
                  search_loop fuel (push_matching segment rest cs stack)
                    subscription_list queue_group_list
              end
          end
      end
  end.

(** The number of nodes of a trie: a node is on the stack at most once. *)
Fixpoint node_size (n : Node) : nat :=
  match n with
  | mkNode _ _ _ cs _ _ =>
      S match cs with
        | None => 0
        | Some l => list_sum (map node_size l)
        end
  end.

Definition search (topic : Topic.Topic) (self : Router)
  : option SubscriptionResponse :=
  '(subs, groups) ← search_loop (S (node_size (root self)))
    [(root self, Topic.segments topic)] [] [];
  Some (mkSubscriptionResponse subs groups).

(** ** Deletion *)

(** The indices from a node down to the node of a filter; [None] is the early
    return when the filter has no node. *)
Fixpoint find_path (segments : list bytes) (node : Node)
  : outcome (option (list nat)) :=
  match segments with
  | [] => Ok (Some [])
  | segment :: segments =>
      match children node with
      | None => Ok None
      | Some cs =>
          match position (λ n, level n =b segment) cs with
          | None => Ok None
          | Some idx =>
              child ← unwrap (cs !! idx);
              path ← find_path segments child;
              Ok (option_map (cons idx) path)
          end
      end
  end.

(** Walk down the indices and update the node there. *)
Fixpoint update_at {B} (path : list nat) (update : Node -> outcome (Node * B))
    (node : Node) : outcome (Node * B) :=
  match path with
  | [] => update node
  | idx :: path =>
      cs ← unwrap (children node);
      child ← unwrap (cs !! idx);
      '(child, b) ← update_at path update child;
      Ok (set_children (Some (<[idx := child]> cs)) node, b)
  end.

Definition map_is_empty {K V} `{Countable K} (m : gmap K V) : bool :=
  is_empty (map_to_list m).

(** Remove the child at an index when nothing is left in it; [false] is the
    [break] of the loop. *)
Definition prune_child (idx : nat) (node : Node) : outcome (Node * bool) :=
  cs ← unwrap (children node);
  child ← unwrap (cs !! idx);
  if map_is_empty (subscription_map child)
     && map_is_empty (queue_group_map child)
     && match children child with None => true | Some _ => false end
  then
    let removed := level child in
    let cs := base.delete idx cs in
    let node :=
      if removed =b WILDCARD_SINGLE then
        set_wildcard_single (existsb (λ n, level n =b WILDCARD_SINGLE) cs) node
      else if removed =b WILDCARD_MULTI then
        set_wildcard_multi (existsb (λ n, level n =b WILDCARD_MULTI) cs) node
      else node in
    Ok (set_children (if is_empty cs then None else Some cs) node, true)
  else Ok (node, false).

(** The loop over the depths below [depth], deepest first; the flag tells
    whether it ran to the end. *)
Fixpoint prune (depth : nat) (path : list nat) (node : Node)
  : outcome (Node * bool) :=
  match depth with
  | O => Ok (node, true)
  | S depth =>
      idx ← unwrap (path !! depth);
      '(node, continue) ← update_at (take depth path) (prune_child idx) node;
      if (continue : bool) then prune depth path node else Ok (node, false)
  end.

Definition remove_subscription (key : SubscriptionKey) (node : Node)
  : outcome (Node * unit) :=
  Ok (set_subscription_map (base.delete key (subscription_map node)) node, tt).

Definition delete (key : SubscriptionKey) (self : Router) : outcome Router :=
  match subscription_kv self !! key with
  | None => Ok self
  | Some topic =>
      path ← find_path (TopicFilter.segments topic) (root self);
      match path with
      | None => Ok self
      | Some path =>
          '(root, _) ← update_at path (remove_subscription key) (root self);
          '(root, _) ← prune (length path) path root;
          Ok (mkRouter root (base.delete key (subscription_kv self)))
      end
  end.
End router.

Arguments Node : clear implicits.
Arguments Router : clear implicits.
Arguments Subscription : clear implicits.
Arguments SubscriptionResponse : clear implicits.
