(* ===== verification/RouterFacts.v ===== *)
(** Reasoning about the trie of [Router]: what a trie stores, its
    well-formedness, and what insertion does to both. *)
From S2P Require Import Prelude Errors ClientId Topic Router.
Local Open Scope nat_scope.

Section trie.
Context {Sender : Type}.
Implicit Types (n c : Node Sender) (p segs : list bytes) (k : SubscriptionKey).

(** ** Tries *)

Definition child_list n : list (Node Sender) := default [] (children n).

(** Induction over a node and its children. *)
Lemma Node_ind (P : Node Sender → Prop) :
  (∀ n, Forall P (child_list n) → P n) → ∀ n, P n.
Proof.
  intros H. fix IH 1. intros [l sm qm cs f1 f2]. apply H.
  destruct cs as [cs|]; cbn; [|constructor].
  induction cs as [|c cs IHcs]; constructor; [apply IH|exact IHcs].
Qed.

Definition child_at (s : bytes) n : option (Node Sender) :=
  find_first (λ c, level c =b s) (child_list n).

(** The node a path of levels leads to. *)
Fixpoint node_at p n : option (Node Sender) :=
  match p with
  | [] => Some n
  | s :: p => child_at s n ≫= node_at p
  end.

(** The subscription stored under a path and a key. *)
Definition get p k n : option Sender :=
  node_at p n ≫= λ m, subscription_map m !! k.

(** Nothing is stored in the node and below it. *)
Definition dead n : Prop :=
  subscription_map n = ∅ ∧ queue_group_map n = ∅ ∧ children n = None.

(** Well-formedness: the children have different levels, the list of children
    is absent rather than empty, the wildcard flags say which wildcard children
    there are, and no child is dead. *)
Inductive wf : Node Sender → Prop :=
| wf_intro n :
    NoDup (level <$> child_list n) →
    children n ≠ Some [] →
    has_wildcard_single n = bool_decide (WILDCARD_SINGLE ∈ level <$> child_list n) →
    has_wildcard_multi n = bool_decide (WILDCARD_MULTI ∈ level <$> child_list n) →
    (∀ c, c ∈ child_list n → ¬ dead c) →
    (∀ c, c ∈ child_list n → wf c) →
    wf n.

Lemma wf_inv n :
  wf n →
  NoDup (level <$> child_list n) ∧ children n ≠ Some [] ∧
  has_wildcard_single n = bool_decide (WILDCARD_SINGLE ∈ level <$> child_list n) ∧
  has_wildcard_multi n = bool_decide (WILDCARD_MULTI ∈ level <$> child_list n) ∧
  (∀ c, c ∈ child_list n → ¬ dead c) ∧ (∀ c, c ∈ child_list n → wf c).
Proof. by destruct 1. Qed.

Lemma wf_default lvl : wf (mkNode lvl ∅ ∅ None false false).
Proof.
  constructor; cbn; [constructor|done|done|done|..]; by intros c ?%elem_of_nil.
Qed.

(** ** Lists of children *)

Lemma find_first_app {A} (q : A → bool) (l1 l2 : list A) :
  find_first q (l1 ++ l2) =
  match find_first q l1 with Some x => Some x | None => find_first q l2 end.
Proof. induction l1 as [|x l1 IH]; simpl; [done|]. by destruct (q x). Qed.

Lemma find_first_skip s (l : list (Node Sender)) :
  s ∉ level <$> l → find_first (λ c, level c =b s) l = None.
Proof.
  intros H. apply find_first_None, Forall_forall. intros c Hc.
  apply beq_false. intros <-. by apply H, list_elem_of_fmap_2.
Qed.

(** The child for a level in a list split at it. *)
Lemma find_first_middle s (l1 l2 : list (Node Sender)) c :
  s ∉ level <$> l1 → level c = s →
  find_first (λ c, level c =b s) (l1 ++ c :: l2) = Some c.
Proof.
  intros H1 <-. rewrite find_first_app, find_first_skip by done.
  simpl. by rewrite beq_refl.
Qed.

(** Replacing a child of another level does not matter. *)
Lemma find_first_other s (l1 l2 : list (Node Sender)) c c' :
  level c ≠ s → level c' = level c →
  find_first (λ c, level c =b s) (l1 ++ c' :: l2) =
  find_first (λ c, level c =b s) (l1 ++ c :: l2).
Proof.
  intros Hne Heq. rewrite !find_first_app. simpl.
  by rewrite Heq, (proj2 (beq_false (level c) s) Hne).
Qed.

Lemma find_first_removed s (l1 l2 : list (Node Sender)) c :
  level c ≠ s →
  find_first (λ c, level c =b s) (l1 ++ c :: l2) =
  find_first (λ c, level c =b s) (l1 ++ l2).
Proof.
  intros Hne. rewrite !find_first_app. simpl.
  by rewrite (proj2 (beq_false (level c) s) Hne).
Qed.

(** The position of a level splits the list at its first occurrence. *)
Lemma position_split s (l : list (Node Sender)) i :
  position (λ c, level c =b s) l = Some i →
  ∃ l1 c l2, l = l1 ++ c :: l2 ∧ i = length l1 ∧ level c = s ∧
             s ∉ level <$> l1.
Proof.
  intros (c&Hc&Hs&Hlt)%position_Some. rewrite beq_true in Hs.
  exists (take i l), c, (drop (S i) l). apply lookup_lt_Some in Hc as Hi.
  split_and!; [by rewrite take_drop_middle|by rewrite length_take_le by lia|done|].
  intros (c'&->&(j&Hj)%list_elem_of_lookup)%list_elem_of_fmap.
  apply lookup_take_Some in Hj as [Hj Hji].
  apply (Hlt j c') in Hj; [|done]. by rewrite beq_refl in Hj.
Qed.

Lemma position_none s (l : list (Node Sender)) :
  position (λ c, level c =b s) l = None → s ∉ level <$> l.
Proof.
  rewrite position_None, Forall_forall. intros H (c&->&Hc)%list_elem_of_fmap.
  specialize (H c Hc). by rewrite beq_refl in H.
Qed.

(** Where insertion finds or puts the child of a segment. *)
Lemma child_slot_spec s (l : list (Node Sender)) cs i :
  child_slot s l = (cs, i) →
  ∃ l1 c l2, cs = l1 ++ c :: l2 ∧ i = length l1 ∧ level c = s ∧
    (s ∉ level <$> l1) ∧
    (l = l1 ++ c :: l2 ∨
     l = l1 ∧ l2 = [] ∧ c = mkNode s ∅ ∅ None false false).
Proof.
  unfold child_slot. destruct (position _ l) as [j|] eqn:Hp.
  - intros [= <- <-]. apply position_split in Hp as (l1&c&l2&?&?&?&?).
    exists l1, c, l2. auto 6.
  - intros [= <- <-]. apply position_none in Hp.
    exists l, (mkNode s ∅ ∅ None false false), [].
    rewrite length_app. simpl. split_and!; [done|lia|done|done|]. by right.
Qed.

Lemma lookup_middle {A} (l1 l2 : list A) x : (l1 ++ x :: l2) !! length l1 = Some x.
Proof. by apply list_lookup_middle. Qed.
Lemma insert_middle {A} (l1 l2 : list A) x y :
  <[length l1 := y]> (l1 ++ x :: l2) = l1 ++ y :: l2.
Proof. by rewrite insert_app_r_alt, Nat.sub_diag. Qed.

(** ** Insertion *)

(** One step of the walk, on the children split at the child of the segment. *)
Lemma insert_walk_cons s segs (update : Node Sender → Node Sender) n :
  ∃ l1 c l2,
    insert_walk (s :: segs) update n =
      (c' ← insert_walk segs update c;
       Ok (set_children (Some (l1 ++ c' :: l2)) (mark_wildcard s n))) ∧
    level c = s ∧ (s ∉ level <$> l1) ∧
    (child_list n = l1 ++ c :: l2 ∨
     child_list n = l1 ∧ l2 = [] ∧ c = mkNode s ∅ ∅ None false false).
Proof.
  assert (Hch : children (mark_wildcard s n) = children n).
  { unfold mark_wildcard. by repeat case_match. }
  cbn [insert_walk]. rewrite Hch. fold (child_list n).
  destruct (child_slot s (child_list n)) as [cs i] eqn:Hslot.
  apply child_slot_spec in Hslot as (l1&c&l2&->&->&?&?&?).
  exists l1, c, l2. split_and!; [|done..]. rewrite lookup_middle.
  cbn [unwrap mbind result_bind]. destruct (insert_walk segs update c); [|done..].
  cbn [mbind result_bind]. by rewrite insert_middle.
Qed.

(** Insertion never panics and keeps the level of the node. *)
Lemma insert_walk_Ok segs (update : Node Sender → Node Sender) n :
  (∀ m, level (update m) = level m) →
  ∃ n', insert_walk segs update n = Ok n' ∧ level n' = level n.
Proof.
  intros Hu. revert n. induction segs as [|s segs IH]; intros n.
  - eexists. split; [done|]. apply Hu.
  - destruct (insert_walk_cons s segs update n) as (l1&c&l2&->&_).
    destruct (IH c) as (c'&->&_). eexists. split; [done|].
    simpl. unfold mark_wildcard. by repeat case_match.
Qed.

(** The update of [insert]: store a sender under a key. *)
Definition store k (tx : Sender) n : Node Sender :=
  set_subscription_map (<[k := tx]> (subscription_map n)) n.

Lemma child_list_mark s n : child_list (mark_wildcard s n) = child_list n.
Proof. unfold child_list, mark_wildcard. by repeat case_match. Qed.
Lemma subscription_map_mark s n :
  subscription_map (mark_wildcard s n) = subscription_map n.
Proof. unfold mark_wildcard. by repeat case_match. Qed.
Lemma level_mark s n : level (mark_wildcard s n) = level n.
Proof. unfold mark_wildcard. by repeat case_match. Qed.

Lemma get_cons s p k n : get (s :: p) k n = child_at s n ≫= get p k.
Proof. unfold get. simpl. by destruct (child_at s n). Qed.

Lemma get_default p k s : get p k (mkNode s ∅ ∅ None false false) = None.
Proof. by destruct p. Qed.

Lemma child_at_set_children s cs n :
  child_at s (set_children (Some cs) n) = find_first (λ c, level c =b s) cs.
Proof. done. Qed.

(** Insertion stores the sender at its path and key and changes nothing else. *)
Lemma insert_walk_get segs key tx n n' p k :
  insert_walk segs (store key tx) n = Ok n' →
  get p k n' = if decide (p = segs ∧ k = key) then Some tx else get p k n.
Proof.
  revert n n' p. induction segs as [|s segs IH]; intros n n' p.
  { intros [= <-]. destruct p as [|s p]; [|by rewrite decide_False by (intros [??]; congruence)].
    unfold get, store. simpl. rewrite lookup_insert.
    repeat case_decide; intuition congruence. }
  destruct (insert_walk_cons s segs (store key tx) n) as (l1&c&l2&->&Hc&Hl1&Hold).
  destruct (insert_walk_Ok segs (store key tx) c) as (c'&Hc'&Hlev); [done|].
  rewrite Hc'. intros [= <-]. destruct p as [|s' p].
  { rewrite decide_False by (intros [??]; congruence). unfold get. simpl.
    by rewrite subscription_map_mark. }
  rewrite !get_cons, child_at_set_children.
  destruct (decide (s' = s)) as [->|Hs].
  - rewrite find_first_middle by (done || congruence). simpl.
    rewrite (IH _ _ _ Hc').
    assert (get p k c = child_at s n ≫= get p k) as <-.
    { unfold child_at. destruct Hold as [->|(->&->&->)].
      - by rewrite find_first_middle.
      - by rewrite find_first_skip, get_default. }
    destruct (decide (p = segs ∧ k = key)) as [[-> ->]|Hne];
      [by rewrite decide_True|].
    rewrite decide_False; [done|]. intros [[= ->] ->]. by apply Hne.
  - rewrite decide_False by (intros [??]; congruence).
    rewrite (find_first_other _ _ _ c) by congruence.
    unfold child_at. destruct Hold as [->|(->&->&->)]; [done|].
    rewrite find_first_removed by (simpl; congruence). by rewrite app_nil_r.
Qed.

(** The levels of the children after a step: the segment's is among them. *)
Lemma child_levels s n l1 c c' l2 :
  level c = s → level c' = s → (s ∉ level <$> l1) →
  (child_list n = l1 ++ c :: l2 ∨
   child_list n = l1 ∧ l2 = [] ∧ c = mkNode s ∅ ∅ None false false) →
  NoDup (level <$> child_list n) →
  NoDup (level <$> (l1 ++ c' :: l2)) ∧
  ∀ x, x ∈ level <$> (l1 ++ c' :: l2) ↔ x = s ∨ x ∈ level <$> child_list n.
Proof.
  intros Hc Hc' Hl1 Hold Hnd.
  rewrite fmap_app, fmap_cons, Hc'. destruct Hold as [Heq|(Heq&->&->)];
    rewrite Heq in *; rewrite ?fmap_app, ?fmap_cons, ?Hc in *.
  - split; [done|]. set_solver.
  - simpl. split; [|set_solver]. apply NoDup_app. split_and!; [done| |].
    + set_solver.
    + apply NoDup_singleton.
Qed.

(** The flags after a step. *)
Lemma mark_wildcard_flags s n (L L' : list bytes) :
  (∀ x, x ∈ L' ↔ x = s ∨ x ∈ L) →
  has_wildcard_single n = bool_decide (WILDCARD_SINGLE ∈ L) →
  has_wildcard_multi n = bool_decide (WILDCARD_MULTI ∈ L) →
  has_wildcard_single (mark_wildcard s n) = bool_decide (WILDCARD_SINGLE ∈ L') ∧
  has_wildcard_multi (mark_wildcard s n) = bool_decide (WILDCARD_MULTI ∈ L').
Proof.
  intros HL Hs Hm. unfold mark_wildcard.
  assert (Hkeep : ∀ x, x ≠ s → bool_decide (x ∈ L) = bool_decide (x ∈ L')).
  { intros x Hx. apply bool_decide_ext. rewrite HL. intuition congruence. }
  assert (Hset : bool_decide (s ∈ L') = true).
  { apply bool_decide_eq_true, HL. by left. }
  destruct (beq_spec s WILDCARD_SINGLE) as [->|];
    [|destruct (beq_spec s WILDCARD_MULTI) as [->|]];
    cbn [has_wildcard_single has_wildcard_multi set_wildcard_single
      set_wildcard_multi];
    rewrite ?Hs, ?Hm, ?Hset; split; first [done | by apply Hkeep].
Qed.

(** Insertion keeps a trie well formed, and what it returns is not dead. *)
Lemma insert_walk_wf segs key tx n n' :
  wf n → insert_walk segs (store key tx) n = Ok n' → wf n' ∧ ¬ dead n'.
Proof.
  revert n n'. induction segs as [|s segs IH]; intros n n' Hwf.
  { intros [= <-]. split.
    - apply wf_inv in Hwf as (?&?&?&?&?&?). by constructor.
    - intros [Hm _]. simpl in Hm. by apply insert_non_empty in Hm. }
  destruct (insert_walk_cons s segs (store key tx) n) as (l1&c&l2&->&Hc&Hl1&Hold).
  destruct (insert_walk_Ok segs (store key tx) c) as (c'&Hc'&Hlev); [done|].
  rewrite Hc'. intros [= <-]. split; [|by intros (_&_&?)].
  apply wf_inv in Hwf as (Hnd&_&Hs&Hm&Hlive&Hwfs).
  destruct (child_levels s n l1 c c' l2 Hc (eq_trans Hlev Hc) Hl1 Hold Hnd)
    as [Hnd' HL].
  assert (Hwc : wf c).
  { destruct Hold as [Heq|(_&_&->)]; [|apply wf_default].
    apply Hwfs. rewrite Heq. set_solver. }
  destruct (IH _ _ Hwc Hc') as [Hwc' Hdc'].
  assert (Hsub : ∀ d, d ∈ l1 ++ c' :: l2 → d = c' ∨ d ∈ child_list n).
  { intros d. destruct Hold as [->|(->&->&_)]; set_solver. }
  destruct (mark_wildcard_flags s n _ _ HL Hs Hm) as [Hs' Hm'].
  constructor; unfold child_list; cbn; [done| |done|done|..].
  - by destruct l1.
  - intros d [->|?]%Hsub; auto.
  - intros d [->|?]%Hsub; auto.
Qed.
End trie.
