(* ===== verification/RouterSearch.v ===== *)
(** Reasoning about [search]: the subscriptions of a trie as a list of entries,
    the topics a filter matches, and that the loop over the stack collects
    exactly the matching entries, each once. *)
From S2P Require Import Prelude Errors ClientId Topic Router RouterFacts.
Local Open Scope nat_scope.

(** ** Matching *)

(** [matches f t]: the filter with segments [f] matches the topic with segments
    [t].  ['+'] stands for one level, a final ['#'] for zero or more. *)
Fixpoint matches (f t : list bytes) : bool :=
  match f with
  | [] => is_empty t
  | s :: f =>
      if s =b WILDCARD_MULTI then is_empty f
      else match t with
           | [] => false
           | x :: t => ((s =b x) || (s =b WILDCARD_SINGLE)) && matches f t
           end
  end.

Section search.
Context {Sender : Type}.
Implicit Types (n c : Node Sender) (t p : list bytes).

(** ** Entries *)

Section entries.
Context {X : Type} (own : Node Sender → list X).

Definition prefix_level (s : bytes) (e : list bytes * X) : list bytes * X :=
  (s :: e.1, e.2).

(** What the nodes of a trie own, with the path of each node. *)
Fixpoint entries_of (n : Node Sender) : list (list bytes * X) :=
  map (pair []) (own n) ++
  match n with
  | mkNode _ _ _ None _ _ => []
  | mkNode _ _ _ (Some l) _ _ =>
      concat (map (λ c, map (prefix_level (level c)) (entries_of c)) l)
  end.

Lemma entries_of_eq n :
  entries_of n = map (pair []) (own n) ++
    concat (map (λ c, map (prefix_level (level c)) (entries_of c))
      (child_list n)).
Proof. by destruct n as [? ? ? [l|] ? ?]. Qed.

(** The entries whose path matches a topic. *)
Definition hits (t : list bytes) (es : list (list bytes * X)) : list X :=
  omap (λ e, if matches e.1 t then Some e.2 else None) es.

Lemma hits_app t es es' : hits t (es ++ es') = hits t es ++ hits t es'.
Proof. apply omap_app. Qed.

Lemma hits_cons t e es :
  hits t (e :: es) = (if matches e.1 t then [e.2] else []) ++ hits t es.
Proof. unfold hits. cbn [omap list_omap]. by destruct (matches e.1 t). Qed.

Lemma hits_concat t ess : hits t (concat ess) = concat (map (hits t) ess).
Proof.
  induction ess as [|es ess IH]; [done|]. simpl. by rewrite hits_app, IH.
Qed.

Lemma hits_own t (xs : list X) :
  hits t (map (pair []) xs) = if is_empty t then xs else [].
Proof.
  induction xs as [|x xs IH]; cbn [map]; [by destruct t|].
  rewrite hits_cons, IH. by destruct t.
Qed.

(** Prefixing with a level that is not ['#'] consumes one level. *)
Lemma hits_prefix s t es :
  s ≠ WILDCARD_MULTI →
  hits t (map (prefix_level s) es) =
  match t with
  | [] => []
  | x :: t => if (s =b x) || (s =b WILDCARD_SINGLE) then hits t es else []
  end.
Proof.
  intros Hs. induction es as [|[p x] es IH];
    [by destruct t; [|case_match]|].
  cbn [map]. rewrite hits_cons, IH. cbn [prefix_level fst snd matches].
  rewrite (proj2 (beq_false _ _) Hs). destruct t as [|y t]; [done|].
  destruct (_ || _); cbn [andb]; [|done]. by rewrite hits_cons.
Qed.

(** Under ['#'] only the node's own entries match. *)
Lemma hits_multi t c :
  hits t (map (prefix_level WILDCARD_MULTI) (entries_of c)) = own c.
Proof.
  assert (Hone : ∀ e, matches (prefix_level WILDCARD_MULTI e).1 t = is_empty e.1).
  { done. }
  assert (Hdeep : ∀ s es, hits t (map (prefix_level WILDCARD_MULTI)
    (map (prefix_level s) es)) = []).
  { intros s es. induction es as [|e es IH]; cbn [map]; [done|].
    by rewrite hits_cons, Hone, IH. }
  rewrite entries_of_eq, map_app, hits_app, concat_map, hits_concat, !map_map.
  assert (hits t (map (λ x, prefix_level WILDCARD_MULTI ([], x)) (own c)) = own c)
    as ->.
  { induction (own c) as [|x xs IH]; cbn [map]; [done|].
    by rewrite hits_cons, Hone, IH. }
  rewrite <-(app_nil_r (own c)) at 2. f_equal.
  induction (child_list c) as [|d l IH]; cbn [map concat]; [done|].
  by rewrite Hdeep, IH.
Qed.

(** ** Search by recursion on the topic *)

Definition level_matches (x : bytes) c : bool :=
  (level c =b x) || (level c =b WILDCARD_SINGLE).

Fixpoint search_ref (t : list bytes) (n : Node Sender) : list X :=
  (if has_wildcard_multi n then
     match child_at WILDCARD_MULTI n with Some c => own c | None => [] end
   else []) ++
  match t with
  | [] => own n
  | x :: t =>
      concat (map (search_ref t) (List.filter (level_matches x) (child_list n)))
  end.

(** The contribution of a child to the entries that match. *)
Definition child_hits (t : list bytes) c : list X :=
  hits t (map (prefix_level (level c)) (entries_of c)).
Definition other_hits (t : list bytes) c : list X :=
  if level c =b WILDCARD_MULTI then [] else child_hits t c.

(** The ['#'] child comes out of the list of children. *)
Lemma child_hits_multi t (l : list (Node Sender)) :
  NoDup (level <$> l) →
  concat (map (child_hits t) l) ≡ₚ
  match find_first (λ c, level c =b WILDCARD_MULTI) l with
  | Some c => own c
  | None => []
  end ++ concat (map (other_hits t) l).
Proof.
  induction l as [|c l IH]; [done|]. rewrite fmap_cons, NoDup_cons.
  intros [Hc Hnd]. cbn [map concat find_first]. unfold other_hits at 1.
  destruct (beq_spec (level c) WILDCARD_MULTI) as [Heq|Hne].
  - rewrite (IH Hnd), find_first_skip by congruence.
    unfold child_hits. rewrite Heq, hits_multi. done.
  - rewrite (IH Hnd), !app_assoc. f_equiv. apply Permutation_app_comm.
Qed.

Lemma other_hits_nil c : other_hits [] c = [].
Proof.
  unfold other_hits, child_hits.
  destruct (beq_spec (level c) WILDCARD_MULTI); [done|]. by rewrite hits_prefix.
Qed.

Lemma other_hits_cons x t c :
  x ≠ WILDCARD_MULTI →
  other_hits (x :: t) c =
  if level_matches x c then hits t (entries_of c) else [].
Proof.
  intros Hx. unfold other_hits, child_hits, level_matches.
  destruct (beq_spec (level c) WILDCARD_MULTI) as [->|];
    [|by rewrite hits_prefix].
  rewrite (proj2 (beq_false _ _)) by congruence. done.
Qed.

Lemma concat_map_nil {A B} (g : A → list B) (l : list A) :
  (∀ a, g a = []) → concat (map g l) = [].
Proof. intros Hg. induction l; simpl; [done|]. by rewrite Hg. Qed.

(** On a well-formed trie the ['#'] flag can be dropped from the test. *)
Lemma multi_flag {B} n (f : Node Sender → list B) :
  wf n →
  (if has_wildcard_multi n then
     match child_at WILDCARD_MULTI n with Some c => f c | None => [] end
   else []) =
  match child_at WILDCARD_MULTI n with Some c => f c | None => [] end.
Proof.
  intros (_&_&_&->&_)%wf_inv. case_bool_decide as Hm; [done|].
  unfold child_at. by rewrite find_first_skip.
Qed.

Lemma search_ref_children x t (l : list (Node Sender)) :
  x ≠ WILDCARD_MULTI →
  (∀ c, c ∈ l → search_ref t c ≡ₚ hits t (entries_of c)) →
  concat (map (search_ref t) (List.filter (level_matches x) l)) ≡ₚ
  concat (map (other_hits (x :: t)) l).
Proof.
  intros Hx. induction l as [|c l IHl]; intros Hl; [done|].
  cbn [map concat List.filter]. rewrite other_hits_cons by done.
  assert (Hrec := IHl (λ d Hd, Hl d (list_elem_of_further _ _ _ Hd))).
  destruct (level_matches x c); cbn [map concat]; [|exact Hrec].
  rewrite Hrec. rewrite (Hl c) by (by left). done.
Qed.

Lemma entries_hits t n :
  NoDup (level <$> child_list n) →
  hits t (entries_of n) ≡ₚ
  (if is_empty t then own n else []) ++
  match child_at WILDCARD_MULTI n with Some c => own c | None => [] end ++
  concat (map (other_hits t) (child_list n)).
Proof.
  intros Hnd. rewrite entries_of_eq, hits_app, hits_own, hits_concat, map_map.
  f_equiv. apply (child_hits_multi t (child_list n) Hnd).
Qed.

(** Search by recursion finds exactly the entries that match. *)
Lemma search_ref_hits t n :
  wf n → (WILDCARD_MULTI ∉ t) → search_ref t n ≡ₚ hits t (entries_of n).
Proof.
  revert n. induction t as [|x t IH]; intros n Hwf Ht;
    cbn [search_ref]; rewrite multi_flag by done;
    apply wf_inv in Hwf as (Hnd&_&_&_&_&Hwfs); rewrite entries_hits by done.
  - rewrite (concat_map_nil _ _ other_hits_nil), app_nil_r.
    apply Permutation_app_comm.
  - cbn [is_empty app]. apply not_elem_of_cons in Ht as [Hx Ht].
    rewrite search_ref_children; [done|congruence|]. auto.
Qed.
End entries.

(** ** The loop over the stack *)

Definition own_subs n : list (ClientId * Subscription Sender) :=
  map to_subscription (map_to_list (subscription_map n)).
Definition own_groups n : list (list (ClientId * Subscription Sender)) :=
  map (λ group, map to_subscription (map_to_list group.2))
    (map_to_list (queue_group_map n)).

Lemma collect_node_eq n subs groups :
  collect_node n subs groups = (subs ++ own_subs n, groups ++ own_groups n).
Proof. done. Qed.

Definition stack_size (stack : list (Node Sender * list bytes)) : nat :=
  list_sum (map (λ e, node_size e.1) stack).

Lemma node_size_eq n : node_size n = S (list_sum (map node_size (child_list n))).
Proof. by destruct n as [? ? ? [l|] ? ?]. Qed.

Lemma push_matching_eq x t l (stack : list (Node Sender * list bytes)) :
  push_matching x t l stack =
  reverse (map (λ c, (c, t)) (List.filter (level_matches x) l)) ++ stack.
Proof.
  revert stack. unfold push_matching, level_matches.
  induction l as [|c l IH]; intros stack; [done|]. cbn [foldl List.filter].
  destruct (_ || _); cbn [map]; [|apply IH].
  rewrite IH, reverse_cons, <-app_assoc. done.
Qed.

Lemma list_sum_cons a l : list_sum (a :: l) = a + list_sum l.
Proof. done. Qed.

Lemma filter_size x (l : list (Node Sender)) :
  list_sum (map node_size (List.filter (level_matches x) l))
  <= list_sum (map node_size l).
Proof.
  induction l as [|c l IH]; [done|]. cbn [List.filter].
  destruct (level_matches x c); cbn [map]; rewrite !list_sum_cons; lia.
Qed.

Lemma stack_size_push x t l stack :
  stack_size (push_matching x t l stack)
  <= list_sum (map node_size l) + stack_size stack.
Proof.
  rewrite push_matching_eq. unfold stack_size. rewrite map_app, list_sum_app.
  apply Nat.add_le_mono_r. etrans; [|apply (filter_size x)].
  apply Nat.eq_le_incl. rewrite reverse_Permutation, map_map. done.
Qed.

(** What the recursion collects for the ['#'] child of a node. *)
Definition multi_part {X} (own : Node Sender → list X) n : list X :=
  if has_wildcard_multi n then
    match child_at WILDCARD_MULTI n with Some c => own c | None => [] end
  else [].

Lemma collect_multi n subs groups :
  (if has_wildcard_multi n then
     match children n ≫= find_first (λ n, level n =b WILDCARD_MULTI) with
     | Some c => collect_node c subs groups
     | None => (subs, groups)
     end
   else (subs, groups)) =
  (subs ++ multi_part own_subs n, groups ++ multi_part own_groups n).
Proof.
  assert (children n ≫= find_first (λ n, level n =b WILDCARD_MULTI) =
    child_at WILDCARD_MULTI n) as ->.
  { unfold child_at, child_list. by destruct (children n). }
  unfold multi_part. destruct (has_wildcard_multi n), (child_at WILDCARD_MULTI n);
    by rewrite ?collect_node_eq, ?app_nil_r.
Qed.

(** With enough fuel the loop ends, having collected what the recursion finds
    for every element of the stack. *)
Lemma search_loop_spec fuel stack subs groups :
  stack_size stack < fuel →
  ∃ subs' groups',
    search_loop fuel stack subs groups = Some (subs', groups') ∧
    subs' ≡ₚ subs ++ concat (map (λ e, search_ref own_subs e.2 e.1) stack) ∧
    groups' ≡ₚ groups ++ concat (map (λ e, search_ref own_groups e.2 e.1) stack).
Proof.
  revert stack subs groups. induction fuel as [|fuel IH];
    intros stack subs groups Hf; [lia|]. cbn [search_loop].
  destruct stack as [|[n t] stack].
  { exists subs, groups. by rewrite !app_nil_r. }
  unfold stack_size in Hf. cbn [map fst] in Hf.
  rewrite list_sum_cons, node_size_eq in Hf. fold (stack_size stack) in Hf.
  rewrite collect_multi. cbn [map concat fst snd].
  destruct t as [|x t].
  - rewrite collect_node_eq.
    edestruct (IH stack) as (s'&g'&->&Hs&Hg); [lia|]. exists s', g'.
    split; [done|]. rewrite Hs, Hg. cbn [search_ref].
    by rewrite <-!app_assoc.
  - assert (Hstack : ∃ stack', match children n with
        | None => search_loop fuel stack (subs ++ multi_part own_subs n)
            (groups ++ multi_part own_groups n)
        | Some cs => search_loop fuel (push_matching x t cs stack)
            (subs ++ multi_part own_subs n) (groups ++ multi_part own_groups n)
        end = search_loop fuel stack' (subs ++ multi_part own_subs n)
            (groups ++ multi_part own_groups n) ∧
      stack' = push_matching x t (child_list n) stack).
    { unfold child_list. destruct (children n); by eexists. }
    destruct Hstack as (stack'&->&->).
    pose proof (stack_size_push x t (child_list n) stack).
    edestruct (IH (push_matching x t (child_list n) stack))
      as (s'&g'&->&Hs&Hg); [lia|]. exists s', g'. split; [done|].
    rewrite Hs, Hg, push_matching_eq. cbn [search_ref].
    rewrite !map_app, !concat_app, <-!app_assoc, !reverse_Permutation, !map_map.
    done.
Qed.
End search.
