(* ===== verification/RouterAbs.v ===== *)
(** The abstract state of a router: a finite map from a filter's segments and a
    subscription key to a sender.  A well-formed trie denotes one, and [search]
    returns the part of it whose filters match. *)
From S2P Require Import Prelude Errors ClientId Topic Router RouterFacts.
From S2P Require Import RouterSearch.
Local Open Scope nat_scope.

Section abs.
Context {Sender : Type}.
Implicit Types (n c : Node Sender) (t p : list bytes) (k : SubscriptionKey).

Definition own_kv n : list (SubscriptionKey * Sender) :=
  map_to_list (subscription_map n).

(** The subscriptions of a trie with their paths and keys. *)
Definition subscriptions n : list ((list bytes * SubscriptionKey) * Sender) :=
  map (λ e, ((e.1, e.2.1), e.2.2)) (entries_of own_kv n).

Definition abs n : gmap (list bytes * SubscriptionKey) Sender :=
  list_to_map (subscriptions n).

(** ** Entries and look-ups *)

Lemma entries_of_elem {X} (own : Node Sender → list X) n p x :
  (p, x) ∈ entries_of own n ↔
  match p with
  | [] => x ∈ own n
  | s :: p => ∃ c, c ∈ child_list n ∧ level c = s ∧ (p, x) ∈ entries_of own c
  end.
Proof.
  rewrite entries_of_eq, elem_of_app, !list_elem_of_In, in_map_iff, in_concat.
  setoid_rewrite in_map_iff. destruct p as [|s p].
  - rewrite list_elem_of_In. split.
    + intros [(y&[= ->]&?)|(es&(c&<-&_)&Hin)]; [done|].
      apply in_map_iff in Hin as ([q y]&[=]&_).
    + intros ?. left. eauto.
  - split.
    + intros [(y&[=]&_)|(es&(c&<-&Hc)&Hin)].
      apply in_map_iff in Hin as ([q y]&[= <- <- <-]&?).
      exists c. by rewrite !list_elem_of_In.
    + intros (c&Hc&<-&Hin). right. eexists. split.
      * exists c. split; [done|]. by apply list_elem_of_In.
      * apply in_map_iff. exists (p, x). split; [done|]. by apply list_elem_of_In.
Qed.

Lemma child_at_elem s n c :
  NoDup (level <$> child_list n) →
  child_at s n = Some c ↔ c ∈ child_list n ∧ level c = s.
Proof.
  intros Hnd. unfold child_at. split.
  - intros [? Hs]%find_first_Some. split; [done|]. by rewrite beq_true in Hs.
  - intros [(l1&l2&Heq)%list_elem_of_split Hs]. rewrite Heq in *.
    apply find_first_middle; [|done].
    rewrite fmap_app, fmap_cons in Hnd. apply NoDup_app in Hnd as (_&Hd&_).
    subst s. intros Hin. apply (Hd _ Hin). by left.
Qed.

Lemma subscriptions_elem n p k tx :
  wf n → ((p, k), tx) ∈ subscriptions n ↔ get p k n = Some tx.
Proof.
  intros Hwf. unfold subscriptions. rewrite list_elem_of_In, in_map_iff.
  transitivity ((p, (k, tx)) ∈ entries_of own_kv n).
  { rewrite list_elem_of_In. split.
    - by intros ([q [k' v]]&[= <- <- <-]&?).
    - intros ?. by exists (p, (k, tx)). }
  revert n Hwf. induction p as [|s p IH]; intros n Hwf; rewrite entries_of_elem.
  - unfold own_kv. rewrite elem_of_map_to_list. done.
  - rewrite get_cons. apply wf_inv in Hwf as (Hnd&_&_&_&_&Hwfs). split.
    + intros (c&Hc&Hs&Hin). apply IH in Hin; [|auto].
      by rewrite (proj2 (child_at_elem s n c Hnd)).
    + destruct (child_at s n) as [c|] eqn:Hc; [|done]. simpl. intros Hg.
      apply child_at_elem in Hc as [??]; [|done].
      exists c. split_and!; [done..|]. apply IH; auto.
Qed.

(** Lists that start with different levels have no element in common. *)
Lemma NoDup_by_level {X} (f : Node Sender → list (list bytes * X)) l :
  NoDup (level <$> l) →
  (∀ c, c ∈ l → NoDup (f c)) →
  (∀ c p x, c ∈ l → (p, x) ∈ f c → head p = Some (level c)) →
  NoDup (concat (map f l)).
Proof.
  induction l as [|c l IH]; intros Hnd Hf Hhead; [constructor|].
  rewrite fmap_cons, NoDup_cons in Hnd. destruct Hnd as [Hc Hnd].
  cbn [map concat]. apply NoDup_app. split_and!.
  - apply Hf. by left.
  - intros [p x] Hin Hin'. apply Hhead in Hin; [|by left].
    rewrite list_elem_of_In, in_concat in Hin'. setoid_rewrite in_map_iff in Hin'.
    destruct Hin' as (es&(d&<-&Hd)&Hx). apply list_elem_of_In in Hd, Hx.
    apply Hhead in Hx; [|by right]. apply Hc. apply list_elem_of_fmap.
    exists d. split; [congruence|done].
  - apply IH; [done|..].
    + intros d Hd. apply Hf. by right.
    + intros d p x Hd. apply Hhead. by right.
Qed.

Lemma subscriptions_keys n :
  (subscriptions n).*1 = map (λ e, (e.1, e.2.1)) (entries_of own_kv n).
Proof. unfold subscriptions. rewrite list_fmap_alt. apply map_map. Qed.

Lemma subscriptions_NoDup n : wf n → NoDup (subscriptions n).*1.
Proof.
  rewrite subscriptions_keys. induction n as [n IH] using Node_ind. intros Hwf.
  apply wf_inv in Hwf as (Hnd&_&_&_&_&Hwfs). rewrite Forall_forall in IH.
  rewrite entries_of_eq, map_app, concat_map, !map_map. apply NoDup_app. split_and!.
  - cbn [fst snd]. rewrite <-(map_map fst (pair [])). apply NoDup_fmap_2.
    + intros ?? [= ->]. done.
    + apply NoDup_fst_map_to_list.
  - intros [p k]. rewrite !list_elem_of_In, in_map_iff.
    intros ([k' v]&[= <- <-]&_) Hin. rewrite in_concat in Hin.
    setoid_rewrite in_map_iff in Hin.
    destruct Hin as (es&(c&<-&_)&Hx). rewrite map_map in Hx.
    apply in_map_iff in Hx as (?&[=]&_).
  - apply NoDup_by_level; [done|..].
    + intros c Hc. rewrite map_map. cbn [prefix_level fst snd].
      rewrite <-(map_map (λ e : list bytes * (SubscriptionKey * Sender),
        (e.1, e.2.1)) (λ e, (level c :: e.1, e.2))).
      apply NoDup_fmap_2; [|auto]. intros [??] [??] [= -> ->]. done.
    + intros c p k Hc. rewrite map_map, list_elem_of_In, in_map_iff.
      by intros (e&[= <- _]&_).
Qed.

(** The abstract state is what the look-ups return. *)
Lemma abs_lookup n p k : wf n → abs n !! (p, k) = get p k n.
Proof.
  intros Hwf. apply option_eq. intros tx. unfold abs.
  rewrite <-elem_of_list_to_map by (by apply subscriptions_NoDup).
  by apply subscriptions_elem.
Qed.

(** ** Search *)

(** The subscriptions a topic is delivered to. *)
Definition delivered (t : list bytes)
    (m : gmap (list bytes * SubscriptionKey) Sender)
  : list (ClientId * Subscription Sender) :=
  map (λ e, to_subscription (e.1.2, e.2))
    (map_to_list (filter (λ e, matches e.1.1 t = true) m)).

Lemma filter_abs (P : list bytes * SubscriptionKey * Sender → Prop)
    `{!∀ e, Decision (P e)} n :
  wf n → map_to_list (filter P (abs n)) ≡ₚ filter P (subscriptions n).
Proof.
  intros Hwf. pose proof (subscriptions_NoDup n Hwf) as Hnd.
  apply NoDup_Permutation.
  - apply NoDup_map_to_list.
  - apply NoDup_filter. by eapply NoDup_fmap_1.
  - intros [i tx]. rewrite elem_of_map_to_list, map_lookup_filter_Some.
    unfold abs. rewrite <-elem_of_list_to_map by done.
    rewrite list_elem_of_filter. tauto.
Qed.

(** The entries of a trie with a function applied to what its nodes own. *)
Lemma hits_map {X Y} (own : Node Sender → list X) (f : X → Y) t n :
  hits t (entries_of (λ n, map f (own n)) n) = map f (hits t (entries_of own n)).
Proof.
  assert (Heq : entries_of (λ n, map f (own n)) n =
    map (λ e, (e.1, f e.2)) (entries_of own n)).
  { induction n as [n IH] using Node_ind. rewrite !entries_of_eq.
    rewrite map_app, !map_map, concat_map, map_map. f_equal. f_equal.
    rewrite Forall_forall in IH. apply map_ext_in. intros c Hc.
    rewrite (IH c) by (by apply list_elem_of_In). by rewrite !map_map. }
  rewrite Heq. clear Heq. induction (entries_of own n) as [|e es IH]; [done|].
  cbn [map]. rewrite !hits_cons, IH. cbn [fst snd].
  by destruct (matches e.1 t).
Qed.

Lemma hits_subscriptions t n :
  hits t (entries_of own_kv n) =
  map (λ e, (e.1.2, e.2)) (filter (λ e, matches e.1.1 t = true) (subscriptions n)).
Proof.
  unfold subscriptions. induction (entries_of own_kv n) as [|[p [k v]] es IH];
    [done|]. cbn [map]. rewrite hits_cons, filter_cons, IH. cbn [fst snd].
  by destruct (matches p t) eqn:Hm; case_decide.
Qed.

(** The loop of [search] delivers to exactly the matching subscriptions. *)
Lemma search_root_spec n t :
  wf n → (WILDCARD_MULTI ∉ t) →
  ∃ subs groups,
    search_loop (S (node_size n)) [(n, t)] [] [] = Some (subs, groups) ∧
    subs ≡ₚ delivered t (abs n) ∧
    groups ≡ₚ hits t (entries_of own_groups n).
Proof.
  intros Hwf Ht.
  destruct (search_loop_spec (S (node_size n)) [(n, t)] [] [])
    as (subs&groups&->&Hs&Hg).
  { unfold stack_size. simpl. lia. }
  exists subs, groups. split; [done|]. cbn [map concat fst snd app] in Hs, Hg.
  rewrite app_nil_r in Hs, Hg. rewrite Hs, Hg, !search_ref_hits by done.
  split; [|done]. change own_subs with (λ n, map to_subscription (own_kv n)).
  rewrite hits_map, hits_subscriptions, map_map. unfold delivered.
  by rewrite filter_abs.
Qed.
End abs.
