(* ===== verification/RouterDelete.v ===== *)
(** Reasoning about [delete]: the loop that prunes empty nodes from the leaf to
    the root equals a recursion down the path, which removes one subscription
    and keeps the trie well formed. *)
From S2P Require Import Prelude Errors ClientId Topic Router RouterFacts.
Local Open Scope nat_scope.

Section delete.
Context {Sender : Type}.
Implicit Types (n c : Node Sender) (p segs : list bytes) (k : SubscriptionKey).

(** ** The loop as a recursion *)

(** Remove the subscription at the end of the path; on the way back, prune the
    child just left as long as everything below it was pruned. *)
Fixpoint delete_rec (path : list nat) k n : outcome (Node Sender * bool) :=
  match path with
  | [] => Ok (set_subscription_map (base.delete k (subscription_map n)) n, true)
  | idx :: path =>
      cs ← unwrap (children n);
      child ← unwrap (cs !! idx);
      '(child, continue) ← delete_rec path k child;
      let n := set_children (Some (<[idx := child]> cs)) n in
      if (continue : bool) then prune_child idx n else Ok (n, false)
  end.

Lemma set_children_eta n cs : children n = Some cs → set_children (Some cs) n = n.
Proof. destruct n. simpl. by intros ->. Qed.

(** The depths below the first are a pruning of the first child. *)
Lemma prune_cons d idx path n :
  prune (S d) (idx :: path) n =
  ('(n, continue) ← update_at [idx] (prune d path) n;
   if (continue : bool) then prune_child idx n else Ok (n, false)).
Proof.
  revert n. induction d as [|d IH]; intros n.
  - cbn [prune lookup list_lookup unwrap mbind result_bind take update_at].
    destruct (children n) as [cs|] eqn:Hcs; cbn [unwrap mbind result_bind];
      [|unfold prune_child; by rewrite Hcs].
    destruct (cs !! idx) as [c|] eqn:Hc; cbn [unwrap mbind result_bind];
      [|unfold prune_child; rewrite Hcs; cbn; by rewrite Hc].
    rewrite list_insert_id, set_children_eta by done.
    destruct (prune_child idx n) as [[m []]| |]; done.
  - cbn [update_at] in *. change (prune (S (S d)) (idx :: path) n) with
      (i ← unwrap (path !! d);
       '(n, continue) ← update_at (idx :: take d path) (prune_child i) n;
       if (continue : bool) then prune (S d) (idx :: path) n
       else Ok (n, false)).
    revert IH. generalize (prune (Sender:=Sender) (S d) (idx :: path)). intros P IH.
    cbn [update_at prune].
    destruct (children n) as [cs|] eqn:Hcs; cbn [unwrap mbind result_bind];
      [|by destruct (path !! d)].
    destruct (cs !! idx) as [c|] eqn:Hc; cbn [unwrap mbind result_bind];
      [|by destruct (path !! d)].
    destruct (path !! d) as [i|]; cbn [unwrap mbind result_bind]; [|done].
    destruct (update_at (take d path) (prune_child i) c) as [[c' b]| |];
      cbn [mbind result_bind]; [|done..].
    destruct b; [|done]. rewrite IH. cbn [children set_children unwrap mbind
      result_bind]. apply lookup_lt_Some in Hc.
    rewrite list_lookup_insert_eq by done. cbn [unwrap mbind result_bind].
    destruct (prune d path c') as [[c'' b']| |]; cbn [mbind result_bind];
      [|done..]. by rewrite list_insert_insert_eq.
Qed.

Lemma delete_rec_eq path k n :
  ('(n, _) ← update_at path (remove_subscription k) n;
   prune (length path) path n) = delete_rec path k n.
Proof.
  revert n. induction path as [|idx path IH]; intros n; [done|].
  cbn [update_at delete_rec length].
  destruct (children n) as [cs|]; cbn [unwrap mbind result_bind]; [|done].
  destruct (cs !! idx) as [c|] eqn:Hc; cbn [unwrap mbind result_bind]; [|done].
  rewrite <-IH.
  destruct (update_at path (remove_subscription k) c) as [[c' []]| |];
    cbn [mbind result_bind]; [|done..].
  rewrite prune_cons. cbn [update_at children set_children unwrap mbind
    result_bind]. apply lookup_lt_Some in Hc.
  rewrite list_lookup_insert_eq by done. cbn [unwrap mbind result_bind].
  destruct (prune (length path) path c') as [[c'' b']| |];
    cbn [mbind result_bind]; [|done..]. by rewrite list_insert_insert_eq.
Qed.

(** ** The path of a filter *)

Lemma find_path_cons s segs n path :
  find_path (s :: segs) n = Ok (Some path) →
  ∃ l1 c l2 path', children n = Some (l1 ++ c :: l2) ∧ level c = s ∧
    (s ∉ level <$> l1) ∧ path = length l1 :: path' ∧
    find_path segs c = Ok (Some path').
Proof.
  cbn [find_path]. destruct (children n) as [cs|]; [|done].
  destruct (position _ cs) as [i|] eqn:Hp; [|done].
  apply position_split in Hp as (l1&c&l2&->&->&?&?). rewrite lookup_middle.
  cbn [unwrap mbind result_bind].
  destruct (find_path segs c) as [[path'|]| |] eqn:Hf; cbn; [|done..].
  intros [= <-]. by exists l1, c, l2, path'.
Qed.

(** A path is found exactly for the filters that have a node, without panics. *)
Lemma find_path_node_at segs n :
  match node_at segs n with
  | Some _ => ∃ path, find_path segs n = Ok (Some path)
  | None => find_path segs n = Ok None
  end.
Proof.
  revert n. induction segs as [|s segs IH]; intros n; [by exists []|].
  cbn [find_path node_at]. unfold child_at, child_list.
  destruct (children n) as [cs|]; [|done].
  change (default [] (Some cs)) with cs.
  destruct (position _ cs) as [i|] eqn:Hp.
  - apply position_split in Hp as (l1&c&l2&->&->&?&?).
    rewrite lookup_middle, find_first_middle by done. cbn [mbind option_bind unwrap result_bind].
    specialize (IH c). destruct (node_at segs c).
    + destruct IH as [path ->]. by eexists.
    + by rewrite IH.
  - apply position_none in Hp.
    by rewrite find_first_skip.
Qed.

(** ** Replacing and pruning a child *)

Lemma child_list_Some n l : children n = Some l → child_list n = l.
Proof. unfold child_list. by intros ->. Qed.

(** A child replaced by a live, well-formed node of the same level. *)
Lemma wf_replace n l1 c c' l2 :
  wf n → children n = Some (l1 ++ c :: l2) → level c' = level c →
  wf c' → ¬ dead c' → wf (set_children (Some (l1 ++ c' :: l2)) n).
Proof.
  intros Hwf Hn Hl Hc' Hd'.
  apply wf_inv in Hwf as (Hnd&_&Hs&Hm&Hlive&Hwfs).
  rewrite (child_list_Some _ _ Hn) in *.
  assert (Hlev : level <$> (l1 ++ c' :: l2) = level <$> (l1 ++ c :: l2)).
  { by rewrite !fmap_app, !fmap_cons, Hl. }
  assert (Hsub : ∀ d, d ∈ l1 ++ c' :: l2 → d = c' ∨ d ∈ l1 ++ c :: l2).
  { set_solver. }
  constructor; unfold child_list; cbn; rewrite ?Hlev; [done| |done|done|..].
  - by destruct l1.
  - intros d [->|?]%Hsub; auto.
  - intros d [->|?]%Hsub; auto.
Qed.

Lemma get_replace n l1 c c' l2 s p k :
  children n = Some (l1 ++ c :: l2) → level c' = level c →
  (level c ∉ level <$> l1) →
  get (s :: p) k (set_children (Some (l1 ++ c' :: l2)) n) =
  if decide (s = level c) then get p k c' else get (s :: p) k n.
Proof.
  intros Hn Hl Hl1. rewrite !get_cons, child_at_set_children. unfold child_at.
  rewrite (child_list_Some _ _ Hn). case_decide as Hs.
  - subst s. by rewrite find_first_middle.
  - by rewrite (find_first_other _ _ _ c) by congruence.
Qed.

Lemma get_dead p k n : dead n → get p k n = None.
Proof.
  intros (Hm&_&Hc). destruct p as [|s p].
  - unfold get. simpl. by rewrite Hm, lookup_empty.
  - rewrite get_cons. unfold child_at, child_list. by rewrite Hc.
Qed.

(** The node without a child, with the flag of the child's level recomputed. *)
Definition pruned (removed : bytes) (cs : list (Node Sender)) n : Node Sender :=
  set_children (if is_empty cs then None else Some cs)
    (if removed =b WILDCARD_SINGLE then
       set_wildcard_single (existsb (λ n, level n =b WILDCARD_SINGLE) cs) n
     else if removed =b WILDCARD_MULTI then
       set_wildcard_multi (existsb (λ n, level n =b WILDCARD_MULTI) cs) n
     else n).

Lemma map_is_empty_true {K V} `{Countable K} (m : gmap K V) :
  map_is_empty m = true ↔ m = ∅.
Proof.
  unfold map_is_empty. rewrite <-map_to_list_empty_iff.
  by destruct (map_to_list m).
Qed.

Lemma dead_test n :
  map_is_empty (subscription_map n) && map_is_empty (queue_group_map n)
  && match children n with None => true | Some _ => false end = true ↔ dead n.
Proof.
  unfold dead. rewrite !andb_true_iff, !map_is_empty_true.
  destruct (children n); intuition done.
Qed.

Lemma prune_child_spec n l1 c l2 :
  children n = Some (l1 ++ c :: l2) →
  dead c ∧ prune_child (length l1) n = Ok (pruned (level c) (l1 ++ l2) n, true) ∨
  ¬ dead c ∧ prune_child (length l1) n = Ok (n, false).
Proof.
  intros Hn. unfold prune_child. rewrite Hn. cbn [unwrap mbind result_bind].
  rewrite lookup_middle. cbn [unwrap mbind result_bind].
  destruct (_ && _) eqn:Ht.
  - left. split; [by apply dead_test|]. by rewrite delete_middle.
  - right. split; [|done]. rewrite <-dead_test. congruence.
Qed.

Lemma existsb_level s (cs : list (Node Sender)) :
  existsb (λ n, level n =b s) cs = bool_decide (s ∈ level <$> cs).
Proof.
  induction cs as [|c cs IH]; [done|]. cbn [existsb]. rewrite IH, fmap_cons.
  destruct (beq_spec (level c) s) as [->|]; cbn [orb].
  - symmetry. apply bool_decide_eq_true. by left.
  - apply bool_decide_ext. rewrite elem_of_cons. intuition congruence.
Qed.

Lemma wf_pruned n l1 c l2 :
  wf n → children n = Some (l1 ++ c :: l2) → wf (pruned (level c) (l1 ++ l2) n).
Proof.
  intros Hwf Hn. apply wf_inv in Hwf as (Hnd&_&Hs&Hm&Hlive&Hwfs).
  rewrite (child_list_Some _ _ Hn) in *.
  assert (Hcl : child_list (pruned (level c) (l1 ++ l2) n) = l1 ++ l2).
  { unfold child_list, pruned. by destruct (l1 ++ l2). }
  assert (Hsub : ∀ d, d ∈ l1 ++ l2 → d ∈ l1 ++ c :: l2) by set_solver.
  assert (Hother : ∀ s, s ≠ level c → bool_decide (s ∈ level <$> (l1 ++ c :: l2)) =
    bool_decide (s ∈ level <$> (l1 ++ l2))).
  { intros s Hne. apply bool_decide_ext. rewrite !fmap_app, fmap_cons.
    rewrite !elem_of_app, elem_of_cons. intuition congruence. }
  constructor; rewrite ?Hcl; [| | | |auto|auto].
  - eapply sublist_NoDup; [exact Hnd|]. rewrite !fmap_app, fmap_cons.
    apply sublist_app; [done|]. by apply sublist_cons.
  - unfold pruned. cbn. by destruct (l1 ++ l2).
  - unfold pruned. cbn [has_wildcard_single set_children].
    destruct (beq_spec (level c) WILDCARD_SINGLE) as [|];
      [cbn [has_wildcard_single set_wildcard_single]; apply existsb_level|].
    rewrite <-Hother by congruence. by case_match.
  - unfold pruned. cbn [has_wildcard_multi set_children].
    destruct (beq_spec (level c) WILDCARD_SINGLE) as [Heq|].
    { cbn [has_wildcard_multi set_wildcard_single].
      rewrite Hm. apply Hother. by rewrite Heq. }
    destruct (beq_spec (level c) WILDCARD_MULTI) as [|];
      [cbn [has_wildcard_multi set_wildcard_multi]; apply existsb_level|].
    rewrite <-Hother by congruence. done.
Qed.

Lemma get_pruned n l1 c l2 s p k :
  children n = Some (l1 ++ c :: l2) → NoDup (level <$> (l1 ++ c :: l2)) →
  get (s :: p) k (pruned (level c) (l1 ++ l2) n) =
  if decide (s = level c) then None else get (s :: p) k n.
Proof.
  intros Hn Hnd. rewrite !get_cons. unfold child_at.
  rewrite (child_list_Some _ _ Hn).
  assert (child_list (pruned (level c) (l1 ++ l2) n) = l1 ++ l2) as ->.
  { unfold child_list, pruned. by destruct (l1 ++ l2). }
  case_decide as Hs; [|by rewrite find_first_removed by congruence].
  subst s. rewrite find_first_skip; [done|].
  rewrite fmap_app, fmap_cons in Hnd. rewrite fmap_app.
  apply NoDup_app in Hnd as (_&Hd&[Hc _]%NoDup_cons).
  rewrite elem_of_app. intros [H|H]; [|done]. apply (Hd _ H). by left.
Qed.

(** ** Deletion *)

Lemma level_pruned s l n : level (pruned s l n) = level n.
Proof. unfold pruned. cbn. by repeat case_match. Qed.
Lemma subscription_map_pruned s l n :
  subscription_map (pruned s l n) = subscription_map n.
Proof. unfold pruned. cbn. by repeat case_match. Qed.

Lemma get_nil k n : get [] k n = subscription_map n !! k.
Proof. done. Qed.

(** What a deletion below a node leaves of it. *)
Definition deleted segs key n n' : Prop :=
  level n' = level n ∧ wf n' ∧
  ∀ p k, get p k n' = if decide (p = segs ∧ k = key) then None else get p k n.

(** The child with the subscription removed stays... *)
Lemma deleted_replace segs key n l1 c c' l2 :
  wf n → children n = Some (l1 ++ c :: l2) → (level c ∉ level <$> l1) →
  deleted segs key c c' → ¬ dead c' →
  deleted (level c :: segs) key n (set_children (Some (l1 ++ c' :: l2)) n).
Proof.
  intros Hwf Hn Hl1 (Hl&Hw&Hg) Hd. split_and!; [done|by eapply wf_replace|].
  intros [|s p] k; [by rewrite decide_False by (by intros [[=] _])|].
  rewrite (get_replace _ _ _ _ _ _ _ _ Hn Hl Hl1).
  destruct (decide (s = level c)) as [->|Hs].
  - rewrite Hg, get_cons. unfold child_at.
    rewrite (child_list_Some _ _ Hn), find_first_middle by done. cbn.
    destruct (decide (p = segs ∧ k = key)) as [[-> ->]|Hne];
      [by rewrite decide_True|].
    rewrite decide_False; [done|]. by intros [[= ->] ->]; apply Hne.
  - rewrite decide_False; [done|]. by intros [[=] _].
Qed.

(** ... or is pruned when nothing is left in it. *)
Lemma deleted_pruned segs key n l1 c c' l2 :
  wf n → children n = Some (l1 ++ c :: l2) → (level c ∉ level <$> l1) →
  deleted segs key c c' → dead c' →
  deleted (level c :: segs) key n (pruned (level c) (l1 ++ l2) n).
Proof.
  intros Hwf Hn Hl1 (Hl&Hw&Hg) Hd.
  split_and!; [apply level_pruned|by eapply wf_pruned|].
  intros [|s p] k.
  { rewrite decide_False by (by intros [[=] _]).
    by rewrite !get_nil, subscription_map_pruned. }
  apply wf_inv in Hwf as (Hnd&_). rewrite (child_list_Some _ _ Hn) in Hnd.
  rewrite (get_pruned _ _ _ _ _ _ _ Hn Hnd).
  destruct (decide (s = level c)) as [->|Hs].
  - case_decide as Hpk; [done|]. rewrite get_cons. unfold child_at.
    rewrite (child_list_Some _ _ Hn), find_first_middle by done. cbn.
    specialize (Hg p k). rewrite (get_dead _ _ _ Hd) in Hg.
    rewrite decide_False in Hg; [done|]. intros [-> ->]. by apply Hpk.
  - rewrite decide_False; [done|]. by intros [[=] _].
Qed.

Lemma pruned_set_children s l cs n : pruned s l (set_children cs n) = pruned s l n.
Proof. unfold pruned. by repeat case_match. Qed.

Lemma delete_rec_spec segs key n path :
  wf n → find_path segs n = Ok (Some path) →
  ∃ n' continue, delete_rec path key n = Ok (n', continue) ∧
    deleted segs key n n' ∧ (continue = false → ¬ dead n').
Proof.
  revert n path. induction segs as [|s segs IH]; intros n path Hwf Hf.
  { injection Hf as <-. do 2 eexists. split; [done|]. split; [|done].
    split_and!; [done|apply wf_inv in Hwf as (?&?&?&?&?&?); by constructor|].
    intros [|s p] k; [|by rewrite decide_False by (by intros [[=] _])].
    unfold get. cbn. rewrite lookup_delete.
    destruct (decide (key = k)) as [->|Hk]; [by rewrite decide_True|].
    rewrite decide_False; [done|]. by intros [_ ->]. }
  apply find_path_cons in Hf as (l1&c&l2&path'&Hn&<-&Hl1&->&Hf).
  assert (Hwc : wf c).
  { apply wf_inv in Hwf as (_&_&_&_&_&Hwfs). apply Hwfs.
    rewrite (child_list_Some _ _ Hn). set_solver. }
  destruct (IH c path' Hwc Hf) as (c'&b&Hd&Hdel&Hb).
  cbn [delete_rec]. rewrite Hn. cbn [unwrap mbind result_bind].
  rewrite lookup_middle. cbn [unwrap mbind result_bind]. rewrite Hd.
  cbn [mbind result_bind]. rewrite insert_middle.
  set (n1 := set_children (Some (l1 ++ c' :: l2)) n).
  assert (Hlive : ¬ dead n1) by (by intros (_&_&?)).
  destruct b.
  - destruct (prune_child_spec n1 l1 c' l2 eq_refl) as [[Hdead ->]|[Hdead ->]].
    + do 2 eexists. split; [done|]. split; [|done]. unfold n1.
      rewrite pruned_set_children. replace (level c') with (level c)
        by (by destruct Hdel). by eapply deleted_pruned.
    + do 2 eexists. split; [done|]. split; [|done]. by apply deleted_replace.
  - do 2 eexists. split; [done|]. split; [|done]. apply deleted_replace; auto.
Qed.

(** ** Deleting what was inserted *)

Lemma find_path_middle s segs n l1 c l2 path :
  children n = Some (l1 ++ c :: l2) → level c = s → (s ∉ level <$> l1) →
  find_path segs c = Ok (Some path) →
  find_path (s :: segs) n = Ok (Some (length l1 :: path)).
Proof.
  intros Hn Hc Hl1 Hp. cbn [find_path]. rewrite Hn.
  destruct (position _ _) as [i|] eqn:Hpos.
  - assert (i = length l1) as ->.
    { apply position_split in Hpos as (k1&d&k2&Heq&->&Hd&Hk1).
      destruct (Nat.lt_trichotomy (length l1) (length k1)) as [Hlt|[->|Hlt]]; [|done|].
      - apply (f_equal (.!! length l1)) in Heq.
        rewrite lookup_middle, lookup_app_l in Heq by done. destruct Hk1.
        rewrite <-Hc. by eapply list_elem_of_fmap_2, list_elem_of_lookup_2.
      - apply (f_equal (.!! length k1)) in Heq.
        rewrite lookup_middle, lookup_app_l in Heq by done. destruct Hl1.
        rewrite <-Hd. by eapply list_elem_of_fmap_2, list_elem_of_lookup_2. }
    rewrite lookup_middle. cbn [unwrap mbind result_bind]. by rewrite Hp.
  - apply position_none in Hpos. destruct Hpos. rewrite fmap_app, fmap_cons, Hc.
    set_solver.
Qed.

(** The flag of a level that is there is set already... *)
Lemma mark_wildcard_present s n :
  wf n → s ∈ level <$> child_list n → mark_wildcard s n = n.
Proof.
  intros (_&_&Hs&Hm&_)%wf_inv Hin. unfold mark_wildcard.
  destruct (beq_spec s WILDCARD_SINGLE) as [->|].
  { rewrite bool_decide_eq_true_2 in Hs by done. destruct n. simpl in *. by subst. }
  destruct (beq_spec s WILDCARD_MULTI) as [->|]; [|done].
  rewrite bool_decide_eq_true_2 in Hm by done. destruct n. simpl in *. by subst.
Qed.

(** ... and pruning the only child of a level unsets it. *)
Lemma pruned_mark_absent s n :
  wf n → (s ∉ level <$> child_list n) →
  pruned s (child_list n) (mark_wildcard s n) = n.
Proof.
  intros (_&Hne&Hs&Hm&_)%wf_inv Hin.
  assert (Hch : (if is_empty (child_list n) then None else Some (child_list n))
    = children n).
  { unfold child_list. by destruct (children n) as [[|]|]. }
  unfold pruned, mark_wildcard. rewrite Hch, !existsb_level.
  destruct (beq_spec s WILDCARD_SINGLE) as [->|].
  { rewrite <-Hs. by destruct n. }
  destruct (beq_spec s WILDCARD_MULTI) as [->|]; [|by destruct n].
  rewrite <-Hm. by destruct n.
Qed.

Lemma children_middle n l1 c l2 :
  child_list n = l1 ++ c :: l2 → children n = Some (l1 ++ c :: l2).
Proof.
  unfold child_list. destruct (children n) as [l|]; [by intros <-|]. by destruct l1.
Qed.

Lemma delete_rec_cons key n l1 c l2 path :
  children n = Some (l1 ++ c :: l2) →
  delete_rec (length l1 :: path) key n =
  ('(c', continue) ← delete_rec path key c;
   let n := set_children (Some (l1 ++ c' :: l2)) n in
   if (continue : bool) then prune_child (length l1) n else Ok (n, false)).
Proof.
  intros Hn. cbn [delete_rec]. rewrite Hn. cbn [unwrap mbind result_bind].
  rewrite lookup_middle. cbn [unwrap mbind result_bind].
  destruct (delete_rec path key c) as [[c' b]| |]; [|done..].
  cbn [mbind result_bind]. by rewrite insert_middle.
Qed.

(** Deleting a new subscription gives back the trie it was inserted into. *)
Lemma delete_rec_insert_walk segs key tx n n' :
  wf n → get segs key n = None → insert_walk segs (store key tx) n = Ok n' →
  ∃ path continue, find_path segs n' = Ok (Some path) ∧
    delete_rec path key n' = Ok (n, continue) ∧ (dead n → continue = true).
Proof.
  revert n n'. induction segs as [|s segs IH]; intros n n' Hwf Hget.
  { intros [= <-]. exists [], true. split_and!; [done| |done].
    cbn. rewrite get_nil in Hget. rewrite delete_insert_id by done. by destruct n. }
  destruct (insert_walk_cons s segs (store key tx) n) as (l1&c&l2&->&Hc&Hl1&Hold).
  destruct (insert_walk_Ok segs (store key tx) c) as (c'&Hc'&Hlev); [done|].
  rewrite Hc'. intros [= <-]. cbn [mbind result_bind].
  assert (Hwc : wf c ∧ get segs key c = None).
  { destruct Hold as [Heq|(_&_&->)]; [|split; [apply wf_default|apply get_default]].
    apply wf_inv in Hwf as (_&_&_&_&_&Hwfs). split.
    - apply Hwfs. rewrite Heq. set_solver.
    - rewrite get_cons in Hget. unfold child_at in Hget.
      by rewrite Heq, find_first_middle in Hget. }
  destruct (IH c c' (proj1 Hwc) (proj2 Hwc) Hc') as (path&b&Hp&Hd&Hb).
  set (m := set_children _ _). exists (length l1 :: path).
  assert (Hm : children m = Some (l1 ++ c' :: l2)) by done.
  rewrite (delete_rec_cons _ _ _ _ _ _ Hm), Hd. cbn [mbind result_bind].
  rewrite (find_path_middle s segs m l1 c' l2 path) by (done || congruence).
  set (m1 := set_children (Some (l1 ++ c :: l2)) m).
  destruct Hold as [Heq|(Heq&->&->)].
  - assert (Hin : c ∈ child_list n) by (rewrite Heq; set_solver).
    assert (Hlive : ¬ dead c) by (by apply wf_inv in Hwf as (_&_&_&_&?&_); auto).
    apply children_middle in Heq as Hn.
    assert (m1 = n) as ->.
    { unfold m1, m. rewrite mark_wildcard_present; [|done|].
      { by apply (set_children_eta n). }
      rewrite <-Hc. by apply list_elem_of_fmap_2. }
    exists false. split; [done|]. split; [|by intros (_&_&?); congruence].
    destruct b; [|done].
    by destruct (prune_child_spec n l1 c l2 Hn) as [[? _]|[_ ->]].
  - assert (Hdead : dead (mkNode s ∅ ∅ None false false : Node Sender)) by done.
    rewrite (Hb Hdead). exists true. split; [done|]. split; [|done].
    destruct (prune_child_spec m1 l1 _ [] eq_refl) as [[_ ->]|[? _]]; [|done].
    unfold m1, m. rewrite !pruned_set_children, app_nil_r. cbn [level].
    rewrite <-Heq, pruned_mark_absent; [done..|]. by rewrite Heq.
Qed.
End delete.
