(* ===== verification/RouterSpec.v ===== *)
(** What the router promises: its operations implement a flat table of
    subscriptions, and [search] delivers a topic to exactly the subscriptions of
    the table whose filters match it. *)
From S2P Require Import Prelude Errors ClientId Topic TopicSpec Router RouterFacts.
From S2P Require Import RouterSearch RouterAbs RouterDelete.
Local Open Scope nat_scope.

Section spec.
Context {Sender : Type}.
Implicit Types (n c : Node Sender) (r : Router Sender) (tx : Sender)
  (key : SubscriptionKey) (f : TopicFilter.TopicFilter).

(** ** The flat table *)

(** The subscriptions with their filters' segments and keys, and the filter that
    each key is known under. *)
Record table : Type := mkTable {
  entries : gmap (list bytes * SubscriptionKey) Sender;
  filters : gmap SubscriptionKey TopicFilter.TopicFilter;
}.

Definition table_insert tx key f (t : table) : table :=
  mkTable (<[(TopicFilter.segments f, key) := tx]> (entries t))
    (<[key := f]> (filters t)).

Definition table_delete key (t : table) : table :=
  match filters t !! key with
  | None => t
  | Some f =>
      mkTable (base.delete (TopicFilter.segments f, key) (entries t))
        (base.delete key (filters t))
  end.

(** The table of a router. *)
Definition table_of r : table := mkTable (abs (root r)) (subscription_kv r).

(** ** Runs *)

Inductive op : Type :=
| Insert (tx : Sender) (client_id : ClientId) (subscription_id : u32)
    (topic : TopicFilter.TopicFilter)
| Delete (subscription_key : SubscriptionKey).

Definition apply (o : op) r : outcome (Router Sender) :=
  match o with
  | Insert tx c s f => insert tx c s f r
  | Delete key => Router.delete key r
  end.

Definition table_apply (o : op) (t : table) : table :=
  match o with
  | Insert tx c s f => table_insert tx (mkSubscriptionKey c s) f t
  | Delete key => table_delete key t
  end.

Fixpoint run (ops : list op) r : outcome (Router Sender) :=
  match ops with
  | [] => Ok r
  | o :: ops => r ← apply o r; run ops r
  end.

Inductive reachable : Router Sender → Prop :=
| reachable_new : reachable Router_new
| reachable_step o r r' : reachable r → apply o r = Ok r' → reachable r'.

(** ** The invariant *)

(** No node of the trie has queue groups. *)
Inductive ungrouped : Node Sender → Prop :=
| ungrouped_intro n :
    queue_group_map n = ∅ → (∀ c, c ∈ child_list n → ungrouped c) → ungrouped n.

Lemma ungrouped_inv n :
  ungrouped n →
  queue_group_map n = ∅ ∧ ∀ c, c ∈ child_list n → ungrouped c.
Proof. by destruct 1. Qed.

(** Every known key has its subscription in the trie. *)
Definition tracked r : Prop :=
  ∀ key f, subscription_kv r !! key = Some f →
    is_Some (get (TopicFilter.segments f) key (root r)).

Record inv r : Prop := mkInv {
  inv_wf : wf (root r);
  inv_tracked : tracked r;
  inv_ungrouped : ungrouped (root r);
}.

Lemma inv_new : inv Router_new.
Proof.
  split.
  - apply wf_default.
  - intros key f. unfold Router_new. cbn [subscription_kv]. by rewrite lookup_empty.
  - constructor; [done|]. by intros c ?%elem_of_nil.
Qed.

(** *** Queue groups *)

Lemma insert_walk_ungrouped segs key tx n n' :
  ungrouped n → insert_walk segs (store key tx) n = Ok n' → ungrouped n'.
Proof.
  revert n n'. induction segs as [|s segs IH]; intros n n' Hn.
  { intros [= <-]. apply ungrouped_inv in Hn as []. by constructor. }
  destruct (insert_walk_cons s segs (store key tx) n) as (l1&c&l2&->&_&_&Hold).
  destruct (insert_walk segs _ c) as [c'| |] eqn:Hc'; [|done..].
  intros [= <-]. apply ungrouped_inv in Hn as [Hq Hn].
  constructor; [unfold mark_wildcard; by repeat case_match|].
  assert (Hc : ungrouped c).
  { destruct Hold as [Heq|(_&_&->)].
    - apply Hn. rewrite Heq. set_solver.
    - constructor; [done|]. by intros d ?%elem_of_nil. }
  intros d Hd. change (child_list _) with (l1 ++ c' :: l2) in Hd.
  apply elem_of_app in Hd as [Hd|[->|Hd]%elem_of_cons]; [|eauto|].
  all: apply Hn; destruct Hold as [->|(->&->&_)]; set_solver.
Qed.

Lemma prune_child_ungrouped idx n n' b :
  ungrouped n → prune_child idx n = Ok (n', b) → ungrouped n'.
Proof.
  intros Hn. apply ungrouped_inv in Hn as Hn'. destruct Hn' as [Hq Hcs].
  unfold prune_child, child_list in *. destruct (children n) as [cs|]; [|done].
  cbn in *. destruct (cs !! idx) as [c|]; [|done]. cbn.
  destruct (_ && _); intros [= <- <-]; [|done].
  constructor; [by repeat case_match|].
  intros d Hd. apply Hcs. unfold child_list in Hd. cbn in Hd.
  destruct (is_empty _); [by apply elem_of_nil in Hd|].
  by eapply list_elem_of_delete_inv.
Qed.

Lemma delete_rec_ungrouped path key n n' b :
  ungrouped n → delete_rec path key n = Ok (n', b) → ungrouped n'.
Proof.
  revert n n' b. induction path as [|i path IH]; intros n n' b Hn; cbn [delete_rec].
  { intros [= <- <-]. apply ungrouped_inv in Hn as []. by constructor. }
  apply ungrouped_inv in Hn as [Hq Hcs]. unfold child_list in Hcs.
  destruct (children n) as [cs|]; [|done]. cbn [unwrap mbind result_bind].
  destruct (cs !! i) as [c|] eqn:Hi; [|done]. cbn [unwrap mbind result_bind].
  destruct (delete_rec path key c) as [[c' b']| |] eqn:Hd; [|done..].
  cbn [mbind result_bind].
  assert (Hu : ungrouped (set_children (Some (<[i := c']> cs)) n)).
  { constructor; [done|]. intros d Hd'. change (child_list _) with (<[i:=c']> cs) in Hd'.
    apply list_elem_of_lookup in Hd' as [j Hj].
    apply list_lookup_insert_Some in Hj as [(_&<-&_)|(_&Hj)].
    - eapply IH; [|done]. by eapply Hcs, list_elem_of_lookup_2.
    - by eapply Hcs, list_elem_of_lookup_2. }
  destruct b'; [by apply prune_child_ungrouped|]. by intros [= <- <-].
Qed.

Lemma entries_of_ungrouped n : ungrouped n → entries_of own_groups n = [].
Proof.
  induction n as [n IH] using Node_ind. intros [Hq Hcs]%ungrouped_inv.
  rewrite entries_of_eq. unfold own_groups at 1. rewrite Hq, map_to_list_empty.
  cbn [map app]. rewrite Forall_forall in IH.
  induction (child_list n) as [|c l IHl]; [done|]. cbn [map concat].
  rewrite (IH c), IHl; [done|..]; intros; try apply IH; try apply Hcs; set_solver.
Qed.

(** ** The operations *)

Lemma insert_spec tx (c : ClientId) (s : u32) f r :
  inv r →
  ∃ r', insert tx c s f r = Ok r' ∧ inv r' ∧
    table_of r' = table_insert tx (mkSubscriptionKey c s) f (table_of r).
Proof.
  intros [Hwf Htr Hun]. set (key := mkSubscriptionKey c s).
  destruct (insert_walk_Ok (TopicFilter.segments f) (store key tx) (root r))
    as (n'&Hn'&_); [done|].
  destruct (insert_walk_wf _ _ _ _ _ Hwf Hn') as [Hwf' _].
  eexists. unfold insert. fold key. fold (store (Sender:=Sender) key tx).
  rewrite Hn'. cbn [mbind result_bind]. split; [done|]. split.
  - split; [done| |by eapply insert_walk_ungrouped].
    intros k g. cbn [subscription_kv root].
    rewrite lookup_insert_Some, (insert_walk_get _ _ _ _ _ _ _ Hn').
    intros [[<- <-]|[Hk Hg]]; [by rewrite decide_True|].
    rewrite decide_False by (by intros [_ ->]). by apply Htr.
  - unfold table_of, table_insert. cbn [root subscription_kv entries filters].
    f_equal. apply map_eq. intros [p k].
    rewrite abs_lookup, (insert_walk_get _ _ _ _ _ _ _ Hn') by done.
    rewrite lookup_insert, abs_lookup by done.
    repeat case_decide; naive_solver.
Qed.

Lemma delete_spec key r :
  inv r →
  ∃ r', Router.delete key r = Ok r' ∧ inv r' ∧
    table_of r' = table_delete key (table_of r).
Proof.
  intros Hinv. pose proof Hinv as [Hwf Htr Hun]. unfold Router.delete, table_delete.
  cbn [filters table_of]. destruct (subscription_kv r !! key) as [f|] eqn:Hf;
    [|by exists r]. set (segs := TopicFilter.segments f).
  destruct (Htr _ _ Hf) as [tx Htx]. fold segs in Htx.
  pose proof (find_path_node_at segs (root r)) as Hpath.
  unfold get in Htx. destruct (node_at segs (root r)); [|done]. clear Htx.
  destruct Hpath as [path Hpath]. rewrite Hpath. cbn [mbind result_bind].
  destruct (delete_rec_spec _ key _ _ Hwf Hpath) as (n'&b&Hd&(_&Hwf'&Hg)&_).
  pose proof (delete_rec_eq path key (root r)) as Heq. rewrite Hd in Heq.
  destruct (update_at path (remove_subscription key) (root r)) as [[n1 []]| |];
    [|done..]. cbn [mbind result_bind] in Heq |- *. rewrite Heq.
  cbn [mbind result_bind]. eexists. split; [done|]. split.
  - split; [done| |by eapply delete_rec_ungrouped].
    intros k g. cbn [subscription_kv root]. rewrite lookup_delete_Some, Hg.
    intros [Hk Hkg]. rewrite decide_False by (by intros [_ ->]). by apply Htr.
  - unfold table_of. cbn [root subscription_kv entries filters].
    f_equal. apply map_eq. intros [p k].
    rewrite abs_lookup, Hg, lookup_delete, abs_lookup by done.
    repeat case_decide; naive_solver.
Qed.

Lemma apply_spec o r :
  inv r → ∃ r', apply o r = Ok r' ∧ inv r' ∧ table_of r' = table_apply o (table_of r).
Proof.
  intros Hinv. destruct o; [by apply insert_spec|by apply delete_spec].
Qed.

Lemma run_spec ops r :
  inv r → ∃ r', run ops r = Ok r' ∧ inv r' ∧
    table_of r' = foldl (flip table_apply) (table_of r) ops.
Proof.
  revert r. induction ops as [|o ops IH]; intros r Hinv; [by exists r|].
  destruct (apply_spec o r Hinv) as (r1&Ho&Hinv1&Ht).
  destruct (IH r1 Hinv1) as (r2&Hr&Hinv2&Ht2). exists r2.
  cbn [run foldl]. rewrite Ho. cbn [mbind result_bind].
  split_and!; [done|done|]. by rewrite Ht2, Ht.
Qed.

Lemma reachable_inv r : reachable r → inv r.
Proof.
  induction 1 as [|o r r' _ IH Ho]; [apply inv_new|].
  destruct (apply_spec o r IH) as (r1&Ho1&?&_). congruence.
Qed.

Lemma table_of_new : table_of Router_new = mkTable ∅ ∅.
Proof. done. Qed.
End spec.
