(* ===== verification/RouterTheorems.v ===== *)
(** The theorems of the router: refinement of the flat table, the invariant,
    delivery, deletion, and what reusing a subscription key does. *)
From S2P Require Import Prelude Errors ClientId Topic TopicSpec Router RouterFacts.
From S2P Require Import RouterSearch RouterAbs RouterDelete RouterSpec.
Local Open Scope nat_scope.

Section theorems.
Context {Sender : Type}.
Implicit Types (r : Router Sender) (tx : Sender) (key : SubscriptionKey)
  (f : TopicFilter.TopicFilter).

(** ** Lemmas *)

Lemma Topic_new_no_multi raw t :
  Topic.new raw = Ok t → WILDCARD_MULTI ∉ Topic.segments t.
Proof.
  intros (_&_&Hp)%Topic_new_Ok Hin. unfold publish_layers in Hp.
  rewrite Forall_forall in Hp. apply Hp in Hin as [_ Hm]. apply Hm. by left.
Qed.

Lemma search_spec r t :
  inv r → (WILDCARD_MULTI ∉ Topic.segments t) →
  ∃ resp, search t r = Some resp ∧
    subscription_list resp ≡ₚ delivered (Topic.segments t) (entries (table_of r)) ∧
    queue_group_list resp = [].
Proof.
  intros [Hwf _ Hun] Ht.
  destruct (search_root_spec _ _ Hwf Ht) as (subs&groups&Hs&Hsubs&Hgroups).
  unfold search. rewrite Hs. eexists. split; [done|]. split; [done|].
  rewrite (entries_of_ungrouped _ Hun) in Hgroups. by apply Permutation_nil_r in Hgroups.
Qed.

(** A subscription is delivered to when some entry of its key matches. *)
Lemma delivered_elem (t : list bytes) (c : ClientId) (s : u32) tx
    (m : gmap (list bytes * SubscriptionKey) Sender) :
  (c, mkSubscription s tx) ∈ delivered t m ↔
  ∃ p, m !! (p, mkSubscriptionKey c s) = Some tx ∧ matches p t = true.
Proof.
  unfold delivered. rewrite list_elem_of_In, in_map_iff. split.
  - intros ([[p [c' s']] tx']&[= -> -> ->]&Hin). apply list_elem_of_In in Hin.
    rewrite elem_of_map_to_list, map_lookup_filter_Some in Hin. eauto.
  - intros (p&Hp&Hm). exists ((p, mkSubscriptionKey c s), tx). split; [done|].
    apply list_elem_of_In. by rewrite elem_of_map_to_list, map_lookup_filter_Some.
Qed.

Lemma entries_lookup r p key :
  inv r → entries (table_of r) !! (p, key) = get p key (root r).
Proof. intros [? _ _]. by apply abs_lookup. Qed.

(** ** Fresh keys *)

(** Runs that insert under keys that are not in use. *)
Inductive fresh_reachable : Router Sender → Prop :=
| fresh_new : fresh_reachable Router_new
| fresh_insert tx c s f r r' :
    fresh_reachable r → subscription_kv r !! mkSubscriptionKey c s = None →
    insert tx c s f r = Ok r' → fresh_reachable r'
| fresh_delete key r r' :
    fresh_reachable r → Router.delete key r = Ok r' → fresh_reachable r'.

Lemma fresh_reachable_reachable r : fresh_reachable r → reachable r.
Proof.
  induction 1 as [|tx c s f r r' _ IH _ Ho|key r r' _ IH Ho].
  - constructor.
  - by apply (reachable_step (Insert tx c s f) r).
  - by apply (reachable_step (Delete key) r).
Qed.

(** The entries are those of the known filters. *)
Definition exact (t : table) : Prop :=
  ∀ p key tx, entries t !! (p, key) = Some tx →
    ∃ f, filters t !! key = Some f ∧ TopicFilter.segments f = p.

Lemma exact_insert tx key f (t : table) :
  exact t → filters t !! key = None → exact (table_insert tx key f t).
Proof.
  intros He Hk p k tx'. unfold table_insert. cbn [entries filters].
  rewrite !lookup_insert_Some. intros [[[= <- <-] <-]|[Hne Hp]].
  - exists f. rewrite lookup_insert_eq. done.
  - destruct (He _ _ _ Hp) as (g&Hg&<-). exists g.
    rewrite lookup_insert_ne by congruence. done.
Qed.

Lemma exact_delete key (t : table) : exact t → exact (table_delete key t).
Proof.
  intros He. unfold table_delete. destruct (filters t !! key) as [f|] eqn:Hf; [|done].
  intros p k tx'. cbn [entries filters]. rewrite lookup_delete_Some.
  intros [Hne Hp]. destruct (He _ _ _ Hp) as (g&Hg&<-). exists g.
  rewrite lookup_delete_ne by (intros ->; congruence). done.
Qed.

Lemma fresh_exact r : fresh_reachable r → exact (table_of r).
Proof.
  induction 1 as [|tx c s f r r' Hr IH Hk Ho|key r r' Hr IH Ho].
  - intros p k tx. rewrite table_of_new. cbn [entries]. by rewrite lookup_empty.
  - apply fresh_reachable_reachable, reachable_inv in Hr.
    destruct (insert_spec tx c s f r Hr) as (r1&Ho1&_&Ht).
    assert (r1 = r') as -> by congruence.
    rewrite Ht. by apply exact_insert.
  - apply fresh_reachable_reachable, reachable_inv in Hr.
    destruct (delete_spec key r Hr) as (r1&Ho1&_&Ht).
    assert (r1 = r') as -> by congruence.
    rewrite Ht. by apply exact_delete.
Qed.

Lemma fresh_NoDup (t : list bytes) (tb : table) :
  exact tb → NoDup (map (λ e, (e.1, sub_subscription_id e.2))
    (delivered t (entries (Sender:=Sender) tb))).
Proof.
  intros He. unfold delivered. rewrite map_map.
  apply NoDup_fmap_2_strong; [|apply NoDup_map_to_list].
  intros [[p1 [c1 s1]] tx1] [[p2 [c2 s2]] tx2].
  rewrite !elem_of_map_to_list, !map_lookup_filter_Some.
  intros [H1 _] [H2 _] [= -> ->].
  destruct (He _ _ _ H1) as (f1&Hf1&Hp1), (He _ _ _ H2) as (f2&Hf2&Hp2).
  assert (p1 = p2) as -> by congruence. assert (tx1 = tx2) as -> by congruence. done.
Qed.

Lemma run_reachable ops r r' : reachable r → run ops r = Ok r' → reachable r'.
Proof.
  revert r. induction ops as [|o ops IH]; intros r Hr; cbn [run]; [by intros [= <-]|].
  destruct (apply o r) as [r1| |] eqn:Ho; [|done..]. cbn [mbind result_bind].
  apply IH. by eapply reachable_step.
Qed.

(** ** Theorems *)

(** C1: The router implements a flat table of subscriptions: every sequence of
    [insert] and [delete] runs from the empty router without a panic, and the
    table of the resulting trie and key map is the one that the same insertions
    and removals on a finite map give. *)
Theorem router_refines_table ops :
  ∃ r, run ops Router_new = Ok r ∧
    table_of r = foldl (flip table_apply) (mkTable ∅ ∅) ops.
Proof.
  destruct (run_spec ops Router_new inv_new) as (r&?&_&Ht).
  exists r. by rewrite Ht, table_of_new.
Qed.

(** C8: In every reachable router the trie is well formed at every node (levels of
    siblings differ, no empty list of children, the two wildcard flags are set
    exactly when the wildcard child is there, no empty leaf is left behind),
    every key in the key map has its subscription in the trie, and no node has
    queue groups. *)
Theorem router_invariant r :
  reachable r → wf (root r) ∧ tracked r ∧ ungrouped (root r).
Proof. by intros [? ? ?]%reachable_inv. Qed.

(** C2: [search] ends within a number of loop steps bounded by the size of the trie,
    and delivers a valid publish topic to exactly the subscriptions of the table
    whose filters match it, each entry once; it returns no queue groups. *)
Theorem search_delivers r raw t :
  reachable r → Topic.new raw = Ok t →
  ∃ resp, search t r = Some resp ∧
    subscription_list resp ≡ₚ delivered (Topic.segments t) (entries (table_of r)) ∧
    queue_group_list resp = [].
Proof.
  intros Hr Ht. apply search_spec; [by apply reachable_inv|].
  by eapply Topic_new_no_multi.
Qed.

(** C18: Who is delivered to, on the operations: after [insert] a topic reaches the
    subscription if the filter matches, and every other subscription is reached
    as before. *)
Theorem insert_then_search r tx c s f raw t :
  reachable r → Topic.new raw = Ok t →
  ∃ r' old new, insert tx c s f r = Ok r' ∧
    search t r = Some old ∧ search t r' = Some new ∧
    (matches (TopicFilter.segments f) (Topic.segments t) = true →
      (c, mkSubscription s tx) ∈ subscription_list new) ∧
    ∀ c' s' tx', mkSubscriptionKey c' s' ≠ mkSubscriptionKey c s →
      (c', mkSubscription s' tx') ∈ subscription_list new ↔
      (c', mkSubscription s' tx') ∈ subscription_list old.
Proof.
  intros Hr%reachable_inv Ht%Topic_new_no_multi.
  destruct (insert_spec tx c s f r Hr) as (r'&Ho&Hr'&Htab).
  destruct (search_spec r t Hr Ht) as (old&Hs&Hold&_).
  destruct (search_spec r' t Hr' Ht) as (new&Hs'&Hnew&_).
  exists r', old, new. split_and!; [done..| |].
  - intros Hm. rewrite Hnew, Htab. apply delivered_elem. eexists.
    split; [apply lookup_insert_eq|done].
  - intros c' s' tx' Hne. rewrite Hnew, Hold, Htab, !delivered_elem.
    cbn [table_insert entries]. by setoid_rewrite lookup_insert_ne; [|congruence].
Qed.

(** C11: Deleting a subscription that was just inserted under an unused key gives back
    the very same router, trie included: every node the insertion created is
    pruned and every wildcard flag it set is reset. *)
Theorem insert_delete_roundtrip r tx c s f :
  reachable r →
  subscription_kv r !! mkSubscriptionKey c s = None →
  entries (table_of r) !! (TopicFilter.segments f, mkSubscriptionKey c s) = None →
  (r' ← insert tx c s f r; Router.delete (mkSubscriptionKey c s) r') = Ok r.
Proof.
  intros Hr%reachable_inv Hkv He. set (key := mkSubscriptionKey c s) in *.
  rewrite entries_lookup in He by done.
  unfold insert. fold key. fold (store (Sender:=Sender) key tx).
  destruct (insert_walk_Ok (TopicFilter.segments f) (store key tx) (root r))
    as (n'&Hn'&_); [done|]. rewrite Hn'. cbn [mbind result_bind].
  destruct (delete_rec_insert_walk _ _ _ _ _ (inv_wf _ Hr) He Hn')
    as (path&b&Hp&Hd&_).
  unfold Router.delete. cbn [subscription_kv root]. rewrite lookup_insert_eq, Hp.
  cbn [mbind result_bind]. rewrite <-delete_rec_eq in Hd.
  destruct (update_at path (remove_subscription key) n') as [[n1 []]| |]; [|done..].
  cbn [mbind result_bind] in Hd |- *. rewrite Hd. cbn [mbind result_bind].
  rewrite delete_insert_id by done. by destruct r.
Qed.

(** C12: When keys are not reused while in use, a deleted subscription is never
    delivered to again: [delete] returns, its key is unknown afterwards, and no
    topic reaches it. *)
Theorem delete_unsubscribes r c s :
  fresh_reachable r →
  ∃ r', Router.delete (mkSubscriptionKey c s) r = Ok r' ∧
    subscription_kv r' !! mkSubscriptionKey c s = None ∧
    ∀ raw t, Topic.new raw = Ok t →
      ∃ resp, search t r' = Some resp ∧
        ∀ tx, (c, mkSubscription s tx) ∉ subscription_list resp.
Proof.
  intros Hf. pose proof (fresh_reachable_reachable _ Hf) as Hr%reachable_inv.
  set (key := mkSubscriptionKey c s).
  destruct (delete_spec key r Hr) as (r'&Ho&Hr'&Htab).
  assert (Hkv : subscription_kv r' !! key = None).
  { change (subscription_kv r') with (filters (table_of r')). rewrite Htab.
    unfold table_delete. destruct (filters (table_of r) !! key) eqn:Hk; [|done].
    apply lookup_delete_eq. }
  exists r'. split_and!; [done..|]. intros raw t Ht%Topic_new_no_multi.
  destruct (search_spec r' t Hr' Ht) as (resp&Hs&Hsubs&_).
  exists resp. split; [done|]. intros tx. rewrite Hsubs, delivered_elem.
  intros (p&Hp&_).
  assert (Hf' : fresh_reachable r') by (by eapply fresh_delete).
  apply fresh_exact in Hf'. destruct (Hf' _ _ _ Hp) as (f&Hkf&_).
  cbn [filters table_of] in Hkf. unfold key in Hkv. congruence.
Qed.

(** C19: When keys are not reused while in use, a topic is delivered at most once per
    subscription: no pair of client and subscription identifier occurs twice in
    the result of [search], however filters overlap. *)
Theorem search_at_most_once r raw t :
  fresh_reachable r → Topic.new raw = Ok t →
  ∃ resp, search t r = Some resp ∧
    NoDup (map (λ e, (e.1, sub_subscription_id e.2)) (subscription_list resp)).
Proof.
  intros Hf Ht. pose proof (fresh_reachable_reachable _ Hf) as Hr%reachable_inv.
  destruct (search_spec r t Hr) as (resp&Hs&Hsubs&_);
    [by eapply Topic_new_no_multi|].
  exists resp. split; [done|]. rewrite Hsubs. by apply fresh_NoDup, fresh_exact.
Qed.

(** C31: Reusing a key that is in use leaks the old subscription: when a client
    subscribes under the same subscription identifier with a filter of other
    segments, and then unsubscribes, the key is gone from the key map but the
    subscription of the first filter stays in the trie, and deleting the key
    again changes nothing. *)
Theorem reinsert_leaks r tx c s f g old :
  reachable r →
  subscription_kv r !! mkSubscriptionKey c s = Some f →
  entries (table_of r) !! (TopicFilter.segments f, mkSubscriptionKey c s) = Some old →
  TopicFilter.segments g ≠ TopicFilter.segments f →
  ∃ r', (r' ← insert tx c s g r; Router.delete (mkSubscriptionKey c s) r') = Ok r' ∧
    subscription_kv r' !! mkSubscriptionKey c s = None ∧
    entries (table_of r') !! (TopicFilter.segments f, mkSubscriptionKey c s) = Some old ∧
    Router.delete (mkSubscriptionKey c s) r' = Ok r'.
Proof.
  intros Hr%reachable_inv Hf He Hne. set (key := mkSubscriptionKey c s) in *.
  destruct (insert_spec tx c s g r Hr) as (r1&Ho1&Hr1&Ht1). fold key in Ht1.
  destruct (delete_spec key r1 Hr1) as (r2&Ho2&Hr2&Ht2).
  rewrite Ht1 in Ht2. unfold table_delete in Ht2. cbn [table_insert filters] in Ht2.
  rewrite lookup_insert_eq in Ht2.
  assert (Hkv : subscription_kv r2 !! key = None).
  { change (subscription_kv r2) with (filters (table_of r2)). rewrite Ht2.
    apply lookup_delete_eq. }
  exists r2. split_and!; [by rewrite Ho1|done| |].
  - rewrite Ht2. cbn [entries table_insert].
    by rewrite lookup_delete_ne, lookup_insert_ne by congruence.
  - unfold Router.delete. by rewrite Hkv.
Qed.

Lemma matches_refl (p : list bytes) : (WILDCARD_MULTI ∉ p) → matches p p = true.
Proof.
  induction p as [|s p IH]; [done|]. intros [Hs Hp]%not_elem_of_cons. cbn [matches].
  rewrite (proj2 (beq_false _ _)), beq_refl by done. by rewrite IH.
Qed.

Lemma matches_multi (p t rest : list bytes) :
  matches p t = true → (WILDCARD_MULTI ∉ p) →
  matches (p ++ [WILDCARD_MULTI]) (t ++ rest) = true.
Proof.
  revert t. induction p as [|s p IH]; intros t; [by destruct t|].
  cbn [matches app]. intros Hm [Hs Hp]%not_elem_of_cons.
  rewrite (proj2 (beq_false s WILDCARD_MULTI)) in Hm |- * by done.
  destruct t as [|x t]; [done|]. cbn [app].
  apply andb_true_iff in Hm as [-> Hm]. by rewrite IH.
Qed.

(** C32: A final ['#'] stands for zero or more levels: a subscription under
    [topic/#] is delivered the topic itself and every topic below it. *)
Theorem multi_wildcard_subtree r tx c s f raw t raw' t' rest :
  reachable r → Topic.new raw = Ok t → Topic.new raw' = Ok t' →
  TopicFilter.segments f = Topic.segments t ++ [WILDCARD_MULTI] →
  Topic.segments t' = Topic.segments t ++ rest →
  ∃ r' resp, insert tx c s f r = Ok r' ∧ search t' r' = Some resp ∧
    (c, mkSubscription s tx) ∈ subscription_list resp.
Proof.
  intros Hr%reachable_inv Ht%Topic_new_no_multi Ht'%Topic_new_no_multi Hf Hrest.
  destruct (insert_spec tx c s f r Hr) as (r'&Ho&Hr'&Htab).
  destruct (search_spec r' t' Hr' Ht') as (resp&Hs&Hsubs&_).
  exists r', resp. split_and!; [done..|]. rewrite Hsubs, Htab. apply delivered_elem.
  eexists. split; [apply lookup_insert_eq|]. rewrite Hf, Hrest.
  apply matches_multi; [by apply matches_refl|done].
Qed.
End theorems.

(** ** Witnesses *)

(** A router with overlapping filters, one deleted. *)
Definition example_ops : list (@op nat) :=
  [Insert 10 (mkClientId 1) 1%Z (TopicFilter.mk (bstr "a/+"));
   Insert 20 (mkClientId 2) 1%Z (TopicFilter.mk (bstr "a/#"));
   Insert 30 (mkClientId 2) 2%Z (TopicFilter.mk (bstr "a/b/c"));
   Delete (mkSubscriptionKey (mkClientId 2) 2%Z)].
Definition example_router : Router nat :=
  match run example_ops Router_new with Ok r => r | _ => Router_new end.

Lemma example_reachable : reachable example_router.
Proof.
  apply (run_reachable example_ops Router_new); [constructor|].
  by vm_compute.
Qed.

Lemma example_fresh : fresh_reachable example_router.
Proof.
  pose (step := λ ops, match run ops (Router_new (Sender:=nat)) with
                       | Ok r => r | _ => Router_new end).
  apply (fresh_delete (mkSubscriptionKey (mkClientId 2) 2%Z)
    (step (take 3 example_ops))); [|by vm_compute].
  apply (fresh_insert 30 (mkClientId 2) 2%Z (TopicFilter.mk (bstr "a/b/c"))
    (step (take 2 example_ops))); [|by vm_compute..].
  apply (fresh_insert 20 (mkClientId 2) 1%Z (TopicFilter.mk (bstr "a/#"))
    (step (take 1 example_ops))); [|by vm_compute..].
  apply (fresh_insert 10 (mkClientId 1) 1%Z (TopicFilter.mk (bstr "a/+"))
    Router_new); [constructor|by vm_compute..].
Qed.

Lemma router_invariant_witness :
  wf (root example_router) ∧ tracked example_router ∧ ungrouped (root example_router).
Proof. apply router_invariant. apply example_reachable. Defined.

Lemma search_delivers_witness :
  ∃ resp, search (Topic.mk (bstr "a/b")) example_router = Some resp ∧
    subscription_list resp ≡ₚ delivered (Topic.segments (Topic.mk (bstr "a/b")))
      (entries (table_of example_router)) ∧
    queue_group_list resp = [].
Proof.
  apply (search_delivers example_router (bstr "a/b")).
  - apply example_reachable.
  - vm_compute. reflexivity.
Defined.

Lemma insert_then_search_witness :
  ∃ r' old new,
    insert 40 (mkClientId 3) 7%Z (TopicFilter.mk (bstr "+/b")) example_router = Ok r' ∧
    search (Topic.mk (bstr "a/b")) example_router = Some old ∧
    search (Topic.mk (bstr "a/b")) r' = Some new ∧
    (matches (TopicFilter.segments (TopicFilter.mk (bstr "+/b")))
       (Topic.segments (Topic.mk (bstr "a/b"))) = true →
      (mkClientId 3, mkSubscription 7%Z 40) ∈ subscription_list new) ∧
    ∀ c' s' tx', mkSubscriptionKey c' s' ≠ mkSubscriptionKey (mkClientId 3) 7%Z →
      (c', mkSubscription s' tx') ∈ subscription_list new ↔
      (c', mkSubscription s' tx') ∈ subscription_list old.
Proof.
  apply (insert_then_search _ _ _ _ _ (bstr "a/b")).
  - apply example_reachable.
  - vm_compute. reflexivity.
Defined.

Lemma insert_delete_roundtrip_witness :
  (r' ← insert 30 (mkClientId 2) 2%Z (TopicFilter.mk (bstr "b/+/c")) example_router;
   Router.delete (mkSubscriptionKey (mkClientId 2) 2%Z) r') = Ok example_router.
Proof.
  apply insert_delete_roundtrip.
  - apply example_reachable.
  - vm_compute. reflexivity.
  - vm_compute. reflexivity.
Defined.

Lemma delete_unsubscribes_witness :
  ∃ r', Router.delete (mkSubscriptionKey (mkClientId 1) 1%Z) example_router = Ok r' ∧
    subscription_kv r' !! mkSubscriptionKey (mkClientId 1) 1%Z = None ∧
    ∀ raw t, Topic.new raw = Ok t →
      ∃ resp, search t r' = Some resp ∧
        ∀ tx, (mkClientId 1, mkSubscription 1%Z tx) ∉ subscription_list resp.
Proof. apply delete_unsubscribes. apply example_fresh. Defined.

Lemma search_at_most_once_witness :
  ∃ resp, search (Topic.mk (bstr "a/b")) example_router = Some resp ∧
    NoDup (map (λ e, (e.1, sub_subscription_id e.2)) (subscription_list resp)).
Proof.
  apply (search_at_most_once _ (bstr "a/b")).
  - apply example_fresh.
  - vm_compute. reflexivity.
Defined.

Lemma reinsert_leaks_witness :
  ∃ r', (r' ← insert 50 (mkClientId 1) 1%Z (TopicFilter.mk (bstr "b")) example_router;
         Router.delete (mkSubscriptionKey (mkClientId 1) 1%Z) r') = Ok r' ∧
    subscription_kv r' !! mkSubscriptionKey (mkClientId 1) 1%Z = None ∧
    entries (table_of r') !! (TopicFilter.segments (TopicFilter.mk (bstr "a/+")),
      mkSubscriptionKey (mkClientId 1) 1%Z) = Some 10 ∧
    Router.delete (mkSubscriptionKey (mkClientId 1) 1%Z) r' = Ok r'.
Proof.
  apply reinsert_leaks.
  - apply example_reachable.
  - vm_compute. reflexivity.
  - vm_compute. reflexivity.
  - vm_compute. discriminate.
Defined.

Lemma multi_wildcard_subtree_witness :
  ∃ r' resp,
    insert 60 (mkClientId 5) 1%Z (TopicFilter.mk (bstr "x/#")) example_router = Ok r' ∧
    search (Topic.mk (bstr "x")) r' = Some resp ∧
    (mkClientId 5, mkSubscription 1%Z 60) ∈ subscription_list resp.
Proof.
  apply (multi_wildcard_subtree _ _ _ _ _ (bstr "x") (Topic.mk (bstr "x"))
    (bstr "x") _ []).
  - apply example_reachable.
  - vm_compute. reflexivity.
  - vm_compute. reflexivity.
  - vm_compute. reflexivity.
  - vm_compute. reflexivity.
Defined.
