(* ===== verification/SocketAddr.v ===== *)
(** Socket addresses of the standard library ([std::net]): the types and the
    parser behind [str::parse::<SocketAddr>], which [config.rs] applies to the
    listen addresses.

    A parser takes the bytes that are left and returns its value with the rest;
    [None] is a failure, after which the caller goes on from its own input. *)
From S2P Require Import Prelude.
Local Open Scope Z_scope.

Abbreviation u16 := Z.
Definition U8_MAX : Z := 2 ^ 8 - 1.
Definition U16_MAX : Z := 2 ^ 16 - 1.

Record Ipv4Addr : Type := mkIpv4Addr { v4_a : Z; v4_b : Z; v4_c : Z; v4_d : Z }.
Record Ipv6Addr : Type := mkIpv6Addr { v6_segments : list u16 }.

Module SocketAddr.
Inductive SocketAddr : Type :=
| V4 (ip : Ipv4Addr) (port : u16)
| V6 (ip : Ipv6Addr) (port : u16) (flowinfo : u32) (scope_id : u32).
End SocketAddr.

#[export] Instance Ipv4Addr_eq_dec : EqDecision Ipv4Addr.
Proof. solve_decision. Defined.
#[export] Instance Ipv6Addr_eq_dec : EqDecision Ipv6Addr.
Proof. solve_decision. Defined.
#[export] Instance SocketAddr_eq_dec : EqDecision SocketAddr.SocketAddr.
Proof. solve_decision. Defined.

(** ** Characters and numbers *)

Definition parser (A : Type) : Type := bytes -> option (A * bytes).

Definition read_given_char (target : u8) : parser unit := λ s,
  match s with
  | x :: s => if x =b target then Some (tt, s) else None
  | [] => None
  end.

(** [char::to_digit] *)
Definition to_digit (radix : Z) (x : u8) : option Z :=
  let z := byte_Z x in
  let d :=
    if (48 <=? z) && (z <=? 57) then z - 48
    else if (97 <=? z) && (z <=? 122) then z - 97 + 10
    else if (65 <=? z) && (z <=? 90) then z - 65 + 10
    else radix in
  if d <? radix then Some d else None.

(** The loop over the digits.  With a maximal number of digits it fails on one
    too many; without, on a value over [bound] (the checked arithmetic of the
    result type). *)
Fixpoint read_digits (radix bound : Z) (max_digits : option Z) (result count : Z)
    (s : bytes) : option (Z * Z * bytes) :=
  match s with
  | x :: rest =>
      match to_digit radix x with
      | Some digit =>
          let result := result * radix + digit in
          let count := count + 1 in
          if match max_digits with
             | Some m => m <? count
             | None => bound <? result
             end
          then None
          else read_digits radix bound max_digits result count rest
      | None => Some (result, count, s)
      end
  | [] => Some (result, count, s)
  end.

Definition read_number (radix bound : Z) (max_digits : option Z)
    (allow_zero_prefix : bool) : parser Z := λ s,
  let has_leading_zero := match s with x :: _ => x =b x30 | [] => false end in
  '(result, digit_count, rest) ← read_digits radix bound max_digits 0 0 s;
  if digit_count =? 0 then None
  else if negb allow_zero_prefix && has_leading_zero && (1 <? digit_count) then None
  else if result <=? bound then Some (result, rest) else None.

Definition read_separator {A} (sep : u8) (index : nat) (inner : parser A)
  : parser A := λ s,
  match index with
  | O => inner s
  | S _ => '(_, s) ← read_given_char sep s; inner s
  end.

(** ** Addresses *)

Definition read_ipv4_addr : parser Ipv4Addr := λ s,
  let octet i := read_separator "."%byte i (read_number 10 U8_MAX (Some 3) false) in
  '(a, s) ← octet 0%nat s;
  '(b, s) ← octet 1%nat s;
  '(c, s) ← octet 2%nat s;
  '(d, s) ← octet 3%nat s;
  Some (mkIpv4Addr a b c d, s).

(** [read_groups left i]: up to [left] groups, the first of which has index [i];
    the flag tells whether they end in an IPv4 address. *)
Fixpoint read_groups (left i : nat) (s : bytes) : list u16 * bool * bytes :=
  match left with
  | O => ([], false, s)
  | S rest =>
      match (if (1 <? Z.of_nat left)
             then read_separator ":"%byte i read_ipv4_addr s else None) with
      | Some (v4, s) =>
          ([v4_a v4 * 256 + v4_b v4; v4_c v4 * 256 + v4_d v4], true, s)
      | None =>
          match read_separator ":"%byte i (read_number 16 U16_MAX (Some 4) true) s with
          | Some (group, s) =>
              let '(groups, v4, s) := read_groups rest (S i) s in
              (group :: groups, v4, s)
          | None => ([], false, s)
          end
      end
  end.

Definition read_ipv6_addr : parser Ipv6Addr := λ s,
  let '(head, head_ipv4, s) := read_groups 8 0 s in
  if len head =? 8 then Some (mkIpv6Addr head, s)
  else if head_ipv4 then None
  else
    '(_, s) ← read_given_char ":"%byte s;
    '(_, s) ← read_given_char ":"%byte s;
    let limit := (8 - (length head + 1))%nat in
    let '(tail, _, s) := read_groups limit 0 s in
    let zeros := replicate (8 - length head - length tail)%nat 0 in
    Some (mkIpv6Addr (head ++ zeros ++ tail), s).

Definition read_port : parser u16 := λ s,
  '(_, s) ← read_given_char ":"%byte s;
  read_number 10 U16_MAX None true s.

Definition read_scope_id : parser u32 := λ s,
  '(_, s) ← read_given_char "%"%byte s;
  read_number 10 U32_MAX None true s.

Definition read_socket_addr_v4 : parser SocketAddr.SocketAddr := λ s,
  '(ip, s) ← read_ipv4_addr s;
  '(port, s) ← read_port s;
  Some (SocketAddr.V4 ip port, s).

Definition read_socket_addr_v6 : parser SocketAddr.SocketAddr := λ s,
  '(_, s) ← read_given_char "["%byte s;
  '(ip, s) ← read_ipv6_addr s;
  let '(scope_id, s) := default (0, s) (read_scope_id s) in
  '(_, s) ← read_given_char "]"%byte s;
  '(port, s) ← read_port s;
  Some (SocketAddr.V6 ip port 0 scope_id, s).

Definition read_socket_addr : parser SocketAddr.SocketAddr := λ s,
  match read_socket_addr_v4 s with
  | Some r => Some r
  | None => read_socket_addr_v6 s
  end.

(** [parse::<SocketAddr>()]; [None] is [Err(AddrParseError)]. *)
Definition parse_socket_addr (s : string) : option SocketAddr.SocketAddr :=
  '(addr, rest) ← read_socket_addr (bstr s);
  if is_empty rest then Some addr else None.

(** [Display] of an unsigned integer of at most 64 bits, and of an IPv4 socket
    address. *)
Fixpoint dec_digits (fuel : nat) (n : Z) : bytes :=
  match fuel with
  | O => []
  | S fuel =>
      (if n <? 10 then [] else dec_digits fuel (n / 10)) ++ [Z_byte (48 + n `mod` 10)]
  end.
Definition fmt_dec (n : Z) : string := String.string_of_list_byte (dec_digits 20 n).
Definition fmt_v4 (ip : Ipv4Addr) (port : u16) : string :=
  fmt_dec (v4_a ip) +:+ "." +:+ fmt_dec (v4_b ip) +:+ "." +:+ fmt_dec (v4_c ip)
  +:+ "." +:+ fmt_dec (v4_d ip) +:+ ":" +:+ fmt_dec port.

Example parse_grpc_default : parse_socket_addr "[::1]:50051" =
  Some (SocketAddr.V6 (mkIpv6Addr [0;0;0;0;0;0;0;1]) 50051 0 0).
Proof. by vm_compute. Qed.
Example parse_v6_embedded : parse_socket_addr "[1:2::ffff:10.0.0.1%7]:080" =
  Some (SocketAddr.V6 (mkIpv6Addr [1;2;0;0;0;65535;2560;1]) 80 0 7).
Proof. by vm_compute. Qed.
Example parse_leading_zero : parse_socket_addr "127.0.0.01:1" = None.
Proof. by vm_compute. Qed.
Example parse_port_overflow : parse_socket_addr "127.0.0.1:65536" = None.
Proof. by vm_compute. Qed.
