(* ===== verification/SocketAddrSpec.v ===== *)
(** Correctness of the socket-address parser: what it returns is in range, and it
    reads back what IPv4 socket addresses print as. *)
From S2P Require Import Prelude SocketAddr.
Local Open Scope Z_scope.

(** ** Ranges *)

Definition in_u8 (z : Z) : Prop := 0 <= z <= U8_MAX.
Definition in_u16 (z : Z) : Prop := 0 <= z <= U16_MAX.

(** The fields of an address are values of their types. *)
Definition addr_ok (a : SocketAddr.SocketAddr) : Prop :=
  match a with
  | SocketAddr.V4 ip port =>
      in_u8 (v4_a ip) ∧ in_u8 (v4_b ip) ∧ in_u8 (v4_c ip) ∧ in_u8 (v4_d ip) ∧
      in_u16 port
  | SocketAddr.V6 ip port flowinfo scope_id =>
      length (v6_segments ip) = 8%nat ∧ Forall in_u16 (v6_segments ip) ∧
      in_u16 port ∧ in_u32 flowinfo ∧ in_u32 scope_id
  end.

Lemma to_digit_range radix x d : 0 <= radix → to_digit radix x = Some d → 0 <= d < radix.
Proof.
  unfold to_digit. intros Hr. pose proof (byte_Z_range x).
  destruct (_ <? radix) eqn:Hd; [|done]. intros [= <-]. apply Z.ltb_lt in Hd.
  repeat case_match; bool_prop; lia.
Qed.

Lemma read_digits_nonneg radix bound m r c s r' c' s' :
  0 <= radix → 0 <= r → read_digits radix bound m r c s = Some (r', c', s') → 0 <= r'.
Proof.
  intros Hradix. revert r c. induction s as [|x s IH]; intros r c Hr; cbn [read_digits].
  { by intros [= <- _ _]. }
  destruct (to_digit radix x) as [d|] eqn:Hd; [|by intros [= <- _ _]].
  apply to_digit_range in Hd; [|done]. case_match; [done|]. apply IH. nia.
Qed.

Lemma read_number_range radix bound m z s n rest :
  0 <= radix → read_number radix bound m z s = Some (n, rest) → 0 <= n <= bound.
Proof.
  intros Hradix. unfold read_number.
  destruct (read_digits radix bound m 0 0 s) as [[[r c] s']|] eqn:Hd; [|done].
  cbn. apply read_digits_nonneg in Hd; [|done..].
  destruct (c =? 0); [done|]. destruct (_ && _); [done|].
  destruct (Z.leb_spec r bound); [|done]. intros [= <- _]. lia.
Qed.

Lemma read_separator_inv {A} sep i (p : parser A) s x rest :
  read_separator sep i p s = Some (x, rest) → ∃ s', p s' = Some (x, rest).
Proof.
  unfold read_separator. destruct i; [eauto|].
  destruct (read_given_char sep s) as [[[] s']|]; [|done]. cbn. eauto.
Qed.

Lemma read_ipv4_addr_range s ip rest :
  read_ipv4_addr s = Some (ip, rest) →
  in_u8 (v4_a ip) ∧ in_u8 (v4_b ip) ∧ in_u8 (v4_c ip) ∧ in_u8 (v4_d ip).
Proof.
  unfold read_ipv4_addr. intros H.
  repeat match type of H with
  | (read_separator ?c ?i ?p ?s ≫= _) = _ =>
      destruct (read_separator c i p s) as [[? ?]|] eqn:?; [cbn [mbind option_bind] in H|done]
  end.
  injection H as <- _. cbn [v4_a v4_b v4_c v4_d].
  split_and!; match goal with
  | Hr : read_separator _ _ _ _ = Some (?n, _) |- in_u8 ?n =>
      apply read_separator_inv in Hr as [? Hr]; by eapply read_number_range in Hr
  end.
Qed.

Lemma read_groups_range left i s gs v4 rest :
  read_groups left i s = (gs, v4, rest) →
  Forall in_u16 gs ∧ (length gs <= left)%nat.
Proof.
  revert i s gs v4 rest. induction left as [|left IH]; intros i s gs v4 rest;
    cbn [read_groups]; [by intros [= <- _ _]|].
  destruct (if 1 <? _ then _ else _) as [[ip s1]|] eqn:Hv4.
  { intros [= <- _ _]. destruct (Z.ltb_spec 1 (Z.of_nat (S left))); [|done].
    apply read_separator_inv in Hv4 as [? (?&?&?&?)%read_ipv4_addr_range].
    unfold in_u8, in_u16, U8_MAX, U16_MAX in *. split; [|simpl; lia].
    repeat constructor; lia. }
  destruct (read_separator _ i (read_number 16 _ _ _) s) as [[g s1]|] eqn:Hg.
  - apply read_separator_inv in Hg as [? Hg]. apply read_number_range in Hg; [|done].
    destruct (read_groups left (S i) s1) as [[gs' v4'] s2] eqn:Hrec.
    apply IH in Hrec as [Hall Hlen]. intros [= <- _ _].
    split; [by constructor|simpl; lia].
  - intros [= <- _ _]. split; [constructor|simpl; lia].
Qed.

Lemma read_ipv6_addr_range s ip rest :
  read_ipv6_addr s = Some (ip, rest) →
  length (v6_segments ip) = 8%nat ∧ Forall in_u16 (v6_segments ip).
Proof.
  unfold read_ipv6_addr. destruct (read_groups 8 0 s) as [[head hv4] s1] eqn:Hh.
  apply read_groups_range in Hh as [Hhead Hlen].
  destruct (Z.eqb_spec (len head) 8) as [H8|H8].
  { intros [= <- _]. cbn. split; [unfold len in H8; lia|done]. }
  destruct hv4; [done|].
  destruct (read_given_char _ s1) as [[[] s2]|]; [|done]. cbn [mbind option_bind].
  destruct (read_given_char _ s2) as [[[] s3]|]; [|done]. cbn [mbind option_bind].
  destruct (read_groups _ 0 s3) as [[tail tv4] s4] eqn:Ht.
  apply read_groups_range in Ht as [Htail Hlt]. intros [= <- _]. cbn [v6_segments].
  unfold len in H8. split.
  - rewrite !length_app, length_replicate. lia.
  - apply Forall_app_2, Forall_app_2; [done| |done]. by apply Forall_replicate.
Qed.

Lemma read_port_range s p rest : read_port s = Some (p, rest) → in_u16 p.
Proof.
  unfold read_port. destruct (read_given_char _ s) as [[[] s']|]; [|done].
  cbn [mbind option_bind]. by apply read_number_range.
Qed.

Lemma read_scope_id_range s n rest : read_scope_id s = Some (n, rest) → in_u32 n.
Proof.
  unfold read_scope_id. destruct (read_given_char _ s) as [[[] s']|]; [|done].
  cbn [mbind option_bind]. intros H. apply read_number_range in H; [|done].
  unfold in_u32, U32_MAX in *. lia.
Qed.

Lemma parse_socket_addr_ok s a : parse_socket_addr s = Some a → addr_ok a.
Proof.
  unfold parse_socket_addr, read_socket_addr.
  destruct (read_socket_addr_v4 (bstr s)) as [[a' rest]|] eqn:H4.
  - cbn. destruct (is_empty rest); [|done]. intros [= ->]. revert H4.
    unfold read_socket_addr_v4.
    destruct (read_ipv4_addr (bstr s)) as [[ip s1]|] eqn:Hip; [|done].
    cbn [mbind option_bind]. destruct (read_port s1) as [[port s2]|] eqn:Hp; [|done].
    cbn [mbind option_bind]. intros [= <- _].
    apply read_ipv4_addr_range in Hip as (?&?&?&?). apply read_port_range in Hp.
    by split_and!.
  - clear H4. destruct (read_socket_addr_v6 (bstr s)) as [[a' rest]|] eqn:H6; [|done].
    cbn. destruct (is_empty rest); [|done]. intros [= ->]. revert H6.
    unfold read_socket_addr_v6.
    destruct (read_given_char _ (bstr s)) as [[[] s1]|]; [|done]. cbn [mbind option_bind].
    destruct (read_ipv6_addr s1) as [[ip s2]|] eqn:Hip; [|done]. cbn [mbind option_bind].
    destruct (default (0, s2) (read_scope_id s2)) as [sc s3] eqn:Hsc.
    destruct (read_given_char _ s3) as [[[] s4]|]; [|done]. cbn [mbind option_bind].
    destruct (read_port s4) as [[port s5]|] eqn:Hp; [|done]. cbn [mbind option_bind].
    intros [= <- _]. apply read_ipv6_addr_range in Hip as [??].
    apply read_port_range in Hp. split_and!; [done..|by vm_compute|].
    destruct (read_scope_id s2) as [[n s6]|] eqn:Hr; cbn in Hsc; simplify_eq.
    + by eapply read_scope_id_range.
    + by vm_compute.
Qed.

(** ** Reading back what was printed *)

Definition dec_value (r : Z) (ds : list Z) : Z := foldl (λ r d, r * 10 + d) r ds.

(** The bytes print a number: decimal digits of that value, without a leading
    zero, at most three for a byte. *)
Definition prints (ds : bytes) (n : Z) : bool :=
  match mapM (to_digit 10) ds with
  | Some vs =>
      (dec_value 0 vs =? n) && negb (is_empty ds) &&
      match ds with x :: _ :: _ => negb (x =b x30) | _ => true end &&
      ((U8_MAX <? n) || (len ds <=? 3))
  | None => false
  end.

(** A digit, and only zero, is printed as it is read. *)
Lemma to_digit_byte d :
  0 <= d < 10 → to_digit 10 (Z_byte (48 + d)) = Some d ∧ (Z_byte (48 + d) = x30 → d = 0).
Proof.
  intros Hd. assert (d ∈ [0; 1; 2; 3; 4; 5; 6; 7; 8; 9]) as Hin.
  { rewrite !elem_of_cons. lia. }
  revert Hin. rewrite !elem_of_cons. intros Hin.
  repeat destruct Hin as [->|Hin]; [by vm_compute..|]. by apply elem_of_nil in Hin.
Qed.

Lemma dec_value_snoc r vs d : dec_value r (vs ++ [d]) = dec_value r vs * 10 + d.
Proof. unfold dec_value. by rewrite foldl_app. Qed.

Lemma mapM_snoc {A B} (f : A → option B) l x vs v :
  mapM f l = Some vs → f x = Some v → mapM f (l ++ [x]) = Some (vs ++ [v]).
Proof.
  intros Hl Hx. apply mapM_Some. apply mapM_Some in Hl.
  apply Forall2_app; [done|]. by constructor.
Qed.

(** The digits printed have the value, at most as many as its magnitude allows,
    and a positive number does not start with zero. *)
Lemma dec_digits_spec fuel n :
  (0 < fuel)%nat → 0 <= n < 10 ^ Z.of_nat fuel →
  ∃ x ds vs, dec_digits fuel n = x :: ds ∧
    mapM (to_digit 10) (x :: ds) = Some vs ∧ dec_value 0 vs = n ∧
    (x = x30 → n = 0) ∧ (n < 10 → ds = []).
Proof.
  intros Hf. revert n. induction fuel as [|fuel IH]; intros n Hn; [lia|].
  cbn [dec_digits]. pose proof (Z.mod_pos_bound n 10 ltac:(lia)) as Hm.
  destruct (to_digit_byte (n `mod` 10) Hm) as [Hdig Hzero].
  destruct (Z.ltb_spec n 10) as [Hlt|Hge].
  { exists (Z_byte (48 + n `mod` 10)), [], [n `mod` 10]. rewrite Z.mod_small in * by lia.
    split; [reflexivity|]. split; [cbn [mapM]; by rewrite Hdig|].
    split; [unfold dec_value; cbn [foldl]; lia|]. split; [exact Hzero|reflexivity]. }
  destruct (decide (fuel = 0%nat)) as [->|Hf0]; [simpl in Hn; lia|].
  assert (Hdiv : 0 <= n / 10 < 10 ^ Z.of_nat fuel).
  { split; [apply Z.div_pos; lia|]. apply Z.div_lt_upper_bound; [lia|].
    rewrite <-Z.pow_succ_r by lia. rewrite <-Nat2Z.inj_succ. apply Hn. }
  destruct (IH ltac:(lia) (n / 10) Hdiv) as (x&ds&vs&Heq&Hvs&Hval&Hz&_).
  exists x, (ds ++ [Z_byte (48 + n `mod` 10)]), (vs ++ [n `mod` 10]).
  rewrite Heq. split_and!; [done|by apply (mapM_snoc _ (x :: ds))| | |lia].
  - rewrite dec_value_snoc, Hval. pose proof (Z.div_mod n 10). lia.
  - intros Hx. apply Hz in Hx. pose proof (Z.div_mod n 10). lia.
Qed.

Lemma dec_digits_length fuel n k :
  0 <= n < 10 ^ Z.of_nat (S k) → (length (dec_digits fuel n) <= S k)%nat.
Proof.
  revert n k. induction fuel as [|fuel IH]; intros n k Hn; cbn [dec_digits length];
    [lia|]. rewrite length_app. cbn [length].
  destruct (Z.ltb_spec n 10) as [|Hge]; [simpl; lia|].
  destruct k as [|k]; [simpl in Hn; lia|].
  assert (Hdiv : 0 <= n / 10 < 10 ^ Z.of_nat (S k)).
  { split; [apply Z.div_pos; lia|]. apply Z.div_lt_upper_bound; [lia|].
    rewrite <-Z.pow_succ_r by lia. rewrite <-Nat2Z.inj_succ. apply Hn. }
  specialize (IH _ _ Hdiv). lia.
Qed.

Lemma bstr_fmt_dec n : bstr (fmt_dec n) = dec_digits 20 n.
Proof. apply String.list_byte_of_string_of_list_byte. Qed.

Lemma fmt_dec_prints n : 0 <= n < 10 ^ 20 → prints (bstr (fmt_dec n)) n = true.
Proof.
  intros Hn. rewrite bstr_fmt_dec. unfold prints.
  destruct (dec_digits_spec 20 n ltac:(lia) Hn) as (x&ds&vs&Heq&Hvs&Hval&Hz&Hs).
  rewrite Heq, Hvs, Hval, Z.eqb_refl. cbn [is_empty andb negb].
  apply andb_true_intro. split.
  - destruct ds as [|y ds]; [done|]. destruct (beq_spec x x30) as [->|]; [|done].
    by rewrite Hz in Hs by done; discriminate Hs.
  - destruct (Z.ltb_spec U8_MAX n) as [|Hle]; [done|]. cbn [orb]. apply Z.leb_le.
    rewrite <-Heq. unfold len. pose proof (dec_digits_length 20 n 2) as Hl.
    unfold U8_MAX in Hle. lia.
Qed.

Lemma dec_value_ge r ds : 0 <= r → Forall (λ d, 0 <= d) ds → r <= dec_value r ds.
Proof.
  intros Hr Hall. revert r Hr. induction Hall as [|d ds Hd _ IH]; intros r Hr; [done|].
  cbn. specialize (IH (r * 10 + d)). unfold dec_value in IH. lia.
Qed.

(** What follows a number is not a digit. *)
Definition stops (rest : bytes) : Prop :=
  match rest with x :: _ => to_digit 10 x = None | [] => True end.

Lemma read_digits_app bound m r c ds vs rest :
  mapM (to_digit 10) ds = Some vs → stops rest → 0 <= r →
  match m with Some m => c + len ds <= m | None => dec_value r vs <= bound end →
  read_digits 10 bound m r c (ds ++ rest) = Some (dec_value r vs, c + len ds, rest).
Proof.
  revert r c vs. induction ds as [|x ds IH]; intros r c vs.
  { intros [= <-] Hs _ _. rewrite Z.add_0_r. destruct rest as [|y rest]; [done|].
    cbn. by rewrite Hs. }
  cbn [mapM]. destruct (to_digit 10 x) as [d|] eqn:Hd; [|done]. cbn [mbind option_bind].
  destruct (mapM (to_digit 10) ds) as [vs'|] eqn:Hds; [|done].
  intros [= <-] Hs Hr Hlim. pose proof (to_digit_range 10 x d ltac:(done) Hd).
  cbn [app read_digits]. rewrite Hd. cbn [dec_value foldl] in *.
  assert (Hvs : Forall (λ d, 0 <= d) vs').
  { apply mapM_Some_1 in Hds. clear -Hds. induction Hds as [|y e ds vs He _ IH];
      constructor; [|done]. by apply to_digit_range in He as []. }
  pose proof (dec_value_ge (r * 10 + d) vs' ltac:(lia) Hvs) as Hge. unfold dec_value in Hge.
  rewrite len_cons in *. destruct m as [m|].
  - destruct (Z.ltb_spec m (c + 1)); [pose proof (len_nonneg ds); lia|].
    rewrite (IH _ _ vs') by (done || lia). do 3 f_equal. lia.
  - destruct (Z.ltb_spec bound (r * 10 + d)); [lia|].
    rewrite (IH _ _ vs') by (done || lia). do 3 f_equal. lia.
Qed.

Lemma read_number_app bound m z ds n rest :
  prints ds n = true → stops rest → n <= bound →
  match m with Some m => len ds <= m | None => True end →
  read_number 10 bound m z (ds ++ rest) = Some (n, rest).
Proof.
  unfold prints. intros Hp Hs Hn Hm.
  destruct (mapM (to_digit 10) ds) as [vs|] eqn:Hds; [|done].
  rewrite !andb_true_iff, Z.eqb_eq, negb_true_iff in Hp. destruct Hp as [[[Hv Hne] Hz] _].
  unfold read_number. rewrite (read_digits_app bound m 0 0 ds vs) by
    (done || (destruct m; rewrite ?Hv; lia)).
  cbn [mbind option_bind]. rewrite Z.add_0_l, Hv.
  destruct ds as [|x ds]; [done|]. rewrite len_cons. pose proof (len_nonneg ds).
  destruct (Z.eqb_spec (len ds + 1) 0); [lia|]. cbn [app].
  destruct (Z.leb_spec n bound); [|lia]. destruct ds as [|y ds].
  - by rewrite andb_false_r.
  - apply negb_true_iff in Hz. by rewrite Hz, andb_false_r.
Qed.

Lemma read_octet n rest :
  in_u8 n → stops rest →
  read_number 10 U8_MAX (Some 3) false (bstr (fmt_dec n) ++ rest) = Some (n, rest).
Proof.
  intros Hn Hs. pose proof (fmt_dec_prints n) as Hp. unfold in_u8, in_u16 in *.
  specialize (Hp ltac:(unfold U8_MAX in *; lia)).
  apply read_number_app; [done|done|lia|].
  unfold prints in Hp. destruct (mapM _ _); [|done].
  rewrite !andb_true_iff, orb_true_iff in Hp. destruct Hp as [_ [Hp|Hp]]; bool_prop; lia.
Qed.

Lemma read_ipv4_addr_fmt a b c d rest :
  in_u8 a → in_u8 b → in_u8 c → in_u8 d → stops rest →
  read_ipv4_addr (bstr (fmt_dec a) ++ "."%byte :: bstr (fmt_dec b) ++ "."%byte ::
    bstr (fmt_dec c) ++ "."%byte :: bstr (fmt_dec d) ++ rest) =
  Some (mkIpv4Addr a b c d, rest).
Proof.
  intros Ha Hb Hc Hd Hs. unfold read_ipv4_addr, read_separator, read_given_char.
  rewrite read_octet by done. cbn [mbind option_bind]. rewrite beq_refl.
  cbn [mbind option_bind]. rewrite read_octet by done. cbn [mbind option_bind].
  rewrite beq_refl. cbn [mbind option_bind]. rewrite read_octet by done.
  cbn [mbind option_bind]. rewrite beq_refl. cbn [mbind option_bind].
  by rewrite read_octet.
Qed.

Lemma parse_fmt_v4 ip port :
  addr_ok (SocketAddr.V4 ip port) →
  parse_socket_addr (fmt_v4 ip port) = Some (SocketAddr.V4 ip port).
Proof.
  destruct ip as [a b c d]. intros (Ha&Hb&Hc&Hd&Hp). cbn [v4_a v4_b v4_c v4_d] in *.
  unfold parse_socket_addr, read_socket_addr, read_socket_addr_v4, fmt_v4.
  cbn [v4_a v4_b v4_c v4_d]. rewrite !bstr_app.
  change (bstr ".") with ["."%byte]. change (bstr ":") with [":"%byte]. cbn [app].
  rewrite read_ipv4_addr_fmt by done. cbn [mbind option_bind].
  unfold read_port, read_given_char. rewrite beq_refl. cbn [mbind option_bind].
  rewrite <-(app_nil_r (bstr (fmt_dec port))).
  rewrite (read_number_app _ _ _ _ port); [done| |done|apply Hp|done].
  apply fmt_dec_prints. unfold in_u16, U16_MAX in Hp. lia.
Qed.
