(* ===== verification/Config.v ===== *)
(** Server configuration, [crates/server/src/config.rs]: the records, their
    defaults, the listen addresses, and the checks of the TLS paths.

    [Tracing] names the level type of the tracing crate; [Fs] is the file system
    as [Path::try_exists] sees it, with the constructor of I/O errors. *)
From S2P Require Import Prelude Errors SocketAddr.
Local Open Scope Z_scope.

Class Tracing := {
  LevelFilter : Type;
  LevelFilter_INFO : LevelFilter;
  LevelFilter_TRACE : LevelFilter;
}.

Definition SERVER_ID : string := "ocypode-server".
Definition SERVER_NAME : string := "ocypode".
Definition QUIC_CONNECT_TIMEOUT_MS : u64 := 2000.
Definition QUIC_READ_BUFFER_SIZE : usize := 32 * 1024.
Definition QUIC_WRITE_BUFFER_SIZE : usize := 10 * 1024 * 1024.
Definition QUIC_OUTBOUND_CHANNEL_CAPACITY : usize := 1024.

Record LoggerConfig `{Tracing} : Type := mkLoggerConfig {
  logger_name : string;
  enable_tokio_console : bool;
  with_thread_name : bool;
  default_level : LevelFilter;
}.
Definition LoggerConfig_new `{Tracing} (name : string) : LoggerConfig :=
  {| logger_name := name;
     enable_tokio_console := false;
     with_thread_name := false;
     default_level := LevelFilter_INFO |}.
Definition LoggerConfig_default `{Tracing} : LoggerConfig :=
  LoggerConfig_new "ocypode".

Record GrpcConfig : Type := mkGrpcConfig { grpc_listen_addr : string }.
Definition GrpcConfig_default : GrpcConfig := mkGrpcConfig "[::1]:50051".
Definition GrpcConfig_socket_addr (self : GrpcConfig)
  : result Empty_set SocketAddr.SocketAddr :=
  unwrap (parse_socket_addr (grpc_listen_addr self)).

Module MetricLevel.
Inductive MetricLevel : Type := Disabled | Critical | Info | Debug.
Definition default : MetricLevel := Disabled.

#[global] Instance MetricLevel_eq_dec : EqDecision MetricLevel.
Proof. solve_decision. Defined.

(** The derived [PartialOrd] compares the discriminants. *)
Definition discriminant (l : MetricLevel) : Z :=
  match l with Disabled => 0 | Critical => 1 | Info => 2 | Debug => 3 end.
Definition gt (l l' : MetricLevel) : bool := discriminant l' <? discriminant l.
End MetricLevel.

Record MetricsConfig : Type := mkMetricsConfig {
  metrics_level : MetricLevel.MetricLevel;
  metrics_listen_addr : string;
}.
Definition MetricsConfig_default : MetricsConfig :=
  mkMetricsConfig MetricLevel.default "127.0.0.1:9090".

(** ** TLS *)

Module TLSConfig.
Record TLSConfig : Type := mk {
  cert_file_path_0 : string;
  key_file_path_0 : string;
}.
Definition default : TLSConfig := mk "crates/certs/server.crt" "crates/certs/key.pem".

Class Fs `{ExternalErrors} := {
  try_exists : string -> result IoError bool;
  io_error_not_found : string -> IoError;
}.

Section paths.
Context `{Fs}.

Definition cert_file_path (self : TLSConfig) : result IoError string :=
  let path := cert_file_path_0 self in
  found ← try_exists path;
  if negb found
  then Err (io_error_not_found
    ("Certificate file not found at: " +:+ cert_file_path_0 self))
  else Ok path.

Definition key_file_path (self : TLSConfig) : result IoError string :=
  let path := key_file_path_0 self in
  found ← try_exists path;
  if negb found
  then Err (io_error_not_found ("Key file not found at: " +:+ key_file_path_0 self))
  else Ok path.
End paths.
End TLSConfig.

(** ** QUIC and the server *)

Record QuicConfig : Type := mkQuicConfig {
  quic_listen_addr : string;
  enable_gso : bool;
  enable_gro : bool;
  endpoint_limits : option usize;
  connect_timeout : u64;
  read_buffer_size : usize;
  write_buffer_size : usize;
  outbound_channel_capacity : usize;
  tls : TLSConfig.TLSConfig;
}.
Definition QuicConfig_default : QuicConfig :=
  {| quic_listen_addr := "127.0.0.1:4433";
     enable_gso := true;
     enable_gro := true;
     endpoint_limits := None;
     connect_timeout := QUIC_CONNECT_TIMEOUT_MS;
     read_buffer_size := QUIC_READ_BUFFER_SIZE;
     write_buffer_size := QUIC_WRITE_BUFFER_SIZE;
     outbound_channel_capacity := QUIC_OUTBOUND_CHANNEL_CAPACITY;
     tls := TLSConfig.default |}.
Definition QuicConfig_socket_addr (self : QuicConfig)
  : result Empty_set SocketAddr.SocketAddr :=
  unwrap (parse_socket_addr (quic_listen_addr self)).

Record ServerConfig `{Tracing} : Type := mkServerConfig {
  logger : LoggerConfig;
  grpc : GrpcConfig;
  metrics : MetricsConfig;
  quic : QuicConfig;
  server_id : string;
  server_name : string;
  requires_auth : bool;
  tls_verify : bool;
}.
Definition ServerConfig_new `{Tracing} : ServerConfig :=
  {| logger := LoggerConfig_default;
     grpc := GrpcConfig_default;
     metrics := MetricsConfig_default;
     quic := QuicConfig_default;
     server_id := SERVER_ID;
     server_name := SERVER_NAME;
     requires_auth := false;
     tls_verify := false |}.
