(* ===== verification/ConfigSpec.v ===== *)
(** Properties of the configuration: the listen addresses and the TLS paths. *)
From S2P Require Import Prelude Errors SocketAddr SocketAddrSpec Config.
Local Open Scope Z_scope.

(** The methods [socket_addr] return an address or panic; they have no error. *)
Lemma unwrap_Ok {E A} (o : option A) (x : A) : unwrap (E:=E) o = Ok x ↔ o = Some x.
Proof. destruct o; cbn; split; by intros [= ->]. Qed.

(** Whatever the configured listen address is, a socket address that
    [socket_addr] returns is well typed: octets are bytes, the port and the eight
    segments are 16-bit values, the scope is a 32-bit value. *)
Lemma socket_addr_typed (g : GrpcConfig) (q : QuicConfig) a :
  GrpcConfig_socket_addr g = Ok a ∨ QuicConfig_socket_addr q = Ok a → addr_ok a.
Proof.
  unfold GrpcConfig_socket_addr, QuicConfig_socket_addr. rewrite !unwrap_Ok.
  intros [?|?]; by eapply parse_socket_addr_ok.
Qed.

(** A listen address written as an IPv4 socket address prints is read back as
    that address, for every address and port, and never panics. *)
Lemma listen_addr_roundtrip (q : QuicConfig) ip port :
  addr_ok (SocketAddr.V4 ip port) → quic_listen_addr q = fmt_v4 ip port →
  QuicConfig_socket_addr q = Ok (SocketAddr.V4 ip port).
Proof.
  intros Hok Heq. unfold QuicConfig_socket_addr. by rewrite Heq, parse_fmt_v4.
Qed.

(** A TLS path is returned exactly when the file system says the file exists,
    and then unchanged; a missing file and a failed check are errors, never a
    path. *)
Lemma tls_paths_checked `{TLSConfig.Fs} (self : TLSConfig.TLSConfig) path :
  (TLSConfig.cert_file_path self = Ok path ↔
    path = TLSConfig.cert_file_path_0 self ∧ TLSConfig.try_exists path = Ok true) ∧
  (TLSConfig.key_file_path self = Ok path ↔
    path = TLSConfig.key_file_path_0 self ∧ TLSConfig.try_exists path = Ok true).
Proof.
  unfold TLSConfig.cert_file_path, TLSConfig.key_file_path.
  split.
  - destruct (TLSConfig.try_exists (TLSConfig.cert_file_path_0 self))
      as [[]| |] eqn:He; cbn; (split; [intros H'; by simplify_eq|];
      intros [-> H']; congruence).
  - destruct (TLSConfig.try_exists (TLSConfig.key_file_path_0 self))
      as [[]| |] eqn:He; cbn; (split; [intros H'; by simplify_eq|];
      intros [-> H']; congruence).
Qed.
