(* ===== verification/Handshake.v ===== *)
(** Authentication and the connection handshake, [crates/server/src/auth.rs] and
    [crates/server/src/handshake.rs].

    The two states of the handshake are two types: a [CompletedHandshake] comes
    only out of [on_connect], so the type of a client's later phases says that
    the authenticator accepted its CONNECT. *)
From S2P Require Import Prelude Errors Messages ClientId.

Module AuthOutcome.
Inductive AuthOutcome : Type :=
| Accepted
| Rejected (reason : string).
End AuthOutcome.

(** The trait [Authenticator]. *)
Class Authenticator (A : Type) :=
  authenticate : A -> pb.Connect -> AuthOutcome.AuthOutcome.

Inductive NoAuthAuthenticator : Type := mkNoAuthAuthenticator.
#[export] Instance NoAuth : Authenticator NoAuthAuthenticator :=
  fun _ _ => AuthOutcome.Accepted.

Record PendingHandshake : Type := mkPendingHandshake {
  pending_client_id : ClientId;
}.

Record CompletedHandshake : Type := mkCompletedHandshake {
  completed_client_id : ClientId;
  connect_info : pb.Connect;
}.

Module HandshakeError.
Inductive HandshakeError : Type :=
| ConnectTimeout
| ConnectionClosed
| UnexpectedFrame
| AuthenticationFailed (reason : string).
End HandshakeError.

Definition PendingHandshake_new (client_id : ClientId) : PendingHandshake :=
  mkPendingHandshake client_id.

Definition on_connect {A} `{Authenticator A} (self : PendingHandshake)
    (connect : pb.Connect) (authenticator : A)
  : result HandshakeError.HandshakeError CompletedHandshake :=
  match authenticate authenticator connect with
  | AuthOutcome.Accepted =>
      Ok (mkCompletedHandshake (pending_client_id self) connect)
  | AuthOutcome.Rejected reason =>
      Err (HandshakeError.AuthenticationFailed reason)
  end.
