(* ===== verification/Client.v ===== *)
(** The connection of one client, [crates/server/src/client.rs]: the handshake,
    the dispatch loop, and the task that writes outbound messages.

    Tokio, tokio-util and the transport are parameters: [Transport] splits a
    stream; [FramedReader] is [FramedRead<_, ServerCodec>] with the timer that a
    read races against; [FramedWriter] is [FramedWrite<_, ServerCodec>];
    [OutboundSender] and [OutboundReceiver] are the two ends of the [mpsc]
    channel.  An [await] is a call that returns its result with the next state of
    what was awaited.  Loops take fuel, [None] is running out of it; the log is
    not modelled. *)
From S2P Require Import Prelude Errors Messages ClientId Parser Config Handshake.
Local Open Scope Z_scope.

Module ClientError.
Inductive ClientError `{ExternalErrors} : Type :=
| Handshake (e : HandshakeError.HandshakeError)
| Codec (e : ServerCodecError.ServerCodecError)
| OutboundChannelClosed.

(** [From<mpsc::error::SendError<OutboundMessage>>] *)
Definition from_send_error `{ExternalErrors}
    (_ : OutboundMessage.OutboundMessage) : ClientError :=
  OutboundChannelClosed.
End ClientError.

(** ** The runtime *)

(** [into_split] of the trait [Transport]. *)
Class Transport (T Rd Wr : Type) := into_split : T -> Rd * Wr.

(** [next r] is [r.next().await]; [elapsed ms r]: the next item of [r] does not
    arrive within [ms] milliseconds. *)
Class FramedReader `{ExternalErrors} (Rd R : Type) := {
  FramedRead_with_capacity : Rd -> usize -> R;
  next : R -> option (result ServerCodecError.ServerCodecError Frame.Frame) * R;
  elapsed : u64 -> R -> bool;
}.

Class FramedWriter `{ExternalErrors} (Wr W : Type) := {
  FramedWrite_with_capacity : Wr -> usize -> W;
  feed : pb.Info -> W -> result ServerCodecError.ServerCodecError unit * W;
  flush : W -> result ServerCodecError.ServerCodecError unit * W;
}.

(** [channel] panics when the capacity is zero; [SendError] carries the message
    back. *)
Class OutboundSender (S : Type) :=
  send : OutboundMessage.OutboundMessage -> S ->
    result OutboundMessage.OutboundMessage unit * S.
Class OutboundReceiver (Q : Type) := {
  recv : Q -> option OutboundMessage.OutboundMessage * Q;
  try_recv : Q -> option OutboundMessage.OutboundMessage * Q;
}.
Class OutboundChannel (S Q : Type) :=
  channel : usize -> result Empty_set (S * Q).

(** [timeout(ms, fut).await] with [fut] already evaluated. *)
Definition timeout {A} (is_elapsed : bool) (fut : A) : option A :=
  if is_elapsed then None else Some fut.

(** ** The handshake and the dispatch loop *)

Section client.
Context `{ExternalErrors, Tracing}.
Context {A Rd R S : Type}.
Context `{!Authenticator A, !FramedReader Rd R, !OutboundSender S}.

Record Client : Type := mkClient {
  client_id : ClientId;
  framed_read : R;
  outbound_sender : S;
  authenticator : A;
  config : ServerConfig;
}.

Definition perform_handshake (framed_read : R) (outbound : S)
    (connect_timeout_ms : u64) (pending : PendingHandshake) (authenticator : A)
    (info : pb.Info)
  : result ClientError.ClientError CompletedHandshake * R * S :=
  let '(sent, outbound) := send (OutboundMessage.Info info) outbound in
  match map_err ClientError.from_send_error sent with
  | Err e => (Err e, framed_read, outbound)
  | Panic => (Panic, framed_read, outbound)
  | Ok _ =>
      let is_elapsed := elapsed connect_timeout_ms framed_read in
      let '(item, framed_read) := next framed_read in
      match timeout is_elapsed
        match item with
        | Some (Ok (Frame.Connect connect)) =>
            map_err ClientError.Handshake (on_connect pending connect authenticator)
        | Some (Ok _) =>
            Err (ClientError.Handshake HandshakeError.ConnectionClosed)
        | Some (Err e) => Err (ClientError.Codec e)
        | Some Panic => Panic
        | None => Err (ClientError.Handshake HandshakeError.ConnectionClosed)
        end with
      | Some res => (res, framed_read, outbound)
      | None =>
          (Err (ClientError.Handshake HandshakeError.ConnectTimeout),
           framed_read, outbound)
      end
  end.

Definition dispatch_frame (frame : Frame.Frame) (handshake : CompletedHandshake)
    (_outbound : S) : result ClientError.ClientError unit :=
  match frame with
  | Frame.Connect _ => Ok tt
  | Frame.Publish _ | Frame.Subscribe _ | Frame.UnSubscribe _ => Ok tt
  end.

(** The loop over the frames; it returns what [run] returns, and the reader. *)
Fixpoint dispatch_loop (fuel : nat) (completed : CompletedHandshake)
    (outbound : S) (framed_read : R)
  : option (result ClientError.ClientError unit * R) :=
  match fuel with
  | O => None
  | Datatypes.S fuel =>
      match next framed_read with
      | (None, framed_read) => Some (Ok tt, framed_read)
      | (Some frame, framed_read) =>
          match map_err ClientError.Codec frame ≫= λ frame,
                  dispatch_frame frame completed outbound with
          | Ok _ => dispatch_loop fuel completed outbound framed_read
          | r => Some (r, framed_read)
          end
      end
  end.

(** The INFO message of a client, from the configuration. *)
Definition client_info (self : Client) : pb.Info :=
  ServerOutbound.info PROTOCOL_VERSION (client_id self)
    (server_id (config self)) (server_name (config self))
    (requires_auth (config self)) (tls_verify (config self)).

(** [run]: its result, with the reader and the sender it leaves. *)
Definition run (fuel : nat) (self : Client)
  : option (result ClientError.ClientError unit * R * S) :=
  let info := client_info self in
  match perform_handshake (framed_read self) (outbound_sender self)
    (connect_timeout (quic (config self)))
    (PendingHandshake_new (client_id self)) (authenticator self) info with
  | (Ok completed, framed_read, outbound) =>
      '(r, framed_read) ← dispatch_loop fuel completed outbound framed_read;
      Some (r, framed_read, outbound)
  | (Err e, framed_read, outbound) => Some (Err e, framed_read, outbound)
  | (Panic, framed_read, outbound) => Some (Panic, framed_read, outbound)
  end.
End client.
Arguments Client {_} A R S.

(** ** The writer task *)

Section writer.
Context `{ExternalErrors}.
Context {Wr W Q : Type} `{!FramedWriter Wr W, !OutboundReceiver Q}.

Definition dispatch_outbound (framed_write : W)
    (message : OutboundMessage.OutboundMessage)
  : result ServerCodecError.ServerCodecError unit * W :=
  match message with
  | OutboundMessage.Info info => feed info framed_write
  | OutboundMessage.Message _ => (Ok tt, framed_write)
  end.

(** The inner loop: feed what is queued. *)
Fixpoint drain_queued (fuel : nat) (framed_write : W) (receiver : Q)
  : option (W * Q) :=
  match fuel with
  | O => None
  | Datatypes.S fuel =>
      match try_recv receiver with
      | (Some message, receiver) =>
          let '(_, framed_write) := dispatch_outbound framed_write message in
          drain_queued fuel framed_write receiver
      | (None, receiver) => Some (framed_write, receiver)
      end
  end.

Fixpoint run_outbound_writer (fuel : nat) (framed_write : W) (receiver : Q)
  : option W :=
  match fuel with
  | O => None
  | Datatypes.S fuel =>
      match recv receiver with
      | (None, _) => Some framed_write
      | (Some message, receiver) =>
          let '(_, framed_write) := dispatch_outbound framed_write message in
          '(framed_write, receiver) ← drain_queued fuel framed_write receiver;
          let '(_, framed_write) := flush framed_write in
          run_outbound_writer fuel framed_write receiver
      end
  end.
End writer.

(** ** Construction *)

(** [Client::new]: the client, the state of the task it spawns, and the next
    value of the identifier counter. *)
Definition Client_new `{ExternalErrors, Tracing} {T Rd Wr R W S Q A : Type}
    `{!Transport T Rd Wr, !FramedReader Rd R, !FramedWriter Wr W,
      !OutboundChannel S Q}
    (counter : u64) (transport : T) (authenticator : A) (config : ServerConfig)
  : result Empty_set (Client A R S * (W * Q) * u64) :=
  let '(client_id, counter) := ClientId_new counter in
  let '(reader, writer) := into_split transport in
  let framed_read :=
    FramedRead_with_capacity reader (read_buffer_size (quic config)) in
  let framed_write :=
    FramedWrite_with_capacity writer (write_buffer_size (quic config)) in
  '(outbound_sender, outbound_receiver) ←
    channel (outbound_channel_capacity (quic config));
  Ok (mkClient client_id framed_read outbound_sender authenticator config,
      (framed_write, outbound_receiver), counter).
