(* ===== verification/ClientFacts.v ===== *)
(** Reasoning about one client connection: what tokio documents of the runtime
    operations [Client] uses, as classes of laws; the outcomes of a session as a
    specification on the bytes the peer sends; and lemmas on the loops. *)
From S2P Require Import Prelude Errors Messages ClientId Parser CodecFacts CodecSpec.
From S2P Require Import Config Handshake Client.
Local Open Scope Z_scope.

(** ** Laws of the runtime *)

Section laws.
Context `{Prost}.

(** [FramedRead] over a transport that delivers everything its peer sends.
    [unread r] are the bytes received and still to come.  An item is a call of
    the decoder on them; at the end of the stream left-over bytes are an I/O
    error. *)
Class FramedReaderLaws {Rd R} `{!FramedReader Rd R} := {
  live : R -> Prop;
  unread : R -> bytes;
  next_frame r f rest :
    live r → ServerCodec.decode (unread r) = (Ok (Some f), rest) →
    ∃ r', next r = (Some (Ok f), r') ∧ live r' ∧ unread r' = rest;
  next_error r e rest :
    live r → ServerCodec.decode (unread r) = (Err e, rest) →
    ∃ r', next r = (Some (Err e), r');
  next_end r :
    live r → ServerCodec.decode (unread r) = (Ok None, []) →
    ∃ r', next r = (None, r');
  next_partial r x rest :
    live r → ServerCodec.decode (unread r) = (Ok None, x :: rest) →
    ∃ e r', next r = (Some (Err (ServerCodecError.Io e)), r');
}.

(** A sender whose receiver is alive queues the message. *)
Class OutboundSenderLaws {S} `{!OutboundSender S} := {
  open : S -> Prop;
  sent : S -> list OutboundMessage.OutboundMessage;
  send_open s m :
    open s → ∃ s', send m s = (Ok tt, s') ∧ open s' ∧ sent s' = sent s ++ [m];
}.

(** [FramedWrite] over a transport that does not fail: [written w] are the bytes
    encoded so far, [unflushed w] those of them not on the transport yet. *)
Class FramedWriterLaws {Wr W} `{!FramedWriter Wr W} := {
  writable : W -> Prop;
  written : W -> bytes;
  unflushed : W -> bytes;
  feed_encodes i w :
    writable w → ∃ r w', Client.feed i w = (r, w') ∧ writable w' ∧
      ServerCodec.encode i (written w) = (r, written w');
  flush_empties w :
    writable w → ∃ w', flush w = (Ok tt, w') ∧ writable w' ∧
      written w' = written w ∧ unflushed w' = [];
}.

(** A receiver: [inbox q] are the messages it will receive before the channel
    closes, in order; [try_recv] may find none of them queued yet. *)
Class OutboundReceiverLaws {Q} `{!OutboundReceiver Q} := {
  inbox : Q -> list OutboundMessage.OutboundMessage;
  recv_next q :
    match inbox q with
    | [] => ∃ q', recv q = (None, q')
    | m :: ms => ∃ q', recv q = (Some m, q') ∧ inbox q' = ms
    end;
  try_recv_next q :
    (∃ m q', try_recv q = (Some m, q') ∧ inbox q = m :: inbox q') ∨
    (∃ q', try_recv q = (None, q') ∧ inbox q' = inbox q);
}.
End laws.

(** ** Sessions *)

Section session.
Context `{Prost, Tracing} {A Rd R S : Type}.
Context `{!Authenticator A, !FramedReader Rd R, !OutboundSender S}.

Local Abbreviation outcome_of := (result ClientError.ClientError unit).

(** The frames of a byte stream, how decoding it ends, and what is left. *)
Definition server_drain (buf : bytes)
  : list Frame.Frame * result ServerCodecError.ServerCodecError unit * bytes :=
  drain ServerInboundCommand.try_from ServerCodec.decode_command buf.

(** What the end of the stream makes of a session past the handshake. *)
Inductive stream_end
  : result ServerCodecError.ServerCodecError unit -> bytes -> outcome_of -> Prop :=
| end_clean : stream_end (Ok tt) [] (Ok tt)
| end_partial x rest e :
    stream_end (Ok tt) (x :: rest) (Err (ClientError.Codec (ServerCodecError.Io e)))
| end_error e rest : stream_end (Err e) rest (Err (ClientError.Codec e)).

(** The outcome of a session, on the frames of the stream. *)
Inductive session (auth : A) (late : bool)
  : list Frame.Frame -> result ServerCodecError.ServerCodecError unit -> bytes ->
    outcome_of -> Prop :=
| session_timeout fs o rest :
    late = true →
    session auth late fs o rest
      (Err (ClientError.Handshake HandshakeError.ConnectTimeout))
| session_accepted c fs o rest out :
    late = false → authenticate auth c = AuthOutcome.Accepted →
    stream_end o rest out →
    session auth late (Frame.Connect c :: fs) o rest out
| session_rejected c reason fs o rest :
    late = false → authenticate auth c = AuthOutcome.Rejected reason →
    session auth late (Frame.Connect c :: fs) o rest
      (Err (ClientError.Handshake (HandshakeError.AuthenticationFailed reason)))
| session_not_connect f fs o rest :
    late = false → (∀ c, f ≠ Frame.Connect c) →
    session auth late (f :: fs) o rest
      (Err (ClientError.Handshake HandshakeError.ConnectionClosed))
| session_closed :
    late = false →
    session auth late [] (Ok tt) []
      (Err (ClientError.Handshake HandshakeError.ConnectionClosed))
| session_broken o rest e :
    late = false → stream_end o rest (Err e) →
    session auth late [] o rest (Err e).

Context `{!ProstLaws, !FramedReaderLaws (Rd:=Rd) (R:=R)}.

Local Abbreviation server_drains :=
  (drains ServerInboundCommand.try_from ServerCodec.decode_command).

Lemma server_drain_iff buf fs o rest :
  server_drain buf = (fs, o, rest) ↔ server_drains buf fs o rest.
Proof. apply drain_iff. Qed.

Lemma server_drains_no_panic buf fs o rest : server_drains buf fs o rest → o ≠ Panic.
Proof.
  induction 1 as [| |buf rest Hd|]; [done..| |done].
  by apply decodes_no_panic in Hd; [|apply server_decode_no_panic].
Qed.

Lemma server_drains_length buf fs o rest :
  server_drains buf fs o rest → (length fs <= length buf)%nat.
Proof.
  induction 1 as [| | |buf x mid xs o rest Hd _ IH]; simpl; [lia..|].
  apply decodes_Some_shorter in Hd.
  unfold len, HEADER_LENGTH, COMMAND_BYTE_LEN, PAYLOAD_LENGTH_BYTES in Hd. lia.
Qed.

(** The dispatch loop reads the stream to its end. *)
Lemma dispatch_loop_spec r fs o rest completed (s : S) :
  live r → server_drains (unread r) fs o rest →
  ∃ out r', (∀ fuel, (length fs < fuel)%nat →
      dispatch_loop fuel completed s r = Some (out, r')) ∧
    stream_end o rest out.
Proof.
  intros Hlive Hd. remember (unread r) as buf eqn:Hbuf. revert r Hlive Hbuf.
  induction Hd as [buf rest Hd|buf e rest Hd|buf rest Hd|buf f mid fs o rest Hd _ IH];
    intros r Hlive ->; apply decodes_decode in Hd as Hdec.
  - destruct rest as [|x rest].
    + destruct (next_end r Hlive Hdec) as [r' Hn]. exists (Ok tt), r'.
      split; [|constructor]. intros [|fuel]; [lia|]. intros _. cbn [dispatch_loop].
      by rewrite Hn.
    + destruct (next_partial r x rest Hlive Hdec) as (e&r'&Hn).
      eexists _, r'. split; [|apply end_partial].
      intros [|fuel]; [lia|]. intros _. cbn [dispatch_loop]. by rewrite Hn.
  - destruct (next_error r e rest Hlive Hdec) as [r' Hn].
    eexists _, r'. split; [|constructor].
    intros [|fuel]; [lia|]. intros _. cbn [dispatch_loop]. by rewrite Hn.
  - apply decodes_no_panic in Hd; [done|]. apply server_decode_no_panic.
  - destruct (next_frame r f mid Hlive Hdec) as (r1&Hn&Hl1&Hu1).
    destruct (IH r1 Hl1 (eq_sym Hu1)) as (out&r'&Hloop&Hend).
    exists out, r'. split; [|done]. intros [|fuel]; simpl; [lia|]. intros Hf.
    rewrite Hn. destruct f; cbn; apply Hloop; lia.
Qed.

Context `{!OutboundSenderLaws (S:=S)}.

(** A session runs to its outcome and sends the INFO message, nothing else. *)
Lemma run_session (self : Client A R S) fs o rest :
  live (framed_read self) → open (outbound_sender self) →
  server_drain (unread (framed_read self)) = (fs, o, rest) →
  ∃ out r' s',
    (∀ fuel, (length fs < fuel)%nat → run fuel self = Some (out, r', s')) ∧
    session (authenticator self)
      (elapsed (connect_timeout (quic (config self))) (framed_read self))
      fs o rest out ∧
    sent s' = sent (outbound_sender self) ++ [OutboundMessage.Info (client_info self)].
Proof.
  intros Hlive Hopen Hd%server_drain_iff. unfold run, perform_handshake.
  destruct (send_open (outbound_sender self)
    (OutboundMessage.Info (client_info self)) Hopen) as (s'&->&_&Hsent).
  cbn [map_err]. unfold timeout.
  destruct (elapsed _ (framed_read self)) eqn:Hlate.
  { destruct (next (framed_read self)) as [item r'].
    do 3 eexists. split_and!; [done|by apply session_timeout|done]. }
  inversion Hd as [? ? Hdec|? ? ? Hdec|? ? Hdec|? f mid xs ? ? Hdec Hrest]; subst;
    apply decodes_decode in Hdec as Hcall.
  - destruct rest as [|x rest].
    + destruct (next_end _ Hlive Hcall) as [r' ->].
      do 3 eexists. split_and!; [done|by apply session_closed|done].
    + destruct (next_partial _ _ _ Hlive Hcall) as (e&r'&->).
      do 3 eexists. split_and!; [done| |done].
      apply session_broken; [done|constructor].
  - destruct (next_error _ _ _ Hlive Hcall) as [r' ->].
    do 3 eexists. split_and!; [done| |done].
    apply session_broken; [done|constructor].
  - by apply decodes_no_panic in Hdec; [|apply server_decode_no_panic].
  - destruct (next_frame _ _ _ Hlive Hcall) as (r1&->&Hl1&Hu1).
    destruct f as [c|m|m|m]; [|do 3 eexists; (split_and!;
      [done|by apply session_not_connect|done])..].
    unfold on_connect. destruct (authenticate (authenticator self) c) eqn:Hauth;
      cbn [map_err]; [|do 3 eexists; (split_and!; [done|by apply session_rejected|done])].
    rewrite <-Hu1 in Hrest.
    destruct (dispatch_loop_spec r1 xs o rest (mkCompletedHandshake
      (pending_client_id (PendingHandshake_new (client_id self))) c) s' Hl1 Hrest)
      as (out&r'&Hloop&Hend).
    exists out, r', s'. split_and!; [|by apply session_accepted|done].
    intros fuel Hf. rewrite Hloop; [done|]. simpl in Hf. lia.
Qed.
End session.

(** ** The writer *)

Section writer.
Context `{Prost} {Wr W Q : Type}.
Context `{!FramedWriter Wr W, !OutboundReceiver Q}.
Context `{!FramedWriterLaws (Wr:=Wr) (W:=W), !OutboundReceiverLaws (Q:=Q)}.

(** What a message adds to the bytes on the wire. *)
Definition outbound_bytes (buf : bytes) (m : OutboundMessage.OutboundMessage)
  : bytes :=
  match m with
  | OutboundMessage.Info i => (ServerCodec.encode i buf).2
  | OutboundMessage.Message _ => buf
  end.

Lemma dispatch_outbound_spec w m :
  writable w → ∃ r w', dispatch_outbound w m = (r, w') ∧ writable w' ∧
    written w' = outbound_bytes (written w) m.
Proof.
  intros Hw. destruct m as [i|m]; cbn [dispatch_outbound outbound_bytes].
  - destruct (feed_encodes i w Hw) as (r&w'&->&Hw'&->). by exists r, w'.
  - by exists (Ok tt), w.
Qed.

Lemma drain_queued_spec fuel w (q : Q) :
  (length (inbox q) < fuel)%nat → writable w →
  ∃ w' q' taken, drain_queued fuel w q = Some (w', q') ∧ writable w' ∧
    inbox q = taken ++ inbox q' ∧
    written w' = foldl outbound_bytes (written w) taken.
Proof.
  revert w q. induction fuel as [|fuel IH]; intros w q Hf Hw; [lia|].
  cbn [drain_queued]. destruct (try_recv_next q) as [(m&q1&->&Hq)|(q1&->&Hq)].
  - destruct (dispatch_outbound_spec w m Hw) as (r&w1&->&Hw1&Hwr).
    rewrite Hq in Hf. simpl in Hf.
    destruct (IH w1 q1) as (w'&q'&taken&->&Hw'&Hin&Hwr'); [lia|done|].
    exists w', q', (m :: taken). split_and!; [done..| |].
    + by rewrite Hq, Hin.
    + by rewrite Hwr', Hwr.
  - exists w, q1, []. by split_and!.
Qed.

Lemma run_outbound_writer_spec fuel w (q : Q) :
  (S (length (inbox q)) < fuel)%nat → writable w → unflushed w = [] →
  ∃ w', run_outbound_writer fuel w q = Some w' ∧ unflushed w' = [] ∧
    written w' = foldl outbound_bytes (written w) (inbox q).
Proof.
  revert w q. induction fuel as [|fuel IH]; intros w q Hf Hw Hu; [lia|].
  cbn [run_outbound_writer]. pose proof (recv_next q) as Hrecv.
  destruct (inbox q) as [|m ms] eqn:Hq.
  { destruct Hrecv as [q' ->]. by exists w. }
  destruct Hrecv as (q1&->&Hq1). simpl in Hf.
  destruct (dispatch_outbound_spec w m Hw) as (r&w1&->&Hw1&Hwr1).
  destruct (drain_queued_spec fuel w1 q1) as (w2&q2&taken&->&Hw2&Hin&Hwr2);
    [rewrite Hq1; lia|done|]. cbn [mbind option_bind].
  destruct (flush_empties w2 Hw2) as (w3&->&Hw3&Hwr3&Hu3).
  rewrite Hq1 in Hin.
  destruct (IH w3 q2) as (w'&->&Hu'&Hwr'); [|done..|].
  { rewrite Hin, length_app in Hf. lia. }
  exists w'. split_and!; [done..|].
  by rewrite Hwr', Hwr3, Hwr2, Hwr1, Hin, <-foldl_app.
Qed.
End writer.
