(* ===== verification/ClientRuntime.v ===== *)
(** A concrete runtime for [Client]: byte streams that arrive in given chunks, an
    unbounded queue, a buffered writer, messages that become available in given
    batches.  It shows that the laws of [ClientFacts] can hold together, and runs
    the sessions of the examples.  It is not a model of tokio's code. *)
From S2P Require Import Prelude Errors Messages ClientId Parser Wire CodecFacts.
From S2P Require Import CodecSpec Config Handshake Client ClientFacts.
Local Open Scope Z_scope.

#[export] Instance sample_tracing : Tracing :=
  {| LevelFilter := bool; LevelFilter_INFO := false; LevelFilter_TRACE := true |}.

(** ** Reading *)

Record chunk_reader : Type := mkChunkReader {
  cr_buffer : bytes;
  cr_chunks : list bytes;
  cr_delay : u64;
  cr_failed : bool;
}.

(** Decode what is buffered; read another chunk when the decoder waits. *)
Fixpoint read_next (delay : u64) (chunks : list bytes) (buffer : bytes)
  : option (result ServerCodecError.ServerCodecError Frame.Frame) * chunk_reader :=
  match ServerCodec.decode buffer with
  | (Ok (Some f), rest) => (Some (Ok f), mkChunkReader rest chunks delay false)
  | (Err e, rest) => (Some (Err e), mkChunkReader rest chunks delay true)
  | (Panic, rest) => (Some Panic, mkChunkReader rest chunks delay true)
  | (Ok None, rest) =>
      match chunks with
      | chunk :: chunks => read_next delay chunks (rest ++ chunk)
      | [] =>
          match rest with
          | [] => (None, mkChunkReader [] [] delay false)
          | _ :: _ =>
              (Some (Err (ServerCodecError.Io "bytes remaining on stream")),
               mkChunkReader rest [] delay true)
          end
      end
  end.

(** The transport is the chunks and the time until the first item. *)
#[export] Instance chunk_framed_reader
    : FramedReader (list bytes * u64) chunk_reader := {|
  FramedRead_with_capacity t _ := mkChunkReader [] t.1 t.2 false;
  next r :=
    if cr_failed r then (None, r)
    else read_next (cr_delay r) (cr_chunks r) (cr_buffer r);
  elapsed ms r := ms <? cr_delay r;
|}.

(** One read is one call of the decoder on everything that is still to come. *)
Lemma read_next_spec delay chunks buffer :
  match ServerCodec.decode (buffer ++ concat chunks) with
  | (Ok (Some f), rest) =>
      ∃ r', read_next delay chunks buffer = (Some (Ok f), r') ∧
        cr_failed r' = false ∧ cr_buffer r' ++ concat (cr_chunks r') = rest
  | (Err e, _) => ∃ r', read_next delay chunks buffer = (Some (Err e), r')
  | (Ok None, []) => ∃ r', read_next delay chunks buffer = (None, r')
  | (Ok None, _ :: _) =>
      ∃ e r', read_next delay chunks buffer = (Some (Err (ServerCodecError.Io e)), r')
  | (Panic, _) => True
  end.
Proof.
  revert buffer. induction chunks as [|chunk chunks IH]; intros buffer;
    cbn [read_next concat].
  - rewrite app_nil_r. destruct (ServerCodec.decode buffer) as [[[f|]|e|] rest];
      [| destruct rest| |done]; eauto.
    eexists. split_and!; [done..|]. apply app_nil_r.
  - unfold ServerCodec.decode at 1. rewrite decode_app.
    fold (ServerCodec.decode buffer).
    destruct (ServerCodec.decode buffer) as [[[f|]|e|] rest]; [eauto| |eauto|done].
    specialize (IH (rest ++ chunk)). by rewrite <-app_assoc in IH.
Qed.

#[export] Instance chunk_framed_reader_laws
  : FramedReaderLaws (Rd:=list bytes * u64) (R:=chunk_reader).
Proof.
  refine {| live r := cr_failed r = false;
            unread r := cr_buffer r ++ concat (cr_chunks r) |};
    intros r; intros;
    pose proof (read_next_spec (cr_delay r) (cr_chunks r) (cr_buffer r)) as Hs;
    cbn [next chunk_framed_reader];
    match goal with
    | Hl : cr_failed _ = false, Hd : ServerCodec.decode _ = _ |- _ =>
        rewrite Hl; rewrite Hd in Hs
    end; done.
Defined.

(** ** Sending and writing *)

(** A sender is what was sent and whether the receiver is alive. *)
Definition list_sender : Type := list OutboundMessage.OutboundMessage * bool.
#[export] Instance list_outbound_sender : OutboundSender list_sender := λ m s,
  if s.2 then (Ok tt, (s.1 ++ [m], true)) else (Err m, s).
#[export] Instance list_outbound_sender_laws : OutboundSenderLaws (S:=list_sender).
Proof.
  refine {| open (s : list_sender) := s.2 = true; sent (s : list_sender) := s.1 |}.
  intros [l b] m. simpl. intros ->. by eexists.
Defined.

Record buffered_writer : Type := mkBufferedWriter {
  bw_flushed : bytes;
  bw_buffer : bytes;
}.
#[export] Instance buffered_framed_writer : FramedWriter unit buffered_writer := {|
  FramedWrite_with_capacity _ _ := mkBufferedWriter [] [];
  feed i w :=
    let '(r, buffer) := ServerCodec.encode i (bw_buffer w) in
    (r, mkBufferedWriter (bw_flushed w) buffer);
  flush w := (Ok tt, mkBufferedWriter (bw_flushed w ++ bw_buffer w) []);
|}.

(** Encoding appends, whatever is in the buffer. *)
Lemma encode_frame_app {E T} `{!Message T, !CommandCodec T}
    (into : CodecError.CodecError → E) (m : T) out1 out2 :
  encode_frame into m (out1 ++ out2) =
  ((encode_frame into m out2).1, out1 ++ (encode_frame into m out2).2).
Proof.
  unfold encode_frame. destruct (map_err into (encode_payload m)) as [p| |]; [|done..].
  destruct (u32_try_from (len p)); [|done]. cbn [fst snd]. by rewrite app_assoc.
Qed.

#[export] Instance buffered_framed_writer_laws
  : FramedWriterLaws (Wr:=unit) (W:=buffered_writer).
Proof.
  refine {| writable _ := True; written w := bw_flushed w ++ bw_buffer w;
            unflushed w := bw_buffer w |}.
  - intros i [l b] _. unfold feed, buffered_framed_writer, ServerCodec.encode.
    cbn [bw_buffer bw_flushed]. rewrite encode_frame_app.
    destruct (encode_frame _ i b) as [r b']. by do 2 eexists.
  - intros [l b] _. cbn. eexists. split_and!; [done..| |done]. by rewrite app_nil_r.
Defined.

(** A receiver: the messages queued now, and the batches still to come. *)
Definition batch_receiver : Type :=
  list OutboundMessage.OutboundMessage * list (list OutboundMessage.OutboundMessage).

Fixpoint wait_batch (later : list (list OutboundMessage.OutboundMessage))
  : option OutboundMessage.OutboundMessage * batch_receiver :=
  match later with
  | [] => (None, ([], []))
  | [] :: later => wait_batch later
  | (m :: ms) :: later => (Some m, (ms, later))
  end.

#[export] Instance batch_outbound_receiver : OutboundReceiver batch_receiver := {|
  recv q := match q.1 with m :: ms => (Some m, (ms, q.2)) | [] => wait_batch q.2 end;
  try_recv q := match q.1 with m :: ms => (Some m, (ms, q.2)) | [] => (None, q) end;
|}.
#[export] Instance batch_outbound_receiver_laws
  : OutboundReceiverLaws (Q:=batch_receiver).
Proof.
  refine {| inbox (q : batch_receiver) := q.1 ++ concat q.2 |}.
  - intros [[|m ms] later]; cbn; [|by eexists].
    induction later as [|[|m ms] later IH]; cbn; [by eexists|done|by eexists].
  - intros [[|m ms] later]; cbn; [right|left]; eauto.
Defined.

(** A channel that has not been used yet; zero capacity panics. *)
#[export] Instance list_channel : OutboundChannel list_sender batch_receiver :=
  λ capacity, if capacity <=? 0 then Panic else Ok (([], true), ([], [])).
#[export] Instance chunk_transport
  : Transport (list bytes * u64) (list bytes * u64) unit := λ t, (t, tt).
