(* ===== verification/ClientSpec.v ===== *)
(** The theorems of a client connection: when the handshake completes, how a
    session ends, what the peer of a session receives. *)
From S2P Require Import Prelude Errors Messages ClientId Parser Wire CodecFacts.
From S2P Require Import CodecSpec Config Handshake Client ClientFacts ClientRuntime.
Local Open Scope Z_scope.

Section sessions.
Context `{Prost, Tracing} {A Rd R S : Type}.
Context `{!Authenticator A, !FramedReader Rd R, !OutboundSender S}.

(** C14: The handshake completes exactly when the INFO message was queued, the first
    item the peer sent arrived in time, it is a CONNECT frame, and the
    authenticator accepted it; the completed handshake then carries the pending
    client's identifier and that CONNECT message. *)
Theorem handshake_completes_iff (r : R) (s : S) ms pending (auth : A) info
    completed :
  (perform_handshake r s ms pending auth info).1.1 = Ok completed ↔
  (send (OutboundMessage.Info info) s).1 = Ok tt ∧
  elapsed ms r = false ∧
  (next r).1 = Some (Ok (Frame.Connect (connect_info completed))) ∧
  authenticate auth (connect_info completed) = AuthOutcome.Accepted ∧
  completed_client_id completed = pending_client_id pending.
Proof.
  unfold perform_handshake, timeout, on_connect.
  destruct (send (OutboundMessage.Info info) s) as [[[]|m|] s'], (elapsed ms r),
    (next r) as [[[[c|m'|m'|m']|e|]|] r']; cbn [map_err fst snd];
    try (split; [done|]; by intros (?&?&?&?&?)).
  destruct (authenticate auth c) eqn:Ha; cbn [map_err fst snd].
  - split.
    + intros [= <-]. cbn. done.
    + intros (_&_&[= ->]&_&Hid). destruct completed. simpl in *. by subst.
  - split; [done|]. intros (_&_&[= ->]&Ha'&_). congruence.
Qed.

Context `{!ProstLaws, !FramedReaderLaws (Rd:=Rd) (R:=R)}.
Context `{!OutboundSenderLaws (S:=S)}.

(** C6: A session ends, and its result is determined by the frames of the byte
    stream the peer sends: a timeout, a first frame that is not CONNECT, a
    rejected CONNECT, a stream closed or broken before CONNECT, and after an
    accepted CONNECT the end of the stream (clean, inside a frame, or a frame
    that does not decode); the fuel needed is one round per byte, and one INFO
    message, nothing else, is queued for the peer. *)
Theorem client_session_outcome (self : Client A R S) fs o rest :
  live (framed_read self) → open (outbound_sender self) →
  server_drain (unread (framed_read self)) = (fs, o, rest) →
  ∃ out r' s',
    (∀ fuel, (length (unread (framed_read self)) < fuel)%nat →
      run fuel self = Some (out, r', s')) ∧
    session (authenticator self)
      (elapsed (connect_timeout (quic (config self))) (framed_read self))
      fs o rest out ∧
    sent s' = sent (outbound_sender self) ++ [OutboundMessage.Info (client_info self)].
Proof.
  intros Hl Ho Hd. destruct (run_session self fs o rest Hl Ho Hd)
    as (out&r'&s'&Hrun&?&?).
  exists out, r', s'. split_and!; [|done..]. intros fuel Hf. apply Hrun.
  apply server_drain_iff, server_drains_length in Hd. lia.
Qed.

(** A peer that sends the encoding of an accepted CONNECT and further frames. *)
Lemma run_protocol_client (self : Client A R S) c fs :
  live (framed_read self) → open (outbound_sender self) →
  elapsed (connect_timeout (quic (config self))) (framed_read self) = false →
  authenticate (authenticator self) c = AuthOutcome.Accepted →
  Forall client_sendable (Frame.Connect c :: fs) →
  send_all client_send (Frame.Connect c :: fs) [] =
    (Ok tt, unread (framed_read self)) →
  ∃ r' s',
    (∀ fuel, (length fs + 1 < fuel)%nat → run fuel self = Some (Ok tt, r', s')) ∧
    sent s' = sent (outbound_sender self) ++ [OutboundMessage.Info (client_info self)].
Proof.
  intros Hl Ho Hlate Hauth Hsend Hbytes.
  destruct (send_all_drain client_send ServerInboundCommand.try_from
    ServerCodec.decode_command server_command (Frame.Connect c :: fs))
    as (buf&Hs&Hd).
  { intros k. by apply server_try_from_iff. }
  { eapply Forall_impl; [exact Hsend|]. apply client_send_frame. }
  rewrite Hs in Hbytes. injection Hbytes as Hbytes. simpl in Hbytes.
  specialize (Hd [] ltac:(by apply decodes_short)).
  rewrite app_nil_r, Hbytes in Hd.
  destruct (run_session self _ _ _ Hl Ho Hd) as (out&r'&s'&Hrun&Hsess&Hsent).
  exists r', s'. split; [|done]. intros fuel Hf. rewrite Hrun by (simpl; lia).
  do 2 f_equal.
  inversion Hsess as [|? ? ? ? ? ? ? Hend| | | |]; simplify_eq; try congruence.
  by inversion Hend.
Qed.

(** C27: A client that follows the protocol is served to the end: when what it sends
    is the encoding of an accepted CONNECT and any frames after it, in time, the
    session returns [Ok], however the transport splits the bytes. *)
Theorem protocol_client_served (self : Client A R S) c fs :
  live (framed_read self) → open (outbound_sender self) →
  elapsed (connect_timeout (quic (config self))) (framed_read self) = false →
  authenticate (authenticator self) c = AuthOutcome.Accepted →
  Forall client_sendable (Frame.Connect c :: fs) →
  send_all client_send (Frame.Connect c :: fs) [] =
    (Ok tt, unread (framed_read self)) →
  ∃ r' s', ∀ fuel, (length fs + 1 < fuel)%nat → run fuel self = Some (Ok tt, r', s').
Proof.
  intros. destruct (run_protocol_client self c fs) as (r'&s'&?&_); [done..|].
  by exists r', s'.
Qed.

(** C28: No frame gets past the handshake without authentication: if the first frame
    of the stream is a CONNECT that the authenticator rejects, or is no CONNECT at
    all, the session ends with the handshake's error and reads nothing further. *)
Theorem unauthenticated_session_fails (self : Client A R S) f fs o rest :
  live (framed_read self) → open (outbound_sender self) →
  server_drain (unread (framed_read self)) = (f :: fs, o, rest) →
  (∀ c, f = Frame.Connect c →
    authenticate (authenticator self) c ≠ AuthOutcome.Accepted) →
  ∃ e r' s', (∀ fuel, run fuel self = Some (Err (ClientError.Handshake e), r', s')) ∧
    r' = (next (framed_read self)).2.
Proof.
  intros Hl Ho Hd%server_drain_iff Hrej. unfold run, perform_handshake, timeout.
  destruct (send_open (outbound_sender self)
    (OutboundMessage.Info (client_info self)) Ho) as (s'&->&_&_).
  cbn [map_err]. inversion Hd as [| | |? ? mid ? ? ? Hdec _]; subst.
  apply decodes_decode in Hdec. destruct (next_frame _ _ _ Hl Hdec) as (r1&->&_&_).
  destruct (elapsed _ (framed_read self)); [by do 3 eexists|].
  destruct f as [c|m|m|m]; [|by do 3 eexists..]. unfold on_connect.
  specialize (Hrej c eq_refl).
  destruct (authenticate (authenticator self) c); [done|]. by do 3 eexists.
Qed.
End sessions.

(** ** What the peer receives *)

Section delivery.
Context `{Prost} {Wr W Q : Type}.
Context `{!FramedWriter Wr W, !OutboundReceiver Q}.
Context `{!FramedWriterLaws (Wr:=Wr) (W:=W), !OutboundReceiverLaws (Q:=Q)}.

(** The INFO messages of a queue. *)
Definition infos (ms : list OutboundMessage.OutboundMessage)
  : list ClientFrame.ClientFrame :=
  omap (λ m, match m with
             | OutboundMessage.Info i => Some (ClientFrame.Info i)
             | OutboundMessage.Message _ => None
             end) ms.

Lemma outbound_bytes_send_all ms buf out :
  send_all server_send (infos ms) buf = (Ok tt, out) →
  foldl outbound_bytes buf ms = out.
Proof.
  revert buf. induction ms as [|[i|m] ms IH]; intros buf;
    cbn [infos omap list_omap foldl outbound_bytes]; [by intros [= <-]| |apply IH].
  cbn [send_all server_send]. destruct (ServerCodec.encode i buf) as [[[]| |] b];
    [apply IH|done..].
Qed.

(** The peer of a writer decodes the INFO messages of its queue. *)
Lemma writer_delivers `{!ProstLaws} w (q : Q) fuel :
  writable w → unflushed w = [] → written w = [] →
  Forall server_sendable (infos (inbox q)) →
  (length (inbox q) + 1 < fuel)%nat →
  ∃ w', run_outbound_writer fuel w q = Some w' ∧ unflushed w' = [] ∧
    drain ClientInboundCommand.try_from ClientCodec.decode_command (written w') =
    (infos (inbox q), Ok tt, []).
Proof.
  intros Hw Hu Hwr Hsend Hf.
  destruct (run_outbound_writer_spec fuel w q) as (w'&Hrun&Hu'&Hwr'); [lia|done..|].
  destruct (send_all_drain server_send ClientInboundCommand.try_from
    ClientCodec.decode_command client_command (infos (inbox q))) as (buf&Hs&Hd).
  { intros k. by apply client_try_from_iff. }
  { eapply Forall_impl; [exact Hsend|]. apply server_send_frame. }
  exists w'. split_and!; [done..|].
  rewrite Hwr', Hwr, (outbound_bytes_send_all _ _ _ (Hs [])). cbn [app].
  rewrite <-(app_nil_r buf) at 1. apply Hd. by apply decodes_short.
Qed.

(** C29: The writer task ends when the channel closes, with everything flushed, and
    the peer decodes exactly the INFO messages that were queued, in order and
    unchanged, however the messages were batched; MESSAGE deliveries are not
    written. *)
Theorem writer_delivers_infos `{!ProstLaws} w (q : Q) fuel :
  writable w → unflushed w = [] → written w = [] →
  Forall server_sendable (infos (inbox q)) →
  (length (inbox q) + 1 < fuel)%nat →
  ∃ w', run_outbound_writer fuel w q = Some w' ∧ unflushed w' = [] ∧
    drain ClientInboundCommand.try_from ClientCodec.decode_command (written w') =
    (infos (inbox q), Ok tt, []).
Proof. apply writer_delivers. Qed.
End delivery.

(** The INFO message of a new client says what the configuration says: protocol
    version 1, the identifier drawn from the counter, the server's identifier and
    name, the two security flags, and the limit of 1 MiB the decoder enforces. *)
Theorem new_client_info `{ExternalErrors, Tracing} {T Rd Wr R W S Q A : Type}
    `{!Transport T Rd Wr, !FramedReader Rd R, !FramedWriter Wr W,
      !OutboundChannel S Q} counter (t : T) (auth : A) cfg
    (client : Client A R S) (w : W) (q : Q) counter' :
  Client_new counter t auth cfg = Ok (client, (w, q), counter') →
  client_info client =
    pb.mkInfo 1 (server_id cfg) (server_name cfg) 1048576 counter
      (requires_auth cfg) (tls_verify cfg) ∧
  authenticator client = auth ∧
  counter' = (counter + 1) `mod` U64_MODULUS.
Proof.
  unfold Client_new. cbn [ClientId_new]. destruct (into_split t) as [rd wr].
  destruct (channel _) as [[s q']| |]; [|done..]. cbn [mbind result_bind].
  by intros [= <- _ _ <-].
Qed.

Section no_auth.
Context `{ProstLaws, Tracing} {Rd R S : Type}.
Context `{!FramedReader Rd R, !OutboundSender S}.
Context `{!FramedReaderLaws (Rd:=Rd) (R:=R), !OutboundSenderLaws (S:=S)}.

(** C35: A server that advertises that authentication is required does not require
    it: under the authenticator the server installs, a client that sends CONNECT
    without credentials is told that authentication is required and is served to
    the end. *)
Theorem requires_auth_not_enforced (self : Client NoAuthAuthenticator R S) verbose fs :
  requires_auth (config self) = true →
  live (framed_read self) → open (outbound_sender self) →
  elapsed (connect_timeout (quic (config self))) (framed_read self) = false →
  Forall client_sendable
    (Frame.Connect (ClientOutbound.connect PROTOCOL_VERSION verbose) :: fs) →
  send_all client_send
    (Frame.Connect (ClientOutbound.connect PROTOCOL_VERSION verbose) :: fs) [] =
    (Ok tt, unread (framed_read self)) →
  ∃ r' s' info,
    (∀ fuel, (length fs + 1 < fuel)%nat → run fuel self = Some (Ok tt, r', s')) ∧
    sent s' = sent (outbound_sender self) ++ [OutboundMessage.Info info] ∧
    pb.info_requires_auth info = true.
Proof.
  intros Hreq **. destruct (run_protocol_client self
    (ClientOutbound.connect PROTOCOL_VERSION verbose) fs) as (r'&s'&?&?); [done..|].
  by exists r', s', (client_info self).
Qed.
End no_auth.

(** ** Witnesses *)

(** The bytes of some frames, arriving in two chunks. *)
Definition sample_reader (fs : list Frame.Frame) : chunk_reader :=
  let buf := (send_all client_send fs []).2 in
  mkChunkReader [] [take 7 buf; drop 7 buf] 150 false.

Definition sample_config (requires_auth : bool) : ServerConfig :=
  mkServerConfig _ LoggerConfig_default GrpcConfig_default MetricsConfig_default
    QuicConfig_default SERVER_ID SERVER_NAME requires_auth false.

Definition sample_client (requires_auth : bool) (fs : list Frame.Frame)
  : Client NoAuthAuthenticator chunk_reader list_sender :=
  mkClient (mkClientId 7) (sample_reader fs) ([], true) mkNoAuthAuthenticator
    (sample_config requires_auth).

Lemma client_session_outcome_witness :
  ∃ out r' s',
    (∀ fuel, (length (unread (framed_read (sample_client false sample_frames)))
        < fuel)%nat →
      run fuel (sample_client false sample_frames) = Some (out, r', s')) ∧
    session mkNoAuthAuthenticator false sample_frames (Ok tt) [] out ∧
    sent s' = [OutboundMessage.Info (client_info (sample_client false sample_frames))].
Proof.
  destruct (client_session_outcome (sample_client false sample_frames)
    sample_frames (Ok tt) []) as (out&r'&s'&Hrun&Hsession&Hsent).
  - reflexivity.
  - reflexivity.
  - vm_compute. reflexivity.
  - exists out, r', s'. split; [exact Hrun|]. split; [exact Hsession|exact Hsent].
Defined.

Lemma protocol_client_served_witness :
  ∃ r' s', ∀ fuel, (length (tail sample_frames) + 1 < fuel)%nat →
    run fuel (sample_client false sample_frames) = Some (Ok tt, r', s').
Proof.
  apply (protocol_client_served (sample_client false sample_frames)
    (ClientOutbound.connect_with_password 1 true "ann" "secret")).
  - reflexivity.
  - reflexivity.
  - reflexivity.
  - reflexivity.
  - exact sample_frames_sendable.
  - vm_compute. reflexivity.
Defined.

Lemma unauthenticated_session_fails_witness :
  ∃ e r' s',
    (∀ fuel, run fuel (sample_client true (tail sample_frames)) =
      Some (Err (ClientError.Handshake e), r', s')) ∧
    r' = (next (framed_read (sample_client true (tail sample_frames)))).2.
Proof.
  apply (unauthenticated_session_fails (sample_client true (tail sample_frames))
    (Frame.Subscribe (pb.mkSubscribe (bstr "sensors/#") 7 "workers"))
    (tail (tail sample_frames)) (Ok tt) []).
  - reflexivity.
  - reflexivity.
  - vm_compute. reflexivity.
  - discriminate.
Defined.

(** Two batches; the delivery in the first is not written. *)
Definition sample_receiver : batch_receiver :=
  ([OutboundMessage.Info ServerOutbound.default_info],
   [[OutboundMessage.Message (pb.mkMessage (bstr "a") 1 (bstr "x") [])];
    [OutboundMessage.Info (client_info (sample_client true []))]]).

Lemma writer_delivers_infos_witness :
  ∃ w', run_outbound_writer 5 (mkBufferedWriter [] []) sample_receiver = Some w' ∧
    unflushed w' = [] ∧
    drain ClientInboundCommand.try_from ClientCodec.decode_command (written w') =
    (infos (inbox sample_receiver), Ok tt, []).
Proof.
  apply (writer_delivers_infos (mkBufferedWriter [] []) sample_receiver 5).
  - exact I.
  - reflexivity.
  - reflexivity.
  - repeat constructor; cbn -[prost_encode]; try done;
      intros p [= <-]; vm_compute; discriminate.
  - vm_compute. lia.
Defined.

Definition new_client : Client NoAuthAuthenticator chunk_reader list_sender :=
  mkClient (mkClientId 9) (mkChunkReader [] [] 0 false) ([], true)
    mkNoAuthAuthenticator ServerConfig_new.

Lemma new_client_info_witness :
  client_info new_client =
    pb.mkInfo 1 (server_id ServerConfig_new) (server_name ServerConfig_new) 1048576 9
      (requires_auth ServerConfig_new) (tls_verify ServerConfig_new) ∧
  authenticator new_client = mkNoAuthAuthenticator ∧
  10 = (9 + 1) `mod` U64_MODULUS.
Proof.
  apply (new_client_info (T:=list bytes * u64) (Q:=batch_receiver) 9 ([], 0)
    mkNoAuthAuthenticator ServerConfig_new new_client (mkBufferedWriter [] []) ([], [])
    10).
  vm_compute. reflexivity.
Defined.

Definition plain_frames : list Frame.Frame :=
  [Frame.Connect (ClientOutbound.connect PROTOCOL_VERSION false);
   Frame.UnSubscribe (pb.mkUnSubscribe 7)].

Lemma requires_auth_not_enforced_witness :
  ∃ r' s' info,
    (∀ fuel, (1 + 1 < fuel)%nat →
      run fuel (sample_client true plain_frames) = Some (Ok tt, r', s')) ∧
    sent s' = [OutboundMessage.Info info] ∧
    pb.info_requires_auth info = true.
Proof.
  destruct (requires_auth_not_enforced (sample_client true plain_frames) false
    [Frame.UnSubscribe (pb.mkUnSubscribe 7)]) as (r'&s'&info&Hrun&Hsent&Hreq).
  - reflexivity.
  - reflexivity.
  - reflexivity.
  - reflexivity.
  - repeat constructor; cbn -[prost_encode]; try done;
      intros p [= <-]; vm_compute; discriminate.
  - vm_compute. reflexivity.
  - exists r', s', info. split; [exact Hrun|]. split; [exact Hsent|exact Hreq].
Defined.
