(* ===== verification/Metrics.v ===== *)
(** The metrics service, [crates/server/src/metrics.rs]: starting it once, the
    handler of [/metrics], and the registration of the counters.

    Prometheus, axum and the listener are the class [Prometheus].  The static
    [OnceLock], the tasks spawned and the warnings logged are the state; other
    log output is not modelled. *)
From S2P Require Import Prelude Errors Messages Wire.
Local Open Scope Z_scope.

(** [register name r] is [prometheus::register] of a collector of that name;
    [None] is its error.  [encode] is [TextEncoder::encode], [response] is
    [Response::builder] with the content type and the body. *)
Class Prometheus `{ExternalErrors} := {
  Registry : Type;
  MetricFamily : Type;
  Response : Type;
  register : string -> Registry -> option Registry;
  gather : Registry -> list MetricFamily;
  encode : list MetricFamily -> result IoError bytes;
  format_type : string;
  response : string -> bytes -> result IoError Response;
}.

(** tokio-util's token, by its identity: a clone is the same token. *)
Record CancellationToken : Type := mkCancellationToken { token_id : nat }.
#[export] Instance CancellationToken_eq_dec : EqDecision CancellationToken.
Proof. solve_decision. Defined.

(** How a service task ends: [if let Err(e) = server.await] with [e] logged. *)
Inductive task_end (E : Type) : Type :=
| Stopped
| ExitedWithError (e : E).
Arguments Stopped {E}.
Arguments ExitedWithError {E} e.
Definition if_let_err {E} (served : result E unit) : result Empty_set (task_end E) :=
  match served with
  | Err e => Ok (ExitedWithError e)
  | Ok _ => Ok Stopped
  | Panic => Panic
  end.

Section metrics.
Context `{Prometheus}.

(** ** Starting the service *)

(** The tasks spawned, with the address each listens on and the token that stops
    it. *)
Record Metrics : Type := mkMetrics {
  METRICS_SERVICE_LISTEN_ADDR : option string;
  registry : Registry;
  service_tasks : list (string * CancellationToken);
  warnings : list string;
}.

(** The closure given to [get_or_init]: register the process collector, ignoring
    an error, and spawn the service. *)
Definition init_metrics_service (listen_addr : string) (shutdown : CancellationToken)
    (self : Metrics) : Metrics :=
  let registry := default (registry self) (register "process" (registry self)) in
  let spawn_addr := listen_addr in
  mkMetrics (Some listen_addr) registry (service_tasks self ++ [(spawn_addr, shutdown)])
    (warnings self).

Definition boot_metrics_service (listen_addr : string) (shutdown : CancellationToken)
    (self : Metrics) : Metrics :=
  let requested_addr := listen_addr in
  let '(current_listen_addr, self) :=
    match METRICS_SERVICE_LISTEN_ADDR self with
    | Some addr => (addr, self)
    | None => (listen_addr, init_metrics_service listen_addr shutdown self)
    end in
  if negb (requested_addr =b current_listen_addr) then
    mkMetrics (METRICS_SERVICE_LISTEN_ADDR self) (registry self) (service_tasks self)
      (warnings self ++
        ["unable to listen port " +:+ requested_addr
         +:+ " for metrics service. Currently listening on "
         +:+ current_listen_addr])
  else self.

(** The spawned task: the unwrap of [bind] panics, or the server runs until it is
    shut down or fails. *)
Definition metrics_task (bind : result IoError unit) (serve : result IoError unit)
  : result Empty_set (task_end IoError) :=
  _ ← expect bind;
  if_let_err serve.

(** ** The handler *)

Definition metrics_handler (self : Metrics) : result Empty_set Response :=
  let mf := gather (registry self) in
  buffer ← expect (encode mf);
  expect (response format_type buffer).

(** ** The static metrics *)

(** The three [LazyLock]s, by name, and which of them are initialised. *)
Definition OCYPODE_ACTIVE_CONNECTIONS : string := "ocypode_active_connections".
Definition OCYPODE_MESSAGES_TOTAL : string := "ocypode_messages_total".
Definition OCYPODE_ERRORS_TOTAL : string := "ocypode_errors_total".

(** [LazyLock::force]: the first use registers the metric and unwraps. *)
Definition force (name : string) (st : gset string * Registry)
  : result Empty_set (gset string * Registry) :=
  if bool_decide (name ∈ st.1) then Ok st
  else
    registry ← unwrap (register name st.2);
    Ok ({[name]} ∪ st.1, registry).

Fixpoint force_all (names : list string) (st : gset string * Registry)
  : result Empty_set (gset string * Registry) :=
  match names with
  | [] => Ok st
  | name :: names => st ← force name st; force_all names st
  end.

(** ** Properties *)

Fixpoint boot_all (requests : list (string * CancellationToken)) (self : Metrics)
  : Metrics :=
  match requests with
  | [] => self
  | (addr, shutdown) :: requests =>
      boot_all requests (boot_metrics_service addr shutdown self)
  end.

Lemma boot_again first addr shutdown self :
  METRICS_SERVICE_LISTEN_ADDR self = Some first →
  let self' := boot_metrics_service addr shutdown self in
  METRICS_SERVICE_LISTEN_ADDR self' = Some first ∧
  service_tasks self' = service_tasks self ∧ registry self' = registry self ∧
  length (warnings self') =
    (length (warnings self) + if decide (addr = first) then 0 else 1)%nat.
Proof.
  intros Hf. unfold boot_metrics_service. rewrite Hf.
  destruct (beq_spec addr first) as [->|Hne]; cbn [negb].
  - rewrite decide_True by done. split_and!; [done..|lia].
  - rewrite decide_False by done. cbn. rewrite length_app. done.
Qed.

Lemma boot_all_again first requests self :
  METRICS_SERVICE_LISTEN_ADDR self = Some first →
  METRICS_SERVICE_LISTEN_ADDR (boot_all requests self) = Some first ∧
  service_tasks (boot_all requests self) = service_tasks self ∧
  registry (boot_all requests self) = registry self ∧
  length (warnings (boot_all requests self)) =
    (length (warnings self) + length (filter (.≠ first) requests.*1))%nat.
Proof.
  revert self. induction requests as [|[addr shutdown] requests IH]; intros self Hf;
    cbn [boot_all].
  { split_and!; [done..|]. simpl. lia. }
  destruct (boot_again first addr shutdown self Hf) as (Hf'&Ht&Hr&Hw).
  destruct (IH _ Hf') as (?&->&->&->). split_and!; [done..|].
  rewrite Hw, fmap_cons, filter_cons. cbn [fst].
  repeat case_decide; simpl; try lia; done.
Qed.

(** C30: The metrics service is started once: whatever sequence of addresses and
    tokens it is booted with, exactly one task is spawned, for the first of them,
    which the lock keeps and whose token stops it; the process collector is
    registered once; and one warning is logged for every later request of another
    address. *)
Theorem metrics_started_once first shutdown requests self :
  METRICS_SERVICE_LISTEN_ADDR self = None →
  let self' := boot_all ((first, shutdown) :: requests) self in
  METRICS_SERVICE_LISTEN_ADDR self' = Some first ∧
  service_tasks self' = service_tasks self ++ [(first, shutdown)] ∧
  registry self' = default (registry self) (register "process" (registry self)) ∧
  length (warnings self') =
    (length (warnings self) + length (filter (.≠ first) requests.*1))%nat.
Proof.
  intros Hn. cbn [boot_all].
  assert (Hb : boot_metrics_service first shutdown self =
    init_metrics_service first shutdown self).
  { unfold boot_metrics_service. rewrite Hn. by rewrite beq_refl. }
  rewrite Hb.
  by destruct (boot_all_again first requests (init_metrics_service first shutdown self))
    as (?&->&->&->).
Qed.
End metrics.
Arguments Metrics {_ _}.

(** Prometheus rejects a second collector of the same name. *)
Class PrometheusLaws `{Prometheus} := {
  registered : Registry -> gset string;
  register_new name r :
    name ∉ registered r →
    ∃ r', register name r = Some r' ∧ registered r' = {[name]} ∪ registered r;
  register_again name r : name ∈ registered r → register name r = None;
}.

Section statics.
Context `{PrometheusLaws}.

(** The initialised statics are registered, and the others are not. *)
Definition statics_ok (names : gset string) (st : gset string * Registry) : Prop :=
  st.1 ⊆ names ∧ ∀ name, name ∈ names → name ∈ registered st.2 ↔ name ∈ st.1.

Lemma force_ok names name st :
  name ∈ names → statics_ok names st →
  ∃ st', force name st = Ok st' ∧ statics_ok names st' ∧ st'.1 = {[name]} ∪ st.1.
Proof.
  intros Hn [Hsub Hreg]. unfold force. case_bool_decide as Hin.
  { exists st. split_and!; [done..|]. set_solver. }
  destruct (register_new name st.2) as (r'&Hr&Hr'); [by rewrite Hreg|].
  rewrite Hr. cbn. eexists. split; [done|]. split; [|done]. split; [set_solver|].
  cbn. rewrite Hr'. intros x Hx. specialize (Hreg x Hx). set_solver.
Qed.

Lemma force_all_ok names used st :
  Forall (.∈ names) used → statics_ok names st →
  ∃ st', force_all used st = Ok st' ∧ statics_ok names st' ∧
    st'.1 = list_to_set used ∪ st.1.
Proof.
  intros Hall. revert st. induction Hall as [|name used Hn _ IH]; intros st Hok.
  { exists st. split_and!; [done..|]. simpl. set_solver. }
  destruct (force_ok names name st Hn Hok) as (st1&Hf1&Hok1&Hs1). cbn [force_all].
  rewrite Hf1. cbn [mbind result_bind]. destruct (IH st1 Hok1) as (st2&->&Hok2&Hs2).
  exists st2. split_and!; [done..|]. rewrite Hs2, Hs1. simpl. set_solver.
Qed.

(** The three metrics can be used in any order and any number of times: each is
    registered on its first use, and none of the unwraps panics. *)
Lemma static_metrics_registered_once used st :
  let statics := {[OCYPODE_ACTIVE_CONNECTIONS; OCYPODE_MESSAGES_TOTAL;
                   OCYPODE_ERRORS_TOTAL]} : gset string in
  Forall (.∈ statics) used → st.1 = ∅ → statics ## registered st.2 →
  ∃ st', force_all used st = Ok st' ∧ st'.1 = list_to_set used.
Proof.
  intros statics Hused Hempty Hfresh.
  destruct (force_all_ok statics used st Hused) as (st'&Hf&_&Hs).
  - split; [set_solver|]. rewrite Hempty. set_solver.
  - exists st'. split; [done|]. rewrite Hs, Hempty. set_solver.
Qed.
End statics.

(** ** An instance *)

(** A registry of names; a family is a name, a page the names in lines. *)
#[export] Instance sample_prometheus : Prometheus := {|
  Registry := gset string;
  MetricFamily := string;
  Response := string * bytes;
  register name r := if bool_decide (name ∈ r) then None else Some ({[name]} ∪ r);
  gather r := elements r;
  encode mf := Ok (concat (map (λ name, bstr name ++ [x0a]) mf));
  format_type := "text/plain; version=0.0.4";
  response content_type body := Ok (content_type, body);
|}.
#[export] Instance sample_prometheus_laws : PrometheusLaws.
Proof.
  refine {| registered (r : @Registry _ sample_prometheus) := (r : gset string) |}.
  - intros name r Hn. cbn. rewrite bool_decide_eq_false_2 by done. eauto.
  - intros name r Hn. cbn. by rewrite bool_decide_eq_true_2.
Defined.

Definition sample_requests : list (string * CancellationToken) :=
  [("b:2", mkCancellationToken 1); ("a:1", mkCancellationToken 2)].

Lemma metrics_started_once_witness :
  let self := boot_all (("a:1", mkCancellationToken 0) :: sample_requests)
    (mkMetrics None ∅ [] []) in
  METRICS_SERVICE_LISTEN_ADDR self = Some "a:1" ∧
  service_tasks self = [] ++ [("a:1", mkCancellationToken 0)] ∧
  registry self = default ∅ (register "process" ∅) ∧
  length (warnings self) = (0 + length (filter (.≠ "a:1") sample_requests.*1))%nat.
Proof.
  apply (metrics_started_once "a:1" (mkCancellationToken 0) sample_requests
    (mkMetrics None ∅ [] [])).
  reflexivity.
Defined.
