(* ===== verification/Quic.v ===== *)
(** The QUIC server, [crates/server/src/quic.rs]: building the endpoint from the
    configuration, and the accept loop with the tasks it spawns.

    s2n-quic is the class [S2nQuic]: its builders are types, each builder call is
    an operation that may fail.  The loop and its tasks are a state with one
    operation per thing that can happen next; a [reachable] state is one that some
    interleaving of them leads to. *)
From S2P Require Import Prelude Errors Messages ClientId Parser SocketAddr Config.
From S2P Require Import Handshake Client.
Local Open Scope Z_scope.

(** ** The endpoint *)

(** [BoxError] is [Box<dyn Error + Send + Sync>], the type [?] converts into. *)
Class S2nQuic `{ExternalErrors} := {
  BoxError : Type;
  from_io_error : IoError -> BoxError;
  IoBuilder : Type;
  Io : Type;
  io_builder : IoBuilder;
  with_receive_address : SocketAddr.SocketAddr -> IoBuilder -> result BoxError IoBuilder;
  with_gso : bool -> IoBuilder -> result BoxError IoBuilder;
  with_gro : bool -> IoBuilder -> result BoxError IoBuilder;
  io_build : IoBuilder -> result BoxError Io;
  LimitsBuilder : Type;
  Limits : Type;
  limits_builder : LimitsBuilder;
  with_inflight_handshake_limit : usize -> LimitsBuilder -> result BoxError LimitsBuilder;
  limits_build : LimitsBuilder -> result BoxError Limits;
  limits_default : Limits;
  TlsBuilder : Type;
  Tls : Type;
  tls_builder : TlsBuilder;
  with_certificate : string -> string -> TlsBuilder -> result BoxError TlsBuilder;
  with_client_authentication : TlsBuilder -> result BoxError TlsBuilder;
  tls_build : TlsBuilder -> result BoxError Tls;
  ServerBuilder : Type;
  Server : Type;
  server_builder : ServerBuilder;
  with_tls : Tls -> ServerBuilder -> result BoxError ServerBuilder;
  with_io : Io -> ServerBuilder -> result BoxError ServerBuilder;
  with_endpoint_limits : Limits -> ServerBuilder -> result BoxError ServerBuilder;
  server_start : ServerBuilder -> result BoxError Server;
  local_addr : Server -> result BoxError SocketAddr.SocketAddr;
}.

(** A computation without errors, used where errors are possible. *)
Definition infallible {E A} (m : result Empty_set A) : result E A :=
  map_err (λ e : Empty_set, match e with end) m.

Section start.
Context `{S2nQuic, Tracing, !TLSConfig.Fs}.

Definition build_io (config : ServerConfig) (addr : SocketAddr.SocketAddr)
  : result BoxError Io :=
  io ← with_receive_address addr io_builder;
  io ← with_gso (enable_gso (quic config)) io;
  io ← with_gro (enable_gro (quic config)) io;
  io_build io.

Definition build_endpoint_limits (config : ServerConfig) : result BoxError Limits :=
  match endpoint_limits (quic config) with
  | Some limit =>
      b ← with_inflight_handshake_limit limit limits_builder;
      limits_build b
  | None => Ok limits_default
  end.

Definition build_tls (config : ServerConfig) : result BoxError Tls :=
  cert ← map_err from_io_error (TLSConfig.cert_file_path (tls (quic config)));
  key ← map_err from_io_error (TLSConfig.key_file_path (tls (quic config)));
  b ← with_certificate cert key tls_builder;
  if tls_verify config then
    b ← with_client_authentication b;
    tls_build b
  else tls_build b.

(** [start] up to the spawn of the accept loop: the address it returns, and the
    server the loop owns. *)
Definition start (config : ServerConfig)
  : result BoxError (SocketAddr.SocketAddr * Server) :=
  addr ← infallible (QuicConfig_socket_addr (quic config));
  io ← build_io config addr;
  endpoint_limits_config ← build_endpoint_limits config;
  tls ← build_tls config;
  b ← with_tls tls server_builder;
  b ← with_io io b;
  b ← with_endpoint_limits endpoint_limits_config b;
  server ← server_start b;
  local_addr ← local_addr server;
  Ok (local_addr, server).
End start.

(** ** Streams *)

(** s2n-quic's stream and its [split]: the transport of a client. *)
Class BidirectionalStream (T Rd Wr : Type) := split : T -> Rd * Wr.
Definition BidirectionalStream_transport `{BidirectionalStream T Rd Wr}
  : Transport T Rd Wr := λ self, split self.

(** ** The accept loop *)

(** The receiving end of a channel once the sender, in the given state, is dropped:
    what was sent is still received, then the channel is closed. *)
Class OutboundHangUp (S Q : Type) := hang_up : S -> Q -> Q.

Section accept.
Context `{ExternalErrors, Tracing} {T Rd Wr R W S Q : Type}.
Context `{!Transport T Rd Wr, !FramedReader Rd R, !FramedWriter Wr W}.
Context `{!OutboundSender S, !OutboundReceiver Q, !OutboundChannel S Q}.
Context `{!OutboundHangUp S Q}.

(** [handle_bidirectional_stream]: make the client, then run it to its end. *)
Definition handle_bidirectional_stream {A} `{!Authenticator A} (fuel : nat)
    (counter : u64) (stream : T) (config : ServerConfig) (authenticator : A)
  : option (result ClientError.ClientError unit) :=
  match Client_new counter stream authenticator config with
  | Ok (client, (w, q), _) =>
      '(r, _, _) ← run (Rd:=Rd) fuel (client : Client A R S);
      Some r
  | Err e => match e : Empty_set with end
  | Panic => Some Panic
  end.

(** The two tasks of a stream: the session, which owns the client, and the writer
    that [Client::new] spawns, with its writer and its receiver as they are made. *)
Record stream_tasks : Type := mkStreamTasks {
  task_client : Client NoAuthAuthenticator R S;
  task_writer : W;
  task_receiver : Q;
}.

(** The tasks: the accept loop while [accepting], one task per open connection
    (named by the order of acceptance), and the two tasks of each stream.  A stream
    is in [sessions] while its session runs, in [writers] while only its writer
    does (with what [run] returned and the sender it left), and then in [ended]
    (with the writer as it is left).  The writer waits for the sender to be dropped,
    so it ends after the session; the two only share the channel, and what the
    writer does is told when it ends.  An error of a session is logged and goes
    nowhere else. *)
Record server_state : Type := mkServerState {
  shutdown : bool;
  accepting : bool;
  counter : u64;
  next_connection : nat;
  connections : list nat;
  sessions : list stream_tasks;
  writers : list (stream_tasks * result ClientError.ClientError unit * S);
  ended : list (stream_tasks * result ClientError.ClientError unit * S * W);
}.

(** The state when [start] spawns the loop. *)
Definition accept_init (counter : u64) : server_state :=
  mkServerState false true counter 0 [] [] [] [].

(** The token is cancelled. *)
Definition on_cancel (st : server_state) : option server_state :=
  Some (mkServerState true (accepting st) (counter st) (next_connection st)
    (connections st) (sessions st) (writers st) (ended st)).

(** The branch of [select!] on [shutdown.cancelled()]. *)
Definition on_shutdown (st : server_state) : option server_state :=
  if accepting st && shutdown st then
    Some (mkServerState (shutdown st) false (counter st) (next_connection st)
      (connections st) (sessions st) (writers st) (ended st))
  else None.

(** The branch on [server.accept()]; [false] is [None], the endpoint is closed. *)
Definition on_accept (connection : bool) (st : server_state) : option server_state :=
  if accepting st then
    if connection then
      Some (mkServerState (shutdown st) true (counter st) (next_connection st + 1)
        (next_connection st :: connections st) (sessions st) (writers st) (ended st))
    else
      Some (mkServerState (shutdown st) false (counter st) (next_connection st)
        (connections st) (sessions st) (writers st) (ended st))
  else None.

(** A round of a connection's task: [accept_bidirectional_stream] returns a
    stream, for which a session is spawned, or the task is over.  A session whose
    construction panics only ends its own task; its identifier is used up. *)
Definition on_stream (config : ServerConfig) (c : nat) (stream : option T)
    (st : server_state) : option server_state :=
  if bool_decide (c ∈ connections st) then
    match stream with
    | Some stream =>
        match Client_new (counter st) stream mkNoAuthAuthenticator config with
        | Ok (client, (w, q), counter) =>
            Some (mkServerState (shutdown st) (accepting st) counter
              (next_connection st) (connections st)
              (mkStreamTasks client w q :: sessions st) (writers st) (ended st))
        | Err e => match e : Empty_set with end
        | Panic =>
            Some (mkServerState (shutdown st) (accepting st)
              (ClientId_new (counter st)).2 (next_connection st) (connections st)
              (sessions st) (writers st) (ended st))
        end
    | None =>
        Some (mkServerState (shutdown st) (accepting st) (counter st)
          (next_connection st) (filter (.≠ c) (connections st)) (sessions st)
          (writers st) (ended st))
    end
  else None.

(** The session at an index runs to its end, which drops its sender. *)
Definition on_session_end (fuel : nat) (i : nat) (st : server_state)
  : option server_state :=
  t ← sessions st !! i;
  '(r, _, s) ← run (Rd:=Rd) fuel (task_client t);
  Some (mkServerState (shutdown st) (accepting st) (counter st) (next_connection st)
    (connections st) (base.delete i (sessions st)) ((t, r, s) :: writers st)
    (ended st)).

(** The writer at an index runs to its end. *)
Definition on_writer_end (fuel : nat) (i : nat) (st : server_state)
  : option server_state :=
  '(t, r, s) ← writers st !! i;
  w ← run_outbound_writer (Wr:=Wr) fuel (task_writer t) (hang_up s (task_receiver t));
  Some (mkServerState (shutdown st) (accepting st) (counter st) (next_connection st)
    (connections st) (sessions st) (base.delete i (writers st))
    ((t, r, s, w) :: ended st)).

Inductive event : Type :=
| Cancel
| Shutdown
| Accept (connection : bool)
| Stream (c : nat) (stream : option T)
| SessionEnd (fuel : nat) (i : nat)
| WriterEnd (fuel : nat) (i : nat).

Definition handle (config : ServerConfig) (e : event) (st : server_state)
  : option server_state :=
  match e with
  | Cancel => on_cancel st
  | Shutdown => on_shutdown st
  | Accept connection => on_accept connection st
  | Stream c stream => on_stream config c stream st
  | SessionEnd fuel i => on_session_end fuel i st
  | WriterEnd fuel i => on_writer_end fuel i st
  end.

(** Any interleaving of the events. *)
Fixpoint handle_all (config : ServerConfig) (es : list event) (st : server_state)
  : option server_state :=
  match es with
  | [] => Some st
  | e :: es => st ← handle config e st; handle_all config es st
  end.
End accept.
Arguments stream_tasks {_} R W S Q.
Arguments server_state {_ _} R W S Q.
Arguments event T : clear implicits.
