(* ===== verification/QuicFacts.v ===== *)
(** Reasoning about the QUIC server: what s2n-quic and tokio document of the
    operations it uses, the invariant of the accept loop, and its termination. *)
From S2P Require Import Prelude Errors Messages ClientId Parser CodecFacts CodecSpec.
From S2P Require Import SocketAddr Config Handshake Client ClientFacts Quic.
Local Open Scope Z_scope.

(** ** The endpoint *)

(** What a builder has been told. *)
Record io_settings : Type := mkIoSettings {
  receive_address : option SocketAddr.SocketAddr;
  gso : option bool;
  gro : option bool;
}.
Record tls_settings : Type := mkTlsSettings {
  certificate : option (string * string);
  client_authentication : bool;
}.
Record server_settings : Type := mkServerSettings {
  set_io : option io_settings;
  set_tls : option tls_settings;
  set_limit : option (option usize);
}.

(** Each builder call that succeeds changes the setting it is named after, and
    building keeps the settings. *)
Class S2nLaws `{S2nQuic} := {
  io_builder_is : IoBuilder -> io_settings;
  io_is : Io -> io_settings;
  limits_builder_is : LimitsBuilder -> option usize;
  limits_is : Limits -> option usize;
  tls_builder_is : TlsBuilder -> tls_settings;
  tls_is : Tls -> tls_settings;
  server_builder_is : ServerBuilder -> server_settings;
  server_is : Server -> server_settings;
  io_builder_new : io_builder_is io_builder = mkIoSettings None None None;
  with_receive_address_sets a b b' :
    with_receive_address a b = Ok b' →
    io_builder_is b' = mkIoSettings (Some a) (gso (io_builder_is b)) (gro (io_builder_is b));
  with_gso_sets v b b' :
    with_gso v b = Ok b' →
    io_builder_is b' = mkIoSettings (receive_address (io_builder_is b)) (Some v)
      (gro (io_builder_is b));
  with_gro_sets v b b' :
    with_gro v b = Ok b' →
    io_builder_is b' = mkIoSettings (receive_address (io_builder_is b))
      (gso (io_builder_is b)) (Some v);
  io_build_keeps b io : io_build b = Ok io → io_is io = io_builder_is b;
  limits_default_is : limits_is limits_default = None;
  with_limit_sets n b b' :
    with_inflight_handshake_limit n b = Ok b' → limits_builder_is b' = Some n;
  limits_build_keeps b l : limits_build b = Ok l → limits_is l = limits_builder_is b;
  tls_builder_new : tls_builder_is tls_builder = mkTlsSettings None false;
  with_certificate_sets c k b b' :
    with_certificate c k b = Ok b' →
    tls_builder_is b' =
      mkTlsSettings (Some (c, k)) (client_authentication (tls_builder_is b));
  with_client_authentication_sets b b' :
    with_client_authentication b = Ok b' →
    tls_builder_is b' = mkTlsSettings (certificate (tls_builder_is b)) true;
  tls_build_keeps b t : tls_build b = Ok t → tls_is t = tls_builder_is b;
  server_builder_new :
    server_builder_is server_builder = mkServerSettings None None None;
  with_tls_sets t b b' :
    with_tls t b = Ok b' →
    server_builder_is b' = mkServerSettings (set_io (server_builder_is b))
      (Some (tls_is t)) (set_limit (server_builder_is b));
  with_io_sets io b b' :
    with_io io b = Ok b' →
    server_builder_is b' = mkServerSettings (Some (io_is io))
      (set_tls (server_builder_is b)) (set_limit (server_builder_is b));
  with_endpoint_limits_sets l b b' :
    with_endpoint_limits l b = Ok b' →
    server_builder_is b' = mkServerSettings (set_io (server_builder_is b))
      (set_tls (server_builder_is b)) (Some (limits_is l));
  server_start_keeps b s : server_start b = Ok s → server_is s = server_builder_is b;
}.

(** Take apart a successful bind. *)
Lemma bind_Ok {E A B} (m : result E A) (f : A → result E B) y :
  (m ≫= f) = Ok y ↔ ∃ x, m = Ok x ∧ f x = Ok y.
Proof. destruct m; cbn; naive_solver. Qed.

Section start.
Context `{S2nLaws, Tracing, !TLSConfig.Fs}.

Lemma build_io_spec config addr io :
  build_io config addr = Ok io →
  io_is io = mkIoSettings (Some addr) (Some (enable_gso (quic config)))
    (Some (enable_gro (quic config))).
Proof.
  unfold build_io. rewrite bind_Ok. intros (b1&Ha&Hio). rewrite bind_Ok in Hio.
  destruct Hio as (b2&Hs&Hio). rewrite bind_Ok in Hio. destruct Hio as (b3&Hr&Hio).
  rewrite (io_build_keeps _ _ Hio), (with_gro_sets _ _ _ Hr), (with_gso_sets _ _ _ Hs).
  by rewrite (with_receive_address_sets _ _ _ Ha).
Qed.

Lemma build_endpoint_limits_spec config l :
  build_endpoint_limits config = Ok l → limits_is l = endpoint_limits (quic config).
Proof.
  unfold build_endpoint_limits. destruct (endpoint_limits (quic config)) as [n|].
  - rewrite bind_Ok. intros (b&Hb&Hl).
    by rewrite (limits_build_keeps _ _ Hl), (with_limit_sets _ _ _ Hb).
  - intros [= <-]. apply limits_default_is.
Qed.

Lemma build_tls_spec config t :
  build_tls config = Ok t →
  TLSConfig.cert_file_path (tls (quic config)) =
    Ok (TLSConfig.cert_file_path_0 (tls (quic config))) ∧
  TLSConfig.key_file_path (tls (quic config)) =
    Ok (TLSConfig.key_file_path_0 (tls (quic config))) ∧
  tls_is t = mkTlsSettings (Some (TLSConfig.cert_file_path_0 (tls (quic config)),
    TLSConfig.key_file_path_0 (tls (quic config)))) (tls_verify config).
Proof.
  unfold build_tls. rewrite bind_Ok. intros (cert&Hc&Ht).
  rewrite bind_Ok in Ht. destruct Ht as (key&Hk&Ht).
  rewrite bind_Ok in Ht. destruct Ht as (b&Hb&Ht).
  assert (Hpath : ∀ (p : result IoError string) x, map_err from_io_error p = Ok x → p = Ok x).
  { intros [] ?; cbn; congruence. }
  apply Hpath in Hc, Hk. clear Hpath.
  assert (cert = TLSConfig.cert_file_path_0 (tls (quic config)) ∧
          key = TLSConfig.key_file_path_0 (tls (quic config))) as [-> ->].
  { unfold TLSConfig.cert_file_path, TLSConfig.key_file_path in *.
    rewrite bind_Ok in Hc, Hk. destruct Hc as ([]&_&[= <-]), Hk as ([]&_&[= <-]). done. }
  split_and!; [done..|]. apply with_certificate_sets in Hb. rewrite tls_builder_new in Hb.
  destruct (tls_verify config).
  - rewrite bind_Ok in Ht. destruct Ht as (b'&Hb'&Ht).
    by rewrite (tls_build_keeps _ _ Ht), (with_client_authentication_sets _ _ Hb'), Hb.
  - by rewrite (tls_build_keeps _ _ Ht), Hb.
Qed.

Lemma infallible_Ok {E A} (m : result Empty_set A) x :
  infallible (E:=E) m = Ok x ↔ m = Ok x.
Proof. destruct m as [|[]|]; cbn; naive_solver. Qed.

Lemma start_spec config addr server :
  start config = Ok (addr, server) →
  ∃ listen, QuicConfig_socket_addr (quic config) = Ok listen ∧
    TLSConfig.cert_file_path (tls (quic config)) =
      Ok (TLSConfig.cert_file_path_0 (tls (quic config))) ∧
    TLSConfig.key_file_path (tls (quic config)) =
      Ok (TLSConfig.key_file_path_0 (tls (quic config))) ∧
    local_addr server = Ok addr ∧
    server_is server = mkServerSettings
      (Some (mkIoSettings (Some listen) (Some (enable_gso (quic config)))
        (Some (enable_gro (quic config)))))
      (Some (mkTlsSettings (Some (TLSConfig.cert_file_path_0 (tls (quic config)),
        TLSConfig.key_file_path_0 (tls (quic config)))) (tls_verify config)))
      (Some (endpoint_limits (quic config))).
Proof.
  unfold start. intros Hs.
  repeat (rewrite bind_Ok in Hs; destruct Hs as (?&?&Hs)). injection Hs as <- <-.
  repeat match goal with
  | Hx : infallible _ = Ok _ |- _ => apply infallible_Ok in Hx
  | Hx : build_io _ _ = Ok _ |- _ => apply build_io_spec in Hx
  | Hx : build_endpoint_limits _ = Ok _ |- _ => apply build_endpoint_limits_spec in Hx
  | Hx : build_tls _ = Ok _ |- _ => apply build_tls_spec in Hx as (?&?&Hx)
  | Hx : with_tls _ _ = Ok _ |- _ => apply with_tls_sets in Hx
  | Hx : with_io _ _ = Ok _ |- _ => apply with_io_sets in Hx
  | Hx : with_endpoint_limits _ _ = Ok _ |- _ => apply with_endpoint_limits_sets in Hx
  | Hx : server_start _ = Ok _ |- _ => apply server_start_keeps in Hx
  end.
  eexists. split_and!; [done..|].
  repeat match goal with Hx : _ = _ :> server_settings |- _ => rewrite Hx; clear Hx end.
  rewrite server_builder_new. cbn [set_io set_tls set_limit]. congruence.
Qed.
End start.

(** ** One session *)

Section session.
Context `{ExternalErrors, Tracing} {A Rd R S : Type}.
Context `{!Authenticator A, !FramedReader Rd R, !OutboundSender S}.

Lemma dispatch_loop_more fuel more completed (s : S) (r : R) x :
  dispatch_loop fuel completed s r = Some x →
  dispatch_loop (fuel + more) completed s r = Some x.
Proof.
  revert r. induction fuel as [|fuel IH]; intros r; [done|].
  cbn [dispatch_loop Nat.add]. destruct (next r) as [[frame|] r']; [|done].
  destruct (_ ≫= _) as [[]| |]; [apply IH|done..].
Qed.

Lemma run_more fuel more (self : Client A R S) x :
  run fuel self = Some x → run (fuel + more) self = Some x.
Proof.
  unfold run. destruct (perform_handshake _ _ _ _ _ _) as [[[completed| |] r] s]; [|done..].
  destruct (dispatch_loop fuel completed s r) as [y|] eqn:Hd; [|done].
  by rewrite (dispatch_loop_more _ more _ _ _ _ Hd).
Qed.

(** A session has one outcome. *)
Lemma run_unique fuel fuel' (self : Client A R S) x y :
  run fuel self = Some x → run fuel' self = Some y → x = y.
Proof.
  intros Hx%(run_more _ fuel') Hy%(run_more _ fuel). rewrite Nat.add_comm in Hy.
  congruence.
Qed.

(** Whatever the stream does: a session sends its INFO message and nothing else, *)
Lemma run_sends fuel (self : Client A R S) out r s :
  run fuel self = Some (out, r, s) →
  s = (send (OutboundMessage.Info (client_info self)) (outbound_sender self)).2.
Proof.
  unfold run, perform_handshake.
  destruct (send _ (outbound_sender self)) as [[[]|m|] s']; cbn [map_err snd];
    [|by intros [= _ _ <-]..].
  destruct (next (framed_read self)) as [item r1], (timeout _ _) as [[k|e|]|];
    [|by intros [= _ _ <-]..].
  destruct (dispatch_loop fuel k s' r1) as [[x y]|]; [|done]. by intros [= _ _ <-].
Qed.

(** and it does not succeed without a CONNECT in time that is accepted. *)
Lemma run_Ok_connected fuel (self : Client A R S) r s :
  run fuel self = Some (Ok tt, r, s) →
  elapsed (connect_timeout (quic (config self))) (framed_read self) = false ∧
  ∃ k, (next (framed_read self)).1 = Some (Ok (Frame.Connect k)) ∧
    authenticate (authenticator self) k = AuthOutcome.Accepted.
Proof.
  unfold run, perform_handshake, timeout, on_connect.
  destruct (send _ (outbound_sender self)) as [[[]|m|] s']; cbn [map_err]; [|done..].
  destruct (elapsed _ _), (next (framed_read self)) as [[[[k|m|m|m]|e|]|] r1];
    try done. cbn [fst].
  destruct (authenticate (authenticator self) k) eqn:Ha; [|done]. eauto.
Qed.

(** The peer ends its stream, or breaks it: after finitely many frames there is an
    end of the stream or an error. *)
Inductive stream_ends : R → Prop :=
| stream_ends_now r : (∀ f, (next r).1 ≠ Some (Ok f)) → stream_ends r
| stream_ends_later r : stream_ends (next r).2 → stream_ends r.

Lemma stream_ends_next r : stream_ends r → ∀ f, (next r).1 = Some (Ok f) → stream_ends (next r).2.
Proof. by destruct 1 as [r Hno|r Hl]; [intros f Hf; destruct (Hno f)|]. Qed.

Lemma dispatch_loop_ends r completed (s : S) :
  stream_ends r → ∃ fuel x, dispatch_loop fuel completed s r = Some x.
Proof.
  assert (Hone : ∀ r, (∀ f, (next r).1 ≠ Some (Ok f)) →
    ∃ x, dispatch_loop 1 completed s r = Some x).
  { intros r' Hno. cbn [dispatch_loop]. destruct (next r') as [[[f|e|]|] r1]; cbn;
      [by destruct (Hno f)|by eexists..]. }
  induction 1 as [r Hno|r _ [fuel [x IH]]].
  { destruct (Hone r Hno) as [x Hx]. by exists 1%nat, x. }
  destruct (next r) as [[[f|e|]|] r1] eqn:Hn; cbn [snd] in IH;
    [|exists 1%nat; cbn [dispatch_loop]; rewrite Hn; cbn; by eexists..].
  exists (Datatypes.S fuel), x. cbn [dispatch_loop]. rewrite Hn. by destruct f.
Qed.

(** Such a session ends. *)
Lemma run_ends (self : Client A R S) :
  stream_ends (framed_read self) → ∃ fuel x, run fuel self = Some x.
Proof.
  intros He. unfold run, perform_handshake.
  destruct (send _ (outbound_sender self)) as [[[]|m|] s']; cbn [map_err];
    [|exists 0%nat; by eexists..].
  pose proof (stream_ends_next _ He) as Hnext.
  destruct (next (framed_read self)) as [item r1]. cbn [fst snd] in Hnext.
  destruct (timeout _ _) as [[k|e|]|] eqn:Ht; [|exists 0%nat; by eexists..].
  assert (∃ f, item = Some (Ok f)) as [f ->].
  { unfold timeout in Ht. destruct (elapsed _ _); [done|]. injection Ht as Ht.
    destruct item as [[f|e|]|]; [by exists f|done..]. }
  destruct (dispatch_loop_ends r1 k s' (Hnext f eq_refl)) as (fuel&[x y]&Hd).
  exists fuel. rewrite Hd. by eexists.
Qed.
End session.

(** ** One writer *)

Section writer.
Context `{ExternalErrors} {Wr W Q : Type} `{!FramedWriter Wr W, !OutboundReceiver Q}.

Lemma drain_queued_more fuel more (w : W) (q : Q) x :
  drain_queued fuel w q = Some x → drain_queued (fuel + more) w q = Some x.
Proof.
  revert w q. induction fuel as [|fuel IH]; intros w q; [done|].
  cbn [drain_queued Nat.add]. destruct (try_recv q) as [[m|] q']; [|done].
  destruct (dispatch_outbound w m). apply IH.
Qed.

Lemma run_outbound_writer_more fuel more (w : W) (q : Q) x :
  run_outbound_writer fuel w q = Some x →
  run_outbound_writer (fuel + more) w q = Some x.
Proof.
  revert w q. induction fuel as [|fuel IH]; intros w q; [done|].
  cbn [run_outbound_writer Nat.add]. destruct (recv q) as [[m|] q']; [|done].
  destruct (dispatch_outbound w m) as [r w1].
  destruct (drain_queued fuel w1 q') as [[w2 q2]|] eqn:Hd; [|done].
  rewrite (drain_queued_more _ more _ _ _ Hd). cbn. destruct (flush w2). apply IH.
Qed.

Lemma run_outbound_writer_unique fuel fuel' (w : W) (q : Q) x y :
  run_outbound_writer fuel w q = Some x → run_outbound_writer fuel' w q = Some y → x = y.
Proof.
  intros Hx%(run_outbound_writer_more _ fuel') Hy%(run_outbound_writer_more _ fuel).
  rewrite Nat.add_comm in Hy. congruence.
Qed.

Context `{!OutboundReceiverLaws (Q:=Q)}.

(** A writer ends once the channel is closed, whatever the transport does. *)
Lemma drain_queued_ends (w : W) (q : Q) fuel :
  (length (inbox q) < fuel)%nat →
  ∃ w' q', drain_queued fuel w q = Some (w', q') ∧
    (length (inbox q') <= length (inbox q))%nat.
Proof.
  revert w q. induction fuel as [|fuel IH]; intros w q Hf; [lia|].
  cbn [drain_queued]. destruct (try_recv_next q) as [(m&q1&->&Hq)|(q1&->&Hq)].
  - rewrite Hq in Hf |- *. simpl in *. destruct (dispatch_outbound w m) as [r w1].
    destruct (IH w1 q1) as (w'&q'&->&?); [lia|]. exists w', q'. split; [done|lia].
  - exists w, q1. split; [done|]. by rewrite Hq.
Qed.

Lemma run_outbound_writer_ends (w : W) (q : Q) :
  ∃ fuel w', run_outbound_writer fuel w q = Some w'.
Proof.
  enough (∀ fuel w (q : Q), (length (inbox q) + 1 < fuel)%nat →
    ∃ w', run_outbound_writer fuel w q = Some w') as Hall.
  { exists (length (inbox q) + 2)%nat. apply Hall. lia. }
  clear. intros fuel. induction fuel as [|fuel IH]; intros w q Hf; [lia|].
  cbn [run_outbound_writer]. pose proof (recv_next q) as Hrecv.
  destruct (inbox q) as [|m ms] eqn:Hq; [destruct Hrecv as [q' ->]; by eexists|].
  destruct Hrecv as (q1&->&Hq1). destruct (dispatch_outbound w m) as [r w1].
  simpl in Hf. rewrite <-Hq1 in Hf.
  destruct (drain_queued_ends w1 q1 fuel) as (w2&q2&->&Hl); [lia|]. cbn.
  destruct (flush w2) as [x w3]. apply IH. lia.
Qed.
End writer.

(** ** The accept loop *)

(** What one [send] after another leads to. *)
Definition sends {S : Type} `{!OutboundSender S} : S → S → Prop :=
  rtc (λ s s', ∃ m, s' = (send m s).2).

(** A new writer has written nothing; a new channel is open and nothing has been
    sent; [channel] panics only on zero capacity; the receiver of a channel receives
    what was sent. *)
Class RuntimeLaws `{Prost} {Wr W S Q : Type} `{!FramedWriter Wr W, !OutboundSender S,
    !OutboundReceiver Q, !OutboundChannel S Q, !OutboundHangUp S Q,
    !FramedWriterLaws (Wr:=Wr) (W:=W), !OutboundSenderLaws (S:=S),
    !OutboundReceiverLaws (Q:=Q)} : Prop := {
  framed_write_new (wr : Wr) capacity :
    written (FramedWrite_with_capacity wr capacity : W) = [] ∧
    unflushed (FramedWrite_with_capacity wr capacity : W) = [];
  channel_open capacity (s : S) (q : Q) :
    channel capacity = Ok (s, q) → open s ∧ sent s = [];
  channel_Ok capacity : 0 < capacity → ∃ (s : S) (q : Q), channel capacity = Ok (s, q);
  hang_up_inbox capacity (s s' : S) (q : Q) :
    channel capacity = Ok (s, q) → sends s s' → inbox (hang_up s' q) = sent s';
}.

Section accept.
Context `{Prost, Tracing} {T Rd Wr R W S Q : Type}.
Context `{!Transport T Rd Wr, !FramedReader Rd R, !FramedWriter Wr W}.
Context `{!OutboundSender S, !OutboundReceiver Q, !OutboundChannel S Q}.
Context `{!OutboundHangUp S Q}.

Local Abbreviation state := (server_state R W S Q).
Local Abbreviation tasks_of := (stream_tasks R W S Q).
Local Abbreviation client := (Client NoAuthAuthenticator R S).
Implicit Types (st : state) (config : ServerConfig) (t : tasks_of).

(** The number of streams an event accepts. *)
Definition accepted (e : event T) : Z :=
  match e with Stream _ (Some _) => 1 | _ => 0 end.

(** The states some interleaving leads to, with the number of streams accepted. *)
Inductive reachable config : Z → state → Prop :=
| reachable_init : reachable config 0 (accept_init CLIENT_ID_COUNTER)
| reachable_event n e st st' :
    reachable config n st → handle config e st = Some st' →
    reachable config (n + accepted e) st'.

(** The sessions that are over, the streams and the clients, over or not. *)
Definition over st : list (tasks_of * result ClientError.ClientError unit * S) :=
  writers st ++ (ended st).*1.
Definition streams st : list tasks_of := sessions st ++ (over st).*1.*1.
Definition clients st : list client := task_client <$> streams st.
Definition ids st : list Z := client_id_0 ∘ client_id <$> clients st.

(** The tasks the server made for a stream: reader and writer are new on its two
    halves, sender and receiver are the ends of a new channel, the configuration is
    the server's. *)
Definition made config t : Prop :=
  (∃ (x : T) cr cw,
    framed_read (task_client t) = FramedRead_with_capacity (into_split x).1 cr ∧
    task_writer t = FramedWrite_with_capacity (into_split x).2 cw) ∧
  (∃ capacity,
    channel capacity = Ok (outbound_sender (task_client t), task_receiver t)) ∧
  Client.config (task_client t) = config.

Definition session_ran (x : tasks_of * result ClientError.ClientError unit * S) : Prop :=
  ∃ fuel r, run fuel (task_client x.1.1) = Some (x.1.2, r, x.2).
Definition writer_ran (x : tasks_of * result ClientError.ClientError unit * S * W) : Prop :=
  ∃ fuel, run_outbound_writer fuel (task_writer x.1.1.1)
    (hang_up x.1.2 (task_receiver x.1.1.1)) = Some x.2.

Record accept_inv config (n : Z) st : Prop := mkAcceptInv {
  inv_count : 0 <= n;
  inv_counter : counter st = (1 + n) `mod` U64_MODULUS;
  inv_connections : NoDup (connections st) ∧
    Forall (λ c, c < next_connection st)%nat (connections st);
  inv_ids : n < U64_MODULUS - 1 → NoDup (ids st) ∧ Forall (λ i, 0 < i <= n) (ids st);
  inv_made : Forall (made config) (streams st);
  inv_over : Forall session_ran (over st);
  inv_ended : Forall writer_ran (ended st);
}.

Lemma Client_new_made counter (x : T) config (c : client) (w : W) (q : Q) counter' :
  Client_new counter x mkNoAuthAuthenticator config = Ok (c, (w, q), counter') →
  made config (mkStreamTasks c w q) ∧ client_id_0 (client_id c) = counter ∧
  counter' = (counter + 1) `mod` U64_MODULUS.
Proof.
  unfold Client_new. cbn [ClientId_new]. destruct (into_split x) as [rd wr] eqn:Hx.
  destruct (channel (outbound_channel_capacity (quic config))) as [[s q']| |] eqn:Hch;
    [|done..].
  cbn [mbind result_bind]. intros [= <- <- <- <-]. split; [|done]. split_and!; [|eauto|done].
  exists x. rewrite Hx. by do 2 eexists.
Qed.

Lemma counter_next n :
  0 <= n → ((1 + n) `mod` U64_MODULUS + 1) `mod` U64_MODULUS = (1 + (n + 1)) `mod` U64_MODULUS.
Proof. intros. rewrite Zplus_mod_idemp_l. f_equal. lia. Qed.

(** A stream that is accepted, whether or not its client is made, *)
Lemma accept_inv_session config n st t :
  accept_inv config n st → made config t →
  client_id_0 (client_id (task_client t)) = counter st →
  accept_inv config (n + 1) (mkServerState (shutdown st) (accepting st)
    ((counter st + 1) `mod` U64_MODULUS) (next_connection st) (connections st)
    (t :: sessions st) (writers st) (ended st)).
Proof.
  intros [Hn Hc Hconn Hids Hmade Hover Hended] Hm Hid.
  split; [lia| |done| |by constructor|done|done].
  { cbn [Quic.counter]. by rewrite Hc, counter_next. }
  intros Hbound. destruct (Hids ltac:(lia)) as [Hnd Hall].
  assert (Hctr : counter st = 1 + n).
  { rewrite Hc. apply Z.mod_small. unfold U64_MODULUS in *. lia. }
  change (ids _) with (client_id_0 (client_id (task_client t)) :: ids st).
  rewrite Hid, Hctr. split.
  - apply NoDup_cons. split; [|done]. rewrite Forall_forall in Hall.
    intros Hin%Hall. lia.
  - constructor; [lia|]. eapply Forall_impl; [exact Hall|]. cbn. lia.
Qed.

Lemma accept_inv_panic config n st :
  accept_inv config n st →
  accept_inv config (n + 1) (mkServerState (shutdown st) (accepting st)
    ((counter st + 1) `mod` U64_MODULUS) (next_connection st) (connections st)
    (sessions st) (writers st) (ended st)).
Proof.
  intros [Hn Hc Hconn Hids Hmade Hover Hended]. split; [lia| |done| |done..].
  { cbn [Quic.counter]. by rewrite Hc, counter_next. }
  intros Hbound. destruct (Hids ltac:(lia)) as [Hnd Hall]. split; [done|].
  eapply Forall_impl; [exact Hall|]. cbn. lia.
Qed.

(** and a task of a stream that is over: the streams stay the same. *)
Lemma accept_inv_streams config n st st' :
  accept_inv config n st → counter st' = counter st →
  next_connection st' = next_connection st → connections st' = connections st →
  streams st' ≡ₚ streams st → Forall session_ran (over st') →
  Forall writer_ran (ended st') → accept_inv config n st'.
Proof.
  intros [Hn Hc Hconn Hids Hmade _ _] Hc' Hnc Hcs Hperm Hover Hended.
  split; [done| | | | |done..].
  - by rewrite Hc'.
  - by rewrite Hnc, Hcs.
  - intros Hbound. destruct (Hids Hbound) as [Hnd Hall].
    assert (Hi : ids st' ≡ₚ ids st) by (unfold ids, clients; by rewrite Hperm).
    by rewrite Hi.
  - by rewrite Hperm.
Qed.

Lemma session_end_streams st i t x :
  sessions st !! i = Some t → x.1.1 = t →
  streams (mkServerState (shutdown st) (accepting st) (counter st) (next_connection st)
    (connections st) (base.delete i (sessions st)) (x :: writers st) (ended st))
  ≡ₚ streams st.
Proof.
  intros Hi <-. unfold streams, over. cbn [sessions writers ended app].
  rewrite !fmap_cons, <-Permutation_middle, app_comm_cons.
  apply Permutation_app; [|done]. symmetry. exact (delete_Permutation _ _ _ Hi).
Qed.

Lemma writer_end_over st i x w :
  writers st !! i = Some x →
  over (mkServerState (shutdown st) (accepting st) (counter st) (next_connection st)
    (connections st) (sessions st) (base.delete i (writers st)) ((x, w) :: ended st))
  ≡ₚ over st.
Proof.
  intros Hi. unfold over. cbn [writers ended]. rewrite fmap_cons. cbn [fst].
  rewrite <-Permutation_middle, app_comm_cons.
  apply Permutation_app; [|done]. symmetry. exact (delete_Permutation _ _ _ Hi).
Qed.

Lemma reachable_accept_inv config n st : reachable config n st → accept_inv config n st.
Proof.
  induction 1 as [|n e st st' _ IH Hh].
  { split; [done|done|by split; constructor|by split; constructor|by constructor..]. }
  pose proof IH as [Hn Hc [Hnd Hlt] Hids Hmade Hover Hended].
  destruct e as [| |[]|k [x|]|fuel i|fuel i]; cbn [handle accepted] in *;
    rewrite ?Z.add_0_r.
  - injection Hh as <-. by split.
  - unfold on_shutdown in Hh. destruct (_ && _); [|done]. injection Hh as <-. by split.
  - unfold on_accept in Hh. destruct (accepting st); [|done]. injection Hh as <-.
    split; [done..| |done|done|done|done]. cbn. split.
    + apply NoDup_cons. split; [|done]. rewrite Forall_forall in Hlt.
      intros Hin%Hlt. lia.
    + constructor; [lia|]. eapply Forall_impl; [exact Hlt|]. cbn. lia.
  - unfold on_accept in Hh. destruct (accepting st); [|done]. injection Hh as <-. by split.
  - unfold on_stream in Hh. case_bool_decide; [|done].
    destruct (Client_new _ x _ config) as [[[c [w q]] ctr]|[]|] eqn:Hnew;
      injection Hh as <-; [|by apply accept_inv_panic].
    apply Client_new_made in Hnew as (Hm&Hid&->). by apply accept_inv_session.
  - unfold on_stream in Hh. case_bool_decide; [|done]. injection Hh as <-.
    split; [done..| |done|done|done|done].
    split; [by apply NoDup_filter|]. rewrite Forall_forall in *.
    intros y [_ Hy]%list_elem_of_filter. by apply Hlt.
  - unfold on_session_end in Hh. destruct (sessions st !! i) as [t|] eqn:Hi; [|done].
    cbn in Hh. destruct (run fuel (task_client t)) as [[[out r] s]|] eqn:Hrun; [|done].
    injection Hh as <-. eapply accept_inv_streams; [exact IH|done..| | |done].
    + by eapply session_end_streams.
    + constructor; [|done]. by exists fuel, r.
  - unfold on_writer_end in Hh. destruct (writers st !! i) as [[[t out] s]|] eqn:Hi; [|done].
    cbn in Hh. destruct (run_outbound_writer _ _ _) as [w|] eqn:Hrun; [|done].
    injection Hh as <-. pose proof (writer_end_over st i (t, out, s) w Hi) as Hperm.
    eapply accept_inv_streams; [exact IH|done..| | |].
    + unfold streams. cbn [sessions]. by rewrite Hperm.
    + by rewrite Hperm.
    + constructor; [|done]. by exists fuel.
Qed.

(** ** Winding down *)

(** The events that end a task: the accept loop leaves, a connection closes, a
    session or a writer is over. *)
Definition closing (e : event T) : Prop :=
  match e with
  | Shutdown | Accept false | Stream _ None | SessionEnd _ _ | WriterEnd _ _ => True
  | _ => False
  end.

(** The tasks that run: the accept loop, the connections, two per session, and the
    writers whose session is over. *)
Definition tasks st : nat :=
  (if accepting st then 1 else 0) + length (connections st) +
  2 * length (sessions st) + length (writers st).

Definition idle st : Prop :=
  accepting st = false ∧ connections st = [] ∧ sessions st = [] ∧ writers st = [].

(** An event that ends a task leaves one task less and makes no new session. *)
Lemma closing_step config e st st' :
  closing e → handle config e st = Some st' →
  (tasks st' < tasks st)%nat ∧ shutdown st' = shutdown st ∧ sessions st' ⊆ sessions st.
Proof.
  destruct e as [| |[]|k [x|]|fuel i|fuel i]; cbn [closing handle]; try done; intros _ Hh.
  - unfold on_shutdown in Hh. destruct (accepting st) eqn:Ha, (shutdown st) eqn:Hs;
      [|done..]. injection Hh as <-. unfold tasks. cbn. rewrite Ha. split; [lia|done].
  - unfold on_accept in Hh. destruct (accepting st) eqn:Ha; [|done].
    injection Hh as <-. unfold tasks. cbn. rewrite Ha. split; [lia|done].
  - unfold on_stream in Hh. case_bool_decide as Hin; [|done]. injection Hh as <-.
    unfold tasks. cbn. pose proof (length_filter_lt (.≠ k) (connections st) k Hin).
    split; [|done]. intuition lia.
  - unfold on_session_end in Hh. destruct (sessions st !! i) as [t|] eqn:Hi; [|done].
    cbn in Hh. destruct (run fuel _) as [[[r y] s]|]; [|done]. injection Hh as <-.
    unfold tasks. cbn. apply lookup_lt_Some in Hi as Hlt. rewrite length_delete by eauto.
    split; [lia|]. split; [done|]. intros z. rewrite list_elem_of_lookup.
    intros [j Hj]. apply list_elem_of_lookup. revert Hj. rewrite list_lookup_delete.
    case_decide; eauto.
  - unfold on_writer_end in Hh. destruct (writers st !! i) as [[[t out] s]|] eqn:Hi; [|done].
    cbn in Hh. destruct (run_outbound_writer _ _ _) as [w|]; [|done]. injection Hh as <-.
    unfold tasks. cbn. apply lookup_lt_Some in Hi as Hlt. rewrite length_delete by eauto.
    split; [lia|done].
Qed.

Lemma closing_all config es st st' :
  Forall closing es → handle_all config es st = Some st' →
  (length es + tasks st' <= tasks st)%nat ∧ shutdown st' = shutdown st ∧
  sessions st' ⊆ sessions st.
Proof.
  intros Hall. revert st. induction Hall as [|e es He _ IH]; intros st; cbn [handle_all].
  { intros [= ->]. simpl. split; [lia|done]. }
  destruct (handle config e st) as [st1|] eqn:Hh; [|done]. cbn. intros Hrest%IH.
  apply closing_step in Hh as (?&?&?); [|done]. destruct Hrest as (?&?&?).
  split_and!; [lia|congruence|set_solver].
Qed.

Context `{!OutboundReceiverLaws (Q:=Q)}.

(** While a task runs, one can end: nothing waits for anything else once the token
    is cancelled and the peers end their streams. *)
Lemma closing_progress config st :
  shutdown st = true →
  (∀ t, t ∈ sessions st → stream_ends (framed_read (task_client t))) →
  idle st ∨ ∃ e st', closing e ∧ handle config e st = Some st'.
Proof.
  intros Hs Hends. unfold idle.
  destruct (accepting st) eqn:Ha.
  { right. exists Shutdown. cbn [handle]. unfold on_shutdown. rewrite Ha, Hs. by eexists. }
  destruct (connections st) as [|k ks] eqn:Hk.
  2:{ right. exists (Stream k None). cbn [handle]. unfold on_stream.
      rewrite bool_decide_eq_true_2 by (rewrite Hk; set_solver). by eexists. }
  destruct (sessions st) as [|t ts] eqn:Ht.
  2:{ right. destruct (run_ends (task_client t)) as (fuel&[[out r] s]&Hrun);
        [apply Hends; set_solver|].
      exists (SessionEnd fuel 0). cbn [handle]. unfold on_session_end. rewrite Ht. cbn.
      rewrite Hrun. by eexists. }
  destruct (writers st) as [|[[t out] s] ws] eqn:Hw; [by left|]. right.
  destruct (run_outbound_writer_ends (task_writer t) (hang_up s (task_receiver t)))
    as (fuel&w&Hrun).
  exists (WriterEnd fuel 0). cbn [handle]. unfold on_writer_end. rewrite Hw. cbn.
  rewrite Hrun. by eexists.
Qed.

(** ** The sessions of the server *)

Context `{!FramedWriterLaws (Wr:=Wr) (W:=W), !OutboundSenderLaws (S:=S)}.
Context `{!RuntimeLaws (Wr:=Wr) (W:=W) (S:=S) (Q:=Q)}.

(** The INFO message of a client, from the server's configuration. *)
Definition server_info config (c : client) : pb.Info :=
  ServerOutbound.info PROTOCOL_VERSION (client_id c) (server_id config)
    (server_name config) (requires_auth config) (tls_verify config).

(** What a session queued is what its writer receives. *)
Lemma made_inbox config t fuel out r s :
  made config t → run fuel (task_client t) = Some (out, r, s) →
  inbox (hang_up s (task_receiver t)) =
    [OutboundMessage.Info (server_info config (task_client t))].
Proof.
  intros (_&(cap&Hch)&Hcfg) Hrun%run_sends.
  apply channel_open in Hch as Hopen. destruct Hopen as [Hopen Hnone].
  destruct (send_open _ (OutboundMessage.Info (client_info (task_client t))) Hopen)
    as (s'&Hsend&_&Hsent). rewrite Hsend in Hrun. cbn in Hrun. subst s'.
  rewrite (hang_up_inbox cap (outbound_sender (task_client t)) s) by
    (first [done|apply rtc_once; eexists; by rewrite Hsend]).
  rewrite Hsent, Hnone. unfold client_info, server_info. by rewrite Hcfg.
Qed.

Context `{!ProstLaws, !FramedReaderLaws (Rd:=Rd) (R:=R)}.

(** On a stream that is delivered to its end, a session has the outcome that the
    bytes determine. *)
Lemma made_session config t fs o rest :
  made config t → live (framed_read (task_client t)) →
  server_drain (unread (framed_read (task_client t))) = (fs, o, rest) →
  ∃ fuel out r s, run fuel (task_client t) = Some (out, r, s) ∧
    session mkNoAuthAuthenticator
      (elapsed (connect_timeout (quic config)) (framed_read (task_client t)))
      fs o rest out.
Proof.
  intros (_&(cap&Hch)&Hcfg) Hlive Hd. apply channel_open in Hch as [Hopen _].
  destruct (run_session (task_client t) fs o rest Hlive Hopen Hd)
    as (out&r&s&Hrun&Hsess&_).
  exists (Datatypes.S (length fs)), out, r, s. split; [apply Hrun; lia|].
  rewrite Hcfg in Hsess. by destruct (authenticator (task_client t)).
Qed.
End accept.
