(* ===== verification/QuicSpec.v ===== *)
(** The theorems of the QUIC server: how the endpoint is configured, the clients
    of the accept loop, the outcomes of their sessions, and shutdown. *)
From S2P Require Import Prelude Errors Messages ClientId Parser Wire CodecFacts.
From S2P Require Import CodecSpec SocketAddr Config Handshake Client ClientFacts.
From S2P Require Import ClientRuntime ClientSpec Quic QuicFacts.
Local Open Scope Z_scope.

(** ** The endpoint *)

(** C16: When [start] succeeds, the endpoint is the one the configuration describes:
    the listen address parses and is the receive address, both TLS files exist
    and are the certificate and key, client certificates are required exactly when
    [tls_verify] is set, the handshake limit is the configured one, and the
    address returned is the server's. *)
Theorem start_configures `{S2nLaws, Tracing, !TLSConfig.Fs} config addr server :
  start config = Ok (addr, server) →
  ∃ listen, QuicConfig_socket_addr (quic config) = Ok listen ∧
    TLSConfig.try_exists (TLSConfig.cert_file_path_0 (tls (quic config))) = Ok true ∧
    TLSConfig.try_exists (TLSConfig.key_file_path_0 (tls (quic config))) = Ok true ∧
    local_addr server = Ok addr ∧
    server_is server = mkServerSettings
      (Some (mkIoSettings (Some listen) (Some (enable_gso (quic config)))
        (Some (enable_gro (quic config)))))
      (Some (mkTlsSettings (Some (TLSConfig.cert_file_path_0 (tls (quic config)),
        TLSConfig.key_file_path_0 (tls (quic config)))) (tls_verify config)))
      (Some (endpoint_limits (quic config))).
Proof.
  intros (listen&Haddr&Hc&Hk&Hl&Hs)%start_spec. exists listen.
  unfold TLSConfig.cert_file_path, TLSConfig.key_file_path in Hc, Hk.
  rewrite bind_Ok in Hc, Hk. destruct Hc as ([]&Hc&?); [|done].
  by destruct Hk as ([]&Hk&?).
Qed.

(** ** The accept loop *)

Section accept.
Context `{Prost, Tracing} {T Rd Wr R W S Q : Type}.
Context `{!Transport T Rd Wr, !FramedReader Rd R, !FramedWriter Wr W}.
Context `{!OutboundSender S, !OutboundReceiver Q, !OutboundChannel S Q}.
Context `{!OutboundHangUp S Q}.
Implicit Types (st : server_state R W S Q) (config : ServerConfig).

(** C9: However connections, streams and shutdown interleave, all clients of the
    server, running or done, have different, non-zero identifiers (for the first
    [2^64 - 2] streams), connections are distinct, and every client has the
    server's configuration. *)
Theorem server_clients_invariant config n st :
  reachable (T:=T) config n st → n < U64_MODULUS - 1 →
  NoDup (ids st) ∧ Forall (λ i, 0 < i <= n) (ids st) ∧ NoDup (connections st) ∧
  Forall (λ c, Client.config c = config) (clients st).
Proof.
  intros Hr%reachable_accept_inv Hn. destruct Hr as [_ _ [Hc _] Hids Hmade _ _].
  destruct (Hids Hn). split_and!; [done..|]. unfold clients. apply Forall_fmap.
  eapply Forall_impl; [exact Hmade|]. by intros t (_&_&?).
Qed.


Context `{!OutboundReceiverLaws (Q:=Q)}.


Context `{!ProstLaws, !FramedReaderLaws (Rd:=Rd) (R:=R), !OutboundSenderLaws (S:=S)}.
Context `{!FramedWriterLaws (Wr:=Wr) (W:=W)}.
Context `{!RuntimeLaws (Wr:=Wr) (W:=W) (S:=S) (Q:=Q)}.

(** Shutdown does not reach the connections: after the loop has stopped, a
    connection that is open still gets new sessions. *)
Lemma streams_after_shutdown config st k (x : T) :
  0 < outbound_channel_capacity (quic config) → accepting st = false →
  k ∈ connections st →
  ∃ st', handle config (Stream k (Some x)) st = Some st' ∧ accepting st' = false ∧
    length (sessions st') = (length (sessions st) + 1)%nat.
Proof.
  intros Hcap Ha Hk. destruct (channel_Ok (S:=S) (Q:=Q) _ Hcap) as (s&q&Hch).
  cbn [handle]. unfold on_stream, Client_new. rewrite bool_decide_eq_true_2 by done.
  cbn [ClientId_new]. destruct (into_split x) as [rd wr]. rewrite Hch.
  cbn [mbind result_bind]. eexists. split; [done|]. split; [done|]. cbn. lia.
Qed.

(** C7: Composition of the accept loop with the sessions and the writers, in every
    reachable state.  A session that is over and returned [Ok] had a CONNECT in
    time, whatever its stream did; if the stream was delivered to its end, the
    session ended with the outcome that its own bytes determine, whatever the other
    sessions did.  The peer of a stream whose two tasks are over decodes, from what
    is flushed, exactly one INFO message, with its own identifier and the server's
    configuration, if the transport took the bytes.  A session that still runs on a
    stream that is delivered to its end can be run to such an outcome. *)
Theorem server_sessions_sound config n st :
  reachable (T:=T) config n st →
  (∀ t out s, (t, out, s) ∈ over st →
    (out = Ok tt →
      elapsed (connect_timeout (quic config)) (framed_read (task_client t)) = false ∧
      ∃ k, (next (framed_read (task_client t))).1 = Some (Ok (Frame.Connect k))) ∧
    (live (framed_read (task_client t)) → ∀ fs o rest,
      server_drain (unread (framed_read (task_client t))) = (fs, o, rest) →
      session mkNoAuthAuthenticator
        (elapsed (connect_timeout (quic config)) (framed_read (task_client t)))
        fs o rest out)) ∧
  (∀ t out s w, (t, out, s, w) ∈ ended st → writable (task_writer t) →
    server_sendable (ClientFrame.Info (server_info config (task_client t))) →
    unflushed w = [] ∧
    drain ClientInboundCommand.try_from ClientCodec.decode_command (written w) =
      ([ClientFrame.Info (server_info config (task_client t))], Ok tt, [])) ∧
  (∀ t, t ∈ sessions st → live (framed_read (task_client t)) → ∀ fs o rest,
    server_drain (unread (framed_read (task_client t))) = (fs, o, rest) →
    ∃ fuel out r s, run fuel (task_client t) = Some (out, r, s) ∧
      session mkNoAuthAuthenticator
        (elapsed (connect_timeout (quic config)) (framed_read (task_client t)))
        fs o rest out).
Proof.
  intros Hr%reachable_accept_inv. destruct Hr as [_ _ _ _ Hmade Hover Hended].
  rewrite Forall_forall in Hmade. rewrite Forall_forall in Hover.
  rewrite Forall_forall in Hended.
  assert (Hm : ∀ t out s, (t, out, s) ∈ over st → made config t).
  { intros t out s Hin. apply Hmade. unfold streams. apply elem_of_app. right.
    apply list_elem_of_fmap. exists (t, out). split; [done|].
    apply list_elem_of_fmap. by exists (t, out, s). }
  split_and!.
  - intros t out s Hin. destruct (Hover _ Hin) as (fuel&r&Hrun). cbn in Hrun.
    pose proof (Hm _ _ _ Hin) as Hmt. split.
    + intros ->. destruct Hmt as (_&_&<-).
      destruct (run_Ok_connected _ _ _ _ Hrun) as (?&k&?&_). eauto.
    + intros Hlive fs o rest Hd.
      destruct (made_session config t fs o rest Hmt Hlive Hd)
        as (fuel'&out'&r'&s'&Hrun'&Hsess).
      by pose proof (run_unique _ _ _ _ _ Hrun Hrun') as [= -> _ _].
  - intros t out s w Hin Hw Hsend. destruct (Hended _ Hin) as [fuel Hrun]. cbn in Hrun.
    assert (Hin' : (t, out, s) ∈ over st).
    { unfold over. apply elem_of_app. right. apply list_elem_of_fmap.
      by exists (t, out, s, w). }
    destruct (Hover _ Hin') as (fuel'&r&Hran). cbn in Hran.
    pose proof (Hm _ _ _ Hin') as Hmt. pose proof (made_inbox _ _ _ _ _ _ Hmt Hran) as Hin2.
    destruct Hmt as ((x&cr&cw&_&Hnew)&_&_).
    destruct (framed_write_new (into_split x).2 cw) as [Hwr Hfl].
    rewrite <-Hnew in Hwr, Hfl.
    destruct (writer_delivers (task_writer t) (hang_up s (task_receiver t)) 3 Hw Hfl Hwr)
      as (w'&Hrun'&Hfl'&Hd); rewrite ?Hin2; [by constructor|simpl; lia|].
    rewrite Hin2 in Hd.
    by rewrite (run_outbound_writer_unique _ _ _ _ _ _ Hrun Hrun').
  - intros t Hin Hlive fs o rest Hd. apply made_session; [|done..].
    apply Hmade. unfold streams. set_solver.
Qed.
End accept.

(** ** Witnesses *)

(** A file system with the default certificate and key, and builders that are
    what they have been told. *)
#[export] Instance sample_fs : TLSConfig.Fs := {|
  TLSConfig.try_exists path := Ok (bool_decide
    (path ∈ [TLSConfig.cert_file_path_0 TLSConfig.default;
             TLSConfig.key_file_path_0 TLSConfig.default]));
  TLSConfig.io_error_not_found msg := msg;
|}.

#[export] Instance sample_s2n : S2nQuic := {|
  BoxError := string;
  from_io_error e := e;
  IoBuilder := io_settings;
  Io := io_settings;
  io_builder := mkIoSettings None None None;
  with_receive_address a b := Ok (mkIoSettings (Some a) (gso b) (gro b));
  with_gso v b := Ok (mkIoSettings (receive_address b) (Some v) (gro b));
  with_gro v b := Ok (mkIoSettings (receive_address b) (gso b) (Some v));
  io_build b := Ok b;
  LimitsBuilder := option usize;
  Limits := option usize;
  limits_builder := None;
  with_inflight_handshake_limit n _ := Ok (Some n);
  limits_build b := Ok b;
  limits_default := None;
  TlsBuilder := tls_settings;
  Tls := tls_settings;
  tls_builder := mkTlsSettings None false;
  with_certificate c k b := Ok (mkTlsSettings (Some (c, k)) (client_authentication b));
  with_client_authentication b := Ok (mkTlsSettings (certificate b) true);
  tls_build b := Ok b;
  ServerBuilder := server_settings;
  Server := server_settings;
  server_builder := mkServerSettings None None None;
  with_tls t b := Ok (mkServerSettings (set_io b) (Some t) (set_limit b));
  with_io io b := Ok (mkServerSettings (Some io) (set_tls b) (set_limit b));
  with_endpoint_limits l b := Ok (mkServerSettings (set_io b) (set_tls b) (Some l));
  server_start b := Ok b;
  local_addr s :=
    match set_io s ≫= receive_address with
    | Some a => Ok a
    | None => Err "not bound"
    end;
|}.
#[export] Instance sample_s2n_laws : S2nLaws.
Proof.
  refine {| io_builder_is (b : @IoBuilder _ sample_s2n) := b; io_is b := b;
            limits_builder_is b := b; limits_is b := b; tls_builder_is b := b;
            tls_is b := b; server_builder_is b := b; server_is b := b |};
    cbn; naive_solver.
Defined.

#[export] Instance list_hang_up : OutboundHangUp list_sender batch_receiver :=
  λ s q, (q.1, q.2 ++ [s.1]).
#[export] Instance chunk_runtime_laws : RuntimeLaws (Wr:=unit) (W:=buffered_writer)
  (S:=list_sender) (Q:=batch_receiver).
Proof.
  split.
  - done.
  - intros capacity s q. unfold channel, list_channel.
    case_match; [done|]. by intros [= <- <-].
  - intros capacity Hc. unfold channel, list_channel.
    destruct (Z.leb_spec capacity 0); [lia|]. by do 2 eexists.
  - intros capacity s s' q. unfold channel, list_channel.
    case_match; [done|]. intros [= <- <-] _. cbn. apply app_nil_r.
Qed.

Lemma start_configures_witness :
  ∃ listen, QuicConfig_socket_addr (quic ServerConfig_new) = Ok listen ∧
    TLSConfig.try_exists (TLSConfig.cert_file_path_0 (tls (quic ServerConfig_new)))
      = Ok true ∧
    TLSConfig.try_exists (TLSConfig.key_file_path_0 (tls (quic ServerConfig_new)))
      = Ok true ∧
    local_addr (mkServerSettings
      (Some (mkIoSettings (Some (SocketAddr.V4 (mkIpv4Addr 127 0 0 1) 4433))
        (Some true) (Some true)))
      (Some (mkTlsSettings (Some ("crates/certs/server.crt", "crates/certs/key.pem"))
        false)) (Some None)) = Ok (SocketAddr.V4 (mkIpv4Addr 127 0 0 1) 4433) ∧
    server_is (mkServerSettings
      (Some (mkIoSettings (Some (SocketAddr.V4 (mkIpv4Addr 127 0 0 1) 4433))
        (Some true) (Some true)))
      (Some (mkTlsSettings (Some ("crates/certs/server.crt", "crates/certs/key.pem"))
        false)) (Some None)) =
    mkServerSettings
      (Some (mkIoSettings (Some listen) (Some (enable_gso (quic ServerConfig_new)))
        (Some (enable_gro (quic ServerConfig_new)))))
      (Some (mkTlsSettings (Some (TLSConfig.cert_file_path_0 (tls (quic ServerConfig_new)),
        TLSConfig.key_file_path_0 (tls (quic ServerConfig_new))))
        (tls_verify ServerConfig_new)))
      (Some (endpoint_limits (quic ServerConfig_new))).
Proof. apply start_configures. vm_compute. reflexivity. Defined.

(** A connection with three streams: one is over with both tasks, of one only the
    session is over (it timed out), one still runs; and a shutdown. *)
Definition sample_events : list (event (list bytes * u64)) :=
  [Accept true;
   Stream 0 (Some ([(send_all client_send sample_frames []).2], 5));
   Stream 0 (Some ([], 5000));
   Stream 0 (Some ([bstr "x"], 5));
   SessionEnd 20 2;
   SessionEnd 20 1;
   WriterEnd 20 1;
   Cancel;
   Shutdown].
Definition sample_state
  : server_state chunk_reader buffered_writer list_sender batch_receiver :=
  default (accept_init CLIENT_ID_COUNTER)
    (handle_all ServerConfig_new sample_events (accept_init CLIENT_ID_COUNTER)).

(** A state that some events lead to is reachable. *)
Lemma handle_all_reachable config n (es : list (event (list bytes * u64)))
    (st st' : server_state chunk_reader buffered_writer list_sender batch_receiver) :
  reachable config n st → handle_all config es st = Some st' →
  reachable config (foldl (λ n e, n + accepted e) n es) st'.
Proof.
  revert n st. induction es as [|e es IH]; intros n st Hr; cbn [handle_all foldl].
  { by intros [= <-]. }
  destruct (handle config e st) as [st1|] eqn:Hh; [|done]. cbn. apply IH.
  by eapply reachable_event.
Qed.

Lemma sample_state_reachable :
  reachable (T:=list bytes * u64) ServerConfig_new 3 sample_state.
Proof.
  apply (handle_all_reachable ServerConfig_new 0 sample_events
    (accept_init CLIENT_ID_COUNTER)); [constructor|by vm_compute].
Qed.

Lemma server_clients_invariant_witness :
  NoDup (ids sample_state) ∧ Forall (λ i, 0 < i <= 3) (ids sample_state) ∧
  NoDup (connections sample_state) ∧
  Forall (λ c, Client.config c = ServerConfig_new) (clients sample_state).
Proof.
  apply (server_clients_invariant ServerConfig_new 3 sample_state).
  - apply sample_state_reachable.
  - vm_compute. reflexivity.
Defined.

(** What the peer of the stream that is over has received. *)
Definition sample_ended
  : stream_tasks chunk_reader buffered_writer list_sender batch_receiver *
    result ClientError.ClientError unit * list_sender * buffered_writer :=
  default (mkStreamTasks (sample_client false []) (mkBufferedWriter [] []) ([], []),
           Panic, ([], false), mkBufferedWriter [] []) (ended sample_state !! 0%nat).

Lemma server_sessions_sound_witness :
  drain ClientInboundCommand.try_from ClientCodec.decode_command
    (written sample_ended.2) =
  ([ClientFrame.Info (server_info ServerConfig_new (task_client sample_ended.1.1.1))],
   Ok tt, []).
Proof.
  destruct (server_sessions_sound ServerConfig_new 3 sample_state sample_state_reachable)
    as (_&Hended&_).
  destruct (Hended sample_ended.1.1.1 sample_ended.1.1.2 sample_ended.1.2 sample_ended.2)
    as [_ Hd]; [..|exact Hd].
  - vm_compute. apply list_elem_of_here.
  - exact I.
  - assert (Hinfo : server_info ServerConfig_new (task_client sample_ended.1.1.1) =
      pb.mkInfo 1 SERVER_ID SERVER_NAME 1048576 1 false false) by (vm_compute; reflexivity).
    rewrite Hinfo. split; [vm_compute; intuition discriminate|].
    intros p [= <-]. vm_compute. discriminate.
Defined.


