(* ===== verification/Startup.v ===== *)
(** The process: the logger ([crates/server/src/logger.rs]), the gRPC service
    ([grpc.rs]) and the start-up sequence ([main.rs]).

    The state is what the process has set up: the global subscriber, the threads
    and services that run.  [Os] is what the operating system answers; the tasks
    the services spawn only run library code and log. *)
From S2P Require Import Prelude Errors Messages SocketAddr Wire Config Metrics.
From S2P Require Import ClientRuntime Quic QuicFacts QuicSpec.
Local Open Scope Z_scope.

Class Os `{ExternalErrors} := {
  TcpListener : Type;
  tcp_bind : SocketAddr.SocketAddr -> result IoError TcpListener;
  tcp_local_addr : TcpListener -> result IoError SocketAddr.SocketAddr;
  thread_spawn : string -> result IoError unit;
  ctrl_c : result IoError unit;
}.

(** The layers of a subscriber: formatted output with a default level, and the
    console with the levels of its targets. *)
Inductive Layer `{Tracing} : Type :=
| FmtLayer (with_thread_names : bool) (with_default : LevelFilter)
| ConsoleLayer (with_targets : list (string * LevelFilter)).

Section startup.
Context `{S2nQuic, Tracing, !TLSConfig.Fs, !Prometheus, !Os}.

(** The services with the token that stops each; [next_token] is the identity of
    the next token made. *)
Record process : Type := mkProcess {
  global_subscriber : option (list Layer);
  threads : list string;
  next_token : nat;
  serving : list string;
  grpc_servers : list (TcpListener * CancellationToken);
  metrics_service : Metrics;
  quic_servers : list (Server * CancellationToken);
}.

(** ** The logger *)

Definition init_ocypode_logger (config : LoggerConfig) (p : process)
  : result Empty_set process :=
  let layers := [FmtLayer (with_thread_name config) (default_level config)] in
  '(layers, p) ←
    (if enable_tokio_console config then
       let layers := layers ++
         [ConsoleLayer [("tokio", LevelFilter_TRACE); ("runtime", LevelFilter_TRACE)]] in
       let name := logger_name config +:+ " tokio-console" in
       _ ← expect (thread_spawn name);
       Ok (layers, mkProcess (global_subscriber p) (threads p ++ [name]) (next_token p)
         (serving p) (grpc_servers p) (metrics_service p) (quic_servers p))
     else Ok (layers, p));
  match global_subscriber p with
  | Some _ => Panic
  | None =>
      Ok (mkProcess (Some layers) (threads p) (next_token p) (serving p)
        (grpc_servers p) (metrics_service p) (quic_servers p))
  end.

(** What the console thread does, given what its runtime and its server answer:
    the [expect] on the runtime ends the thread. *)
Definition console_thread {E} (build : result IoError unit) (serve : result E unit)
  : result Empty_set (task_end E) :=
  _ ← expect build;
  if_let_err serve.

(** ** The gRPC service *)

(** The task [grpc_serve] spawns: the branch of [select!] that is ready first, the
    server's response or, [None], the cancelled token. *)
Definition grpc_task {E} (ready : option (result E unit))
  : result Empty_set (task_end E) :=
  match ready with
  | Some response => if_let_err response
  | None => Ok Stopped
  end.

Definition grpc_serve (config : GrpcConfig) (shutdown : CancellationToken) (p : process)
  : result Empty_set (SocketAddr.SocketAddr * process) :=
  let serving := serving p ++ ["ocypode-service"] in
  addr ← GrpcConfig_socket_addr config;
  listener ← expect (tcp_bind addr);
  listen_addr ← expect (tcp_local_addr listener);
  Ok (listen_addr,
      mkProcess (global_subscriber p) (threads p) (next_token p) serving
        (grpc_servers p ++ [(listener, shutdown)]) (metrics_service p) (quic_servers p)).

(** ** main *)

(** [CancellationToken::new] *)
Definition CancellationToken_new (p : process) : CancellationToken * process :=
  (mkCancellationToken (next_token p),
   mkProcess (global_subscriber p) (threads p) (S (next_token p)) (serving p)
     (grpc_servers p) (metrics_service p) (quic_servers p)).

(** The steps of [main] after the configuration is made, with the process as each
    of them leaves it; a step that panics or fails ends it. *)
Definition main_with (config : ServerConfig) (p : process)
  : result BoxError unit * process :=
  match init_ocypode_logger (logger config) p with
  | Ok p =>
      let '(cancel_token, p) := CancellationToken_new p in
      match grpc_serve (grpc config) cancel_token p with
      | Ok (_, p) =>
          let p :=
            if MetricLevel.gt (metrics_level (metrics config)) MetricLevel.Disabled
            then mkProcess (global_subscriber p) (threads p) (next_token p) (serving p)
              (grpc_servers p)
              (boot_metrics_service (metrics_listen_addr (metrics config)) cancel_token
                (metrics_service p))
              (quic_servers p)
            else p in
          match start config with
          | Ok (_, server) =>
              let p := mkProcess (global_subscriber p) (threads p) (next_token p)
                (serving p) (grpc_servers p) (metrics_service p)
                (quic_servers p ++ [(server, cancel_token)]) in
              (map_err from_io_error ctrl_c, p)
          | Err e => (Err e, p)
          | Panic => (Panic, p)
          end
      | Err e => match e : Empty_set with end
      | Panic => (Panic, p)
      end
  | Err e => match e : Empty_set with end
  | Panic => (Panic, p)
  end.


(** ** Properties *)






(** With the answers it hopes for, the program gets to ctrl-c. *)
Lemma main_ready config p listen listener local addr server :
  global_subscriber p = None → enable_tokio_console (logger config) = false →
  GrpcConfig_socket_addr (grpc config) = Ok listen → tcp_bind listen = Ok listener →
  tcp_local_addr listener = Ok local → start config = Ok (addr, server) →
  (main_with config p).1 = map_err from_io_error ctrl_c.
Proof.
  intros Hsub Hc Ha Hb Hl Hs. unfold main_with, init_ocypode_logger.
  rewrite Hc. cbn. rewrite Hsub. cbn. unfold grpc_serve. rewrite Ha. cbn.
  rewrite Hb. cbn. rewrite Hl. cbn. by rewrite Hs.
Qed.
End startup.

(** ** Witness *)

#[export] Instance sample_os : Os := {|
  TcpListener := SocketAddr.SocketAddr;
  tcp_bind a := Ok a;
  tcp_local_addr l := Ok l;
  thread_spawn _ := Ok tt;
  ctrl_c := Ok tt;
|}.


