(* ===== verification/Display.v ===== *)
(** The texts of errors and identifiers: the [Display] implementations of
    [crates/server/src/error.rs], [client.rs] and [handshake.rs] (the [#[error]]
    attributes of thiserror).

    The texts of the errors of prost and of the operating system are theirs: the
    class [ErrorDisplay].  Integers print in decimal. *)
From stdpp Require Import pretty.
From S2P Require Import Prelude Errors ClientId Messages Parser Config Handshake Client.
Local Open Scope Z_scope.

Class ErrorDisplay `{ExternalErrors} := {
  EncodeError_fmt : EncodeError -> string;
  DecodeError_fmt : DecodeError -> string;
  IoError_fmt : IoError -> string;
}.

Definition ClientId_fmt (self : ClientId) : string := pretty (client_id_0 self).

Definition TopicError_fmt (self : TopicError.TopicError) : string :=
  match self with
  | TopicError.Empty => "topic is empty"
  | TopicError.TooLong len => "topic is too long: " +:+ pretty len +:+ " bytes"
  | TopicError.LeadingSlash => "topic has a leading slash"
  | TopicError.TrailingSlash => "topic has a trailing slash"
  | TopicError.EmptyLayer => "topic contains an empty layer (consecutive slashes)"
  | TopicError.TooManyLayers count => "topic has too many layers: " +:+ pretty count
  | TopicError.ReservedSysPrefix => "topic starts with the reserved $SYS prefix"
  | TopicError.GlobalPrefixWithoutTopic =>
      "$G prefix must be followed by at least one topic layer"
  | TopicError.WildcardInPublishTopic =>
      "wildcards are not allowed in publish topics"
  | TopicError.MultiWildcardNotTerminal =>
      "multi-level wildcard '#' must be the last segment"
  | TopicError.InvalidWildcardUsage =>
      "wildcard characters must occupy an entire segment"
  end.

Definition HandshakeError_fmt (self : HandshakeError.HandshakeError) : string :=
  match self with
  | HandshakeError.ConnectTimeout => "CONNECT timeout"
  | HandshakeError.ConnectionClosed => "connection closed before CONNECT"
  | HandshakeError.UnexpectedFrame => "unexpected frame received after handshake"
  | HandshakeError.AuthenticationFailed reason =>
      "authentication failed: " +:+ reason
  end.

Section display.
Context `{ErrorDisplay}.

Definition CodecError_fmt (self : CodecError.CodecError) : string :=
  match self with
  | CodecError.Error => "Error"
  | CodecError.InvalidCommand => "Invalid command"
  | CodecError.Encode e => "Encode error: " +:+ EncodeError_fmt e
  | CodecError.Decode e => "Decode error: " +:+ DecodeError_fmt e
  | CodecError.InvalidSizeBytes n => "Invalid size bytes: " +:+ pretty n
  | CodecError.InvalidVersion s => "Invalid version: " +:+ s
  end.

Definition ServerCodecError_fmt (self : ServerCodecError.ServerCodecError) : string :=
  match self with
  | ServerCodecError.Codec e => CodecError_fmt e
  | ServerCodecError.Io e => IoError_fmt e
  end.

Definition ClientCodecError_fmt (self : ClientCodecError.ClientCodecError) : string :=
  match self with
  | ClientCodecError.Codec e => CodecError_fmt e
  | ClientCodecError.Io e => IoError_fmt e
  end.

Definition ClientError_fmt (self : ClientError.ClientError) : string :=
  match self with
  | ClientError.Handshake e => HandshakeError_fmt e
  | ClientError.Codec e => ServerCodecError_fmt e
  | ClientError.OutboundChannelClosed => "outbound channel closed"
  end.
End display.

(** ** The text tells the value *)

Lemma string_length_app s t :
  String.length (s +:+ t) = (String.length s + String.length t)%nat.
Proof. induction s as [|a s IH]; [done|]. simpl. by f_equal. Qed.

Lemma string_app_inj_r s1 s2 t : s1 +:+ t = s2 +:+ t → s1 = s2.
Proof.
  revert s2. induction s1 as [|a s1 IH]; intros [|b s2] Heq; [done|..].
  1, 2: apply (f_equal String.length) in Heq; rewrite !string_length_app in Heq;
    simpl in Heq; lia.
  injection Heq as -> Heq. f_equal. by apply IH.
Qed.

Lemma ClientId_fmt_inj i j : ClientId_fmt i = ClientId_fmt j → i = j.
Proof. destruct i, j. unfold ClientId_fmt. cbn. by intros ->%(inj pretty). Qed.

(** Two topic errors with the same text are the same error, with the same number. *)
Lemma TopicError_fmt_inj e1 e2 : TopicError_fmt e1 = TopicError_fmt e2 → e1 = e2.
Proof.
  destruct e1, e2; cbn [TopicError_fmt]; intros Heq; try done; f_equal.
  - apply (inj (String.append _)), string_app_inj_r in Heq. by apply (inj pretty).
  - apply (inj (String.append _)) in Heq. by apply (inj pretty).
Qed.

Lemma HandshakeError_fmt_inj e1 e2 :
  HandshakeError_fmt e1 = HandshakeError_fmt e2 → e1 = e2.
Proof.
  destruct e1, e2; cbn [HandshakeError_fmt]; intros Heq; try done; f_equal.
  by apply (inj (String.append _)) in Heq.
Qed.
