(* ===== verification/DevTools.v ===== *)
(** The build script [crates/server/build.rs] and the certificate generator
    [tools/src/bin/gen_dev_certs.rs].

    Both compute paths from the directory of their crate, with [..] in them.  A path
    names what walking the directories leads to, one component after the other, so
    that [..] is whatever the directory reached says its parent is.  The file system
    is the class [Disk], rcgen and the proto compiler are [Rcgen] and
    [ProtoCompiler]. *)
From S2P Require Import Prelude Errors Wire Config.
Local Open Scope Z_scope.

(** ** Paths *)

Definition SLASH : u8 := "/"%byte.
Definition is_absolute (p : string) : bool :=
  match bstr p with x :: _ => x =b SLASH | [] => false end.

(** [PathBuf::join] *)
Definition join (p q : string) : string :=
  if is_absolute q then q
  else if (p =b "") || match last (bstr p) with Some x => x =b SLASH | None => false end
  then p +:+ q
  else p +:+ "/" +:+ q.

Definition components (p : string) : list bytes :=
  filter (λ s, negb (is_empty s)) (split_on (λ x, x =b SLASH) (bstr p)).

(** ** The file system and the libraries *)

(** [root_dir] is [/]; [lookup_in d i c] is the entry [c] of the directory [i],
    [.] and [..] included, and what a symbolic link leads to. *)
Class Disk `{ExternalErrors} (D Ino : Type) := {
  root_dir : Ino;
  lookup_in : D -> Ino -> bytes -> option Ino;
  create_dir_all : Ino -> string -> D -> result IoError D;
  fs_write : Ino -> string -> string -> D -> result IoError D;
  new_io_error : string -> IoError;
}.

Section walk.
Context `{Disk D Ino}.

Fixpoint walk (d : D) (dir : Ino) (cs : list bytes) : option Ino :=
  match cs with
  | [] => Some dir
  | c :: cs => dir ← lookup_in d dir c; walk d dir cs
  end.

(** What a path names from a working directory; [Path::exists]. *)
Definition resolve (d : D) (cwd : Ino) (p : string) : option Ino :=
  walk d (if is_absolute p then root_dir else cwd) (components p).
Definition path_exists (d : D) (cwd : Ino) (p : string) : bool :=
  bool_decide (is_Some (resolve d cwd p)).
End walk.

(** A file that was written has an entry, and neither creating directories nor
    writing removes or changes entries of directories. *)
Class DiskLaws `{ExternalErrors} (D Ino : Type) `{!Disk D Ino} : Prop := {
  write_creates cwd p s (d d' : D) :
    fs_write cwd p s d = Ok d' → is_Some (resolve d' cwd p);
  write_keeps cwd p s (d d' : D) dir c j :
    fs_write cwd p s d = Ok d' → lookup_in d dir c = Some j →
    lookup_in d' dir c = Some j;
  create_keeps cwd p (d d' : D) dir c j :
    create_dir_all cwd p d = Ok d' → lookup_in d dir c = Some j →
    lookup_in d' dir c = Some j;
}.

(** The certificate and the key, in PEM. *)
Class Rcgen := {
  RcgenError : Type;
  generate_simple_self_signed : list string -> result RcgenError (string * string);
}.
Class ProtoCompiler `{ExternalErrors} :=
  compile_protos : list string -> list string -> result IoError unit.

(** ** The programs *)

(** [build.rs]: [CARGO_MANIFEST_DIR] is the environment variable. *)
Definition build_proto_root (manifest_dir : string) : string :=
  join manifest_dir "../../proto".
Definition build_main `{ProtoCompiler} (CARGO_MANIFEST_DIR : option string)
  : result IoError unit :=
  manifest_dir ← unwrap CARGO_MANIFEST_DIR;
  let proto_root := build_proto_root manifest_dir in
  let proto_file := join proto_root "ocypode/pubsub/v1/pubsub.proto" in
  compile_protos [proto_file] [proto_root].

(** [gen_dev_certs.rs]: the disk it leaves and the lines it prints. *)
Definition gen_dev_certs `{Disk D Ino, Rcgen} (cwd : Ino) (manifest_dir : string)
    (d : D) : result Empty_set (D * list string) :=
  let certs_dir := join manifest_dir "../crates/certs" in
  d ← (if negb (path_exists d cwd certs_dir)
       then expect (create_dir_all cwd certs_dir d) else Ok d);
  let cert_path := join certs_dir "server.crt" in
  let key_path := join certs_dir "key.pem" in
  '(cert_pem, key_pem) ←
    expect (generate_simple_self_signed ["localhost"; "127.0.0.1"]);
  d ← expect (fs_write cwd cert_path cert_pem d);
  d ← expect (fs_write cwd key_path key_pem d);
  Ok (d, ["Generating dev certificates..."; "Generated:";
          "  cert: " +:+ cert_path; "  key:  " +:+ key_path]).

(** The disk as the server's [TLSConfig] sees it from a working directory. *)
Definition disk_fs `{Disk D Ino} (cwd : Ino) (d : D) : TLSConfig.Fs := {|
  TLSConfig.try_exists p := Ok (path_exists d cwd p);
  TLSConfig.io_error_not_found := new_io_error;
|}.

(** ** Lemmas on paths *)

Lemma components_sep p q r :
  bstr p = bstr q ++ SLASH :: bstr r → components p = components q ++ components r.
Proof.
  intros Heq. unfold components. rewrite Heq.
  rewrite split_on_app_sep by apply beq_refl. apply filter_app.
Qed.

(** Joining a relative path appends its components, and keeps the root. *)
Lemma components_join p q :
  is_absolute q = false → components (join p q) = components p ++ components q.
Proof.
  intros Hq. unfold join. rewrite Hq.
  destruct (beq_spec p "") as [->|Hp]; [done|]. cbn [orb].
  destruct (last (bstr p)) as [x|] eqn:Hl.
  - destruct (beq_spec x SLASH) as [->|Hx].
    + apply last_Some in Hl as [l Hl].
      assert (Hs : bstr (String.string_of_list_byte l) = l)
        by apply String.list_byte_of_string_of_list_byte.
      rewrite (components_sep (p +:+ q) (String.string_of_list_byte l) q),
        (components_sep p (String.string_of_list_byte l) ""); cbn.
      * by rewrite app_nil_r.
      * by rewrite Hs.
      * by rewrite bstr_app, Hl, Hs, <-app_assoc.
    + apply components_sep. by rewrite bstr_app.
  - apply components_sep. by rewrite bstr_app.
Qed.

Lemma is_absolute_join p q :
  is_absolute q = false → is_absolute (join p q) = is_absolute p.
Proof.
  intros Hq. unfold join. rewrite Hq. destruct (beq_spec p "") as [->|Hp]; [done|].
  assert (Hhd : ∀ s, is_absolute (p +:+ s) = is_absolute p).
  { intros s. unfold is_absolute. rewrite bstr_app. by destruct p. }
  cbn [orb]. destruct (last (bstr p)) as [x|]; [destruct (x =b SLASH)|]; apply Hhd.
Qed.

Section tools.
Context `{DiskLaws D Ino}.
Implicit Types (d : D) (dir : Ino).

Lemma walk_app d dir cs cs' :
  walk d dir (cs ++ cs') = dir ← walk d dir cs; walk d dir cs'.
Proof.
  revert dir. induction cs as [|c cs IH]; intros dir; [done|]. cbn [app walk].
  destruct (lookup_in d dir c); [apply IH|done].
Qed.

(** A joined path names what its last part names from what the first part names. *)
Lemma resolve_join d cwd p q :
  is_absolute q = false →
  resolve d cwd (join p q) = dir ← resolve d cwd p; resolve d dir q.
Proof.
  intros Hq. unfold resolve at 1 2. rewrite components_join, is_absolute_join by done.
  rewrite walk_app. unfold resolve. by rewrite Hq.
Qed.

(** A disk with at least the entries of another. *)
Definition keeps d d' : Prop :=
  ∀ dir c j, lookup_in d dir c = Some j → lookup_in d' dir c = Some j.

Lemma resolve_keeps d d' cwd p dir :
  keeps d d' → resolve d cwd p = Some dir → resolve d' cwd p = Some dir.
Proof.
  intros Hk. unfold resolve. generalize (if is_absolute p then root_dir else cwd).
  induction (components p) as [|c cs IH]; intros i; cbn [walk]; [done|].
  destruct (lookup_in d i c) as [j|] eqn:Hj; [|done]. rewrite (Hk _ _ _ Hj). apply IH.
Qed.

(** From the generator's crate, its files are those the default configuration names
    from the root of the repository. *)
Lemma certs_paths d cwd root_path root tools file :
  is_absolute file = false →
  resolve d cwd root_path = Some root → lookup_in d root (bstr "tools") = Some tools →
  lookup_in d tools (bstr "..") = Some root →
  resolve d cwd (join (join (join root_path "tools") "../crates/certs") file) =
  resolve d root (join "crates/certs" file).
Proof.
  intros Hf Hroot Htools Hup. rewrite !resolve_join by done. rewrite Hroot.
  cbn [mbind option_bind]. f_equal.
  change (resolve d root "tools") with (dir ← lookup_in d root (bstr "tools"); Some dir).
  rewrite Htools. cbn [mbind option_bind].
  change (resolve d tools "../crates/certs")
    with (dir ← lookup_in d tools (bstr ".."); resolve d dir "crates/certs").
  by rewrite Hup.
Qed.

Context `{Rcgen}.

(** C36: Composition of the certificate generator with the server's configuration.
    Where the repository has its [tools] directory, a directory whose parent is the
    root of the repository: when the generator runs to its end, the default TLS
    configuration finds its certificate and its key from the root of the repository,
    wherever the generator was started. *)
Theorem dev_certs_found cwd root_path root tools d d' out :
  resolve d cwd root_path = Some root → lookup_in d root (bstr "tools") = Some tools →
  lookup_in d tools (bstr "..") = Some root →
  gen_dev_certs cwd (join root_path "tools") d = Ok (d', out) →
  @TLSConfig.cert_file_path _ (disk_fs root d') TLSConfig.default =
    Ok (TLSConfig.cert_file_path_0 TLSConfig.default) ∧
  @TLSConfig.key_file_path _ (disk_fs root d') TLSConfig.default =
    Ok (TLSConfig.key_file_path_0 TLSConfig.default).
Proof.
  intros Hroot Htools Hup. unfold gen_dev_certs.
  set (dir := join (join root_path "tools") "../crates/certs").
  destruct (if negb (path_exists d cwd dir) then _ else _) as [d1|[]|] eqn:Hmk; [|done].
  assert (Hk1 : keeps d d1).
  { destruct (negb _); [|injection Hmk as <-; by intros i c j].
    destruct (create_dir_all cwd dir d) as [d0| |] eqn:Hcd; [|done..].
    injection Hmk as <-. intros i c j. by apply (create_keeps _ _ _ _ _ _ _ Hcd). }
  cbn [mbind result_bind].
  destruct (generate_simple_self_signed _) as [[cert key]| |]; [|done..].
  cbn [expect mbind result_bind].
  destruct (fs_write cwd (join dir "server.crt") cert d1) as [d2| |] eqn:Hc; [|done..].
  cbn [expect mbind result_bind].
  destruct (fs_write cwd (join dir "key.pem") key d2) as [d3| |] eqn:Hk; [|done..].
  cbn [expect mbind result_bind]. intros [= <- _].
  assert (Hk23 : keeps d2 d3) by (intros i c j; apply (write_keeps _ _ _ _ _ _ _ _ Hk)).
  assert (Hk3 : keeps d d3).
  { intros i c j Hi. apply Hk23, (write_keeps _ _ _ _ _ _ _ _ Hc), Hk1, Hi. }
  assert (Hfound : ∀ file, is_absolute file = false →
    is_Some (resolve d3 cwd (join dir file)) →
    path_exists d3 root (join "crates/certs" file) = true).
  { intros file Hf He. apply bool_decide_eq_true_2.
    rewrite <-(certs_paths d3 cwd root_path root tools file); [done|done|..].
    - by apply (resolve_keeps d).
    - by apply Hk3.
    - by apply Hk3. }
  destruct (write_creates _ _ _ _ _ Hc) as [f Hcert2].
  pose proof (Hfound "server.crt" eq_refl
    (mk_is_Some _ _ (resolve_keeps _ _ _ _ _ Hk23 Hcert2))) as Hcert.
  pose proof (Hfound "key.pem" eq_refl (write_creates _ _ _ _ _ Hk)) as Hkey.
  unfold TLSConfig.cert_file_path, TLSConfig.key_file_path.
  cbn [TLSConfig.try_exists disk_fs mbind result_bind].
  change (join "crates/certs" "server.crt")
    with (TLSConfig.cert_file_path_0 TLSConfig.default) in Hcert.
  change (join "crates/certs" "key.pem")
    with (TLSConfig.key_file_path_0 TLSConfig.default) in Hkey.
  by rewrite Hcert, Hkey.
Qed.
End tools.

(** The build script compiles the proto files of the repository when its crate is
    where it is: two levels below the root. *)
Lemma build_compiles_proto `{Disk D Ino} (d : D) cwd manifest_dir root crates server :
  resolve d cwd manifest_dir = Some server → lookup_in d server (bstr "..") = Some crates →
  lookup_in d crates (bstr "..") = Some root →
  resolve d cwd (build_proto_root manifest_dir) = resolve d root "proto".
Proof.
  intros Hs Hc Hr. unfold build_proto_root.
  unfold resolve at 1. rewrite components_join, is_absolute_join by done.
  rewrite walk_app. fold (resolve d cwd manifest_dir). rewrite Hs.
  cbn [mbind option_bind].
  change (components "../../proto") with (bstr ".." :: bstr ".." :: components "proto").
  cbn [walk]. rewrite Hc. cbn [mbind option_bind]. by rewrite Hr.
Qed.

(** ** Witness *)

(** A disk without links: a directory or a file is its place, the components from
    the root, and the disk lists the places there are, with what was written. *)
Definition place_lookup (d : list (list bytes * string)) (dir : list bytes) (c : bytes)
  : option (list bytes) :=
  if c =b bstr "." then Some dir
  else if c =b bstr ".." then Some (take (length dir - 1) dir)
  else if existsb (λ e, e.1 =b dir ++ [c]) d then Some (dir ++ [c]) else None.

(** Walk along a path and make the directories that are missing. *)
Fixpoint make_dirs (cs : list bytes) (dir : list bytes) (d : list (list bytes * string))
  : list bytes * list (list bytes * string) :=
  match cs with
  | [] => (dir, d)
  | c :: cs =>
      match place_lookup d dir c with
      | Some dir => make_dirs cs dir d
      | None => make_dirs cs (dir ++ [c]) ((dir ++ [c], "") :: d)
      end
  end.
#[export] Instance place_disk : Disk (list (list bytes * string)) (list bytes) := {|
  root_dir := [];
  lookup_in := place_lookup;
  create_dir_all cwd p d :=
    Ok (make_dirs (components p) (if is_absolute p then [] else cwd) d).2;
  fs_write cwd p s d :=
    let '(file, d) := make_dirs (components p) (if is_absolute p then [] else cwd) d in
    Ok ((file, s) :: d);
  new_io_error s := s;
|}.

Lemma place_lookup_more d d' dir c j :
  place_lookup d dir c = Some j → place_lookup (d' ++ d) dir c = Some j.
Proof.
  unfold place_lookup. destruct (c =b bstr "."), (c =b bstr ".."); [done..|].
  rewrite existsb_app. destruct (existsb _ d); [|done]. by rewrite orb_true_r.
Qed.

Lemma place_lookup_new d d' dir c s :
  place_lookup d dir c = None → place_lookup (d' ++ (dir ++ [c], s) :: d) dir c = Some (dir ++ [c]).
Proof.
  unfold place_lookup. destruct (c =b bstr "."), (c =b bstr ".."); [done..|].
  intros _. rewrite existsb_app. cbn [existsb fst]. by rewrite beq_refl, orb_true_r.
Qed.

Lemma make_dirs_spec cs dir d :
  ∃ new, (make_dirs cs dir d).2 = new ++ d ∧
    ∀ more, walk (more ++ new ++ d) dir cs = Some (make_dirs cs dir d).1.
Proof.
  revert dir d. induction cs as [|c cs IH]; intros dir d; cbn [make_dirs].
  { by exists []. }
  destruct (place_lookup d dir c) as [j|] eqn:Hl.
  - destruct (IH j d) as (new&->&Hw). exists new. split; [done|]. intros more.
    cbn [walk]. change (lookup_in ?x ?y ?z) with (place_lookup x y z).
    rewrite app_assoc, (place_lookup_more _ _ _ _ _ Hl), <-app_assoc. apply Hw.
  - destruct (IH (dir ++ [c]) ((dir ++ [c], "") :: d)) as (new&->&Hw).
    exists (new ++ [(dir ++ [c], "")]). split; [by rewrite <-app_assoc|]. intros more.
    rewrite <-app_assoc. cbn [app walk]. change (lookup_in ?x ?y ?z) with (place_lookup x y z).
    rewrite app_assoc, (place_lookup_new _ _ _ _ _ Hl), <-app_assoc. apply Hw.
Qed.

#[export] Instance place_disk_laws : DiskLaws (list (list bytes * string)) (list bytes).
Proof.
  constructor; cbn.
  - intros cwd p s d d'. unfold resolve.
    destruct (make_dirs_spec (components p) (if is_absolute p then [] else cwd) d)
      as (new&Hd&Hw).
    destruct (make_dirs _ _ d) as [file d1]. cbn in Hd. subst d1. intros [= <-].
    eexists. exact (Hw [(file, s)]).
  - intros cwd p s d d' dir c j.
    destruct (make_dirs_spec (components p) (if is_absolute p then [] else cwd) d)
      as (new&Hd&_).
    destruct (make_dirs _ _ d) as [file d1]. cbn in Hd. subst d1. intros [= <-].
    apply (place_lookup_more d ((file, s) :: new)).
  - intros cwd p d d' dir c j.
    destruct (make_dirs_spec (components p) (if is_absolute p then [] else cwd) d)
      as (new&Hd&_). intros [= <-]. rewrite Hd. apply place_lookup_more.
Qed.
#[export] Instance sample_rcgen : Rcgen := {|
  RcgenError := string;
  generate_simple_self_signed _ := Ok ("cert", "key");
|}.

(** A repository with its [tools] directory, before and after the generator. *)
Definition repository : list (list bytes * string) :=
  [([bstr "repo"; bstr "tools"], ""); ([bstr "repo"], "")].
Definition sample_disk : list (list bytes * string) * list string :=
  match gen_dev_certs (D:=list (list bytes * string)) [] "/repo/tools" repository with
  | Ok r => r
  | _ => ([], [])
  end.

Lemma dev_certs_found_witness :
  @TLSConfig.cert_file_path _ (disk_fs [bstr "repo"] sample_disk.1) TLSConfig.default =
    Ok "crates/certs/server.crt" ∧
  @TLSConfig.key_file_path _ (disk_fs [bstr "repo"] sample_disk.1) TLSConfig.default =
    Ok "crates/certs/key.pem".
Proof.
  apply (dev_certs_found (D:=list (list bytes * string)) [] "/repo" [bstr "repo"]
    [bstr "repo"; bstr "tools"] repository sample_disk.1 sample_disk.2).
  - vm_compute. reflexivity.
  - vm_compute. reflexivity.
  - vm_compute. reflexivity.
  - vm_compute. reflexivity.
Defined.
