(* ===== verification/Testing.v ===== *)
(** The repository's unit tests, run on the model.

    A [#[test]] function is a computation that ends ([Ok tt]) or panics, as in the
    source: [assert!] and [assert_eq!] panic when they fail, [unwrap] panics on an
    error.  That the translated tests pass checks the definitions against the
    behaviour the repository's authors wrote down.

    This file has the assertions; the tests are in [TopicTests], [RouterTests],
    [ParserTests] and [ClientTests]. *)
From S2P Require Import Prelude.

Abbreviation test := (result Empty_set unit).

Definition assert (b : bool) : test := if b then Ok tt else Panic.
Definition assert_eq {A} `{EqDecision A} (x y : A) : test := assert (x =b y).
Definition assert_ne {A} `{EqDecision A} (x y : A) : test := assert (negb (x =b y)).

(** [Result::is_ok], and the comparison with [Err] of a derived [PartialEq]. *)
Definition is_ok {E A} (r : result E A) : result Empty_set bool :=
  match r with Ok _ => Ok true | Err _ => Ok false | Panic => Panic end.
Definition assert_ok {E A} (r : result E A) : test := is_ok r ≫= assert.
Definition assert_err {E A} `{EqDecision E} (r : result E A) (e : E) : test :=
  match r with Ok _ => Panic | Err e' => assert_eq e' e | Panic => Panic end.

(** The test passes. *)
Definition passed (t : test) : bool := match t with Ok _ => true | _ => false end.
