(* ===== verification/TopicTests.v ===== *)
(** The tests of [crates/server/src/topic.rs], translated; see [Testing]. *)
From S2P Require Import Prelude Errors Topic Testing.
Import TopicError.
Local Open Scope Z_scope.

Definition topic (s : string) : result Empty_set Topic.Topic :=
  expect (Topic.new (bstr s)).
Definition topic_filter (s : string) : result Empty_set TopicFilter.TopicFilter :=
  expect (TopicFilter.new (bstr s)).
Definition parse_pub (s : string) : result TopicError Topic.Topic :=
  Topic.new (bstr s).
Definition parse_sub (s : string) : result TopicError TopicFilter.TopicFilter :=
  TopicFilter.new (bstr s).

(** [str::repeat] *)
Fixpoint repeat_str (n : nat) (s : string) : string :=
  match n with O => "" | S n => s +:+ repeat_str n s end.

Definition segments_splits_simple_path : test :=
  t ← topic "a/b/c";
  let segs := Topic.segments t in
  assert_eq segs [bstr "a"; bstr "b"; bstr "c"].
Definition segments_single_component : test :=
  t ← topic "single";
  let segs := Topic.segments t in
  assert_eq segs [bstr "single"].
Definition parse_rejects_empty_topic : test := assert_err (parse_pub "") Empty.
Definition parse_rejects_leading_slash : test :=
  assert_err (parse_pub "/a/b") LeadingSlash.
Definition parse_rejects_trailing_slash : test :=
  assert_err (parse_pub "a/b/") TrailingSlash.
Definition parse_rejects_consecutive_slashes : test :=
  assert_err (parse_pub "a//b") EmptyLayer.
Definition parse_rejects_topic_exceeding_max_length : test :=
  let long := repeat_str (Z.to_nat (MAX_TOPIC_LENGTH + 1)) "a" in
  assert_err (parse_pub long) (TooLong (MAX_TOPIC_LENGTH + 1)).
Definition parse_accepts_topic_at_max_length : test :=
  let exactly_max := repeat_str (Z.to_nat MAX_TOPIC_LENGTH) "x" in
  assert_ok (parse_pub exactly_max).
Definition parse_rejects_more_than_8_layers : test :=
  assert_err (parse_pub "a/b/c/d/e/f/g/h/i") (TooManyLayers 9).
Definition parse_accepts_exactly_8_layers : test :=
  assert_ok (parse_pub "a/b/c/d/e/f/g/h").
Definition parse_rejects_sys_prefix : test :=
  _ ← assert_err (parse_pub "$SYS/status") ReservedSysPrefix;
  assert_err (parse_sub "$SYS/+") ReservedSysPrefix.
Definition parse_accepts_sys_not_at_first_layer : test :=
  assert_ok (parse_pub "device/$SYS/info").
Definition parse_accepts_global_prefix_publish : test :=
  assert_ok (parse_pub "$G/sensor/data").
Definition parse_accepts_global_prefix_subscribe_with_wildcard : test :=
  _ ← assert_ok (parse_sub "$G/sensor/+/data");
  assert_ok (parse_sub "$G/sensor/#").
Definition parse_rejects_global_prefix_alone : test :=
  _ ← assert_err (parse_pub "$G") GlobalPrefixWithoutTopic;
  assert_err (parse_sub "$G") GlobalPrefixWithoutTopic.
Definition is_global_returns_true_for_global_filter : test :=
  f ← topic_filter "$G/broadcast/alerts";
  assert_eq (head (TopicFilter.segments f)) (Some GLOBAL_PREFIX).
Definition is_global_returns_false_for_normal_filter : test :=
  f ← topic_filter "sensor/data";
  assert_ne (head (TopicFilter.segments f)) (Some GLOBAL_PREFIX).
Definition parse_rejects_single_wildcard_in_publish : test :=
  assert_err (parse_pub "sensor/+/data") WildcardInPublishTopic.
Definition parse_rejects_multi_wildcard_in_publish : test :=
  assert_err (parse_pub "sensor/#") WildcardInPublishTopic.
Definition parse_accepts_single_wildcard_in_subscribe : test :=
  assert_ok (parse_sub "sensor/+/data").
Definition parse_accepts_multi_wildcard_terminal_in_subscribe : test :=
  assert_ok (parse_sub "sensor/data/#").
Definition parse_accepts_standalone_multi_wildcard : test := assert_ok (parse_sub "#").
Definition parse_accepts_standalone_single_wildcard : test := assert_ok (parse_sub "+").
Definition parse_accepts_multiple_single_wildcards : test :=
  assert_ok (parse_sub "+/+/data").
Definition parse_rejects_multi_wildcard_not_terminal : test :=
  assert_err (parse_sub "sensor/#/data") MultiWildcardNotTerminal.
Definition parse_rejects_embedded_wildcard_plus : test :=
  assert_err (parse_sub "sensor+/data") InvalidWildcardUsage.
Definition parse_rejects_embedded_wildcard_hash : test :=
  assert_err (parse_sub "sensor#/data") InvalidWildcardUsage.
Definition parse_rejects_embedded_wildcard_plus_suffix : test :=
  assert_err (parse_sub "sensor/data+") InvalidWildcardUsage.
Definition display_shows_topic_string : test :=
  t ← topic "sensor/data/temp";
  assert_eq (Topic.fmt t) "sensor/data/temp".
Definition filter_segments_splits_simple_path : test :=
  f ← topic_filter "a/b/c";
  let segs := TopicFilter.segments f in
  assert_eq segs [bstr "a"; bstr "b"; bstr "c"].
Definition filter_display_shows_filter_string : test :=
  f ← topic_filter "sensor/+/temp";
  assert_eq (TopicFilter.fmt f) "sensor/+/temp".

Definition topic_tests : list test :=
  [segments_splits_simple_path; segments_single_component;
   parse_rejects_empty_topic; parse_rejects_leading_slash;
   parse_rejects_trailing_slash; parse_rejects_consecutive_slashes;
   parse_rejects_topic_exceeding_max_length; parse_accepts_topic_at_max_length;
   parse_rejects_more_than_8_layers; parse_accepts_exactly_8_layers;
   parse_rejects_sys_prefix; parse_accepts_sys_not_at_first_layer;
   parse_accepts_global_prefix_publish;
   parse_accepts_global_prefix_subscribe_with_wildcard;
   parse_rejects_global_prefix_alone; is_global_returns_true_for_global_filter;
   is_global_returns_false_for_normal_filter;
   parse_rejects_single_wildcard_in_publish; parse_rejects_multi_wildcard_in_publish;
   parse_accepts_single_wildcard_in_subscribe;
   parse_accepts_multi_wildcard_terminal_in_subscribe;
   parse_accepts_standalone_multi_wildcard; parse_accepts_standalone_single_wildcard;
   parse_accepts_multiple_single_wildcards;
   parse_rejects_multi_wildcard_not_terminal; parse_rejects_embedded_wildcard_plus;
   parse_rejects_embedded_wildcard_hash; parse_rejects_embedded_wildcard_plus_suffix;
   display_shows_topic_string; filter_segments_splits_simple_path;
   filter_display_shows_filter_string].

Example topic_tests_pass : forallb passed topic_tests = true.
Proof. vm_compute. reflexivity. Qed.
