(* ===== verification/RouterTests.v ===== *)
(** The tests of [crates/server/src/router.rs], translated; see [Testing].

    A test takes the value of the identifier counter it starts from, which the
    other tests of the process also draw from. *)
From S2P Require Import Prelude Errors ClientId Topic Router Testing.
Local Open Scope Z_scope.

Abbreviation router := (Router unit).

Definition make_filter (s : string) : result Empty_set TopicFilter.TopicFilter :=
  expect (TopicFilter.new (bstr s)).
Definition make_topic (s : string) : result Empty_set Topic.Topic :=
  expect (Topic.new (bstr s)).
(** A sender nobody receives from. *)
Definition dummy_tx : unit := tt.

(** [node.children.as_ref().unwrap()] and its elements. *)
Definition the_children (n : Node unit) : result Empty_set (list (Node unit)) :=
  unwrap (children n).
Definition child (i : Z) (n : Node unit) : result Empty_set (Node unit) :=
  cs ← the_children n; index cs i.

(** [router.insert(dummy_tx(), client_id, id, make_filter(s))] *)
Definition subscribe (client_id : ClientId) (id : u32) (s : string) (r : router)
  : result Empty_set router :=
  f ← make_filter s; insert dummy_tx client_id id f r.

(** [router.search(&make_topic(s))], and the two assertions the tests make of it. *)
Definition search_str (s : string) (r : router)
  : result Empty_set (SubscriptionResponse unit) :=
  t ← make_topic s; unwrap (search t r).
Definition delivered_to (client_id : ClientId) (res : SubscriptionResponse unit) : test :=
  _ ← assert_eq (len (subscription_list res)) 1;
  hit ← index (subscription_list res) 0;
  assert_eq hit.1 client_id.

Definition insert_single_segment_creates_child (counter : u64) : test :=
  let '(client_id, _) := ClientId_new counter in
  router ← subscribe client_id 1 "a" Router_new;
  cs ← the_children (root router);
  assert_eq (len cs) 1.
Definition insert_multi_segment_creates_nested_children (counter : u64) : test :=
  let '(client_id, _) := ClientId_new counter in
  router ← subscribe client_id 1 "a/b/c" Router_new;
  level1 ← child 0 (root router);
  level2 ← child 0 level1;
  level3 ← child 0 level2;
  _ ← assert_eq (level level1) (bstr "a");
  _ ← assert_eq (level level2) (bstr "b");
  assert_eq (level level3) (bstr "c").
Definition insert_leaf_node_contains_subscription (counter : u64) : test :=
  let '(client_id, _) := ClientId_new counter in
  router ← subscribe client_id 7 "a/b" Router_new;
  leaf ← child 0 (root router) ≫= child 0;
  assert (bool_decide (is_Some (subscription_map leaf !! mkSubscriptionKey client_id 7))).
Definition insert_wildcard_single_wildcard_sets_flag_on_parent (counter : u64) : test :=
  let '(client_id, _) := ClientId_new counter in
  router ← subscribe client_id 1 "a/+/c" Router_new;
  level1 ← child 0 (root router);
  assert (has_wildcard_single level1).
Definition insert_wildcard_multi_sets_flag_on_parent (counter : u64) : test :=
  let '(client_id, _) := ClientId_new counter in
  router ← subscribe client_id 1 "a/#" Router_new;
  level1 ← child 0 (root router);
  assert (has_wildcard_multi level1).
Definition insert_two_subscribers_same_topic (counter : u64) : test :=
  let '(client_id_1, counter) := ClientId_new counter in
  let '(client_id_2, _) := ClientId_new counter in
  router ← subscribe client_id_1 1 "a/b" Router_new;
  router ← subscribe client_id_2 2 "a/b" router;
  leaf ← child 0 (root router) ≫= child 0;
  assert_eq (Z.of_nat (size (subscription_map leaf))) 2.
Definition insert_shares_common_prefix_nodes (counter : u64) : test :=
  let '(client_id_1, counter) := ClientId_new counter in
  let '(client_id_2, _) := ClientId_new counter in
  router ← subscribe client_id_1 1 "a/b/c" Router_new;
  router ← subscribe client_id_2 2 "a/b/d" router;
  level1 ← child 0 (root router);
  level2 ← child 0 level1;
  cs0 ← the_children (root router);
  _ ← assert_eq (len cs0) 1;
  cs1 ← the_children level1;
  _ ← assert_eq (len cs1) 1;
  cs2 ← the_children level2;
  assert_eq (len cs2) 2.

Definition search_exact_match_returns_subscriber (counter : u64) : test :=
  let '(client_id, _) := ClientId_new counter in
  router ← subscribe client_id 1 "a/b" Router_new;
  result ← search_str "a/b" router;
  delivered_to client_id result.
Definition search_no_match_returns_empty (counter : u64) : test :=
  let '(client_id, _) := ClientId_new counter in
  router ← subscribe client_id 1 "a/b" Router_new;
  result ← search_str "a/c" router;
  assert (is_empty (subscription_list result)).
Definition search_single_wildcard_matches_one_segment (counter : u64) : test :=
  let '(client_id, _) := ClientId_new counter in
  router ← subscribe client_id 1 "a/+/c" Router_new;
  result ← search_str "a/b/c" router;
  delivered_to client_id result.
Definition search_single_wildcard_does_not_match_wrong_depth (counter : u64) : test :=
  let '(client_id, _) := ClientId_new counter in
  router ← subscribe client_id 1 "a/+/c" Router_new;
  result ← search_str "a/c" router;
  assert (is_empty (subscription_list result)).
Definition search_multi_wildcard_matches_remaining_segments (counter : u64) : test :=
  let '(client_id, _) := ClientId_new counter in
  router ← subscribe client_id 1 "a/#" Router_new;
  result ← search_str "a/b/c" router;
  delivered_to client_id result.
Definition search_multi_wildcard_matches_zero_remaining_segments (counter : u64) : test :=
  let '(client_id, _) := ClientId_new counter in
  router ← subscribe client_id 1 "a/#" Router_new;
  result ← search_str "a" router;
  delivered_to client_id result.
Definition search_root_multi_wildcard_matches_any_topic (counter : u64) : test :=
  let '(client_id, _) := ClientId_new counter in
  router ← subscribe client_id 1 "#" Router_new;
  result ← search_str "a/b/c" router;
  delivered_to client_id result.
Definition search_returns_all_matching_subscribers (counter : u64) : test :=
  let '(client_id_1, counter) := ClientId_new counter in
  let '(client_id_2, counter) := ClientId_new counter in
  let '(client_id_3, _) := ClientId_new counter in
  router ← subscribe client_id_1 1 "a/b" Router_new;
  router ← subscribe client_id_2 2 "a/+" router;
  router ← subscribe client_id_3 3 "a/#" router;
  result ← search_str "a/b" router;
  assert_eq (len (subscription_list result)) 3.
Definition search_non_matching_sibling_not_returned (counter : u64) : test :=
  let '(other, counter) := ClientId_new counter in
  router ← subscribe other 1 "x/y" Router_new;
  let '(client_id, _) := ClientId_new counter in
  router ← subscribe client_id 2 "a/b" router;
  result ← search_str "a/b" router;
  delivered_to client_id result.

Definition delete_removes_subscription_from_leaf (counter : u64) : test :=
  let '(client_id_1, counter) := ClientId_new counter in
  let '(client_id_2, _) := ClientId_new counter in
  router ← subscribe client_id_1 1 "a/b" Router_new;
  router ← subscribe client_id_2 2 "a/b" router;
  router ← delete (mkSubscriptionKey client_id_1 1) router;
  leaf ← child 0 (root router) ≫= child 0;
  _ ← assert (negb (bool_decide
    (is_Some (subscription_map leaf !! mkSubscriptionKey client_id_1 1))));
  assert_eq (Z.of_nat (size (subscription_map leaf))) 1.
Definition assert_no_children (n : Node unit) : test :=
  assert match children n with None => true | Some _ => false end.
Definition delete_cleans_up_empty_leaf_node (counter : u64) : test :=
  let '(client_id, _) := ClientId_new counter in
  router ← subscribe client_id 1 "a" Router_new;
  router ← delete (mkSubscriptionKey client_id 1) router;
  assert_no_children (root router).
Definition delete_cleans_up_empty_intermediate_nodes (counter : u64) : test :=
  let '(client_id, _) := ClientId_new counter in
  router ← subscribe client_id 1 "a/b/c" Router_new;
  router ← delete (mkSubscriptionKey client_id 1) router;
  assert_no_children (root router).
Definition delete_updates_wildcard_single_flag_on_parent (counter : u64) : test :=
  let '(client_id, _) := ClientId_new counter in
  router ← subscribe client_id 1 "a/+/c" Router_new;
  level1 ← child 0 (root router);
  _ ← assert (has_wildcard_single level1);
  router ← delete (mkSubscriptionKey client_id 1) router;
  assert_no_children (root router).
Definition delete_updates_wildcard_multi_flag_on_parent (counter : u64) : test :=
  let '(client_id, _) := ClientId_new counter in
  router ← subscribe client_id 1 "a/#" Router_new;
  level1 ← child 0 (root router);
  _ ← assert (has_wildcard_multi level1);
  router ← delete (mkSubscriptionKey client_id 1) router;
  assert_no_children (root router).
Definition delete_of_nonexistent_key_is_noop (counter : u64) : test :=
  let '(client_id, counter) := ClientId_new counter in
  router ← subscribe client_id 1 "a/b" Router_new;
  children_before ← len <$> the_children (root router);
  let '(other, _) := ClientId_new counter in
  router ← delete (mkSubscriptionKey other 99) router;
  cs ← the_children (root router);
  assert_eq (len cs) children_before.
Definition delete_leaves_sibling_intact (counter : u64) : test :=
  let '(client_id_1, counter) := ClientId_new counter in
  let '(client_id_2, _) := ClientId_new counter in
  router ← subscribe client_id_1 1 "a/b" Router_new;
  router ← subscribe client_id_2 2 "a/c" router;
  router ← delete (mkSubscriptionKey client_id_1 1) router;
  level1 ← child 0 (root router);
  cs ← the_children level1;
  _ ← assert_eq (len cs) 1;
  left ← child 0 level1;
  assert_eq (level left) (bstr "c").

Definition router_tests : list (u64 -> test) :=
  [insert_single_segment_creates_child; insert_multi_segment_creates_nested_children;
   insert_leaf_node_contains_subscription;
   insert_wildcard_single_wildcard_sets_flag_on_parent;
   insert_wildcard_multi_sets_flag_on_parent; insert_two_subscribers_same_topic;
   insert_shares_common_prefix_nodes; search_exact_match_returns_subscriber;
   search_no_match_returns_empty; search_single_wildcard_matches_one_segment;
   search_single_wildcard_does_not_match_wrong_depth;
   search_multi_wildcard_matches_remaining_segments;
   search_multi_wildcard_matches_zero_remaining_segments;
   search_root_multi_wildcard_matches_any_topic;
   search_returns_all_matching_subscribers; search_non_matching_sibling_not_returned;
   delete_removes_subscription_from_leaf; delete_cleans_up_empty_leaf_node;
   delete_cleans_up_empty_intermediate_nodes;
   delete_updates_wildcard_single_flag_on_parent;
   delete_updates_wildcard_multi_flag_on_parent; delete_of_nonexistent_key_is_noop;
   delete_leaves_sibling_intact].

(** They pass wherever the counter stands, up to and over the wrap-around. *)
Example router_tests_pass :
  forallb (λ counter, forallb (λ t, passed (t counter)) router_tests)
    (seqZ CLIENT_ID_COUNTER 40 ++ seqZ (U64_MODULUS - 4) 4) = true.
Proof. vm_compute. reflexivity. Qed.
