(* ===== verification/ParserTests.v ===== *)
(** The tests of [crates/server/src/parser.rs], translated; see [Testing].

    They run with the wire encoding of [Wire]; [FramedRead] over a cursor is the
    reader of [ClientRuntime] with all bytes in one chunk. *)
From S2P Require Import Prelude Errors Messages Wire ClientId Parser Config Client.
From S2P Require Import ClientRuntime Testing.
Local Open Scope Z_scope.

(** [codec.decode(&mut buf).unwrap().unwrap()], and the buffer it leaves. *)
Definition server_decode (buf : bytes) : result Empty_set (Frame.Frame * bytes) :=
  let '(r, buf) := ServerCodec.decode buf in
  f ← expect r ≫= unwrap; Ok (f, buf).
Definition client_decode (buf : bytes)
  : result Empty_set (ClientFrame.ClientFrame * bytes) :=
  let '(r, buf) := ClientCodec.decode buf in
  f ← expect r ≫= unwrap; Ok (f, buf).

(** [codec.encode(item, &mut buf).unwrap()] *)
Definition server_encode {T} `{!Message T, !CommandCodec T} (item : T) (buf : bytes)
  : result Empty_set bytes :=
  let '(r, buf) := ServerCodec.encode item buf in _ ← expect r; Ok buf.
Definition client_encode {T} `{!Message T, !CommandCodec T} (item : T) (buf : bytes)
  : result Empty_set bytes :=
  let '(r, buf) := ClientCodec.encode item buf in _ ← expect r; Ok buf.

(** The frames of [let ... else { panic! }] and of [matches!]. *)
Definition the_publish (f : Frame.Frame) : result Empty_set pb.Publish :=
  match f with Frame.Publish m => Ok m | _ => Panic end.
Definition the_subscribe (f : Frame.Frame) : result Empty_set pb.Subscribe :=
  match f with Frame.Subscribe m => Ok m | _ => Panic end.
Definition the_unsubscribe (f : Frame.Frame) : result Empty_set pb.UnSubscribe :=
  match f with Frame.UnSubscribe m => Ok m | _ => Panic end.
Definition the_info (f : ClientFrame.ClientFrame) : result Empty_set pb.Info :=
  match f with ClientFrame.Info m => Ok m | _ => Panic end.
Definition the_message (f : ClientFrame.ClientFrame) : result Empty_set pb.Message :=
  match f with ClientFrame.Message m => Ok m | _ => Panic end.
Definition is_connect (f : Frame.Frame) : bool :=
  match f with Frame.Connect _ => true | _ => false end.

(** The header of an encoded buffer: its command, its length field and the rest. *)
Definition read_header (buf : bytes) : result Empty_set (u8 * usize * bytes) :=
  _ ← assert (HEADER_LENGTH <=? len buf);
  command ← index buf 0;
  '(header, payload_bytes) ← split_to HEADER_LENGTH buf;
  header_bytes ← advance COMMAND_BYTE_LEN header;
  '(payload_length, _) ← get_u32 header_bytes;
  Ok (command, payload_length, payload_bytes).

(** A buffer that starts with a byte that is no command. *)
Definition bad_prefix (command : Command.Command) (payload : bytes) : bytes :=
  let invalid_command_byte := xff in
  [invalid_command_byte] ++ [Command.as_u8 command]
    ++ put_u32 (len payload `mod` 2 ^ 32) ++ payload.

Definition encode_info_frame_has_header_and_payload : test :=
  let info := pb.mkInfo 1 "srv-1" "ocypode" 1024 0 false false in
  output_buffer ← server_encode info [];
  '(command, payload_length, payload_bytes) ← read_header output_buffer;
  _ ← assert_eq command (Command.as_u8 Command.Info);
  _ ← assert_eq payload_length (len payload_bytes);
  decoded ← expect (prost_decode (M:=pb.Info) payload_bytes);
  _ ← assert_eq (pb.info_version decoded) (pb.info_version info);
  assert_eq (pb.info_server_id decoded) (pb.info_server_id info).
Definition decode_conn_frame_recovers_from_bad_prefix : test :=
  let conn := pb.mkConnect 1 true (pb.AuthMethod_i32 pb.NoAuth) None in
  payload ← expect (prost_encode conn);
  '(decoded, incoming_bytes) ← server_decode (bad_prefix Command.Connect payload);
  _ ← assert (is_connect decoded);
  assert (is_empty incoming_bytes).
(** Both [encode_and_decode_info_frame] and its client variant. *)
Definition info_there_and_back (info : pb.Info) : test :=
  output_buffer ← server_encode info [];
  '(decoded, output_buffer) ← client_decode output_buffer;
  message ← the_info decoded;
  _ ← assert_eq (pb.info_server_id message) (pb.info_server_id info);
  _ ← assert_eq (pb.info_max_payload message) (pb.info_max_payload info);
  assert (is_empty output_buffer).
Definition encode_and_decode_info_frame : test :=
  info_there_and_back (pb.mkInfo 1 "srv-2" "ocypode" 2048 0 false false).
Definition client_encode_connect_frame_has_header_and_payload : test :=
  let conn := pb.mkConnect 1 true (pb.AuthMethod_i32 pb.NoAuth) None in
  output_buffer ← client_encode conn [];
  '(command, payload_length, payload_bytes) ← read_header output_buffer;
  _ ← assert_eq command (Command.as_u8 Command.Connect);
  _ ← assert_eq payload_length (len payload_bytes);
  decoded ← expect (prost_decode (M:=pb.Connect) payload_bytes);
  assert_eq (pb.connect_version decoded) (pb.connect_version conn).
Definition client_decode_info_frame_recovers_from_bad_prefix : test :=
  let info := pb.mkInfo 1 "srv-3" "ocypode" 512 0 false false in
  payload ← expect (prost_encode info);
  '(decoded, incoming_bytes) ← client_decode (bad_prefix Command.Info payload);
  message ← the_info decoded;
  _ ← assert_eq (pb.info_server_id message) (pb.info_server_id info);
  assert (is_empty incoming_bytes).
Definition client_encode_and_decode_info_frame : test :=
  info_there_and_back (pb.mkInfo 2 "srv-4" "ocypode" 4096 0 false false).

(** ** Framed reads *)

Definition build_connect_frame : result Empty_set bytes :=
  let conn := pb.mkConnect 1 false (pb.AuthMethod_i32 pb.NoAuth) None in
  client_encode conn [].

(** [FramedRead::with_capacity(Cursor::new(data), ServerCodec, 32 * 1024)];
    [framed.next().await.unwrap().unwrap()]; [framed.next().await.is_none()]. *)
Definition framed_cursor (data : bytes) : chunk_reader :=
  FramedRead_with_capacity ([data], 0) (32 * 1024).
Definition next_frame (framed : chunk_reader)
  : result Empty_set (Frame.Frame * chunk_reader) :=
  let '(item, framed) := next framed in
  f ← unwrap item ≫= expect; Ok (f, framed).
Definition assert_end (framed : chunk_reader) : test :=
  assert match (next framed).1 with None => true | Some _ => false end.

Definition framed_read_decodes_single_connect_frame : test :=
  data ← build_connect_frame;
  '(frame, framed) ← next_frame (framed_cursor data);
  _ ← assert (is_connect frame);
  assert_end framed.
Definition framed_read_decodes_multiple_frames_in_sequence : test :=
  data ← build_connect_frame;
  more ← build_connect_frame;
  '(frame1, framed) ← next_frame (framed_cursor (data ++ more));
  _ ← assert (is_connect frame1);
  '(frame2, framed) ← next_frame framed;
  _ ← assert (is_connect frame2);
  assert_end framed.
Definition framed_read_recovers_from_bad_prefix_byte : test :=
  conn_data ← build_connect_frame;
  '(frame, framed) ← next_frame (framed_cursor ([xff] ++ conn_data));
  _ ← assert (is_connect frame);
  assert_end framed.

(** ** Publish, Subscribe, UnSubscribe and Message *)

Definition encode_and_decode_publish_frame : test :=
  let publish := pb.mkPublish (bstr "sensors/temperature") (bstr "42.5")
    (bstr "content-type:text/plain") in
  output_buffer ← server_encode publish [];
  '(decoded, output_buffer) ← server_decode output_buffer;
  message ← the_publish decoded;
  _ ← assert_eq (pb.publish_topic message) (pb.publish_topic publish);
  _ ← assert_eq (pb.publish_payload message) (pb.publish_payload publish);
  _ ← assert_eq (pb.publish_header message) (pb.publish_header publish);
  assert (is_empty output_buffer).
Definition encode_publish_frame_has_correct_header : test :=
  let publish := pb.mkPublish (bstr "test/topic") (bstr "hello") [] in
  output_buffer ← server_encode publish [];
  '(command, payload_length, _) ← read_header output_buffer;
  _ ← assert_eq command (Command.as_u8 Command.Publish);
  assert_eq payload_length (len output_buffer - HEADER_LENGTH).
Definition encode_and_decode_subscribe_frame : test :=
  let subscribe := pb.mkSubscribe (bstr "sensors/#") 7 "workers" in
  output_buffer ← server_encode subscribe [];
  '(decoded, output_buffer) ← server_decode output_buffer;
  message ← the_subscribe decoded;
  _ ← assert_eq (pb.subscribe_topic message) (pb.subscribe_topic subscribe);
  _ ← assert_eq (pb.subscribe_subscription_id message)
    (pb.subscribe_subscription_id subscribe);
  _ ← assert_eq (pb.subscribe_queue_group message) (pb.subscribe_queue_group subscribe);
  assert (is_empty output_buffer).
Definition subscribe_without_queue_group_roundtrips : test :=
  let subscribe := pb.mkSubscribe (bstr "events/+/status") 1 "" in
  output_buffer ← server_encode subscribe [];
  '(decoded, _) ← server_decode output_buffer;
  message ← the_subscribe decoded;
  _ ← assert_eq (pb.subscribe_subscription_id message)
    (pb.subscribe_subscription_id subscribe);
  assert_eq (pb.subscribe_queue_group message) "".
Definition encode_and_decode_unsubscribe_frame : test :=
  let unsubscribe := pb.mkUnSubscribe 42 in
  output_buffer ← server_encode unsubscribe [];
  '(decoded, output_buffer) ← server_decode output_buffer;
  message ← the_unsubscribe decoded;
  _ ← assert_eq (pb.unsubscribe_subscription_id message)
    (pb.unsubscribe_subscription_id unsubscribe);
  assert (is_empty output_buffer).
Definition encode_and_decode_message_frame : test :=
  let message := pb.mkMessage (bstr "sensors/temperature") 3 (bstr "23.1")
    (bstr "encoding:utf-8") in
  output_buffer ← server_encode message [];
  '(decoded, output_buffer) ← client_decode output_buffer;
  delivered ← the_message decoded;
  _ ← assert_eq (pb.message_topic delivered) (pb.message_topic message);
  _ ← assert_eq (pb.message_subscription_id delivered)
    (pb.message_subscription_id message);
  _ ← assert_eq (pb.message_payload delivered) (pb.message_payload message);
  _ ← assert_eq (pb.message_header delivered) (pb.message_header message);
  assert (is_empty output_buffer).
Definition client_decode_message_frame_recovers_from_bad_prefix : test :=
  let message := pb.mkMessage (bstr "test/topic") 5 (bstr "data") [] in
  payload ← expect (prost_encode message);
  '(decoded, incoming_bytes) ← client_decode (bad_prefix Command.Message payload);
  delivered ← the_message decoded;
  _ ← assert_eq (pb.message_subscription_id delivered)
    (pb.message_subscription_id message);
  assert (is_empty incoming_bytes).
Definition framed_read_decodes_publish_subscribe_unsubscribe_sequence : test :=
  let publish := pb.mkPublish (bstr "a/b") (bstr "payload") [] in
  let subscribe := pb.mkSubscribe (bstr "a/#") 1 "" in
  let unsubscribe := pb.mkUnSubscribe 1 in
  buf ← client_encode publish [];
  buf ← client_encode subscribe buf;
  buf ← client_encode unsubscribe buf;
  '(f, framed) ← next_frame (framed_cursor buf);
  _ ← the_publish f;
  '(f, framed) ← next_frame framed;
  _ ← the_subscribe f;
  '(f, framed) ← next_frame framed;
  _ ← the_unsubscribe f;
  assert_end framed.

Definition parser_tests : list test :=
  [encode_info_frame_has_header_and_payload;
   decode_conn_frame_recovers_from_bad_prefix; encode_and_decode_info_frame;
   client_encode_connect_frame_has_header_and_payload;
   client_decode_info_frame_recovers_from_bad_prefix;
   client_encode_and_decode_info_frame; framed_read_decodes_single_connect_frame;
   framed_read_decodes_multiple_frames_in_sequence;
   framed_read_recovers_from_bad_prefix_byte; encode_and_decode_publish_frame;
   encode_publish_frame_has_correct_header; encode_and_decode_subscribe_frame;
   subscribe_without_queue_group_roundtrips; encode_and_decode_unsubscribe_frame;
   encode_and_decode_message_frame;
   client_decode_message_frame_recovers_from_bad_prefix;
   framed_read_decodes_publish_subscribe_unsubscribe_sequence].

Example parser_tests_pass : forallb passed parser_tests = true.
Proof. vm_compute. reflexivity. Qed.
