(* ===== verification/ClientTests.v ===== *)
(** The tests of [crates/server/src/handshake.rs] and
    [crates/server/src/client.rs], translated; see [Testing].

    The client test runs tasks over a pipe.  Here each of them runs to its end in
    turn: the session reads what the network client writes, the writer task writes
    what the session queued, and the network client reads that. *)
From S2P Require Import Prelude Errors Messages Wire ClientId Parser Config Handshake.
From S2P Require Import Client ClientRuntime Testing ParserTests.
Local Open Scope Z_scope.

Definition on_connect_transitions_to_completed_with_no_auth (counter : u64) : test :=
  let '(client_id, _) := ClientId_new counter in
  let pending := PendingHandshake_new client_id in
  let connect := pb.mkConnect 1 false (pb.AuthMethod_i32 pb.NoAuth) None in
  completed ← expect (on_connect pending connect mkNoAuthAuthenticator);
  assert_eq (completed_client_id completed) client_id.

Definition client_run_sends_info_and_accepts_connect (counter : u64) : test :=
  connect ← client_encode (ClientOutbound.connect 1 false) [];
  let server_io : list bytes * u64 := ([connect], 0) in
  '(client, (framed_write, _), _) ←
    Client_new (R:=chunk_reader) (W:=buffered_writer) (S:=list_sender)
      (Q:=batch_receiver) counter server_io mkNoAuthAuthenticator ServerConfig_new;
  '(finished, _, outbound) ← unwrap (run (Rd:=list bytes * u64) 10 client);
  framed_write ← unwrap (run_outbound_writer (Wr:=unit) 10 framed_write
    (([], [outbound.1]) : batch_receiver));
  '(frame, _) ← client_decode (bw_flushed framed_write);
  info_msg ← the_info frame;
  _ ← assert (0 <? pb.info_client_id info_msg);
  expect finished.

Definition client_tests : list (u64 -> test) :=
  [on_connect_transitions_to_completed_with_no_auth;
   client_run_sends_info_and_accepts_connect].

Example client_tests_pass :
  forallb (λ counter, forallb (λ t, passed (t counter)) client_tests)
    (seqZ CLIENT_ID_COUNTER 40) = true.
Proof. vm_compute. reflexivity. Qed.
